(** * The plot directive and the summary-widget rule

    A shallow embedding of two source files of the repository:

    - [platform/features/plot-reborn/src/directives/MCTPlot.js]: the
      handlers inside [link] (mouse tracking, drag, marquee, pinch zoom,
      touch pan), the ticks of the axes and the watcher of the viewport,
      and the binding of the handlers to the canvas and the window;
    - the summary-widget [Rule] class: [Rule.prototype.on],
      [Rule.prototype.remove] and [Rule.prototype.generateDescription].

    JavaScript numbers are IEEE-754 doubles.  The embedding keeps their
    special values ([NaN], the two infinities), because the [||] fall-backs
    of the source depend on them, and has a finite value as a rational.
    What becomes of the exact value of a sum, a product or a quotient is a
    parameter of the operations, the [Arithmetic]: [Binary64.binary64]
    rounds it to the nearest double, to an infinity where the doubles
    overflow, and [JSNum.exact] leaves it as it is.  The sign of zero is
    not modelled.

    The facts of the modules that choose [JSNum.exact] are facts of
    arithmetic without rounding; where a statement concerns what the
    handlers do and not the values of the coordinates, it does not depend
    on the choice.  The facts of the modules from [ArithmeticFacts] on hold
    in every arithmetic that rounds to nearest ([JSNum.RoundsToNearest]),
    which the doubles do ([RoundingFacts]), and their instances in those
    modules are instances in the arithmetic of the doubles. *)

From Stdlib Require Import QArith Qabs Qround Qpower Qreduction Lqa ZArith Lia.
From stdpp Require Import gmap strings list.

(** ** JavaScript numbers *)

Module JSNum.

Local Open Scope Q_scope.

Inductive num : Type :=
| Finite (q : Q)
| PInf
| NInf
| NaN.

(** The arithmetic of the numbers: what becomes of the exact value of a
    finite result.  JavaScript rounds it to a double, see [Binary64]. *)
Class Arithmetic : Type := { rounded : Q -> num }.

(** The arithmetic in which no result is rounded. *)
Definition exact : Arithmetic := {| rounded := Finite |}.

(** Unary minus. *)
Definition neg (a : num) : num :=
  match a with
  | Finite x => Finite (- x)
  | PInf => NInf
  | NInf => PInf
  | NaN => NaN
  end.

Section Operations.

Context {arithmetic : Arithmetic}.

(** [a + b]. *)
Definition add (a b : num) : num :=
  match a, b with
  | NaN, _ | _, NaN => NaN
  | Finite x, Finite y => rounded (x + y)
  | PInf, NInf | NInf, PInf => NaN
  | PInf, _ | _, PInf => PInf
  | NInf, _ | _, NInf => NInf
  end.

(** [a - b]. *)
Definition sub (a b : num) : num := add a (neg b).

(** An infinity scaled by a finite factor. *)
Definition scale_inf (inf : num) (x : Q) : num :=
  match x ?= 0 with
  | Eq => NaN
  | Gt => inf
  | Lt => neg inf
  end.

(** [a * b]. *)
Definition mul (a b : num) : num :=
  match a, b with
  | NaN, _ | _, NaN => NaN
  | Finite x, Finite y => rounded (x * y)
  | Finite x, PInf | PInf, Finite x => scale_inf PInf x
  | Finite x, NInf | NInf, Finite x => scale_inf NInf x
  | PInf, PInf | NInf, NInf => PInf
  | PInf, NInf | NInf, PInf => NInf
  end.

(** [a / b].  A finite non-zero number divided by zero is an infinity of
    the sign of the numerator, [0 / 0] is [NaN]. *)
Definition div (a b : num) : num :=
  match a, b with
  | NaN, _ | _, NaN => NaN
  | Finite x, Finite y =>
      match y ?= 0 with
      | Eq => match x ?= 0 with
              | Eq => NaN
              | Gt => PInf
              | Lt => NInf
              end
      | _ => rounded (x / y)
      end
  | Finite _, PInf | Finite _, NInf => Finite 0
  | PInf, Finite y => match y ?= 0 with Lt => NInf | _ => PInf end
  | NInf, Finite y => match y ?= 0 with Lt => PInf | _ => NInf end
  | _, _ => NaN
  end.

End Operations.

(** [Math.abs]. *)
Definition abs (a : num) : num :=
  match a with
  | Finite x => Finite (Qabs x)
  | PInf | NInf => PInf
  | NaN => NaN
  end.

(** [Math.round]: the nearest integer, halves towards plus infinity. *)
Definition round (a : num) : num :=
  match a with
  | Finite x => Finite (inject_Z (Qfloor (x + (1 # 2))))
  | _ => a
  end.

(** [a <= b]; any comparison with [NaN] is false. *)
Definition leb (a b : num) : bool :=
  match a, b with
  | NaN, _ | _, NaN => false
  | Finite x, Finite y => Qle_bool x y
  | NInf, _ | _, PInf => true
  | _, _ => false
  end.

(** [a >= b]. *)
Definition geb (a b : num) : bool := leb b a.

(** [a < b]. *)
Definition ltb (a b : num) : bool :=
  match a, b with
  | NaN, _ | _, NaN => false
  | Finite x, Finite y => negb (Qle_bool y x)
  | PInf, _ | _, NInf => false
  | _, _ => true
  end.

(** [a > b]. *)
Definition gtb (a b : num) : bool := ltb b a.

(** [a === b] on numbers. *)
Definition eqb (a b : num) : bool :=
  match a, b with
  | Finite x, Finite y => Qeq_bool x y
  | PInf, PInf | NInf, NInf => true
  | _, _ => false
  end.

(** Truthiness of a number: everything but zero and [NaN]. *)
Definition truthy (a : num) : bool :=
  match a with
  | Finite x => negb (Qeq_bool x 0)
  | PInf | NInf => true
  | NaN => false
  end.

(** [a || b] on numbers. *)
Definition or_else (a b : num) : num := if truthy a then a else b.

(** A variable that may still be [undefined], used as a number. *)
Definition toNumber (v : option num) : num :=
  match v with
  | Some a => a
  | None => NaN
  end.

Definition is_finite (a : num) : Prop :=
  match a with
  | Finite _ => True
  | _ => False
  end.

(** A rational that the arithmetic has as a number. *)
Definition representable {arithmetic : Arithmetic} (q : Q) : Prop :=
  eqb (rounded q) (Finite q) = true.

(** A finite number of the arithmetic. *)
Definition number {arithmetic : Arithmetic} (a : num) : bool :=
  match a with
  | Finite q => eqb (rounded q) a
  | _ => false
  end.

(** No result is rounded. *)
Definition unrounded {arithmetic : Arithmetic} : Prop :=
  forall q : Q, rounded q = Finite q.

(** What the statements below use of an arithmetic. *)
Class RoundsToNearest (arithmetic : Arithmetic) : Prop := {
  rounded_monotone :
    forall a b : Q, a <= b -> leb (rounded a) (rounded b) = true;
  rounded_representable :
    forall q r : Q, rounded q = Finite r -> representable r;
  rounded_nearest :
    forall q r r' : Q,
      rounded q = Finite r -> representable r' -> Qabs (r - q) <= Qabs (r' - q);
  rounded_opp : forall q : Q, rounded (- q) = neg (rounded q);
  rounded_integer :
    forall z : Z, (Z.abs z <= 2 ^ 53)%Z -> representable (inject_Z z);
  rounded_difference :
    forall a b : Q,
      representable a -> representable b -> ~ a == b ->
      eqb (rounded (a - b)) (Finite 0) = false
}.

End JSNum.

Declare Scope js_scope.
Delimit Scope js_scope with js.
Bind Scope js_scope with JSNum.num.
Notation "a + b" := (JSNum.add a b) : js_scope.
Notation "a - b" := (JSNum.sub a b) : js_scope.
Notation "a * b" := (JSNum.mul a b) : js_scope.
Notation "a / b" := (JSNum.div a b) : js_scope.
Notation "a || b" := (JSNum.or_else a b) : js_scope.
Notation "a <= b" := (JSNum.leb a b) : js_scope.
Notation "a >= b" := (JSNum.geb a b) : js_scope.

(** ** The doubles

    The arithmetic of JavaScript: a finite result is the double nearest to
    its exact value, of two that are equally near the one with the even
    mantissa, and an infinity from the middle between the largest double
    and [2 ^ 1024] on (IEEE 754, binary64, round to nearest even). *)

Module Binary64.

Import JSNum.
Local Open Scope Q_scope.

(** The exponent of a positive rational [q]: the [e] with
    [2 ^ e <= q < 2 ^ (e + 1)]. *)
Definition ilog2 (q : Q) : Z :=
  let e := (Z.log2 (Qnum q) - Z.log2 (Zpos (Qden q)))%Z in
  if Qle_bool (2 ^ e) q then e else (e - 1)%Z.

(** The integer nearest to [x]; of two that are equally near, the even
    one. *)
Definition rne (x : Q) : Z :=
  let f := Qfloor x in
  match Qcompare (x - inject_Z f) (1 # 2) with
  | Lt => f
  | Gt => (f + 1)%Z
  | Eq => if Z.even f then f else (f + 1)%Z
  end.

(** The exponent of the unit in the last place of the doubles around a
    positive [q]: 53 bits of precision, and the subnormal numbers below
    [2 ^ -1022] are multiples of [2 ^ -1074]. *)
Definition quantum (q : Q) : Z := Z.max (ilog2 q - 52) (-1074).

(** The multiple of the unit in the last place nearest to a positive
    [q]. *)
Definition nearest (q : Q) : Q :=
  inject_Z (rne (q / 2 ^ quantum q)) * 2 ^ quantum q.

(** From here on a result is an infinity: the middle between the largest
    double and [2 ^ 1024]. *)
Definition overflow : Q := 2 ^ 1024 - 2 ^ 970.

Definition round64 (q : Q) : num :=
  match q ?= 0 with
  | Eq => Finite 0
  | Gt => if Qle_bool overflow q then PInf else Finite (Qred (nearest q))
  | Lt => if Qle_bool overflow (- q) then NInf else Finite (Qred (- nearest (- q)))
  end.

Definition binary64 : Arithmetic := {| rounded := round64 |}.

(** The value of a decimal literal of the source text: the double nearest
    to it. *)
Definition literal (q : Q) : Q :=
  match round64 q with
  | Finite r => r
  | _ => 0
  end.

(** The doubles among the rationals: zero, and the numbers that [nearest]
    leaves as they are, up to the overflow. *)
Definition double (r : Q) : Prop :=
  r == 0
  \/ (0 < r /\ r < overflow /\ nearest r == r)
  \/ (r < 0 /\ - r < overflow /\ nearest (- r) == - r).

End Binary64.

(** ** Handlers as state transformers that may throw

    A handler of the source reads and assigns the variables of its
    enclosing closure and may stop with a [TypeError] (a property read on
    [undefined]).  [M S A] is the type of such a computation over a store
    [S]: it either returns a value with the new store, or throws and leaves
    the store as the assignments made so far have it. *)

Module Eff.

(** How a call ends: it returns a value, or it throws; [E] is what is
    known then, the store for a handler, nothing for a function that has no
    access to the store. *)
Inductive Outcome (E A : Type) : Type :=
| Returned (a : A)
| Threw (e : E).
Arguments Returned {E A} a.
Arguments Threw {E A} e.

Definition M (S A : Type) : Type := S -> Outcome S (A * S).

Definition ret {S A : Type} (a : A) : M S A := fun s => Returned (a, s).

Definition bind {S A B : Type} (c : M S A) (k : A -> M S B) : M S B :=
  fun s =>
    match c s with
    | Returned (a, s') => k a s'
    | Threw s' => Threw s'
    end.

Definition throw {S A : Type} : M S A := fun s => Threw s.

(** Read a variable. *)
Definition gets {S A : Type} (f : S -> A) : M S A := fun s => Returned (f s, s).

(** Assign a variable. *)
Definition modify {S : Type} (f : S -> S) : M S unit :=
  fun s => Returned (tt, f s).

(** Use a value that must not be [undefined]. *)
Definition defined {S A : Type} (v : option A) : M S A :=
  match v with
  | Some a => ret a
  | None => throw
  end.

(** The result of a call of a function that has no access to the store. *)
Definition call {S A : Type} (r : Outcome unit A) : M S A :=
  match r with
  | Returned a => ret a
  | Threw _ => throw
  end.

End Eff.

Notation "x <- c ;; k" := (Eff.bind c (fun x => k))
  (at level 100, c at next level, k at level 200, right associativity).
Notation "c ;;; k" := (Eff.bind c (fun _ => k))
  (at level 100, k at level 200, right associativity).

(** ** The plot directive: data *)

Module Plot.

Import JSNum Eff.

Definition RANGE_TICK_COUNT : num := Finite 7.
Definition DOMAIN_TICK_COUNT : num := Finite 5.
(** [0.02] is not a double: the constant is the number nearest to it. *)
Definition ZOOM_AMT {arithmetic : Arithmetic} : num := rounded 0.02.
Definition PINCH_DRAG_AMT : num := Finite 2.

(** A point of the plot, in data space. *)
Record Point : Type := { domain : num; range : num }.

(** [$scope.viewport]. *)
Record Viewport : Type := { topLeft : Point; bottomRight : Point }.

(** A position relative to the top left corner of the canvas. *)
Record ElementPoint : Type := { x : num; y : num }.

(** The rectangle of the canvas on the screen. *)
Record Bounds : Type := { left : num; top : num; width : num; height : num }.

(** The client coordinates carried by a mouse event or a touch. *)
Record ClientPoint : Type := { clientX : num; clientY : num }.

(** A mouse event: its client coordinates and
    [$event.target.getBoundingClientRect()]. *)
Record MouseEvent : Type := {
  client : ClientPoint;
  getBoundingClientRect : Bounds
}.

(** The payload of [mct:pinch:start] and [mct:pinch:change]. *)
Module Pinch.
Record t : Type := {
  midpoint : ClientPoint;
  bounds : Bounds;
  touches : list ClientPoint;
  distance : num
}.
End Pinch.

(** The payload of [mct:pan:start] and [mct:pan:change]. *)
Module Pan.
Record t : Type := { touch : ClientPoint; bounds : Bounds }.
End Pan.

(** [$scope.mouseCoordinates], and what [trackTouchPosition] returns. *)
Record Position : Type := {
  positionOverElement : ElementPoint;
  positionAsPlotPoint : Point
}.

(** [marqueeBox]: [{}] has neither corner. *)
Record Box : Type := { start : option Point; end_ : option Point }.

Definition emptyBox : Box := {| start := None; end_ := None |}.

(** The object behind [marqueeRect]. *)
Record Rect : Type := {
  rect_start : Point;
  rect_end : Point;
  color : list num;
  layer : string
}.

(** An element of the array [$scope.rectangles]: the object that
    [marqueeRect] refers to, or a rectangle of some other owner.  The
    array holds a reference, the fields of the marquee rectangle live in
    the variable [marqueeRect] of the store. *)
Inductive RectRef : Type :=
| OtherRect (k : nat)
| MarqueeRectRef.

Definition RectRef_eqb (a b : RectRef) : bool :=
  match a, b with
  | OtherRect i, OtherRect j => Nat.eqb i j
  | MarqueeRectRef, MarqueeRectRef => true
  | _, _ => false
  end.

(** [Array.prototype.indexOf]; [None] is the source's [-1]. *)
Fixpoint indexOf (r : RectRef) (l : list RectRef) : option nat :=
  match l with
  | [] => None
  | r' :: l' => if RectRef_eqb r r' then Some O else S <$> indexOf r l'
  end.

(** What the directive tells its observers. *)
Inductive Event : Type :=
| user_viewport_change_start
| user_viewport_change_end (v : Viewport)
| rectangle_change.

(** The store of [link]: the properties of [$scope] that the handlers use
    ([viewport], [mouseCoordinates], [rectangles]), the variables of the
    closure, and the events sent so far. *)
Record State : Type := {
  viewport : Viewport;
  mouseCoordinates : option Position;
  rectangles : list RectRef;
  dragStart : option Point;
  marqueeBox : Box;
  marqueeRect : option Rect;
  chartElementBounds : option Bounds;
  firstTouches : option (Point * Point);
  firstTouch : option Point;
  firstTouchDistance : option num;
  lastTouchDistance : option num;
  emitted : list Event
}.

Definition set_viewport (v : Viewport) (s : State) : State :=
  {| viewport := v; mouseCoordinates := mouseCoordinates s;
     rectangles := rectangles s; dragStart := dragStart s;
     marqueeBox := marqueeBox s; marqueeRect := marqueeRect s;
     chartElementBounds := chartElementBounds s;
     firstTouches := firstTouches s; firstTouch := firstTouch s;
     firstTouchDistance := firstTouchDistance s;
     lastTouchDistance := lastTouchDistance s; emitted := emitted s |}.

Definition set_mouseCoordinates (v : option Position) (s : State) : State :=
  {| viewport := viewport s; mouseCoordinates := v;
     rectangles := rectangles s; dragStart := dragStart s;
     marqueeBox := marqueeBox s; marqueeRect := marqueeRect s;
     chartElementBounds := chartElementBounds s;
     firstTouches := firstTouches s; firstTouch := firstTouch s;
     firstTouchDistance := firstTouchDistance s;
     lastTouchDistance := lastTouchDistance s; emitted := emitted s |}.

Definition set_rectangles (v : list RectRef) (s : State) : State :=
  {| viewport := viewport s; mouseCoordinates := mouseCoordinates s;
     rectangles := v; dragStart := dragStart s; marqueeBox := marqueeBox s;
     marqueeRect := marqueeRect s;
     chartElementBounds := chartElementBounds s;
     firstTouches := firstTouches s; firstTouch := firstTouch s;
     firstTouchDistance := firstTouchDistance s;
     lastTouchDistance := lastTouchDistance s; emitted := emitted s |}.

Definition set_dragStart (v : option Point) (s : State) : State :=
  {| viewport := viewport s; mouseCoordinates := mouseCoordinates s;
     rectangles := rectangles s; dragStart := v; marqueeBox := marqueeBox s;
     marqueeRect := marqueeRect s;
     chartElementBounds := chartElementBounds s;
     firstTouches := firstTouches s; firstTouch := firstTouch s;
     firstTouchDistance := firstTouchDistance s;
     lastTouchDistance := lastTouchDistance s; emitted := emitted s |}.

Definition set_marqueeBox (v : Box) (s : State) : State :=
  {| viewport := viewport s; mouseCoordinates := mouseCoordinates s;
     rectangles := rectangles s; dragStart := dragStart s; marqueeBox := v;
     marqueeRect := marqueeRect s;
     chartElementBounds := chartElementBounds s;
     firstTouches := firstTouches s; firstTouch := firstTouch s;
     firstTouchDistance := firstTouchDistance s;
     lastTouchDistance := lastTouchDistance s; emitted := emitted s |}.

Definition set_marqueeRect (v : option Rect) (s : State) : State :=
  {| viewport := viewport s; mouseCoordinates := mouseCoordinates s;
     rectangles := rectangles s; dragStart := dragStart s;
     marqueeBox := marqueeBox s; marqueeRect := v;
     chartElementBounds := chartElementBounds s;
     firstTouches := firstTouches s; firstTouch := firstTouch s;
     firstTouchDistance := firstTouchDistance s;
     lastTouchDistance := lastTouchDistance s; emitted := emitted s |}.

Definition set_chartElementBounds (v : option Bounds) (s : State) : State :=
  {| viewport := viewport s; mouseCoordinates := mouseCoordinates s;
     rectangles := rectangles s; dragStart := dragStart s;
     marqueeBox := marqueeBox s; marqueeRect := marqueeRect s;
     chartElementBounds := v; firstTouches := firstTouches s;
     firstTouch := firstTouch s; firstTouchDistance := firstTouchDistance s;
     lastTouchDistance := lastTouchDistance s; emitted := emitted s |}.

Definition set_firstTouches (v : option (Point * Point)) (s : State) : State :=
  {| viewport := viewport s; mouseCoordinates := mouseCoordinates s;
     rectangles := rectangles s; dragStart := dragStart s;
     marqueeBox := marqueeBox s; marqueeRect := marqueeRect s;
     chartElementBounds := chartElementBounds s; firstTouches := v;
     firstTouch := firstTouch s; firstTouchDistance := firstTouchDistance s;
     lastTouchDistance := lastTouchDistance s; emitted := emitted s |}.

Definition set_firstTouch (v : option Point) (s : State) : State :=
  {| viewport := viewport s; mouseCoordinates := mouseCoordinates s;
     rectangles := rectangles s; dragStart := dragStart s;
     marqueeBox := marqueeBox s; marqueeRect := marqueeRect s;
     chartElementBounds := chartElementBounds s;
     firstTouches := firstTouches s; firstTouch := v;
     firstTouchDistance := firstTouchDistance s;
     lastTouchDistance := lastTouchDistance s; emitted := emitted s |}.

Definition set_firstTouchDistance (v : option num) (s : State) : State :=
  {| viewport := viewport s; mouseCoordinates := mouseCoordinates s;
     rectangles := rectangles s; dragStart := dragStart s;
     marqueeBox := marqueeBox s; marqueeRect := marqueeRect s;
     chartElementBounds := chartElementBounds s;
     firstTouches := firstTouches s; firstTouch := firstTouch s;
     firstTouchDistance := v; lastTouchDistance := lastTouchDistance s;
     emitted := emitted s |}.

Definition set_lastTouchDistance (v : option num) (s : State) : State :=
  {| viewport := viewport s; mouseCoordinates := mouseCoordinates s;
     rectangles := rectangles s; dragStart := dragStart s;
     marqueeBox := marqueeBox s; marqueeRect := marqueeRect s;
     chartElementBounds := chartElementBounds s;
     firstTouches := firstTouches s; firstTouch := firstTouch s;
     firstTouchDistance := firstTouchDistance s; lastTouchDistance := v;
     emitted := emitted s |}.

Definition set_emitted (v : list Event) (s : State) : State :=
  {| viewport := viewport s; mouseCoordinates := mouseCoordinates s;
     rectangles := rectangles s; dragStart := dragStart s;
     marqueeBox := marqueeBox s; marqueeRect := marqueeRect s;
     chartElementBounds := chartElementBounds s;
     firstTouches := firstTouches s; firstTouch := firstTouch s;
     firstTouchDistance := firstTouchDistance s;
     lastTouchDistance := lastTouchDistance s; emitted := v |}.

(** The local variable [axisSize] of [updateAxesForCurrentViewport], for
    an axis whose [firstTick] is the coordinate of [topLeft] and whose
    [lastTick] is that of [bottomRight]. *)
Definition axisSize {arithmetic : Arithmetic} (firstTick lastTick : num) : num :=
  (firstTick - lastTick)%js.

(** [$scope.$emit] and [$scope.$broadcast]: the observers see the events
    in the order in which they were sent. *)
Definition emit (e : Event) : M State unit :=
  modify (fun s => set_emitted (emitted s ++ [e]) s).

(** The module [../lib/utils], which [define] passes to the directive.
    [boxPointsFromOppositeCorners] receives the two corners of
    [marqueeBox] as they are, present or not. *)
Class Utils : Type := {
  BoxPoints : Type;
  boxPointsFromOppositeCorners :
    option Point -> option Point -> Outcome unit BoxPoints;
  oppositeCornersFromBoxPoints : BoxPoints -> Outcome unit Viewport;
  elementPositionAsPlotPosition : ElementPoint -> Bounds -> Viewport -> Point
}.

(** ** The plot directive: handlers of [link] *)

Section Link.

Context {arithmetic : Arithmetic} {utils : Utils}.

Definition drawMarquee : M State unit :=
  box <- gets marqueeBox ;;
  rect <- gets marqueeRect ;;
  match start box, end_ box with
  | Some boxStart, Some boxEnd =>
      match rect with
      | None =>
          modify (fun s => set_rectangles (rectangles s ++ [MarqueeRectRef]) s)
      | Some _ => ret tt
      end ;;;
      modify (set_marqueeRect
                (Some {| rect_start := boxStart;
                         rect_end := boxEnd;
                         color := [Finite 1; Finite 1; Finite 1; Finite 0.5];
                         layer := "top" |})) ;;;
      emit rectangle_change
  | _, _ =>
      rects <- gets rectangles ;;
      match rect, indexOf MarqueeRectRef rects with
      | Some _, Some i =>
          modify (set_rectangles (take i rects)) ;;;
          modify (set_marqueeRect None) ;;;
          emit rectangle_change
      | _, _ => ret tt
      end
  end.

Definition untrackMousePosition : M State unit :=
  modify (set_mouseCoordinates None).

Definition updateMarquee : M State unit :=
  coordinates <- gets mouseCoordinates ;;
  coordinates <- defined coordinates ;;
  modify (fun s =>
            set_marqueeBox
              {| start := start (marqueeBox s);
                 end_ := Some (positionAsPlotPoint coordinates) |} s) ;;;
  drawMarquee.

Definition startMarquee : M State unit :=
  coordinates <- gets mouseCoordinates ;;
  coordinates <- defined coordinates ;;
  modify (fun s =>
            set_marqueeBox
              {| start := Some (positionAsPlotPoint coordinates);
                 end_ := end_ (marqueeBox s) |} s).

Definition endMarquee : M State unit :=
  box <- gets marqueeBox ;;
  boxPoints <- call (boxPointsFromOppositeCorners (start box) (end_ box)) ;;
  newViewport <- call (oppositeCornersFromBoxPoints boxPoints) ;;
  modify (set_marqueeBox emptyBox) ;;;
  drawMarquee ;;;
  emit (user_viewport_change_end newViewport) ;;;
  modify (set_viewport newViewport).

(** What [endMarquee] computes for its local variable [newViewport] from a
    box. *)
Definition cornersViewport (box : Box) : Outcome unit Viewport :=
  match boxPointsFromOppositeCorners (start box) (end_ box) with
  | Returned boxPoints => oppositeCornersFromBoxPoints boxPoints
  | Threw e => Threw e
  end.

(** [startDrag] returns [undefined] ([None]) or [false].  The call of
    [$event.preventDefault] acts on the event, not on the store. *)
Definition startDrag : M State (option bool) :=
  emit user_viewport_change_start ;;;
  coordinates <- gets mouseCoordinates ;;
  match coordinates with
  | None => ret None
  | Some coordinates =>
      modify (set_dragStart (Some (positionAsPlotPoint coordinates))) ;;;
      ret (Some false)
  end.

Definition updateDrag : M State unit :=
  coordinates <- gets mouseCoordinates ;;
  coordinates <- defined coordinates ;;
  let newPosition := positionAsPlotPoint coordinates in
  origin <- gets dragStart ;;
  origin <- defined origin ;;
  let dDomain := (domain origin - domain newPosition)%js in
  let dRange := (range origin - range newPosition)%js in
  modify (fun s =>
    set_viewport
      {| topLeft :=
           {| domain := (domain (topLeft (viewport s)) + dDomain)%js;
              range := (range (topLeft (viewport s)) + dRange)%js |};
         bottomRight :=
           {| domain := (domain (bottomRight (viewport s)) + dDomain)%js;
              range := (range (bottomRight (viewport s)) + dRange)%js |} |}
      s).

Definition endDrag : M State unit :=
  modify (set_dragStart None) ;;;
  current <- gets viewport ;;
  emit (user_viewport_change_end current).

Definition trackTouchPosition (touchPosition : ClientPoint) (bounds : Bounds)
  : M State Position :=
  modify (set_chartElementBounds (Some bounds)) ;;;
  let overElement :=
    {| x := (clientX touchPosition - left bounds)%js;
       y := (clientY touchPosition - top bounds)%js |} in
  current <- gets viewport ;;
  let asPlotPoint := elementPositionAsPlotPosition overElement bounds current in
  ret {| positionOverElement := overElement;
         positionAsPlotPoint := asPlotPoint |}.

Definition trackMousePosition (event : MouseEvent) : M State unit :=
  let bounds := getBoundingClientRect event in
  modify (set_chartElementBounds (Some bounds)) ;;;
  let overElement :=
    {| x := (clientX (client event) - left bounds)%js;
       y := (clientY (client event) - top bounds)%js |} in
  current <- gets viewport ;;
  let asPlotPoint := elementPositionAsPlotPosition overElement bounds current in
  modify (set_mouseCoordinates
            (Some {| positionOverElement := overElement;
                     positionAsPlotPoint := asPlotPoint |})) ;;;
  box <- gets marqueeBox ;;
  match start box with
  | Some _ => updateMarquee
  | None => ret tt
  end ;;;
  origin <- gets dragStart ;;
  match origin with
  | Some _ => updateDrag
  | None => ret tt
  end.

(** The two corners' distances to the midpoint, per axis. *)
Record Dimensions : Type := { tl : Point; br : Point }.

Definition setDimensions (viewport : Viewport) (midpoint : Point) : Dimensions :=
  {| tl := {| domain := abs (domain midpoint - domain (topLeft viewport))%js;
              range := abs (range midpoint - range (topLeft viewport))%js |};
     br := {| domain := abs (domain (bottomRight viewport) - domain midpoint)%js;
              range := abs (range (bottomRight viewport) - range midpoint)%js |} |}.

(** The local variable [checkRatio] of [calculateViewport]. *)
Definition checkRatio (ratio : num) : num := ((ratio - Finite 1) || Finite 0)%js.

(** The local variable [type] of [calculateViewport]. *)
Definition type (ratio : num) : num :=
  ((Finite (-1) * (checkRatio ratio / abs (checkRatio ratio))) || Finite 1)%js.

(** [calculateViewport]; [viewport] is [$scope.viewport] at the call. *)
Definition calculateViewport (viewport : Viewport) (midpoint : Point) (ratio : num)
  : Viewport :=
  let dimensions := setDimensions viewport midpoint in
  let type := type ratio in
  let tl' := {| domain := (type * ZOOM_AMT * domain (tl dimensions))%js;
                range := (type * ZOOM_AMT * range (tl dimensions))%js |} in
  let br' := {| domain := (type * ZOOM_AMT * domain (br dimensions))%js;
                range := (type * ZOOM_AMT * range (br dimensions))%js |} in
  {| topLeft :=
       {| domain := (domain (topLeft viewport) + domain tl')%js;
          range := (range (topLeft viewport) - range tl')%js |};
     bottomRight :=
       {| domain := (domain (bottomRight viewport) - domain br')%js;
          range := (range (bottomRight viewport) + range br')%js |} |}.

(** The local variable [distanceRatio] of [updateZoom]. *)
Definition distanceRatio (lastDistance firstDistance : option num) (distance : num)
  : num :=
  ((toNumber lastDistance / distance) || (toNumber firstDistance / distance))%js.

Definition updateZoom (midpoint : ClientPoint) (bounds : Bounds) (distance : num)
  : M State unit :=
  midpointPosition <- trackTouchPosition midpoint bounds ;;
  let newMidpointPosition := positionAsPlotPoint midpointPosition in
  lastDistance <- gets lastTouchDistance ;;
  firstDistance <- gets firstTouchDistance ;;
  current <- gets viewport ;;
  let newViewport :=
    calculateViewport current newMidpointPosition
      (distanceRatio lastDistance firstDistance distance) in
  modify (set_viewport newViewport).

(** [trackTouchPosition(touches[i], bounds)]: with no touch at [i] the
    bounds are recorded before the read of [clientX] throws. *)
Definition trackTouchPositionAt (touches : list ClientPoint) (i : nat)
    (bounds : Bounds) : M State Position :=
  match touches !! i with
  | Some touchPosition => trackTouchPosition touchPosition bounds
  | None => modify (set_chartElementBounds (Some bounds)) ;;; throw
  end.

Definition startZoom (midpoint : ClientPoint) (bounds : Bounds)
    (touches : list ClientPoint) (distance : num) : M State unit :=
  position0 <- trackTouchPositionAt touches 0 bounds ;;
  position1 <- trackTouchPositionAt touches 1 bounds ;;
  modify (set_firstTouches
            (Some (positionAsPlotPoint position0, positionAsPlotPoint position1))) ;;;
  modify (set_firstTouchDistance (Some distance)) ;;;
  midpointPosition <- trackTouchPosition midpoint bounds ;;
  modify (set_firstTouch (Some (positionAsPlotPoint midpointPosition))).

Definition updatePan (touch : ClientPoint) (bounds : Bounds) : M State unit :=
  panPosition <- trackTouchPosition touch bounds ;;
  let newPanPosition := positionAsPlotPoint panPosition in
  origin <- gets firstTouch ;;
  origin <- defined origin ;;
  let dDomain := (domain origin - domain newPanPosition)%js in
  let dRange := (range origin - range newPanPosition)%js in
  modify (fun s =>
    set_viewport
      {| topLeft :=
           {| domain := (domain (topLeft (viewport s)) + dDomain)%js;
              range := (range (topLeft (viewport s)) + dRange)%js |};
         bottomRight :=
           {| domain := (domain (bottomRight (viewport s)) + dDomain)%js;
              range := (range (bottomRight (viewport s)) + dRange)%js |} |}
      s).

Definition startPan (touch : ClientPoint) (bounds : Bounds) : M State unit :=
  emit user_viewport_change_start ;;;
  position <- trackTouchPosition touch bounds ;;
  modify (set_firstTouch (Some (positionAsPlotPoint position))).

Definition endTouch : M State unit :=
  current <- gets viewport ;;
  emit (user_viewport_change_end current).

Definition onPinchStart (touch : Pinch.t) : M State unit :=
  emit user_viewport_change_start ;;;
  startZoom (Pinch.midpoint touch) (Pinch.bounds touch) (Pinch.touches touch)
    (Pinch.distance touch).

Definition comparePinchDrag (distance firstDistance lastDistance : num) : bool :=
  ((firstDistance + PINCH_DRAG_AMT >= distance)%js
   && (firstDistance - PINCH_DRAG_AMT <= distance)%js)
  || ((lastDistance + PINCH_DRAG_AMT >= distance)%js
      && (lastDistance - PINCH_DRAG_AMT <= distance)%js).

Definition onPinchChange (touch : Pinch.t) : M State unit :=
  firstDistance <- gets firstTouchDistance ;;
  lastDistance <- gets lastTouchDistance ;;
  (if comparePinchDrag (round (Pinch.distance touch))
        (round (toNumber firstDistance))
        (round (toNumber lastDistance))
   then updatePan (Pinch.midpoint touch) (Pinch.bounds touch)
   else updateZoom (Pinch.midpoint touch) (Pinch.bounds touch)
          (Pinch.distance touch)) ;;;
  modify (set_lastTouchDistance (Some (Pinch.distance touch))).

Definition onPanStart (touch : Pan.t) : M State unit :=
  startPan (Pan.touch touch) (Pan.bounds touch).

Definition onPanChange (touch : Pan.t) : M State unit :=
  updatePan (Pan.touch touch) (Pan.bounds touch).

Definition onTouchEnd : M State unit := endTouch.

End Link.

End Plot.

(** ** The helpers of [../lib/utils], after the specification *)

Module SpecUtils.

Import JSNum Eff Plot.

(** The larger and the smaller of two coordinates. *)
Definition larger (a b : num) : num := if (a >= b)%js then a else b.

Definition smaller (a b : num) : num := if (a <= b)%js then a else b.

(** Modelled from the spec: [utils.boxPointsFromOppositeCorners] is not
    among the sources.  Section 4.3 has [endMarquee] compute "the
    axis-aligned rectangle from the two opposite corners"; the rectangle is
    given here by its four corners.  The specification describes two
    present corners only; with a corner absent there is no coordinate to
    read, which in JavaScript is a [TypeError]. *)
Definition boxPointsFromOppositeCorners (start end_ : option Point)
  : Outcome unit (list Point) :=
  match start, end_ with
  | Some p, Some q =>
      Returned [p;
                {| domain := domain p; range := range q |};
                q;
                {| domain := domain q; range := range p |}]
  | _, _ => Threw tt
  end.

(** Modelled from the spec: [utils.oppositeCornersFromBoxPoints] is not
    among the sources.  Section 4.3 has it convert the rectangle "to a
    [{topLeft, bottomRight}] viewport (re-deriving correct corner order per
    axis)", and section 8 fixes the order: "domain descending, range
    descending per axis convention".  [topLeft] takes the larger value on
    each axis, [bottomRight] the smaller. *)
Definition oppositeCornersFromBoxPoints (boxPoints : list Point)
  : Outcome unit Viewport :=
  match boxPoints with
  | [] => Threw tt
  | p :: rest =>
      Returned
        {| topLeft :=
             foldl (fun acc q => {| domain := larger (domain acc) (domain q);
                                    range := larger (range acc) (range q) |})
                   p rest;
           bottomRight :=
             foldl (fun acc q => {| domain := smaller (domain acc) (domain q);
                                    range := smaller (range acc) (range q) |})
                   p rest |}
  end.

(** Modelled from the spec: [utils.elementPositionAsPlotPosition] is not
    among the sources.  Section 4.1: it "maps a pixel offset within
    [bounds] linearly onto the data-space rectangle described by
    [viewport], inverting the y-axis (pixel y increases downward; range
    increases upward)". *)
Definition elementPositionAsPlotPosition {arithmetic : Arithmetic}
    (position : ElementPoint) (bounds : Bounds) (viewport : Viewport) : Point :=
  {| domain :=
       (domain (topLeft viewport)
        + x position / width bounds
          * (domain (bottomRight viewport) - domain (topLeft viewport)))%js;
     range :=
       (range (topLeft viewport)
        - y position / height bounds
          * (range (topLeft viewport) - range (bottomRight viewport)))%js |}.

(** The three helpers together, as the module that the directive is given. *)
Definition spec_utils {arithmetic : Arithmetic} : Utils :=
  {| BoxPoints := list Point;
     Plot.boxPointsFromOppositeCorners := boxPointsFromOppositeCorners;
     Plot.oppositeCornersFromBoxPoints := oppositeCornersFromBoxPoints;
     Plot.elementPositionAsPlotPosition := elementPositionAsPlotPosition |}.

End SpecUtils.

(** ** Vocabulary of the statements about viewports *)

Module Geometry.

Import JSNum Eff Plot.

Section Vocabulary.

Context {arithmetic : Arithmetic}.

Definition finitePoint (p : Point) : Prop :=
  is_finite (domain p) /\ is_finite (range p).

Definition finiteViewport (v : Viewport) : Prop :=
  finitePoint (topLeft v) /\ finitePoint (bottomRight v).

(** The point and the viewport with the given finite coordinates. *)
Definition pt (d r : Q) : Point := {| domain := Finite d; range := Finite r |}.

Definition vp (tld tlr brd brr : Q) : Viewport :=
  {| topLeft := pt tld tlr; bottomRight := pt brd brr |}.

(** The extent of a viewport on each axis: the [axisSize] of the source,
    from [topLeft] to [bottomRight]. *)
Definition domainExtent (v : Viewport) : num :=
  axisSize (domain (topLeft v)) (domain (bottomRight v)).

Definition rangeExtent (v : Viewport) : num :=
  axisSize (range (topLeft v)) (range (bottomRight v)).

(** [m] lies strictly between [a] and [b], whichever of the two is larger. *)
Definition strictlyBetween (a m b : num) : bool :=
  (ltb a m && ltb m b) || (ltb b m && ltb m a).

Definition strictlyInside (m : Point) (v : Viewport) : bool :=
  strictlyBetween (domain (topLeft v)) (domain m) (domain (bottomRight v))
  && strictlyBetween (range (topLeft v)) (range m) (range (bottomRight v)).

(** The corner order of the plot.  [updateAxesForCurrentViewport] notes
    that [topLeft - bottomRight] "is negative for domain and positive for
    range", as "ticks are generated/displayed top to bottom and left to
    right". *)
Definition domainOriented (v : Viewport) : bool :=
  ltb (domain (topLeft v)) (domain (bottomRight v)).

Definition rangeOriented (v : Viewport) : bool :=
  ltb (range (bottomRight v)) (range (topLeft v)).

Definition plotOriented (v : Viewport) : bool :=
  domainOriented v && rangeOriented v.

(** A relation that holds of the four edge distances of [d'] and [d]. *)
Definition allEdges (R : num -> num -> bool) (d' d : Dimensions) : bool :=
  R (domain (tl d')) (domain (tl d)) && R (range (tl d')) (range (tl d))
  && R (domain (br d')) (domain (br d)) && R (range (br d')) (range (br d)).

(** The same on one axis. *)
Definition domainEdges (R : num -> num -> bool) (d' d : Dimensions) : bool :=
  R (domain (tl d')) (domain (tl d)) && R (domain (br d')) (domain (br d)).

Definition rangeEdges (R : num -> num -> bool) (d' d : Dimensions) : bool :=
  R (range (tl d')) (range (tl d)) && R (range (br d')) (range (br d)).

(** [c'] is on the side of [m] on which [c] is. *)
Definition sameSide (m c c' : num) : bool :=
  Bool.eqb (ltb c' m) (ltb c m) && Bool.eqb (ltb m c') (ltb m c).

(** [d'] is [d] scaled by [1 - ZOOM_AMT] or by [1 + ZOOM_AMT]. *)
Definition scaledByZoomStep (d' d : num) : bool :=
  eqb d' ((Finite 1 - ZOOM_AMT) * d)%js || eqb d' ((Finite 1 + ZOOM_AMT) * d)%js.



(** A point and a viewport whose coordinates are finite numbers of the
    arithmetic. *)
Definition numberPoint (p : Point) : bool := number (domain p) && number (range p).

Definition numberViewport (v : Viewport) : bool :=
  numberPoint (topLeft v) && numberPoint (bottomRight v).

(** [c'] lies from [c] towards [m] and has not reached [m], or is [c]. *)
Definition towards (m c c' : num) : bool :=
  (leb c c' && ltb c' m) || (ltb m c' && leb c' c).

(** [c'] lies from [c] away from [m], or is [c]. *)
Definition awayFrom (m c c' : num) : bool :=
  (leb c' c && ltb c m) || (ltb m c && leb c c').

(** A relation between the midpoint and a corner coordinate before and
    after that holds of the two corner coordinates of an axis, and of all
    four. *)
Definition domainCorners (R : num -> num -> num -> bool) (m : Point)
    (v v' : Viewport) : bool :=
  R (domain m) (domain (topLeft v)) (domain (topLeft v'))
  && R (domain m) (domain (bottomRight v)) (domain (bottomRight v')).

Definition rangeCorners (R : num -> num -> num -> bool) (m : Point)
    (v v' : Viewport) : bool :=
  R (range m) (range (topLeft v)) (range (topLeft v'))
  && R (range m) (range (bottomRight v)) (range (bottomRight v')).

Definition allCorners (R : num -> num -> num -> bool) (m : Point) (v v' : Viewport)
  : bool :=
  domainCorners R m v v' && rangeCorners R m v v'.

(** None of the four edge distances is an infinity or [NaN]. *)
Definition finiteDimensions (d : Dimensions) : Prop :=
  finitePoint (tl d) /\ finitePoint (br d).

(** [D] is a distance that the arithmetic can have computed for the
    coordinates [m] and [c]: a number that is not negative and at most
    twice their distance. *)
Definition measures (D : num) (m c : Q) : Prop :=
  exists d, D = Finite d /\ representable d /\ (0 <= d /\ d <= 2 * Qabs (m - c))%Q.

(** The step of a corner coordinate whose distance to the midpoint is
    [distance], for the direction [t]. *)
Definition zoomStep (t distance : num) : num := (t * ZOOM_AMT * distance)%js.

(** Each corner coordinate of [v] moved by its step: added to
    [topLeft.domain] and [bottomRight.range], subtracted from
    [topLeft.range] and [bottomRight.domain]. *)
Definition zoomed (t : num) (v : Viewport) (m : Point) : Viewport :=
  {| topLeft :=
       {| domain :=
            (domain (topLeft v)
             + zoomStep t (abs (domain m - domain (topLeft v))))%js;
          range :=
            (range (topLeft v)
             - zoomStep t (abs (range m - range (topLeft v))))%js |};
     bottomRight :=
       {| domain :=
            (domain (bottomRight v)
             - zoomStep t (abs (domain (bottomRight v) - domain m)))%js;
          range :=
            (range (bottomRight v)
             + zoomStep t (abs (range (bottomRight v) - range m)))%js |} |}.

(** Both corners of [v] shifted by the same delta on each axis. *)
Definition translate (v : Viewport) (dDomain dRange : num) : Viewport :=
  {| topLeft :=
       {| domain := (domain (topLeft v) + dDomain)%js;
          range := (range (topLeft v) + dRange)%js |};
     bottomRight :=
       {| domain := (domain (bottomRight v) + dDomain)%js;
          range := (range (bottomRight v) + dRange)%js |} |}.

(** The addition of [a] and [b] does not round: both are finite and
    their sum is a number of the arithmetic. *)
Definition exactSum (a b : num) : Prop :=
  match a, b with
  | Finite x, Finite y => representable (x + y)
  | _, _ => False
  end.

(** The wording of the specification for the corner order that
    [endMarquee] derives, section 8: "domain descending, range descending
    per axis convention".  [topLeft] has the larger and [bottomRight] the
    smaller coordinate of the corners [p] and [q] on each axis. *)
Definition normalized (p q : Point) : Viewport :=
  {| topLeft :=
       {| domain := if (domain p >= domain q)%js then domain p else domain q;
          range := if (range p >= range q)%js then range p else range q |};
     bottomRight :=
       {| domain := if (domain p <= domain q)%js then domain p else domain q;
          range := if (range p <= range q)%js then range p else range q |} |}.

(** Two viewports with numerically equal coordinates. *)
Definition sameViewport (v w : Viewport) : bool :=
  eqb (domain (topLeft v)) (domain (topLeft w))
  && eqb (range (topLeft v)) (range (topLeft w))
  && eqb (domain (bottomRight v)) (domain (bottomRight w))
  && eqb (range (bottomRight v)) (range (bottomRight w)).

(** The coordinate [c'] keeps a multiple of the offset of [c] from [m], the
    factor being [1 - ZOOM_AMT] or [1 + ZOOM_AMT]. *)
Definition offset_kept (c m c' : Q) : Prop :=
  exists f, (f == 1 + - 0.02 \/ f == 1 + 0.02)%Q /\ (c' + - m == f * (c + - m))%Q.

End Vocabulary.

End Geometry.

(** ** The summary-widget rule *)

Module Rule.

Import Eff.

(** The configuration of a rule; of its properties only [id] matters to
    [remove]. *)
Record RuleConfig : Type := {
  id : string;
  name : string;
  description : string;
  trigger : string;
  expanded : bool
}.

(** [domainObject.configuration].  A property of [ruleConfigById] that
    was assigned [undefined] is still a property of the object: it is
    bound to [None]. *)
Record Configuration : Type := {
  ruleOrder : list string;
  ruleConfigById : gmap string (option RuleConfig)
}.

(** [object[key]]: [undefined] for a key that is not there as well. *)
Definition property (object : gmap string (option RuleConfig)) (key : string)
  : option RuleConfig :=
  default None (object !! key).

(** What [remove] passes to [mutate] as the new value. *)
Inductive Value : Type :=
| RuleConfigByIdValue (object : gmap string (option RuleConfig))
| RuleOrderValue (array : list string).

(** [_.set(object, path, value)] on the configuration, for the two paths
    that [remove] uses. *)
Definition setPath (path : string) (value : Value) (c : Configuration)
  : Configuration :=
  match value with
  | RuleConfigByIdValue object =>
      if String.eqb path "configuration.ruleConfigById"
      then {| ruleOrder := ruleOrder c; ruleConfigById := object |}
      else c
  | RuleOrderValue array =>
      if String.eqb path "configuration.ruleOrder"
      then {| ruleOrder := array; ruleConfigById := ruleConfigById c |}
      else c
  end.

(** The keys that an object literal such as [this.callbacks] inherits from
    [Object.prototype]: its methods, and under [__proto__] the prototype
    itself. *)
Definition inherited (key : string) : bool :=
  bool_decide
    (key ∈ ["constructor"; "toString"; "toLocaleString"; "valueOf";
            "hasOwnProperty"; "isPrototypeOf"; "propertyIsEnumerable";
            "__proto__"; "__defineGetter__"; "__defineSetter__";
            "__lookupGetter__"; "__lookupSetter__"]).

(** [_.remove(array, predicate)] of lodash, with the predicate of
    [remove]: every element equal to [ruleId] leaves the array. *)
Definition lodash_remove (ruleId : string) (array : list string) : list string :=
  filter (fun element => element <> ruleId) array.


Section Widget.

(** Whatever else the callbacks and the MCT instance can reach. *)
Context {Env : Type}.

(** What code outside of the rule sees and may change: the domain object
    that the rule was constructed with, which the widget shares with it,
    and the rest. *)
Record World : Type := {
  domainObject : Configuration;
  env : Env
}.

(** A function registered with [on]. *)
Definition Callback : Type := M World unit.

(** The MCT instance that the rule was constructed with:
    [openmct.objects.mutate(domainObject, path, value)]. *)
Class MCT : Type := {
  mutate : string -> Value -> M World unit
}.

Context {openmct : MCT}.

(** [this.callbacks]; an entry that is not truthy is [None]. *)
Record Callbacks : Type := {
  remove_callbacks : list (option Callback);
  duplicate_callbacks : list (option Callback);
  change_callbacks : list (option Callback);
  conditionChange_callbacks : list (option Callback)
}.

(** The properties of a [Rule] that [remove] and [on] use. *)
Record Rule : Type := {
  config : RuleConfig;
  callbacks : Callbacks
}.

(** [Rule.prototype.on]: [if (this.callbacks[event]) {
    this.callbacks[event].push(callback); }].  For one of the four events
    the callback is appended to the array of the event.  For a key that
    [this.callbacks] inherits the member is truthy and has no [push]: the
    call throws a [TypeError] and the rule is as it was.  For any other key
    the rule is left as it is. *)
Definition on (event : string) (callback : option Callback) (this : Rule)
  : Outcome unit Rule :=
  let cbs := callbacks this in
  if String.eqb event "remove" then
    Returned
      {| config := config this;
         callbacks :=
           {| remove_callbacks := remove_callbacks cbs ++ [callback];
              duplicate_callbacks := duplicate_callbacks cbs;
              change_callbacks := change_callbacks cbs;
              conditionChange_callbacks := conditionChange_callbacks cbs |} |}
  else if String.eqb event "duplicate" then
    Returned
      {| config := config this;
         callbacks :=
           {| remove_callbacks := remove_callbacks cbs;
              duplicate_callbacks := duplicate_callbacks cbs ++ [callback];
              change_callbacks := change_callbacks cbs;
              conditionChange_callbacks := conditionChange_callbacks cbs |} |}
  else if String.eqb event "change" then
    Returned
      {| config := config this;
         callbacks :=
           {| remove_callbacks := remove_callbacks cbs;
              duplicate_callbacks := duplicate_callbacks cbs;
              change_callbacks := change_callbacks cbs ++ [callback];
              conditionChange_callbacks := conditionChange_callbacks cbs |} |}
  else if String.eqb event "conditionChange" then
    Returned
      {| config := config this;
         callbacks :=
           {| remove_callbacks := remove_callbacks cbs;
              duplicate_callbacks := duplicate_callbacks cbs;
              change_callbacks := change_callbacks cbs;
              conditionChange_callbacks :=
                conditionChange_callbacks cbs ++ [callback] |} |}
  else if inherited event then Threw tt
  else Returned this.

(** The store of a run of [remove]: the world, and the positions in
    [callbacks.remove] of the callbacks called so far. *)
Record Store : Type := {
  world : World;
  invoked : list nat
}.

(** Code that sees the world only. *)
Definition outside {A : Type} (c : M World A) : M Store A :=
  fun s =>
    match c (world s) with
    | Returned (a, w) => Returned (a, {| world := w; invoked := invoked s |})
    | Threw w => Threw {| world := w; invoked := invoked s |}
    end.

(** An in-place update of the configuration of the domain object. *)
Definition update (f : Configuration -> Configuration) : M Store unit :=
  modify (fun s =>
    {| world := {| domainObject := f (domainObject (world s));
                   env := env (world s) |};
       invoked := invoked s |}).

(** The call of the callback at position [i]. *)
Definition invoke (i : nat) (callback : Callback) : M Store unit :=
  modify (fun s => {| world := world s; invoked := invoked s ++ [i] |}) ;;;
  outside callback.

(** [callbacks.forEach(function (callback) { if (callback) { callback(); } })],
    from position [i] on. *)
Fixpoint forEach (i : nat) (cbs : list (option Callback)) : M Store unit :=
  match cbs with
  | [] => ret tt
  | callback :: rest =>
      match callback with
      | Some f => invoke i f
      | None => ret tt
      end ;;;
      forEach (S i) rest
  end.

(** [Rule.prototype.remove].  The variables [ruleOrder] and
    [ruleConfigById] of the source refer to the array and the object of the
    domain object, so the two updates in place are updates of the domain
    object, and [mutate] is then given what the domain object holds. *)
Definition remove (this : Rule) : M Store unit :=
  update (fun c =>
    {| ruleOrder := ruleOrder c;
       ruleConfigById := <[id (config this) := None]> (ruleConfigById c) |}) ;;;
  update (fun c =>
    {| ruleOrder := lodash_remove (id (config this)) (ruleOrder c);
       ruleConfigById := ruleConfigById c |}) ;;;
  c <- gets (fun s => domainObject (world s)) ;;
  outside (mutate "configuration.ruleConfigById"
             (RuleConfigByIdValue (ruleConfigById c))) ;;;
  outside (mutate "configuration.ruleOrder" (RuleOrderValue (ruleOrder c))) ;;;
  forEach 0 (remove_callbacks (callbacks this)).

End Widget.

Arguments World : clear implicits.
Arguments MCT : clear implicits.
Arguments Rule : clear implicits.
Arguments Store : clear implicits.
Arguments Callback : clear implicits.
Arguments Callbacks : clear implicits.

(** The positions of the entries of [cbs] that are callbacks, counted from
    [i]. *)
Fixpoint registered {Env : Type} (i : nat) (cbs : list (option (Callback Env)))
  : list nat :=
  match cbs with
  | [] => []
  | Some _ :: rest => i :: registered (S i) rest
  | None :: rest => registered (S i) rest
  end.

(** The world after the calls, one after the other in the order of the
    list, of the entries of [cbs] that are callbacks, from the world [w];
    there is none if a call throws. *)
Fixpoint called {Env : Type} (cbs : list (option (Callback Env))) (w : World Env)
  : option (World Env) :=
  match cbs with
  | [] => Some w
  | Some callback :: rest =>
      match callback w with
      | Returned (_, w') => called rest w'
      | Threw _ => None
      end
  | None :: rest => called rest w
  end.

(** An MCT instance whose [mutate] stores the value at the path and does
    nothing else. *)
Definition storing_mct {Env : Type} : MCT Env :=
  {| mutate := fun path value =>
       modify (fun w => {| domainObject := setPath path value (domainObject w);
                           env := env w |}) |}.

(** A callback that returns and leaves the configuration of the domain
    object as it found it. *)
Definition quiet {Env : Type} (callback : Callback Env) : Prop :=
  forall w, exists w',
    callback w = Returned (tt, w') /\ domainObject w' = domainObject w.

(** [mutate] returns, and the domain object then has the value at the
    path. *)
Definition stores {Env : Type} (openmct : MCT Env) : Prop :=
  forall path value w, exists w',
    mutate path value w = Returned (tt, w')
    /\ domainObject w' = setPath path value (domainObject w).

End Rule.

(** ** The summary-widget rule: its description

    [Rule.prototype.generateDescription] builds a text from the conditions
    of the rule.  A JavaScript string is taken as the sequence of its code
    units; the texts that the function itself adds and removes are
    ASCII. *)

Module RuleText.

(** [s.endsWith(suffix)]. *)
Definition endsWith (s suffix : string) : bool :=
  (String.length suffix <=? String.length s)%nat
  && String.eqb
       (String.substring (String.length s - String.length suffix)
          (String.length suffix) s)
       suffix.

(** [s.substring(0, s.length - k)]. *)
Definition dropEnd (k : nat) (s : string) : string :=
  String.substring 0 (String.length s - k) s.

(** Truthiness of a string. *)
Definition nonEmpty (s : string) : bool := negb (String.eqb s "").

(** An element of [config.conditions]. *)
Record ConditionConfig : Type := {
  object : string;
  key : string;
  operation : string;
  values : list string
}.

(** The properties of [this.config] that [generateDescription] uses;
    [conditions] is [None] when the configuration has no such property. *)
Record Config : Type := {
  id : string;
  trigger : string;
  description : string;
  conditions : option (list ConditionConfig)
}.

(** [this.conditionManager] and its evaluator.  Each of the three
    functions is used under a test of its result for truthiness only; a
    result that is not a string with characters is given as the empty
    string. *)
Class ConditionManager : Type := {
  getObjectName : string -> string;
  getTelemetryPropertyName : string -> string -> string;
  getOperationDescription : string -> list string -> string
}.

Section Description.

Context {manager : ConditionManager}.

(** Whether the callback of the [forEach] adds to the description. *)
Definition described (condition : ConditionConfig) : bool :=
  nonEmpty (getObjectName (object condition))
  || nonEmpty (getTelemetryPropertyName (object condition) (key condition))
  || nonEmpty (getOperationDescription (operation condition) (values condition)).

(** What the callback of the [forEach] adds for one condition. *)
Definition clause (trigger : string) (condition : ConditionConfig) : string :=
  let name := getObjectName (object condition) in
  let property := getTelemetryPropertyName (object condition) (key condition) in
  let operation := getOperationDescription (operation condition) (values condition) in
  if described condition then
    (((("when " +:+ (if nonEmpty name then name +:+ "'s " else ""))
       +:+ (if nonEmpty property then property +:+ " " else ""))
      +:+ (if nonEmpty operation then operation +:+ " " else ""))
     +:+ (if String.eqb trigger "any" then " OR " else " AND "))
  else "".

(** The variable [description] after the [forEach]. *)
Definition clauses (trigger : string) (conditions : list ConditionConfig) : string :=
  foldl (fun description condition => description +:+ clause trigger condition)
    "" conditions.

(** The variable [description] before the test for the empty string. *)
Definition generated (config : Config) : string :=
  let description :=
    match conditions config with
    | Some conditions =>
        if negb (String.eqb (id config) "default") then
          if String.eqb (trigger config) "js"
          then "when a custom JavaScript condition evaluates to true"
          else clauses (trigger config) conditions
        else ""
    | None => ""
    end in
  let description :=
    if endsWith description "OR " then dropEnd 3 description else description in
  if endsWith description "AND " then dropEnd 4 description else description.

(** The description that [generateDescription] shows, stores in the
    configuration and passes on to [mutate]. *)
Definition describe (config : Config) : string :=
  let text := generated config in
  if String.eqb text "" then description config else text.

(** [this.config] after [generateDescription]. *)
Definition generateDescription (config : Config) : Config :=
  {| id := id config; trigger := trigger config;
     description := describe config; conditions := conditions config |}.

End Description.

End RuleText.

(** ** Sample stores and events *)

Module Samples.

Import JSNum Eff Plot Geometry.

Definition plotViewport : Viewport := vp 0 10 10 0.

(** The store before any gesture. *)
Definition idle (v : Viewport) : State :=
  {| viewport := v; mouseCoordinates := None; rectangles := [];
     dragStart := None; marqueeBox := emptyBox; marqueeRect := None;
     chartElementBounds := None; firstTouches := None; firstTouch := None;
     firstTouchDistance := None; lastTouchDistance := None; emitted := [] |}.

Definition canvas : Bounds :=
  {| left := Finite 0; top := Finite 0; width := Finite 100; height := Finite 100 |}.

Definition centre : ClientPoint := {| clientX := Finite 50; clientY := Finite 50 |}.

(** The mouse over the plot point [p]. *)
Definition hovering (p : Point) : State :=
  set_mouseCoordinates
    (Some {| positionOverElement := {| x := Finite 50; y := Finite 50 |};
             positionAsPlotPoint := p |})
    (idle plotViewport).

(** A drag that started at [origin], the mouse now over [p]. *)
Definition dragging (origin p : Point) : State :=
  set_dragStart (Some origin) (hovering p).

(** A marquee with the given corners. *)
Definition marquee (p q : option Point) : State :=
  set_marqueeBox {| start := p; end_ := q |} (idle plotViewport).

(** A pinch with the given first and previous distances. *)
Definition pinching (first : num) (last : option num) : State :=
  set_firstTouch (Some (pt 5 5))
    (set_firstTouchDistance (Some first)
       (set_lastTouchDistance last (idle plotViewport))).

Definition pinch (distance : num) : Pinch.t :=
  {| Pinch.midpoint := centre; Pinch.bounds := canvas;
     Pinch.touches := []; Pinch.distance := distance |}.

(** A viewport whose corners are doubles two apart, the closest that
    doubles of this size are, and its centre. *)
Definition farViewport : Viewport := vp (10 ^ 16) (10 ^ 16 + 4) (10 ^ 16 + 4) (10 ^ 16).

Definition farMidpoint : Point := pt (10 ^ 16 + 2) (10 ^ 16 + 2).

(** A viewport whose domain axis is wider than the largest double. *)
Definition wideViewport : Viewport := vp (- 2 ^ 1023) 10 (2 ^ 1023 + 2 ^ 1022) 0.

Definition wideMidpoint : Point := pt (2 ^ 1023) 5.

(** A viewport of a plot in pixels, with a midpoint off its centre. *)
Definition pixelViewport : Viewport := vp 137 1690 721 867.

Definition pixelMidpoint : Point := pt 202 1129.

(** A viewport whose domain axis runs from the double of 0.1 to the
    double of 0.2, under a drag of the mouse from the double of 0.1 to the
    double of 0.7. *)
Definition tenthsViewport : Viewport :=
  vp (Binary64.literal 0.1) 10 (Binary64.literal 0.2) 0.

Definition draggingTenths : State :=
  set_viewport tenthsViewport
    (dragging (pt (Binary64.literal 0.1) 5) (pt (Binary64.literal 0.7) 5)).

(** A callback that counts its calls in the environment. *)
Definition counting : Rule.Callback nat :=
  modify (fun w => {| Rule.domainObject := Rule.domainObject w;
                      Rule.env := S (Rule.env w) |}).

Definition ruleConfig (i : string) : Rule.RuleConfig :=
  {| Rule.id := i; Rule.name := "Rule"; Rule.description := "";
     Rule.trigger := "any"; Rule.expanded := false |}.

Definition noCallbacks : Rule.Callbacks nat :=
  {| Rule.remove_callbacks := []; Rule.duplicate_callbacks := [];
     Rule.change_callbacks := []; Rule.conditionChange_callbacks := [] |}.

(** The rule ["rule1"] with two callbacks for [remove] and an entry that is
    none. *)
Definition rule1 : Rule.Rule nat :=
  {| Rule.config := ruleConfig "rule1";
     Rule.callbacks :=
       {| Rule.remove_callbacks := [Some counting; None; Some counting];
          Rule.duplicate_callbacks := [];
          Rule.change_callbacks := [];
          Rule.conditionChange_callbacks := [] |} |}.

Definition widget : Rule.Store nat :=
  {| Rule.world :=
       {| Rule.domainObject :=
            {| Rule.ruleOrder := ["default"; "rule1"; "rule2"; "rule1"];
               Rule.ruleConfigById :=
                 <["default" := Some (ruleConfig "default")]>
                   (<["rule1" := Some (ruleConfig "rule1")]>
                      (<["rule2" := Some (ruleConfig "rule2")]> ∅)) |};
          Rule.env := 0%nat |};
     Rule.invoked := [] |}.

End Samples.

(** ** The plot directive: axes and the watcher of the viewport *)

Module PlotAxes.

Import JSNum Eff Plot.

(** An entry of [$scope.axes]. *)
Record Axis : Type := { label : string; tickCount : num; ticks : list num }.

(** [$scope.axes]. *)
Record Axes : Type := { domainAxis : Axis; rangeAxis : Axis }.

(** The axes that [link] installs when the scope has none. *)
Definition defaultAxes : Axes :=
  {| domainAxis := {| label := "Time"; tickCount := DOMAIN_TICK_COUNT; ticks := [] |};
     rangeAxis := {| label := "Value"; tickCount := RANGE_TICK_COUNT; ticks := [] |} |}.

(** The value that one pass of the [for] loop of
    [updateAxesForCurrentViewport] pushes. *)
Section Ticks.

Context {arithmetic : Arithmetic}.

Definition tickValue (firstTick size denominator tickNumber : num) : num :=
  let tickIncrement := (size * (tickNumber / denominator))%js in
  (firstTick - tickIncrement)%js.

(** The [for] loop of [updateAxesForCurrentViewport], from [tickNumber] on,
    with the ticks pushed so far.  [None]: the loop has not ended within
    [fuel] tests of its condition. *)
Fixpoint tickLoop (fuel : nat) (count firstTick size denominator : num)
    (tickNumber : num) (pushed : list num) : option (list num) :=
  match fuel with
  | O => None
  | S fuel' =>
      if ltb tickNumber count then
        tickLoop fuel' count firstTick size denominator
          (tickNumber + Finite 1)%js
          (pushed ++ [tickValue firstTick size denominator tickNumber])
      else Some pushed
  end.

(** A natural number as a tick count or a tick number. *)
Definition natural (n : nat) : Q := inject_Z (Z.of_nat n).

(** The values that [tickNumber] takes in [n] passes of the loop. *)
Fixpoint tickNumbers (n : nat) (tickNumber : num) : list num :=
  match n with
  | O => []
  | S n' => tickNumber :: tickNumbers n' (tickNumber + Finite 1)%js
  end.

(** The body of the [forEach] of [updateAxesForCurrentViewport] for one
    axis, whose first tick is the coordinate of [topLeft] and whose last
    tick is that of [bottomRight]. *)
Definition updateAxis (fuel : nat) (firstTick lastTick : num) (axis : Axis)
  : option Axis :=
  let size := axisSize firstTick lastTick in
  let denominator := (tickCount axis - Finite 1)%js in
  computed ← tickLoop fuel (tickCount axis) firstTick size denominator (Finite 0) [];
  Some {| label := label axis; tickCount := tickCount axis; ticks := computed |}.

Definition updateAxesForCurrentViewport (fuel : nat) (viewport : Viewport)
    (axes : Axes) : option Axes :=
  domainAxis' ← updateAxis fuel (domain (topLeft viewport))
                   (domain (bottomRight viewport)) (domainAxis axes);
  rangeAxis' ← updateAxis fuel (range (topLeft viewport))
                  (range (bottomRight viewport)) (rangeAxis axes);
  Some {| domainAxis := domainAxis'; rangeAxis := rangeAxis' |}.

End Ticks.

Section Watcher.

Context {arithmetic : Arithmetic} {utils : Utils}.

(** The first statement of [onViewportChange]: the plot point of the
    tracked pointer is taken again, in the viewport as it is now. *)
Definition refreshMouseCoordinates (s : State) : State :=
  match mouseCoordinates s, chartElementBounds s with
  | Some coordinates, Some bounds =>
      set_mouseCoordinates
        (Some {| positionOverElement := positionOverElement coordinates;
                 positionAsPlotPoint :=
                   elementPositionAsPlotPosition (positionOverElement coordinates)
                     bounds (viewport s) |})
        s
  | _, _ => s
  end.

(** [onViewportChange], on the store of the handlers and the axes. *)
Definition onViewportChange (fuel : nat) (s : State) (axes : Axes)
  : option (State * Axes) :=
  let s' := refreshMouseCoordinates s in
  axes' ← updateAxesForCurrentViewport fuel (viewport s') axes;
  Some (s', axes').

End Watcher.

End PlotAxes.

(** ** Vocabulary of the statements about gestures *)

Module Gestures.

Import JSNum Eff Plot Geometry.

(** How often the marquee rectangle occurs in [$scope.rectangles]. *)
Definition marqueeRefs (rects : list RectRef) : nat :=
  length (List.filter (RectRef_eqb MarqueeRectRef) rects).

(** The marquee rectangle is in [$scope.rectangles], once, exactly while
    the variable [marqueeRect] is set. *)
Definition marqueeConsistent (s : State) : Prop :=
  marqueeRefs (rectangles s) = match marqueeRect s with Some _ => 1 | None => 0 end.

(** Two points, two viewports with numerically equal coordinates. *)
Definition samePoint (p q : Point) : bool :=
  eqb (domain p) (domain q) && eqb (range p) (range q).

Definition sameViewport (v w : Viewport) : bool :=
  samePoint (topLeft v) (topLeft w) && samePoint (bottomRight v) (bottomRight w).

(** A point moved by a delta on each axis. *)
Definition shift {arithmetic : Arithmetic} (p : Point) (dDomain dRange : num)
  : Point :=
  {| domain := (domain p + dDomain)%js; range := (range p + dRange)%js |}.

(** The position of a mouse event or of a touch over the canvas. *)
Definition overElement {arithmetic : Arithmetic} (c : ClientPoint) (bounds : Bounds)
  : ElementPoint :=
  {| x := (clientX c - left bounds)%js; y := (clientY c - top bounds)%js |}.

(** The four edge distances of [d'] are those of [d] times [f]. *)
Definition edgesScaledBy {arithmetic : Arithmetic} (f : Q) (d' d : Dimensions)
  : bool :=
  allEdges (fun a' a => eqb a' (Finite f * a)%js) d' d.

(** The store after a call, however the call ends. *)
Definition storeAfter {S A : Type} (o : Outcome S (A * S)) : S :=
  match o with
  | Returned (_, s') => s'
  | Threw s' => s'
  end.

(** A computation keeps a property of the store, also when it throws. *)
Definition preserves {S A : Type} (P : S -> Prop) (c : M S A) : Prop :=
  forall s, P s -> P (storeAfter (c s)).

(** The handlers that [link] registers for the events of the canvas and of
    the scope, with what they are called with. *)
Inductive Call : Type :=
| call_trackMousePosition (event : MouseEvent)
| call_untrackMousePosition
| call_startMarquee
| call_endMarquee
| call_startDrag
| call_endDrag
| call_onPanStart (touch : Pan.t)
| call_onPanChange (touch : Pan.t)
| call_onPinchStart (touch : Pinch.t)
| call_onPinchChange (touch : Pinch.t)
| call_onTouchEnd.

(** The one call that assigns [lastTouchDistance]. *)
Definition isPinchChange (c : Call) : bool :=
  match c with
  | call_onPinchChange _ => true
  | _ => false
  end.

(** The calls that end a gesture. *)
Definition endsGesture (c : Call) : bool :=
  match c with
  | call_endMarquee | call_endDrag | call_onTouchEnd => true
  | _ => false
  end.

Section Calls.

Context {arithmetic : Arithmetic} {utils : Utils}.

(** The plot point under a position of the client area, in the viewport
    [v], and what the handlers record for it. *)
Definition plotPointAt (c : ClientPoint) (bounds : Bounds) (v : Viewport) : Point :=
  elementPositionAsPlotPosition (overElement c bounds) bounds v.

Definition tracked (c : ClientPoint) (bounds : Bounds) (v : Viewport) : Position :=
  {| positionOverElement := overElement c bounds;
     positionAsPlotPoint := plotPointAt c bounds v |}.

(** The store when [trackMousePosition] has recorded the bounds and the
    position. *)
Definition moved (event : MouseEvent) (s : State) : State :=
  set_mouseCoordinates
    (Some (tracked (client event) (getBoundingClientRect event) (viewport s)))
    (set_chartElementBounds (Some (getBoundingClientRect event)) s).

Definition perform (c : Call) : M State unit :=
  match c with
  | call_trackMousePosition event => trackMousePosition event
  | call_untrackMousePosition => untrackMousePosition
  | call_startMarquee => startMarquee
  | call_endMarquee => endMarquee
  | call_startDrag => _ <- startDrag ;; ret tt
  | call_endDrag => endDrag
  | call_onPanStart touch => onPanStart touch
  | call_onPanChange touch => onPanChange touch
  | call_onPinchStart touch => onPinchStart touch
  | call_onPinchChange touch => onPinchChange touch
  | call_onTouchEnd => onTouchEnd
  end.

(** A sequence of calls, one event after the other; a handler that throws
    ends its own call only. *)
Definition performAll (calls : list Call) (s : State) : State :=
  foldl (fun s c => storeAfter (perform c s)) s calls.

End Calls.

End Gestures.

(** ** The plot directive: the handlers on the canvas and the window

    [link] binds its mouse handlers to [$canvas], an element wrapper of
    AngularJS, and its key handlers to the window.  The wrapper is jqLite,
    or jQuery when that is loaded before AngularJS; the sources do not say
    which.  For both, [.on] adds a handler to those of the element, also
    when the same function is bound already, the handlers of an event run
    in the order in which they were bound, [.addClass] adds a class that
    the element does not have and [.removeClass] removes it.  They differ
    in [.off] with a function that is bound more than once for the event:
    jQuery removes every binding of it, jqLite the first one.  A listener
    that [addEventListener] is given a second time is not added again. *)

Module Wiring.

Import JSNum Eff Plot Gestures.

(** The functions of [link] that are bound to the canvas. *)
Inductive Handler : Type :=
| h_trackMousePosition
| h_untrackMousePosition
| h_startMarquee
| h_endMarquee
| h_startDrag
| h_endDrag.

Inductive EventType : Type := mousemove | mouseleave | mousedown | mouseup.

Definition Handler_eqb (a b : Handler) : bool :=
  match a, b with
  | h_trackMousePosition, h_trackMousePosition
  | h_untrackMousePosition, h_untrackMousePosition
  | h_startMarquee, h_startMarquee
  | h_endMarquee, h_endMarquee
  | h_startDrag, h_startDrag
  | h_endDrag, h_endDrag => true
  | _, _ => false
  end.

Definition EventType_eqb (a b : EventType) : bool :=
  match a, b with
  | mousemove, mousemove
  | mouseleave, mouseleave
  | mousedown, mousedown
  | mouseup, mouseup => true
  | _, _ => false
  end.

(** What [.off] removes of a function that is bound more than once. *)
Inductive Removal : Type := FirstBinding | EveryBinding.

(** The library behind [$canvas]. *)
Class Library : Type := { removal : Removal }.

Definition jqLite : Library := {| removal := FirstBinding |}.

Definition jQuery : Library := {| removal := EveryBinding |}.

(** A canvas of the element: its classes, and its bindings in the order
    in which they were made. *)
Record Canvas : Type := {
  classes : list string;
  bindings : list (EventType * Handler)
}.

Definition binds (type : EventType) (handler : Handler)
    (binding : EventType * Handler) : bool :=
  EventType_eqb type (fst binding) && Handler_eqb handler (snd binding).

(** A list without its first element of a kind. *)
Fixpoint removeFirst {A : Type} (p : A -> bool) (l : list A) : list A :=
  match l with
  | [] => []
  | a :: l' => if p a then l' else a :: removeFirst p l'
  end.

(** [$canvas.on(type, handler)]. *)
Definition on (type : EventType) (handler : Handler) (c : Canvas) : Canvas :=
  {| classes := classes c; bindings := bindings c ++ [(type, handler)] |}.

Definition hasClass (name : string) (c : Canvas) : bool :=
  existsb (String.eqb name) (classes c).

(** [$canvas.addClass(name)]. *)
Definition addClass (name : string) (c : Canvas) : Canvas :=
  {| classes := if hasClass name c then classes c else classes c ++ [name];
     bindings := bindings c |}.

(** [$canvas.removeClass(name)]. *)
Definition removeClass (name : string) (c : Canvas) : Canvas :=
  {| classes := List.filter (fun other => negb (String.eqb name other)) (classes c);
     bindings := bindings c |}.

(** The handlers bound for an event, in the order in which they run. *)
Definition handlersFor (type : EventType) (c : Canvas) : list Handler :=
  snd <$> List.filter (fun binding => EventType_eqb type (fst binding)) (bindings c).

(** How often a handler is bound for an event. *)
Definition bound (type : EventType) (handler : Handler) (c : Canvas) : nat :=
  length (List.filter (binds type handler) (bindings c)).

(** The canvas, and whether [toggleInteractionMode] and
    [resetInteractionMode] listen on the window. *)
Record Wires : Type := {
  canvas : Canvas;
  keydownListener : bool;
  keyupListener : bool
}.

Definition onCanvas (f : Canvas -> Canvas) (w : Wires) : Wires :=
  {| canvas := f (canvas w);
     keydownListener := keydownListener w;
     keyupListener := keyupListener w |}.

(** The key code of the shift key. *)
Definition SHIFT : nat := 16.

(** What happens to the element and the window. *)
Inductive Input : Type :=
| keydown (keyCode : nat)
| keyup (keyCode : nat)
| mouse (type : EventType) (event : MouseEvent)
| destroy.

Section Bindings.

Context {library : Library}.

(** The bindings that [.off(type, handler)] leaves. *)
Definition unbind (type : EventType) (handler : Handler)
    (l : list (EventType * Handler)) : list (EventType * Handler) :=
  match removal with
  | FirstBinding => removeFirst (binds type handler) l
  | EveryBinding => List.filter (fun binding => negb (binds type handler binding)) l
  end.

(** [$canvas.off(type, handler)]. *)
Definition off (type : EventType) (handler : Handler) (c : Canvas) : Canvas :=
  {| classes := classes c; bindings := unbind type handler (bindings c) |}.

Definition watchForMarquee (c : Canvas) : Canvas :=
  off mouseup h_endDrag
    (off mousedown h_startDrag
       (on mouseup h_endMarquee
          (on mousedown h_startMarquee
             (addClass "plot-marquee" (removeClass "plot-drag" c))))).

Definition watchForDrag (c : Canvas) : Canvas :=
  off mouseup h_endMarquee
    (off mousedown h_startMarquee
       (on mouseup h_endDrag
          (on mousedown h_startDrag
             (removeClass "plot-marquee" (addClass "plot-drag" c))))).

Definition toggleInteractionMode (keyCode : nat) (c : Canvas) : Canvas :=
  if Nat.eqb keyCode SHIFT then watchForDrag c else c.

Definition resetInteractionMode (keyCode : nat) (c : Canvas) : Canvas :=
  if Nat.eqb keyCode SHIFT then watchForMarquee c else c.

Definition stopWatching (w : Wires) : Wires :=
  {| canvas :=
       off mouseup h_endMarquee
         (off mousedown h_startMarquee
            (off mouseup h_endDrag (off mousedown h_startDrag (canvas w))));
     keydownListener := false;
     keyupListener := false |}.

(** The statements of [link] that bind the handlers, on a canvas as the
    template has it. *)
Definition link (c : Canvas) : Wires :=
  {| canvas :=
       watchForMarquee
         (on mouseleave h_untrackMousePosition (on mousemove h_trackMousePosition c));
     keydownListener := true;
     keyupListener := true |}.

(** The wires after an input. *)
Definition rewire (i : Input) (w : Wires) : Wires :=
  match i with
  | keydown keyCode =>
      if keydownListener w then onCanvas (toggleInteractionMode keyCode) w else w
  | keyup keyCode =>
      if keyupListener w then onCanvas (resetInteractionMode keyCode) w else w
  | mouse _ _ => w
  | destroy => stopWatching w
  end.

Definition rewireAll (inputs : list Input) (w : Wires) : Wires :=
  foldl (fun w i => rewire i w) w inputs.

Context {arithmetic : Arithmetic} {utils : Utils}.

(** The call that a bound handler makes of a mouse event. *)
Definition toCall (handler : Handler) (event : MouseEvent) : Call :=
  match handler with
  | h_trackMousePosition => call_trackMousePosition event
  | h_untrackMousePosition => call_untrackMousePosition
  | h_startMarquee => call_startMarquee
  | h_endMarquee => call_endMarquee
  | h_startDrag => call_startDrag
  | h_endDrag => call_endDrag
  end.

(** The handlers of a list, one after the other; one that throws ends the
    dispatch. *)
Fixpoint runHandlers (handlers : list Handler) (event : MouseEvent) : M State unit :=
  match handlers with
  | [] => ret tt
  | handler :: rest => perform (toCall handler event) ;;; runHandlers rest event
  end.

(** A mouse event on the canvas. *)
Definition dispatch (type : EventType) (event : MouseEvent) (c : Canvas)
  : M State unit :=
  runHandlers (handlersFor type c) event.

(** The wires and the store after an input. *)
Definition react (i : Input) (ws : Wires * State) : Wires * State :=
  match i with
  | mouse type event => (ws.1, storeAfter (dispatch type event (canvas ws.1) ws.2))
  | _ => (rewire i ws.1, ws.2)
  end.

Definition reactAll (inputs : list Input) (ws : Wires * State) : Wires * State :=
  foldl (fun ws i => react i ws) ws inputs.

End Bindings.

Definition isDestroy (i : Input) : bool :=
  match i with
  | destroy => true
  | _ => false
  end.

(** The scope is not destroyed by any of the inputs. *)
Definition alive (inputs : list Input) : bool :=
  forallb (fun i => negb (isDestroy i)) inputs.

(** The shift key was pressed last, or released last. *)
Definition isShift (i : Input) : option bool :=
  match i with
  | keydown keyCode => if Nat.eqb keyCode SHIFT then Some true else None
  | keyup keyCode => if Nat.eqb keyCode SHIFT then Some false else None
  | _ => None
  end.

(** Whether the shift key is down after the inputs, when it was [down]
    before. *)
Definition shiftDown (down : bool) (inputs : list Input) : bool :=
  foldl (fun down i => default down (isShift i)) down inputs.

(** Every key-down event of the shift key finds it up, and every key-up
    event finds it down. *)
Fixpoint paired (down : bool) (inputs : list Input) : bool :=
  match inputs with
  | [] => true
  | i :: rest =>
      match isShift i with
      | Some press => negb (Bool.eqb press down) && paired press rest
      | None => paired down rest
      end
  end.

(** The canvas is set up for marquees only, or for drags only. *)
Definition marqueeMode (c : Canvas) : Prop :=
  (0 < bound mousedown h_startMarquee c)%nat /\ (0 < bound mouseup h_endMarquee c)%nat
  /\ bound mousedown h_startDrag c = 0%nat /\ bound mouseup h_endDrag c = 0%nat
  /\ hasClass "plot-marquee" c = true /\ hasClass "plot-drag" c = false.

Definition dragMode (c : Canvas) : Prop :=
  (0 < bound mousedown h_startDrag c)%nat /\ (0 < bound mouseup h_endDrag c)%nat
  /\ bound mousedown h_startMarquee c = 0%nat /\ bound mouseup h_endMarquee c = 0%nat
  /\ hasClass "plot-drag" c = true /\ hasClass "plot-marquee" c = false.

(** A canvas as the template has it: none of the handlers is bound. *)
Definition blank : Canvas := {| classes := []; bindings := [] |}.

End Wiring.

(** ** Sample events and touches *)

Module GestureSamples.

Import JSNum Eff Plot Geometry Gestures Samples.

Definition touchAt (cx cy : Q) : ClientPoint :=
  {| clientX := Finite cx; clientY := Finite cy |}.

(** A mouse event over the canvas. *)
Definition mouseAt (cx cy : Q) : MouseEvent :=
  {| client := touchAt cx cy; getBoundingClientRect := canvas |}.

Definition panAt (cx cy : Q) : Pan.t :=
  {| Pan.touch := touchAt cx cy; Pan.bounds := canvas |}.

(** A pinch with the given touches, twenty pixels apart. *)
Definition fingers (touches : list ClientPoint) : Pinch.t :=
  {| Pinch.midpoint := centre; Pinch.bounds := canvas;
     Pinch.touches := touches; Pinch.distance := Finite 20 |}.

(** A marquee that has been drawn, with rectangles of other owners before
    and behind the marquee rectangle; the second corner of the box has gone
    since. *)
Definition drawn : State :=
  set_marqueeRect
    (Some {| rect_start := pt 2 8; rect_end := pt 6 4;
             color := [Finite 1; Finite 1; Finite 1; Finite 0.5];
             layer := "top" |})
    (set_rectangles [OtherRect 0; MarqueeRectRef; OtherRect 1]
       (marquee (Some (pt 2 8)) None)).

(** An axis with the given tick count and ticks of an earlier viewport. *)
Definition axisWith (count : num) : PlotAxes.Axis :=
  {| PlotAxes.label := "Time"; PlotAxes.tickCount := count;
     PlotAxes.ticks := [Finite 1; Finite 2] |}.

End GestureSamples.

(** ** Sample rules with conditions *)

Module RuleTextSamples.

Import RuleText.

(** A manager that knows the objects and properties by their keys. *)
Definition manager : ConditionManager :=
  {| getObjectName := fun object => object;
     getTelemetryPropertyName := fun _ key => key;
     getOperationDescription := fun operation _ => operation |}.

Definition above (object : string) : ConditionConfig :=
  {| object := object; key := "value"; operation := "is above 5"; values := ["5"] |}.

(** A condition that has not been filled in yet. *)
Definition blankCondition : ConditionConfig :=
  {| object := ""; key := ""; operation := ""; values := [] |}.

Definition ruleWith (i trigger : string) (conditions : option (list ConditionConfig))
  : Config :=
  {| id := i; trigger := trigger; description := "as it was";
     conditions := conditions |}.

End RuleTextSamples.

(** * Facts *)

(** ** Numbers *)

Module NumFacts.

Import JSNum.
(** Here the arithmetic is the one without rounding. *)
#[local] Existing Instance exact.
Local Open Scope Q_scope.

Lemma bool_eq_iff (p q : bool) : (p = true <-> q = true) -> p = q.
Proof. destruct p, q; intuition congruence. Qed.

Lemma eqb_bool_iff (p q : bool) : Bool.eqb p q = true <-> (p = true <-> q = true).
Proof. destruct p, q; simpl; intuition congruence. Qed.

Lemma leb_finite (a b : Q) : leb (Finite a) (Finite b) = true <-> a <= b.
Proof. apply Qle_bool_iff. Qed.

Lemma ltb_finite (a b : Q) : ltb (Finite a) (Finite b) = true <-> a < b.
Proof.
  simpl. rewrite negb_true_iff. split.
  - intros H. apply Qnot_le_lt. intros Hle. apply Qle_bool_iff in Hle. congruence.
  - intros H. destruct (Qle_bool b a) eqn:E; [|reflexivity].
    apply Qle_bool_iff in E. lra.
Qed.

Lemma ltb_finite_false (a b : Q) : ltb (Finite a) (Finite b) = false <-> b <= a.
Proof. simpl. rewrite negb_false_iff. apply Qle_bool_iff. Qed.

Lemma gtb_finite (a b : Q) : gtb (Finite a) (Finite b) = true <-> b < a.
Proof. apply ltb_finite. Qed.

Lemma ltb_agree (x y x' y' : Q) :
  (x < y <-> x' < y') -> ltb (Finite x) (Finite y) = ltb (Finite x') (Finite y').
Proof.
  intros H. apply bool_eq_iff. rewrite !ltb_finite. exact H.
Qed.

Lemma eqb_finite (a b : Q) : eqb (Finite a) (Finite b) = true <-> a == b.
Proof. apply Qeq_bool_iff. Qed.

Lemma eqb_finite_false (a b : Q) : eqb (Finite a) (Finite b) = false <-> ~ a == b.
Proof.
  rewrite <- eqb_finite. destruct (eqb (Finite a) (Finite b)); intuition congruence.
Qed.

Lemma truthy_finite (a : Q) : truthy (Finite a) = true <-> ~ a == 0.
Proof.
  simpl. rewrite negb_true_iff. split.
  - intros H E. apply Qeq_bool_iff in E. congruence.
  - intros H. destruct (Qeq_bool a 0) eqn:E; [|reflexivity].
    apply Qeq_bool_iff in E. contradiction.
Qed.

Lemma falsy_finite (a : Q) : truthy (Finite a) = false <-> a == 0.
Proof. simpl. rewrite negb_false_iff. apply Qeq_bool_iff. Qed.

Lemma sub_finite (a b : num) : is_finite a -> is_finite b -> is_finite (sub a b).
Proof. destruct a, b; simpl; tauto. Qed.


Lemma div_finite (x y : Q) : ~ y == 0 -> div (Finite x) (Finite y) = Finite (x / y).
Proof.
  intros H. unfold div. destruct (y ?= 0) eqn:C; try reflexivity.
  apply Qeq_alt in C. contradiction.
Qed.

Lemma Qabs_swap (x y : Q) : Qabs (x + - y) == Qabs (y + - x).
Proof. rewrite <- Qabs_opp. apply Qabs_wd. ring. Qed.

Lemma Qabs_positive (x : Q) : ~ x == 0 -> 0 < Qabs x.
Proof.
  intros H. destruct (Qlt_le_dec x 0); [rewrite Qabs_neg|rewrite Qabs_pos]; lra.
Qed.

(** A number divided by its absolute value is its sign. *)
Lemma sign_of_nonzero (c : Q) :
  ~ c == 0 -> c / Qabs c == 1 \/ c / Qabs c == -1.
Proof.
  intros H. destruct (Qlt_le_dec c 0) as [L|L].
  - right. rewrite Qabs_neg by lra. field. lra.
  - left. rewrite Qabs_pos by lra. field. lra.
Qed.

Lemma sign_of_positive (c : Q) : 0 < c -> c / Qabs c == 1.
Proof. intros H. rewrite Qabs_pos by lra. field. lra. Qed.

Lemma sign_of_negative (c : Q) : c < 0 -> c / Qabs c == -1.
Proof. intros H. rewrite Qabs_neg by lra. field. lra. Qed.

Lemma div_by_own_abs (c : Q) :
  ~ c == 0 -> div (Finite c) (abs (Finite c)) = Finite (c / Qabs c).
Proof.
  intros H. apply div_finite. pose proof (Qabs_positive c H). lra.
Qed.

(** A distance scaled by a factor below one shrinks, by one above it grows. *)
Lemma scaled_distance_lt (x x' f : Q) :
  x' == f * x -> 0 < f -> f < 1 -> ~ x == 0 -> Qabs x' < Qabs x.
Proof.
  intros H H0 H1 Hx. rewrite H, Qabs_Qmult, (Qabs_pos f) by lra.
  pose proof (Qabs_positive x Hx) as P.
  assert (f * Qabs x < 1 * Qabs x) by (apply Qmult_lt_compat_r; assumption).
  lra.
Qed.

Lemma scaled_distance_gt (x x' f : Q) :
  x' == f * x -> 1 < f -> ~ x == 0 -> Qabs x < Qabs x'.
Proof.
  intros H H1 Hx. rewrite H, Qabs_Qmult, (Qabs_pos f) by lra.
  pose proof (Qabs_positive x Hx) as P.
  assert (1 * Qabs x < f * Qabs x) by (apply Qmult_lt_compat_r; assumption).
  lra.
Qed.

End NumFacts.

(** ** The plot directive *)

Module PlotFacts.

Import JSNum Eff Plot Geometry Samples NumFacts.
(** Here the arithmetic is the one without rounding. *)
#[local] Existing Instance exact.
Local Open Scope Q_scope.

(** *** The vocabulary on finite numbers *)

Lemma finitePoint_inv (p : Point) : finitePoint p -> exists d r, p = pt d r.
Proof.
  destruct p as [[d| | |] [r| | |]]; intros [H1 H2]; simpl in *; try contradiction.
  exists d, r. reflexivity.
Qed.

Lemma finiteViewport_inv (v : Viewport) :
  finiteViewport v -> exists a b c d, v = vp a b c d.
Proof.
  destruct v as [p q]. intros [Hp Hq]. simpl in *.
  destruct (finitePoint_inv p Hp) as (a & b & ->).
  destruct (finitePoint_inv q Hq) as (c & d & ->).
  exists a, b, c, d. reflexivity.
Qed.

Lemma strictlyBetween_finite (a m b : Q) :
  strictlyBetween (Finite a) (Finite m) (Finite b) = true
  <-> (a < m /\ m < b) \/ (b < m /\ m < a).
Proof.
  unfold strictlyBetween.
  rewrite orb_true_iff, !andb_true_iff, !ltb_finite. reflexivity.
Qed.

Lemma strictlyInside_finite (a b c d md mr : Q) :
  strictlyInside (pt md mr) (vp a b c d) = true ->
  ((a < md /\ md < c) \/ (c < md /\ md < a))
  /\ ((b < mr /\ mr < d) \/ (d < mr /\ mr < b)).
Proof.
  unfold strictlyInside. intros H. apply andb_true_iff in H.
  destruct H as [Hd Hr].
  apply strictlyBetween_finite in Hd. apply strictlyBetween_finite in Hr.
  split; assumption.
Qed.

Lemma sameSide_finite (m c c' : Q) :
  sameSide (Finite m) (Finite c) (Finite c') = true
  <-> (c' < m <-> c < m) /\ (m < c' <-> m < c).
Proof.
  unfold sameSide. rewrite andb_true_iff, !eqb_bool_iff, !ltb_finite. reflexivity.
Qed.

Lemma scaledByZoomStep_finite (d' d : Q) :
  scaledByZoomStep (Finite d') (Finite d) = true
  <-> d' == (1 + - 0.02) * d \/ d' == (1 + 0.02) * d.
Proof.
  unfold scaledByZoomStep. rewrite orb_true_iff.
  change (Finite 1 - ZOOM_AMT)%js with (Finite (1 + - 0.02)).
  change (Finite 1 + ZOOM_AMT)%js with (Finite (1 + 0.02)).
  cbn [mul]. rewrite !eqb_finite. reflexivity.
Qed.

Lemma allEdges_axes (R : num -> num -> bool) (e' e : Dimensions) :
  domainEdges R e' e = true -> rangeEdges R e' e = true -> allEdges R e' e = true.
Proof.
  unfold domainEdges, rangeEdges, allEdges. rewrite !andb_true_iff. tauto.
Qed.

(** *** The direction of a zoom step: [checkRatio] and [type] *)

Lemma checkRatio_of_one (q : Q) : q == 1 -> checkRatio (Finite q) = Finite 0.
Proof.
  intros H. unfold checkRatio, or_else.
  assert (truthy (sub (Finite q) (Finite 1)) = false) as E.
  { apply falsy_finite. lra. }
  rewrite E. reflexivity.
Qed.

Lemma checkRatio_off_one (q : Q) :
  ~ q == 1 -> checkRatio (Finite q) = Finite (q + - 1).
Proof.
  intros H. unfold checkRatio, or_else.
  assert (truthy (sub (Finite q) (Finite 1)) = true) as E.
  { apply truthy_finite. lra. }
  rewrite E. reflexivity.
Qed.

Lemma type_of_one (q : Q) : q == 1 -> type (Finite q) = Finite 1.
Proof.
  intros H. unfold type. rewrite checkRatio_of_one by exact H. reflexivity.
Qed.

Lemma type_off_one (q : Q) :
  ~ q == 1 -> type (Finite q) = Finite (-1 * ((q + - 1) / Qabs (q + - 1))).
Proof.
  intros H. unfold type. rewrite checkRatio_off_one by exact H.
  rewrite div_by_own_abs by lra.
  change (mul (Finite (-1)) (Finite ((q + - 1) / Qabs (q + - 1))))
    with (Finite (-1 * ((q + - 1) / Qabs (q + - 1)))).
  unfold or_else.
  assert (truthy (Finite (-1 * ((q + - 1) / Qabs (q + - 1)))) = true) as E.
  { apply truthy_finite.
    destruct (sign_of_nonzero (q + - 1)) as [S|S]; [lra| |]; rewrite S; lra. }
  rewrite E. reflexivity.
Qed.

Lemma type_above_one (q : Q) :
  1 < q -> exists t, type (Finite q) = Finite t /\ t == -1.
Proof.
  intros H. eexists. split; [apply type_off_one; lra|].
  rewrite sign_of_positive by lra. lra.
Qed.

Lemma type_below_one (q : Q) :
  q < 1 -> exists t, type (Finite q) = Finite t /\ t == 1.
Proof.
  intros H. eexists. split; [apply type_off_one; lra|].
  rewrite sign_of_negative by lra. lra.
Qed.

(** Whatever the ratio, not a number and the infinities included, [type] is
    plus or minus one. *)
Lemma type_values (ratio : num) :
  exists t, type ratio = Finite t /\ (t == 1 \/ t == -1).
Proof.
  destruct ratio as [q| | |]; try (exists 1; split; [reflexivity|left; reflexivity]).
  destruct (Qlt_le_dec 1 q) as [L|L].
  - destruct (type_above_one q L) as (t & E & Ht). eauto.
  - destruct (Qlt_le_dec q 1) as [L'|L'].
    + destruct (type_below_one q L') as (t & E & Ht). eauto.
    + exists 1. split; [apply type_of_one; lra|left; reflexivity].
Qed.

(** *** A zoom step on a finite viewport *)

Lemma calculateViewport_finite (t : Q) (ratio : num) (a b c d md mr : Q) :
  type ratio = Finite t ->
  calculateViewport (vp a b c d) (pt md mr) ratio
  = vp (a + t * 0.02 * Qabs (md + - a))
       (b + - (t * 0.02 * Qabs (mr + - b)))
       (c + - (t * 0.02 * Qabs (c + - md)))
       (d + t * 0.02 * Qabs (d + - mr)).
Proof.
  intros H. unfold calculateViewport. rewrite H. reflexivity.
Qed.

(** A corner coordinate [c] that moves by [s * ZOOM_AMT] times its distance
    [k] to the midpoint coordinate [m] keeps a multiple of its offset from
    [m]. *)
Lemma corner_offset (c m s k c' : Q) :
  (s == 1 \/ s == -1) -> k == Qabs (c + - m) -> c' == c + s * 0.02 * k ->
  offset_kept c m c'.
Proof.
  intros Hs Hk Hc'. unfold offset_kept.
  destruct (Qlt_le_dec c m) as [L|L].
  - rewrite Qabs_neg in Hk by lra.
    destruct Hs as [Hs|Hs]; rewrite Hs in Hc'.
    + exists (1 + - 0.02). split; [left; reflexivity|]. lra.
    + exists (1 + 0.02). split; [right; reflexivity|]. lra.
  - rewrite Qabs_pos in Hk by lra.
    destruct Hs as [Hs|Hs]; rewrite Hs in Hc'.
    + exists (1 + 0.02). split; [right; reflexivity|]. lra.
    + exists (1 + - 0.02). split; [left; reflexivity|]. lra.
Qed.

Lemma offset_side (c m c' : Q) :
  offset_kept c m c' -> (c' < m <-> c < m) /\ (m < c' <-> m < c).
Proof.
  intros (f & [Hf|Hf] & H); rewrite Hf in H; repeat split; intros; lra.
Qed.

Lemma offset_distance (c m c' : Q) :
  offset_kept c m c' ->
  Qabs (c' + - m) == (1 + - 0.02) * Qabs (c + - m)
  \/ Qabs (c' + - m) == (1 + 0.02) * Qabs (c + - m).
Proof.
  intros (f & Hf & H). rewrite H, Qabs_Qmult.
  destruct Hf as [Hf|Hf]; rewrite Hf; [left|right];
    (rewrite (Qabs_pos (1 + _)) by lra); reflexivity.
Qed.

Lemma offset_distance_from (c m c' : Q) :
  offset_kept c m c' ->
  Qabs (m + - c') == (1 + - 0.02) * Qabs (m + - c)
  \/ Qabs (m + - c') == (1 + 0.02) * Qabs (m + - c).
Proof.
  intros H. rewrite (Qabs_swap m c'), (Qabs_swap m c).
  exact (offset_distance _ _ _ H).
Qed.

Lemma offset_moves (c m c' : Q) : offset_kept c m c' -> ~ c == m -> ~ c' == c.
Proof.
  intros (f & Hf & H) Hne E. rewrite E in H.
  destruct Hf as [F|F]; rewrite F in H; lra.
Qed.

(** The four coordinates of the result of [calculateViewport]. *)
Lemma zoom_offsets (t a b c d md mr : Q) :
  (t == 1 \/ t == -1) ->
  offset_kept a md (a + t * 0.02 * Qabs (md + - a))
  /\ offset_kept b mr (b + - (t * 0.02 * Qabs (mr + - b)))
  /\ offset_kept c md (c + - (t * 0.02 * Qabs (c + - md)))
  /\ offset_kept d mr (d + t * 0.02 * Qabs (d + - mr)).
Proof.
  intros Ht.
  assert (- t == 1 \/ - t == -1) as Hn
    by (destruct Ht as [E|E]; rewrite E; [right|left]; reflexivity).
  repeat split.
  - apply (corner_offset a md t (Qabs (md + - a)));
      [exact Ht|apply Qabs_swap|reflexivity].
  - apply (corner_offset b mr (- t) (Qabs (mr + - b))); [exact Hn|apply Qabs_swap|].
    ring.
  - apply (corner_offset c md (- t) (Qabs (c + - md))); [exact Hn|reflexivity|].
    ring.
  - apply (corner_offset d mr t (Qabs (d + - mr))); [exact Ht|reflexivity|reflexivity].
Qed.

(** Two corner coordinates of one axis that stay on their sides of the
    midpoint keep the midpoint between them, keep their order, and stay
    apart. *)
Lemma axis_kept (a m c a' c' : Q) :
  (a < m /\ m < c) \/ (c < m /\ m < a) ->
  (a' < m <-> a < m) /\ (m < a' <-> m < a) ->
  (c' < m <-> c < m) /\ (m < c' <-> m < c) ->
  ((a' < m /\ m < c') \/ (c' < m /\ m < a'))
  /\ (a' < c' <-> a < c) /\ (c' < a' <-> c < a) /\ ~ a' + - c' == 0.
Proof.
  intros [[H1 H2]|[H1 H2]] [Sa1 Sa2] [Sc1 Sc2].
  - assert (a' < m) by (apply Sa1; exact H1).
    assert (m < c') by (apply Sc2; exact H2).
    repeat split; intros; lra.
  - assert (c' < m) by (apply Sc1; exact H1).
    assert (m < a') by (apply Sa2; exact H2).
    repeat split; intros; lra.
Qed.

(** What follows for a finite viewport whose four coordinates keep a
    multiple of their offsets from an inner midpoint. *)
Lemma offsets_kept_viewport (a b c d a' b' c' d' md mr : Q) :
  strictlyInside (pt md mr) (vp a b c d) = true ->
  offset_kept a md a' -> offset_kept b mr b' ->
  offset_kept c md c' -> offset_kept d mr d' ->
  let v := vp a b c d in
  let v' := vp a' b' c' d' in
  let m := pt md mr in
  allEdges scaledByZoomStep (setDimensions v' m) (setDimensions v m) = true
  /\ sameSide (domain m) (domain (topLeft v)) (domain (topLeft v')) = true
  /\ sameSide (range m) (range (topLeft v)) (range (topLeft v')) = true
  /\ sameSide (domain m) (domain (bottomRight v)) (domain (bottomRight v')) = true
  /\ sameSide (range m) (range (bottomRight v)) (range (bottomRight v')) = true
  /\ strictlyInside m v' = true
  /\ domainOriented v' = domainOriented v
  /\ rangeOriented v' = rangeOriented v
  /\ eqb (domainExtent v') (Finite 0) = false
  /\ eqb (rangeExtent v') (Finite 0) = false.
Proof.
  intros Hin Oa Ob Oc Od.
  destruct (strictlyInside_finite _ _ _ _ _ _ Hin) as [Hd Hr].
  pose proof (offset_side _ _ _ Oa) as Sa.
  pose proof (offset_side _ _ _ Ob) as Sb.
  pose proof (offset_side _ _ _ Oc) as Sc.
  pose proof (offset_side _ _ _ Od) as Sd.
  destruct (axis_kept a md c a' c' Hd Sa Sc) as (Bd & Ord & _ & Nd).
  assert ((d < mr /\ mr < b) \/ (b < mr /\ mr < d)) as Hr'
    by (destruct Hr as [H|H]; [right|left]; exact H).
  destruct (axis_kept d mr b d' b' Hr' Sd Sb) as (Br & Orr & _ & Nr).
  cbv zeta. repeat apply conj.
  - unfold allEdges.
    cbn [setDimensions vp pt domain range topLeft bottomRight tl br abs sub add neg].
    repeat (apply andb_true_iff; split); apply scaledByZoomStep_finite.
    + exact (offset_distance_from _ _ _ Oa).
    + exact (offset_distance_from _ _ _ Ob).
    + exact (offset_distance _ _ _ Oc).
    + exact (offset_distance _ _ _ Od).
  - apply sameSide_finite. exact Sa.
  - apply sameSide_finite. exact Sb.
  - apply sameSide_finite. exact Sc.
  - apply sameSide_finite. exact Sd.
  - unfold strictlyInside. apply andb_true_iff.
    split; apply strictlyBetween_finite;
      [exact Bd|destruct Br as [H|H]; [right|left]; exact H].
  - apply ltb_agree. exact Ord.
  - apply ltb_agree. exact Orr.
  - apply eqb_finite_false. intros E. apply Nd. lra.
  - apply eqb_finite_false. intros E. apply Nr. lra.
Qed.

(** Without rounding: for every finite viewport, every midpoint strictly
    between its two corners on each axis and every ratio,
    [calculateViewport] scales each of the four edge distances by
    [1 - ZOOM_AMT] or by [1 + ZOOM_AMT]; each corner coordinate stays
    strictly on its side of the midpoint, so the midpoint stays strictly
    inside, the order of the corners on each axis is kept and no extent
    becomes zero. *)
Lemma zoom_scales_edges_exactly (v : Viewport) (m : Point) (ratio : num) :
  finiteViewport v -> finitePoint m -> strictlyInside m v = true ->
  let v' := calculateViewport v m ratio in
  let d := setDimensions v m in
  let d' := setDimensions v' m in
  finiteViewport v'
  /\ allEdges scaledByZoomStep d' d = true
  /\ sameSide (domain m) (domain (topLeft v)) (domain (topLeft v')) = true
  /\ sameSide (range m) (range (topLeft v)) (range (topLeft v')) = true
  /\ sameSide (domain m) (domain (bottomRight v)) (domain (bottomRight v')) = true
  /\ sameSide (range m) (range (bottomRight v)) (range (bottomRight v')) = true
  /\ strictlyInside m v' = true
  /\ domainOriented v' = domainOriented v
  /\ rangeOriented v' = rangeOriented v
  /\ eqb (domainExtent v') (Finite 0) = false
  /\ eqb (rangeExtent v') (Finite 0) = false.
Proof.
  intros Hv Hm Hin.
  destruct (finiteViewport_inv v Hv) as (a & b & c & d0 & ->).
  destruct (finitePoint_inv m Hm) as (md & mr & ->).
  destruct (type_values ratio) as (t & Ht & Hcases).
  cbv zeta. rewrite (calculateViewport_finite t ratio) by exact Ht.
  destruct (zoom_offsets t a b c d0 md mr Hcases) as (Oa & Ob & Oc & Od).
  split; [repeat split|].
  exact (offsets_kept_viewport a b c d0 _ _ _ _ md mr Hin Oa Ob Oc Od).
Qed.

(** *** Which way a zoom step moves the edges *)

(** The offsets of the two corners of an axis from the midpoint after a
    step of [calculateViewport], when the corner that the step moves by
    [+ type] lies below the midpoint and the one that it moves by [- type]
    above: both offsets are scaled by [1 - type * ZOOM_AMT]. *)
Lemma axis_offsets_oriented (t lo hi m : Q) :
  lo < m -> m < hi ->
  (lo + t * 0.02 * Qabs (m + - lo)) + - m == (1 + - (t * 0.02)) * (lo + - m)
  /\ (lo + t * 0.02 * Qabs (lo + - m)) + - m == (1 + - (t * 0.02)) * (lo + - m)
  /\ (hi + - (t * 0.02 * Qabs (hi + - m))) + - m == (1 + - (t * 0.02)) * (hi + - m)
  /\ (hi + - (t * 0.02 * Qabs (m + - hi))) + - m == (1 + - (t * 0.02)) * (hi + - m).
Proof.
  intros H1 H2.
  rewrite (Qabs_pos (m + - lo)), (Qabs_neg (lo + - m)), (Qabs_pos (hi + - m)),
    (Qabs_neg (m + - hi)) by lra.
  repeat split; ring.
Qed.

(** The same with the two corners on the other sides: both offsets are
    scaled by [1 + type * ZOOM_AMT]. *)
Lemma axis_offsets_reversed (t lo hi m : Q) :
  m < lo -> hi < m ->
  (lo + t * 0.02 * Qabs (m + - lo)) + - m == (1 + t * 0.02) * (lo + - m)
  /\ (lo + t * 0.02 * Qabs (lo + - m)) + - m == (1 + t * 0.02) * (lo + - m)
  /\ (hi + - (t * 0.02 * Qabs (hi + - m))) + - m == (1 + t * 0.02) * (hi + - m)
  /\ (hi + - (t * 0.02 * Qabs (m + - hi))) + - m == (1 + t * 0.02) * (hi + - m).
Proof.
  intros H1 H2.
  rewrite (Qabs_neg (m + - lo)), (Qabs_pos (lo + - m)), (Qabs_neg (hi + - m)),
    (Qabs_pos (m + - hi)) by lra.
  repeat split; ring.
Qed.

(** Distances to [m] before and after, for an offset scaled by [f]. *)
Lemma offset_grows (c m c' f : Q) :
  c' + - m == f * (c + - m) -> 1 < f -> ~ c == m ->
  Qabs (c + - m) < Qabs (c' + - m) /\ Qabs (m + - c) < Qabs (m + - c').
Proof.
  intros H Hf Hne.
  assert (Qabs (c + - m) < Qabs (c' + - m)) as G
    by (apply (scaled_distance_gt _ _ f); [exact H|exact Hf|lra]).
  split; [exact G|]. rewrite (Qabs_swap m c), (Qabs_swap m c'). exact G.
Qed.

Lemma offset_shrinks (c m c' f : Q) :
  c' + - m == f * (c + - m) -> 0 < f -> f < 1 -> ~ c == m ->
  Qabs (c' + - m) < Qabs (c + - m) /\ Qabs (m + - c') < Qabs (m + - c).
Proof.
  intros H Hf Hf' Hne.
  assert (Qabs (c' + - m) < Qabs (c + - m)) as G
    by (apply (scaled_distance_lt _ _ f); [exact H|exact Hf|exact Hf'|lra]).
  split; [exact G|]. rewrite (Qabs_swap m c), (Qabs_swap m c'). exact G.
Qed.

Lemma domain_edges_scaled (a b c d a' b' c' d' md mr f : Q) :
  a' + - md == f * (a + - md) -> c' + - md == f * (c + - md) ->
  ~ a == md -> ~ c == md ->
  let e := setDimensions (vp a b c d) (pt md mr) in
  let e' := setDimensions (vp a' b' c' d') (pt md mr) in
  (1 < f -> domainEdges gtb e' e = true)
  /\ (0 < f -> f < 1 -> domainEdges ltb e' e = true).
Proof.
  intros Ea Ec Na Nc. cbv zeta. unfold domainEdges.
  cbn [setDimensions vp pt domain range topLeft bottomRight tl br abs sub add neg].
  split.
  - intros Hf. apply andb_true_iff. split; apply gtb_finite.
    + apply (offset_grows a md a' f Ea Hf Na).
    + apply (offset_grows c md c' f Ec Hf Nc).
  - intros Hf Hf'. apply andb_true_iff. split; apply ltb_finite.
    + apply (offset_shrinks a md a' f Ea Hf Hf' Na).
    + apply (offset_shrinks c md c' f Ec Hf Hf' Nc).
Qed.

Lemma range_edges_scaled (a b c d a' b' c' d' md mr f : Q) :
  b' + - mr == f * (b + - mr) -> d' + - mr == f * (d + - mr) ->
  ~ b == mr -> ~ d == mr ->
  let e := setDimensions (vp a b c d) (pt md mr) in
  let e' := setDimensions (vp a' b' c' d') (pt md mr) in
  (1 < f -> rangeEdges gtb e' e = true)
  /\ (0 < f -> f < 1 -> rangeEdges ltb e' e = true).
Proof.
  intros Eb Ed Nb Nd. cbv zeta. unfold rangeEdges.
  cbn [setDimensions vp pt domain range topLeft bottomRight tl br abs sub add neg].
  split.
  - intros Hf. apply andb_true_iff. split; apply gtb_finite.
    + apply (offset_grows b mr b' f Eb Hf Nb).
    + apply (offset_grows d mr d' f Ed Hf Nd).
  - intros Hf Hf'. apply andb_true_iff. split; apply ltb_finite.
    + apply (offset_shrinks b mr b' f Eb Hf Hf' Nb).
    + apply (offset_shrinks d mr d' f Ed Hf Hf' Nd).
Qed.

(** The edge distances after a step of [calculateViewport] with
    [type = t], on each axis and for each order of the corners. *)
Lemma edges_by_type (t a b c d md mr : Q) :
  strictlyInside (pt md mr) (vp a b c d) = true ->
  let v := vp a b c d in
  let e := setDimensions v (pt md mr) in
  let e' :=
    setDimensions
      (vp (a + t * 0.02 * Qabs (md + - a))
          (b + - (t * 0.02 * Qabs (mr + - b)))
          (c + - (t * 0.02 * Qabs (c + - md)))
          (d + t * 0.02 * Qabs (d + - mr)))
      (pt md mr) in
  (t == -1 ->
     (domainOriented v = true -> domainEdges gtb e' e = true)
     /\ (rangeOriented v = true -> rangeEdges gtb e' e = true)
     /\ (domainOriented v = false -> domainEdges ltb e' e = true)
     /\ (rangeOriented v = false -> rangeEdges ltb e' e = true))
  /\ (t == 1 ->
     (domainOriented v = true -> domainEdges ltb e' e = true)
     /\ (rangeOriented v = true -> rangeEdges ltb e' e = true)
     /\ (domainOriented v = false -> domainEdges gtb e' e = true)
     /\ (rangeOriented v = false -> rangeEdges gtb e' e = true)).
Proof.
  intros Hin. destruct (strictlyInside_finite _ _ _ _ _ _ Hin) as [Hd Hr].
  cbv zeta. unfold domainOriented, rangeOriented.
  cbn [vp pt domain range topLeft bottomRight].
  assert (~ a == md /\ ~ c == md /\ ~ b == mr /\ ~ d == mr) as (Na & Nc & Nb & Nd)
    by (repeat split; intros E; lra).
  split; intros Ht; repeat apply conj; intros O;
    first [apply ltb_finite in O | apply ltb_finite_false in O].
  - destruct (axis_offsets_oriented t a c md) as (E1 & _ & E3 & _); [lra|lra|].
    apply (domain_edges_scaled a b c d _ _ _ _ md mr _ E1 E3 Na Nc).
    rewrite Ht. lra.
  - destruct (axis_offsets_oriented t d b mr) as (_ & E2 & _ & E4); [lra|lra|].
    apply (range_edges_scaled a b c d _ _ _ _ md mr _ E4 E2 Nb Nd).
    rewrite Ht. lra.
  - destruct (axis_offsets_reversed t a c md) as (E1 & _ & E3 & _); [lra|lra|].
    apply (domain_edges_scaled a b c d _ _ _ _ md mr _ E1 E3 Na Nc);
      rewrite Ht; lra.
  - destruct (axis_offsets_reversed t d b mr) as (_ & E2 & _ & E4); [lra|lra|].
    apply (range_edges_scaled a b c d _ _ _ _ md mr _ E4 E2 Nb Nd);
      rewrite Ht; lra.
  - destruct (axis_offsets_oriented t a c md) as (E1 & _ & E3 & _); [lra|lra|].
    apply (domain_edges_scaled a b c d _ _ _ _ md mr _ E1 E3 Na Nc);
      rewrite Ht; lra.
  - destruct (axis_offsets_oriented t d b mr) as (_ & E2 & _ & E4); [lra|lra|].
    apply (range_edges_scaled a b c d _ _ _ _ md mr _ E4 E2 Nb Nd);
      rewrite Ht; lra.
  - destruct (axis_offsets_reversed t a c md) as (E1 & _ & E3 & _); [lra|lra|].
    apply (domain_edges_scaled a b c d _ _ _ _ md mr _ E1 E3 Na Nc).
    rewrite Ht. lra.
  - destruct (axis_offsets_reversed t d b mr) as (_ & E2 & _ & E4); [lra|lra|].
    apply (range_edges_scaled a b c d _ _ _ _ md mr _ E4 E2 Nb Nd).
    rewrite Ht. lra.
Qed.

(** Without rounding: for every finite viewport and every midpoint
    strictly inside it, [calculateViewport] with a finite ratio above one
    takes [type = -1] and, when the corners are in the order of the plot
    ([topLeft.domain < bottomRight.domain], [topLeft.range >
    bottomRight.range]), strictly increases all four edge distances: the
    viewport grows, a zoom out.  With a ratio below one it takes [type = 1]
    and strictly decreases all four.  On an axis whose corners are in the
    other order the two cases change places. *)
Lemma zoom_direction_exactly (v : Viewport) (m : Point) (ratio : Q) :
  finiteViewport v -> finitePoint m -> strictlyInside m v = true ->
  let e := setDimensions v m in
  let e' := setDimensions (calculateViewport v m (Finite ratio)) m in
  (1 < ratio ->
     eqb (type (Finite ratio)) (Finite (-1)) = true
     /\ (plotOriented v = true -> allEdges gtb e' e = true)
     /\ (domainOriented v = false -> domainEdges ltb e' e = true)
     /\ (rangeOriented v = false -> rangeEdges ltb e' e = true))
  /\ (ratio < 1 ->
     eqb (type (Finite ratio)) (Finite 1) = true
     /\ (plotOriented v = true -> allEdges ltb e' e = true)
     /\ (domainOriented v = false -> domainEdges gtb e' e = true)
     /\ (rangeOriented v = false -> rangeEdges gtb e' e = true)).
Proof.
  intros Hv Hm Hin.
  destruct (finiteViewport_inv v Hv) as (a & b & c & d & ->).
  destruct (finitePoint_inv m Hm) as (md & mr & ->).
  cbv zeta. split; intros Hr.
  - destruct (type_above_one ratio Hr) as (t & Ht & Et).
    rewrite (calculateViewport_finite t) by exact Ht. rewrite Ht.
    destruct (edges_by_type t a b c d md mr Hin) as [G _].
    destruct (G Et) as (Gd & Gr & Ld & Lr).
    split; [apply eqb_finite; exact Et|].
    split; [|split; assumption].
    intros O. apply andb_true_iff in O. destruct O as [Od Or].
    apply allEdges_axes; [apply Gd|apply Gr]; assumption.
  - destruct (type_below_one ratio Hr) as (t & Ht & Et).
    rewrite (calculateViewport_finite t) by exact Ht. rewrite Ht.
    destruct (edges_by_type t a b c d md mr Hin) as [_ G].
    destruct (G Et) as (Ld & Lr & Gd & Gr).
    split; [apply eqb_finite; exact Et|].
    split; [|split; assumption].
    intros O. apply andb_true_iff in O. destruct O as [Od Or].
    apply allEdges_axes; [apply Ld|apply Lr]; assumption.
Qed.

(** Without rounding and with the ratio exactly one, [type] is [1]: the
    result of [calculateViewport] is the viewport of a step with the factor
    [+ 1], of [ZOOM_AMT] times each edge distance.  For a finite viewport
    and a midpoint strictly inside it, that is not the viewport it started
    from: every corner coordinate changes, and with the corners in the
    order of the plot all four edge distances strictly decrease. *)
Lemma ratio_one_step_exactly :
  type (Finite 1) = Finite 1
  /\ (forall (v : Viewport) (m : Point),
        calculateViewport v m (Finite 1)
        = {| topLeft :=
               {| domain :=
                    (domain (topLeft v)
                     + Finite 1 * ZOOM_AMT * abs (domain m - domain (topLeft v)))%js;
                  range :=
                    (range (topLeft v)
                     - Finite 1 * ZOOM_AMT * abs (range m - range (topLeft v)))%js |};
             bottomRight :=
               {| domain :=
                    (domain (bottomRight v)
                     - Finite 1 * ZOOM_AMT
                       * abs (domain (bottomRight v) - domain m))%js;
                  range :=
                    (range (bottomRight v)
                     + Finite 1 * ZOOM_AMT
                       * abs (range (bottomRight v) - range m))%js |} |})
  /\ (forall (v : Viewport) (m : Point),
        finiteViewport v -> finitePoint m -> strictlyInside m v = true ->
        let v' := calculateViewport v m (Finite 1) in
        eqb (domain (topLeft v')) (domain (topLeft v)) = false
        /\ eqb (range (topLeft v')) (range (topLeft v)) = false
        /\ eqb (domain (bottomRight v')) (domain (bottomRight v)) = false
        /\ eqb (range (bottomRight v')) (range (bottomRight v)) = false
        /\ (plotOriented v = true ->
            allEdges ltb (setDimensions v' m) (setDimensions v m) = true)).
Proof.
  split; [reflexivity|]. split; [reflexivity|].
  intros v m Hv Hm Hin.
  destruct (finiteViewport_inv v Hv) as (a & b & c & d & ->).
  destruct (finitePoint_inv m Hm) as (md & mr & ->).
  cbv zeta. rewrite (calculateViewport_finite 1) by reflexivity.
  assert (1 == 1 \/ 1 == -1) as H1 by (left; reflexivity).
  destruct (zoom_offsets 1 a b c d md mr H1) as (Oa & Ob & Oc & Od).
  destruct (strictlyInside_finite _ _ _ _ _ _ Hin) as [Hd Hr].
  cbn [vp pt domain range topLeft bottomRight].
  repeat apply conj.
  - apply eqb_finite_false. apply (offset_moves a md _ Oa). lra.
  - apply eqb_finite_false. apply (offset_moves b mr _ Ob). lra.
  - apply eqb_finite_false. apply (offset_moves c md _ Oc). lra.
  - apply eqb_finite_false. apply (offset_moves d mr _ Od). lra.
  - intros O. apply andb_true_iff in O. destruct O as [Od' Or'].
    destruct (edges_by_type 1 a b c d md mr Hin) as [_ G].
    destruct (G ltac:(reflexivity)) as (Ld & Lr & _ & _).
    apply allEdges_axes; [apply Ld|apply Lr]; assumption.
Qed.

(** *** The handlers *)

Ltac run := unfold bind, gets, modify, defined, call, ret, throw, emit; cbn.

Lemma emitted_grows (s s' : State) (es : list Event) (e : Event) :
  emitted s' = emitted s ++ es ++ [e] -> s' <> s.
Proof.
  intros H E. subst s'.
  apply (f_equal length) in H. rewrite !length_app in H. cbn in H. lia.
Qed.

(** [drawMarquee] once the box is empty: the marquee rectangle, if it is in
    [$scope.rectangles], leaves it together with everything behind it, and
    one [rectangle-change] is sent; nothing else changes. *)
Lemma drawMarquee_emptyBox (s : State) :
  marqueeBox s = emptyBox ->
  exists s' es,
    drawMarquee s = Returned (tt, s')
    /\ viewport s' = viewport s
    /\ marqueeBox s' = emptyBox
    /\ dragStart s' = dragStart s
    /\ mouseCoordinates s' = mouseCoordinates s
    /\ emitted s' = emitted s ++ es
    /\ (es = [] \/ es = [rectangle_change]).
Proof.
  intros H. unfold drawMarquee. run. rewrite H. cbn.
  destruct (marqueeRect s) as [r|]; cbn.
  - destruct (indexOf MarqueeRectRef (rectangles s)) as [i|]; cbn.
    + eexists _, [rectangle_change]. repeat split; try reflexivity.
      * cbn. exact H.
      * right. reflexivity.
    + exists s, []. repeat split; try reflexivity; try assumption.
      * rewrite app_nil_r. reflexivity.
      * left. reflexivity.
  - exists s, []. repeat split; try reflexivity; try assumption.
    + rewrite app_nil_r. reflexivity.
    + left. reflexivity.
Qed.

Lemma translate_extent (v : Viewport) (dDomain dRange : num) :
  finiteViewport v -> is_finite dDomain -> is_finite dRange ->
  eqb (domainExtent (translate v dDomain dRange)) (domainExtent v) = true
  /\ eqb (rangeExtent (translate v dDomain dRange)) (rangeExtent v) = true.
Proof.
  intros Hv Hd Hr.
  destruct (finiteViewport_inv v Hv) as (a & b & c & d & ->).
  destruct dDomain as [x| | |]; try contradiction.
  destruct dRange as [y| | |]; try contradiction.
  unfold domainExtent, rangeExtent. cbn.
  split; apply Qeq_bool_iff; ring.
Qed.







(** C6, as the code has it.  [startDrag] signals the start of a viewport
    change first, whether a pointer position is tracked or not; without a
    tracked position it then returns and records no drag start, with one it
    records the plot point under the pointer as [dragStart]. *)
Theorem startDrag_signals_first (s : State) :
  (mouseCoordinates s = None ->
   startDrag s
   = Returned (None, set_emitted (emitted s ++ [user_viewport_change_start]) s))
  /\ (forall coordinates, mouseCoordinates s = Some coordinates ->
      startDrag s
      = Returned (Some false,
                  set_dragStart (Some (positionAsPlotPoint coordinates))
                    (set_emitted (emitted s ++ [user_viewport_change_start]) s))).
Proof.
  split.
  - intros H. unfold startDrag. run. rewrite H. reflexivity.
  - intros c H. unfold startDrag. run. rewrite H. reflexivity.
Qed.

Lemma startDrag_signals_first_witness :
  startDrag (idle plotViewport)
  = Returned (None, set_emitted [user_viewport_change_start] (idle plotViewport))
  /\ startDrag (hovering (pt 4 6))
     = Returned (Some false,
                 set_dragStart (Some (pt 4 6))
                   (set_emitted [user_viewport_change_start] (hovering (pt 4 6)))).
Proof.
  destruct (startDrag_signals_first (idle plotViewport)) as [A _].
  destruct (startDrag_signals_first (hovering (pt 4 6))) as [_ B].
  split; [exact (A eq_refl)|exact (B _ eq_refl)].
Defined.

(** C6, as the specification has it, fails: with no pointer position
    tracked [startDrag] records no drag start, but it does send
    [user:viewport:change:start]. *)
Lemma startDrag_untracked_counterexample :
  mouseCoordinates (idle plotViewport) = None
  /\ exists s',
       startDrag (idle plotViewport) = Returned (None, s')
       /\ dragStart s' = None
       /\ emitted (idle plotViewport) = []
       /\ emitted s' = [user_viewport_change_start].
Proof.
  split; [reflexivity|]. eexists. repeat split.
Qed.

Section Handlers.

Context {utils : Utils}.

(** When a helper throws, [endMarquee] throws with the store as it was:
    the box has not been emptied. *)
Lemma endMarquee_throws (s : State) :
  cornersViewport (marqueeBox s) = Threw tt -> endMarquee s = Threw s.
Proof.
  unfold cornersViewport, endMarquee. run.
  destruct (boxPointsFromOppositeCorners _ _) as [bp|[]]; cbn; [|reflexivity].
  intros ->. reflexivity.
Qed.

Lemma endMarquee_returns (s : State) (v : Viewport) :
  cornersViewport (marqueeBox s) = Returned v ->
  exists s' es,
    endMarquee s = Returned (tt, s')
    /\ viewport s' = v
    /\ marqueeBox s' = emptyBox
    /\ dragStart s' = dragStart s
    /\ mouseCoordinates s' = mouseCoordinates s
    /\ emitted s' = emitted s ++ es ++ [user_viewport_change_end v]
    /\ (es = [] \/ es = [rectangle_change]).
Proof.
  unfold cornersViewport. intros H.
  destruct (boxPointsFromOppositeCorners _ _) as [bp|e] eqn:E; [|discriminate].
  destruct (drawMarquee_emptyBox (set_marqueeBox emptyBox s) eq_refl)
    as (s1 & es & D & Hv & Hb & Hd & Hm & He & Hes).
  unfold endMarquee. run. rewrite E. cbn. rewrite H. cbn.
  unfold bind in D. cbn in D. rewrite D.
  eexists _, es. repeat split; cbn; try assumption.
  rewrite He. cbn. rewrite <- app_assoc. reflexivity.
Qed.

Lemma updateDrag_returns (s : State) (coordinates : Position) (origin : Point) :
  mouseCoordinates s = Some coordinates -> dragStart s = Some origin ->
  updateDrag s
  = Returned (tt, set_viewport
                    (translate (viewport s)
                       (domain origin - domain (positionAsPlotPoint coordinates))%js
                       (range origin - range (positionAsPlotPoint coordinates))%js)
                    s).
Proof.
  intros H1 H2. unfold updateDrag. run. rewrite H1. cbn. rewrite H2. reflexivity.
Qed.

Lemma updatePan_returns (s : State) (touch : ClientPoint) (bounds : Bounds)
    (origin : Point) :
  firstTouch s = Some origin ->
  let newPanPosition :=
    elementPositionAsPlotPosition
      {| x := (clientX touch - left bounds)%js; y := (clientY touch - top bounds)%js |}
      bounds (viewport s) in
  updatePan touch bounds s
  = Returned (tt, set_viewport
                    (translate (viewport s)
                       (domain origin - domain newPanPosition)%js
                       (range origin - range newPanPosition)%js)
                    (set_chartElementBounds (Some bounds) s)).
Proof.
  intros H. unfold updatePan, trackTouchPosition. run. rewrite H. reflexivity.
Qed.

(** [updateZoom] installs what [calculateViewport] makes of the viewport,
    the midpoint as a plot point and the ratio of the distances. *)
Lemma updateZoom_returns (s : State) (midpoint : ClientPoint) (bounds : Bounds)
    (distance : num) :
  let newMidpointPosition :=
    elementPositionAsPlotPosition
      {| x := (clientX midpoint - left bounds)%js;
         y := (clientY midpoint - top bounds)%js |}
      bounds (viewport s) in
  updateZoom midpoint bounds distance s
  = Returned (tt, set_viewport
                    (calculateViewport (viewport s) newMidpointPosition
                       (distanceRatio (lastTouchDistance s) (firstTouchDistance s)
                          distance))
                    (set_chartElementBounds (Some bounds) s)).
Proof. reflexivity. Qed.

Lemma onPinchChange_pan (s : State) (touch : Pinch.t) :
  comparePinchDrag (round (Pinch.distance touch))
    (round (toNumber (firstTouchDistance s)))
    (round (toNumber (lastTouchDistance s))) = true ->
  onPinchChange touch s
  = (updatePan (Pinch.midpoint touch) (Pinch.bounds touch) ;;;
     modify (set_lastTouchDistance (Some (Pinch.distance touch)))) s.
Proof.
  intros H. unfold onPinchChange. unfold bind at 1 2, gets. cbn. rewrite H.
  reflexivity.
Qed.

Lemma onPinchChange_zoom (s : State) (touch : Pinch.t) :
  comparePinchDrag (round (Pinch.distance touch))
    (round (toNumber (firstTouchDistance s)))
    (round (toNumber (lastTouchDistance s))) = false ->
  onPinchChange touch s
  = (updateZoom (Pinch.midpoint touch) (Pinch.bounds touch) (Pinch.distance touch) ;;;
     modify (set_lastTouchDistance (Some (Pinch.distance touch)))) s.
Proof.
  intros H. unfold onPinchChange. unfold bind at 1 2, gets. cbn. rewrite H.
  reflexivity.
Qed.


(** C4, on the code.  [endMarquee] has no guard for an absent corner: it
    hands the corners to the helpers as they are.  If a helper throws,
    [endMarquee] throws, the box not emptied; if the helpers return a
    viewport, [endMarquee] sends [user:viewport:change:end] with it and
    installs it.  In neither case does it return with the store as it
    was. *)
Theorem endMarquee_with_absent_corner (s : State) :
  start (marqueeBox s) = None \/ end_ (marqueeBox s) = None ->
  endMarquee s <> Returned (tt, s)
  /\ (cornersViewport (marqueeBox s) = Threw tt -> endMarquee s = Threw s)
  /\ (forall v, cornersViewport (marqueeBox s) = Returned v ->
        exists s' es,
          endMarquee s = Returned (tt, s')
          /\ viewport s' = v
          /\ emitted s' = emitted s ++ es ++ [user_viewport_change_end v]).
Proof.
  intros _.
  assert (forall v, cornersViewport (marqueeBox s) = Returned v ->
            exists s' es,
              endMarquee s = Returned (tt, s')
              /\ viewport s' = v
              /\ emitted s' = emitted s ++ es ++ [user_viewport_change_end v]) as R.
  { intros v H.
    destruct (endMarquee_returns s v H) as (s' & es & E & V & _ & _ & _ & Em & _).
    exists s', es. repeat split; assumption. }
  split; [|split; [apply endMarquee_throws|exact R]].
  destruct (cornersViewport (marqueeBox s)) as [v|[]] eqn:C.
  - destruct (R v eq_refl) as (s' & es & E & _ & Em). rewrite E.
    intros Q. injection Q as Q. exact (emitted_grows _ _ _ _ Em Q).
  - rewrite (endMarquee_throws s C). discriminate.
Qed.

(** C5, as the code has it.  [endMarquee] does not look at the extent of
    the marquee: for any two present corners, equal on an axis or not, it
    empties the box, sends [user:viewport:change:end] with the viewport
    that the helpers make of the corners, and installs that viewport. *)
Theorem marquee_installed_unchecked (s : State) (p q : Point) (v : Viewport) :
  marqueeBox s = {| start := Some p; end_ := Some q |} ->
  cornersViewport (marqueeBox s) = Returned v ->
  exists s' es,
    endMarquee s = Returned (tt, s')
    /\ viewport s' = v
    /\ marqueeBox s' = emptyBox
    /\ emitted s' = emitted s ++ es ++ [user_viewport_change_end v]
    /\ (es = [] \/ es = [rectangle_change]).
Proof.
  intros _ H.
  destruct (endMarquee_returns s v H) as (s' & es & E & V & B & _ & _ & Em & Hes).
  exists s', es. repeat split; assumption.
Qed.

End Handlers.

(** *** The handlers with the helpers of the specification *)


Lemma endMarquee_with_absent_corner_witness :
  endMarquee (utils := SpecUtils.spec_utils) (marquee (Some (pt 3 3)) None)
  = Threw (marquee (Some (pt 3 3)) None)
  /\ endMarquee (utils := SpecUtils.spec_utils) (marquee (Some (pt 3 3)) None)
     <> Returned (tt, marquee (Some (pt 3 3)) None).
Proof.
  destruct (endMarquee_with_absent_corner (utils := SpecUtils.spec_utils)
              (marquee (Some (pt 3 3)) None) (or_intror eq_refl)) as (N & T & _).
  split; [apply T; reflexivity|exact N].
Defined.

(** C5, as the specification has it, fails: a marquee whose two corners
    are the same point is not rejected.  [endMarquee] sends
    [user:viewport:change:end] and installs the viewport of zero extent in
    place of the viewport from (0, 10) to (10, 0). *)
Lemma degenerate_marquee_installed_counterexample :
  start (marqueeBox (marquee (Some (pt 3 3)) (Some (pt 3 3))))
  = end_ (marqueeBox (marquee (Some (pt 3 3)) (Some (pt 3 3))))
  /\ endMarquee (utils := SpecUtils.spec_utils)
       (marquee (Some (pt 3 3)) (Some (pt 3 3)))
     = Returned (tt, set_emitted [user_viewport_change_end (vp 3 3 3 3)]
                       (set_viewport (vp 3 3 3 3) (idle plotViewport)))
  /\ vp 3 3 3 3 <> viewport (marquee (Some (pt 3 3)) (Some (pt 3 3)))
  /\ eqb (domainExtent (vp 3 3 3 3)) (Finite 0) = true
  /\ eqb (rangeExtent (vp 3 3 3 3)) (Finite 0) = true.
Proof.
  repeat split. discriminate.
Qed.

Lemma marquee_installed_unchecked_witness :
  exists s' es,
    endMarquee (utils := SpecUtils.spec_utils)
      (marquee (Some (pt 3 3)) (Some (pt 3 3))) = Returned (tt, s')
    /\ viewport s' = vp 3 3 3 3
    /\ marqueeBox s' = emptyBox
    /\ emitted s' = [] ++ es ++ [user_viewport_change_end (vp 3 3 3 3)]
    /\ (es = [] \/ es = [rectangle_change]).
Proof.
  exact (marquee_installed_unchecked (utils := SpecUtils.spec_utils)
           (marquee (Some (pt 3 3)) (Some (pt 3 3))) (pt 3 3) (pt 3 3) (vp 3 3 3 3)
           eq_refl eq_refl).
Defined.

End PlotFacts.

(** ** The summary-widget rule *)

Module RuleFacts.

Import Eff Rule Samples.

Lemma storing_mct_stores {Env : Type} : stores (Env := Env) storing_mct.
Proof. intros path value w. eexists. split; reflexivity. Qed.

Lemma counting_quiet : quiet counting.
Proof. intros w. eexists. split; reflexivity. Qed.

Section Widget.

Context {Env : Type} {openmct : MCT Env}.

(** [forEach] calls every callback of the list, in the order of the list. *)
Lemma forEach_invokes (cbs : list (option (Callback Env))) :
  (forall callback, Some callback ∈ cbs -> quiet callback) ->
  forall (i : nat) (s : Store Env),
  exists s',
    forEach i cbs s = Returned (tt, s')
    /\ domainObject (world s') = domainObject (world s)
    /\ invoked s' = invoked s ++ registered i cbs
    /\ called cbs (world s) = Some (world s').
Proof.
  induction cbs as [|cb rest IH]; intros Hq i s.
  - exists s. cbn. rewrite app_nil_r. repeat split.
  - assert (forall callback, Some callback ∈ rest -> quiet callback) as Hrest.
    { intros c Hc. apply Hq. apply elem_of_cons. right. exact Hc. }
    destruct cb as [f|].
    + assert (quiet f) as Qf by (apply Hq; apply elem_of_cons; left; reflexivity).
      destruct (Qf (world s)) as (w' & Ef & Df).
      destruct (IH Hrest (S i) {| world := w'; invoked := invoked s ++ [i] |})
        as (s' & E & D & I & C).
      exists s'. cbn. unfold bind, invoke, bind, modify, outside. cbn.
      rewrite Ef. cbn. split; [exact E|].
      split; [rewrite D; exact Df|].
      split; [rewrite I; cbn; rewrite <- app_assoc; reflexivity|exact C].
    + destruct (IH Hrest (S i) s) as (s' & E & D & I & C).
      exists s'. cbn. unfold bind, ret. cbn. repeat split; assumption.
Qed.


End Widget.


End RuleFacts.

(** ** The plot directive: gestures as sequences of handler calls *)

Module GestureFacts.

Import JSNum Eff Plot Geometry PlotAxes Gestures Samples GestureSamples NumFacts PlotFacts.
(** Here the arithmetic is the one without rounding. *)
#[local] Existing Instance exact.
Local Open Scope Q_scope.

(** *** What [drawMarquee] does, case by case *)

Lemma drawMarquee_draws (s : State) (p q : Point) :
  start (marqueeBox s) = Some p -> end_ (marqueeBox s) = Some q ->
  drawMarquee s
  = Returned (tt,
      set_emitted (emitted s ++ [rectangle_change])
        (set_marqueeRect
           (Some {| rect_start := p; rect_end := q;
                    color := [Finite 1; Finite 1; Finite 1; Finite 0.5];
                    layer := "top" |})
           (match marqueeRect s with
            | None => set_rectangles (rectangles s ++ [MarqueeRectRef]) s
            | Some _ => s
            end))).
Proof.
  intros H1 H2. unfold drawMarquee. run. rewrite H1, H2.
  destruct (marqueeRect s); reflexivity.
Qed.

Lemma drawMarquee_clears (s : State) (r : Rect) (i : nat) :
  start (marqueeBox s) = None \/ end_ (marqueeBox s) = None ->
  marqueeRect s = Some r -> indexOf MarqueeRectRef (rectangles s) = Some i ->
  drawMarquee s
  = Returned (tt,
      set_emitted (emitted s ++ [rectangle_change])
        (set_marqueeRect None (set_rectangles (take i (rectangles s)) s))).
Proof.
  intros H Hr Hi. unfold drawMarquee, bind, gets. cbn -[indexOf take].
  destruct H as [H|H]; rewrite H; [|destruct (start (marqueeBox s))];
    cbn -[indexOf take]; rewrite Hr, Hi; reflexivity.
Qed.

Lemma drawMarquee_idle (s : State) :
  start (marqueeBox s) = None \/ end_ (marqueeBox s) = None ->
  marqueeRect s = None \/ indexOf MarqueeRectRef (rectangles s) = None ->
  drawMarquee s = Returned (tt, s).
Proof.
  intros H H'. unfold drawMarquee, bind, gets. cbn -[indexOf take].
  assert (match marqueeRect s, indexOf MarqueeRectRef (rectangles s) with
          | Some _, Some _ => False
          | _, _ => True
          end) as N.
  { destruct H' as [E|E]; rewrite E; [exact I|]. destruct (marqueeRect s); exact I. }
  destruct H as [H|H]; rewrite H;
    [|destruct (start (marqueeBox s))]; cbn -[indexOf take];
    destruct (marqueeRect s); try reflexivity;
    destruct (indexOf MarqueeRectRef (rectangles s)); try reflexivity; contradiction.
Qed.

(** *** [indexOf] and the occurrences of the marquee rectangle *)

Lemma RectRef_eqb_eq (a b : RectRef) : RectRef_eqb a b = true <-> a = b.
Proof.
  destruct a as [i|], b as [j|]; simpl.
  - rewrite Nat.eqb_eq. split; [intros ->; reflexivity|intros [= ->]; reflexivity].
  - split; intros H; discriminate H.
  - split; intros H; discriminate H.
  - split; reflexivity.
Qed.

Lemma indexOf_app_found (before after : list RectRef) :
  marqueeRefs before = 0%nat ->
  indexOf MarqueeRectRef (before ++ MarqueeRectRef :: after) = Some (length before).
Proof.
  unfold marqueeRefs. induction before as [|r before IH]; intros H; cbn.
  - reflexivity.
  - destruct r as [k|]; cbn in H; [|discriminate H].
    cbn. rewrite (IH H). reflexivity.
Qed.

Lemma indexOf_split (l : list RectRef) (i : nat) :
  indexOf MarqueeRectRef l = Some i ->
  exists after, l = take i l ++ MarqueeRectRef :: after
                /\ marqueeRefs (take i l) = 0%nat.
Proof.
  revert i. induction l as [|r l IH]; intros i H; cbn in H; [discriminate|].
  destruct r as [k|]; cbn in H.
  - destruct (indexOf MarqueeRectRef l) as [j|]; [|discriminate].
    injection H as <-. destruct (IH j eq_refl) as (after & E1 & E2).
    exists after. cbn. split; [f_equal; exact E1|exact E2].
  - injection H as <-. exists l. split; reflexivity.
Qed.

Lemma indexOf_none (l : list RectRef) :
  indexOf MarqueeRectRef l = None <-> marqueeRefs l = 0%nat.
Proof.
  unfold marqueeRefs. induction l as [|r l IH]; cbn; [tauto|].
  destruct r as [k|]; cbn.
  - rewrite <- IH. destruct (indexOf MarqueeRectRef l); cbn; split; congruence.
  - split; discriminate.
Qed.

Lemma marqueeRefs_app (l1 l2 : list RectRef) :
  marqueeRefs (l1 ++ l2) = (marqueeRefs l1 + marqueeRefs l2)%nat.
Proof. unfold marqueeRefs. rewrite List.filter_app, length_app. reflexivity. Qed.

(** *** Properties kept by the monad's operations *)

Section Preserves.

Context {S : Type} (P : S -> Prop).

Lemma preserves_ret {A : Type} (a : A) : preserves P (ret a).
Proof. intros s H. exact H. Qed.

Lemma preserves_throw {A : Type} : preserves P (throw (A := A)).
Proof. intros s H. exact H. Qed.

Lemma preserves_gets {A : Type} (f : S -> A) : preserves P (gets f).
Proof. intros s H. exact H. Qed.

Lemma preserves_defined {A : Type} (v : option A) : preserves P (defined v).
Proof. destruct v; intros s H; exact H. Qed.

Lemma preserves_call {A : Type} (r : Outcome unit A) : preserves P (call r).
Proof. destruct r; intros s H; exact H. Qed.

Lemma preserves_modify (f : S -> S) :
  (forall s, P s -> P (f s)) -> preserves P (modify f).
Proof. intros Hf s H. apply Hf. exact H. Qed.

Lemma preserves_bind {A B : Type} (c : M S A) (k : A -> M S B) :
  preserves P c -> (forall a, preserves P (k a)) -> preserves P (bind c k).
Proof.
  intros Hc Hk s H. unfold bind. specialize (Hc s H).
  destruct (c s) as [[a s']|s']; cbn in *.
  - apply Hk. exact Hc.
  - exact Hc.
Qed.

End Preserves.

(** *** The marquee rectangle and [$scope.rectangles] *)

Ltac keeps_step :=
  first
    [ apply preserves_bind; [|intros ?]
    | apply preserves_gets
    | apply preserves_ret
    | apply preserves_throw
    | apply preserves_defined
    | apply preserves_call
    | (apply preserves_modify; intros ? ?; assumption)
    | match goal with
      | |- preserves _ (match ?x with _ => _ end) => destruct x
      end ].

Lemma drawMarquee_consistent : preserves marqueeConsistent drawMarquee.
Proof.
  intros s H. unfold marqueeConsistent in *.
  destruct (start (marqueeBox s)) as [p|] eqn:Es;
    [destruct (end_ (marqueeBox s)) as [q|] eqn:Ee|].
  - rewrite (drawMarquee_draws s p q Es Ee). cbn -[marqueeRefs take].
    destruct (marqueeRect s); cbn -[marqueeRefs]; [exact H|].
    rewrite marqueeRefs_app, H. reflexivity.
  - destruct (marqueeRect s) as [r|] eqn:Er.
    + destruct (indexOf MarqueeRectRef (rectangles s)) as [i|] eqn:Ei.
      * rewrite (drawMarquee_clears s r i (or_intror Ee) Er Ei). cbn -[marqueeRefs take].
        destruct (indexOf_split _ _ Ei) as (after & _ & Z). exact Z.
      * apply indexOf_none in Ei. rewrite Ei in H. discriminate H.
    + rewrite (drawMarquee_idle s (or_intror Ee) (or_introl Er)). cbn -[marqueeRefs take].
      rewrite Er. exact H.
  - destruct (marqueeRect s) as [r|] eqn:Er.
    + destruct (indexOf MarqueeRectRef (rectangles s)) as [i|] eqn:Ei.
      * rewrite (drawMarquee_clears s r i (or_introl Es) Er Ei). cbn -[marqueeRefs take].
        destruct (indexOf_split _ _ Ei) as (after & _ & Z). exact Z.
      * apply indexOf_none in Ei. rewrite Ei in H. discriminate H.
    + rewrite (drawMarquee_idle s (or_introl Es) (or_introl Er)). cbn -[marqueeRefs take].
      rewrite Er. exact H.
Qed.

Section Calls.

Context {utils : Utils}.

Lemma perform_consistent (c : Call) : preserves marqueeConsistent (perform c).
Proof.
  destruct c; cbn [perform];
    unfold trackMousePosition, updateMarquee, updateDrag, untrackMousePosition,
      startMarquee, endMarquee, startDrag, endDrag, onPanStart, startPan,
      onPanChange, updatePan, onPinchStart, startZoom, trackTouchPositionAt,
      onPinchChange, updateZoom, trackTouchPosition, onTouchEnd, endTouch, emit;
    repeat first [apply drawMarquee_consistent | keeps_step].
Qed.

(** *** A mouse move *)

Lemma trackMousePosition_plain (event : MouseEvent) (s : State) :
  start (marqueeBox s) = None -> dragStart s = None ->
  trackMousePosition event s = Returned (tt, moved event s).
Proof.
  intros Hb Hd. unfold trackMousePosition. run. rewrite Hb. cbn. rewrite Hd.
  reflexivity.
Qed.

Lemma trackMousePosition_drag (event : MouseEvent) (s : State) (origin : Point) :
  start (marqueeBox s) = None -> dragStart s = Some origin ->
  let q := plotPointAt (client event) (getBoundingClientRect event) (viewport s) in
  trackMousePosition event s
  = Returned (tt, set_viewport
                    (translate (viewport s) (domain origin - domain q)%js
                       (range origin - range q)%js)
                    (moved event s)).
Proof.
  intros Hb Hd. unfold trackMousePosition, updateDrag. run. rewrite Hb. cbn.
  rewrite Hd. cbn. rewrite Hd. reflexivity.
Qed.

Lemma trackMousePosition_marquee (event : MouseEvent) (s : State) (p : Point) :
  start (marqueeBox s) = Some p -> dragStart s = None ->
  let q := plotPointAt (client event) (getBoundingClientRect event) (viewport s) in
  trackMousePosition event s
  = Returned (tt,
      set_emitted (emitted s ++ [rectangle_change])
        (set_marqueeRect
           (Some {| rect_start := p; rect_end := q;
                    color := [Finite 1; Finite 1; Finite 1; Finite 0.5];
                    layer := "top" |})
           (match marqueeRect s with
            | None => set_rectangles (rectangles s ++ [MarqueeRectRef])
            | Some _ => fun s => s
            end (set_marqueeBox {| start := Some p; end_ := Some q |}
                   (moved event s))))).
Proof.
  intros Hb Hd. unfold trackMousePosition, updateMarquee, drawMarquee. run.
  rewrite Hb. cbn.
  destruct (marqueeRect s); cbn; repeat (first [rewrite Hb|rewrite Hd]; cbn);
    reflexivity.
Qed.

(** X1.  [trackMousePosition] returns on every store and for every event:
    the reads in [updateMarquee] and [updateDrag] find the position that it
    has just recorded.  It records the bounds and the position of the
    pointer, whose plot point is taken in the viewport as it is at the
    call; a drag in progress then moves the viewport by the drag start
    minus that point, a marquee in progress gets that point as its second
    corner. *)
Theorem trackMousePosition_returns (event : MouseEvent) (s : State) :
  let bounds := getBoundingClientRect event in
  let q := plotPointAt (client event) bounds (viewport s) in
  exists s',
    trackMousePosition event s = Returned (tt, s')
    /\ chartElementBounds s' = Some bounds
    /\ mouseCoordinates s' = Some (tracked (client event) bounds (viewport s))
    /\ dragStart s' = dragStart s
    /\ viewport s'
       = match dragStart s with
         | Some origin =>
             translate (viewport s) (domain origin - domain q)%js
               (range origin - range q)%js
         | None => viewport s
         end
    /\ marqueeBox s'
       = match start (marqueeBox s) with
         | Some p => {| start := Some p; end_ := Some q |}
         | None => marqueeBox s
         end.
Proof.
  cbv zeta.
  destruct (start (marqueeBox s)) as [p|] eqn:Hb;
    destruct (marqueeRect s) as [r|] eqn:Hr;
    destruct (dragStart s) as [origin|] eqn:Hd;
    unfold trackMousePosition, updateMarquee, updateDrag, drawMarquee; run;
    repeat (first [rewrite Hb|rewrite Hr|rewrite Hd]; cbn);
    eexists; repeat split; cbn; assumption.
Qed.

(** *** The marquee rectangle among the rectangles of other owners *)

(** X2.  When the marquee goes, [splice] is called with the index of the
    marquee rectangle and no count: the rectangles that were added to
    [$scope.rectangles] behind the marquee rectangle leave the array
    together with it.  Those before it stay, [marqueeRect] is cleared and
    one [rectangle-change] is sent. *)
Theorem drawMarquee_cuts_from_marquee (s : State) (r : Rect)
    (before after : list RectRef) :
  start (marqueeBox s) = None \/ end_ (marqueeBox s) = None ->
  marqueeRect s = Some r ->
  rectangles s = before ++ MarqueeRectRef :: after ->
  marqueeRefs before = 0%nat ->
  drawMarquee s
  = Returned (tt,
      set_emitted (emitted s ++ [rectangle_change])
        (set_marqueeRect None (set_rectangles before s))).
Proof.
  intros Hb Hr Hl Hn.
  assert (indexOf MarqueeRectRef (rectangles s) = Some (length before)) as Hi
    by (rewrite Hl; apply indexOf_app_found; exact Hn).
  rewrite (drawMarquee_clears s r _ Hb Hr Hi), Hl.
  rewrite take_app_length. reflexivity.
Qed.

(** *** A marquee, from the press of the button to its release *)

Lemma startMarquee_returns (s : State) (coordinates : Position) :
  mouseCoordinates s = Some coordinates ->
  startMarquee s
  = Returned (tt, set_marqueeBox
                    {| start := Some (positionAsPlotPoint coordinates);
                       end_ := end_ (marqueeBox s) |} s).
Proof. intros H. unfold startMarquee. run. rewrite H. reflexivity. Qed.

Lemma endMarquee_clears (s : State) (v : Viewport) (r : Rect) (i : nat) :
  cornersViewport (marqueeBox s) = Returned v ->
  marqueeRect s = Some r ->
  indexOf MarqueeRectRef (rectangles s) = Some i ->
  endMarquee s
  = Returned (tt,
      set_viewport v
        (set_emitted (emitted s ++ [rectangle_change; user_viewport_change_end v])
           (set_marqueeRect None
              (set_rectangles (take i (rectangles s))
                 (set_marqueeBox emptyBox s))))).
Proof.
  unfold cornersViewport. intros H Hr Hi.
  destruct (boxPointsFromOppositeCorners _ _) as [bp|e] eqn:E; [|discriminate].
  unfold endMarquee, drawMarquee. run. rewrite E. cbn. rewrite H. cbn.
  rewrite Hr. cbn. rewrite Hi. cbn. rewrite <- app_assoc. reflexivity.
Qed.

(** X3.  A marquee from start to end.  On a store with a tracked pointer, no
    marquee and no drag in progress, the press of the button
    ([startMarquee]), one move of the mouse ([trackMousePosition]) and the
    release ([endMarquee]) install the viewport that the helpers make of
    the plot points under the pointer at the press and at the move.  The
    marquee rectangle is added to [$scope.rectangles] and removed again:
    the array ends as it began, and the observers have seen two
    [rectangle-change] and then [user:viewport:change:end] with the new
    viewport. *)
Theorem marquee_gesture (s : State) (coordinates : Position) (event : MouseEvent)
    (v : Viewport) :
  mouseCoordinates s = Some coordinates ->
  marqueeBox s = emptyBox -> marqueeRect s = None ->
  marqueeRefs (rectangles s) = 0%nat -> dragStart s = None ->
  cornersViewport
    {| start := Some (positionAsPlotPoint coordinates);
       end_ := Some (plotPointAt (client event) (getBoundingClientRect event)
                       (viewport s)) |}
  = Returned v ->
  let s' :=
    performAll [call_startMarquee; call_trackMousePosition event; call_endMarquee] s in
  viewport s' = v
  /\ rectangles s' = rectangles s
  /\ marqueeRect s' = None
  /\ marqueeBox s' = emptyBox
  /\ emitted s'
     = emitted s ++ [rectangle_change; rectangle_change; user_viewport_change_end v].
Proof.
  intros Hm Hb Hr Hn Hd Hv. cbv zeta. unfold performAll. cbn [foldl perform].
  rewrite (startMarquee_returns s coordinates Hm). cbn [storeAfter].
  rewrite Hb. cbn [end_ emptyBox].
  set (s1 := set_marqueeBox _ s).
  rewrite (trackMousePosition_marquee event s1 (positionAsPlotPoint coordinates)
             eq_refl Hd).
  cbn [storeAfter].
  assert (marqueeRect s1 = None) as -> by exact Hr.
  set (s2 := set_emitted _ _).
  assert (indexOf MarqueeRectRef (rectangles s2) = Some (length (rectangles s))) as Hi.
  { change (rectangles s2) with (rectangles s ++ [MarqueeRectRef]).
    apply indexOf_app_found. exact Hn. }
  rewrite (endMarquee_clears s2 v _ _ Hv eq_refl Hi). cbn [storeAfter].
  change (rectangles s2) with (rectangles s ++ [MarqueeRectRef]).
  cbn -[take]. rewrite take_app_length, <- app_assoc.
  repeat split.
Qed.

(** *** A drag, from the press of the button to its release *)

(** X4.  A drag from start to end.  On a store with a tracked pointer and no
    marquee in progress, the press ([startDrag]), one move of the mouse and
    the release ([endDrag]) shift the viewport by the plot point under the
    pointer at the press minus the plot point under it at the move, that
    one taken in the viewport of before the move.  No drag start is left
    behind, and the observers have seen [user:viewport:change:start] and
    then [user:viewport:change:end] with the shifted viewport. *)
Theorem drag_gesture (s : State) (coordinates : Position) (event : MouseEvent) :
  mouseCoordinates s = Some coordinates -> start (marqueeBox s) = None ->
  let origin := positionAsPlotPoint coordinates in
  let q := plotPointAt (client event) (getBoundingClientRect event) (viewport s) in
  let v' := translate (viewport s) (domain origin - domain q)%js
              (range origin - range q)%js in
  let s' :=
    performAll [call_startDrag; call_trackMousePosition event; call_endDrag] s in
  viewport s' = v'
  /\ dragStart s' = None
  /\ mouseCoordinates s'
     = Some (tracked (client event) (getBoundingClientRect event) (viewport s))
  /\ emitted s'
     = emitted s ++ [user_viewport_change_start; user_viewport_change_end v'].
Proof.
  intros Hm Hb origin q v' s'.
  assert (s' = set_emitted
                 (emitted s ++ [user_viewport_change_start; user_viewport_change_end v'])
                 (set_dragStart None
                    (set_viewport v'
                       (moved event
                          (set_dragStart (Some origin)
                             (set_emitted (emitted s ++ [user_viewport_change_start])
                                s)))))) as ->.
  { unfold s', performAll. cbn [foldl perform].
    assert (startDrag s
            = Returned (Some false,
                        set_dragStart (Some origin)
                          (set_emitted (emitted s ++ [user_viewport_change_start]) s)))
      as E by (unfold startDrag; run; rewrite Hm; reflexivity).
    unfold bind at 1. rewrite E. cbn [ret storeAfter].
    set (s1 := set_dragStart _ _).
    rewrite (trackMousePosition_drag event s1 origin Hb eq_refl).
    cbn [storeAfter]. unfold endDrag. run. rewrite <- app_assoc. reflexivity. }
  repeat split.
Qed.

(** *** A pan that has not moved *)

Lemma add_NaN (a : num) : (a + NaN)%js = NaN.
Proof. destruct a; reflexivity. Qed.

Lemma sub_self (a : num) :
  (is_finite a -> eqb (a - a)%js (Finite 0) = true)
  /\ (~ is_finite a -> (a - a)%js = NaN).
Proof.
  destruct a as [q| | |]; cbn; split; intros H; try reflexivity; try contradiction.
  - apply Qeq_bool_iff. ring.
Qed.

Lemma add_zero (a d : num) :
  is_finite a -> eqb d (Finite 0) = true -> eqb (a + d)%js a = true.
Proof.
  destruct a as [q| | |]; try contradiction. intros _.
  destruct d as [z| | |]; try discriminate. cbn. intros H.
  apply Qeq_bool_iff in H. apply Qeq_bool_iff. rewrite H. ring.
Qed.

Lemma onPanStart_returns (touch : Pan.t) (s : State) :
  onPanStart touch s
  = Returned (tt,
      set_firstTouch
        (Some (plotPointAt (Pan.touch touch) (Pan.bounds touch) (viewport s)))
        (set_chartElementBounds (Some (Pan.bounds touch))
           (set_emitted (emitted s ++ [user_viewport_change_start]) s))).
Proof. reflexivity. Qed.

(** X5.  [onPanStart] and then [onPanChange] for the same touch: the delta
    is the plot point under the touch minus itself.  With a finite viewport
    and a finite plot point the viewport is numerically what it was.  When
    the plot point has a coordinate that is not finite, the delta on that
    axis is [NaN], and so are both corners of the viewport on that axis
    afterwards. *)
Theorem pan_without_movement (touch : Pan.t) (s : State) :
  let q := plotPointAt (Pan.touch touch) (Pan.bounds touch) (viewport s) in
  let s' := performAll [call_onPanStart touch; call_onPanChange touch] s in
  (finiteViewport (viewport s) -> finitePoint q ->
   sameViewport (viewport s') (viewport s) = true)
  /\ (~ is_finite (domain q) ->
      domain (topLeft (viewport s')) = NaN
      /\ domain (bottomRight (viewport s')) = NaN)
  /\ (~ is_finite (range q) ->
      range (topLeft (viewport s')) = NaN
      /\ range (bottomRight (viewport s')) = NaN).
Proof.
  cbv zeta. unfold performAll. cbn [foldl perform].
  rewrite onPanStart_returns. cbn [storeAfter].
  set (s1 := set_firstTouch _ _). unfold onPanChange.
  rewrite (updatePan_returns s1 _ _ _ eq_refl). cbn [storeAfter].
  change (viewport s1) with (viewport s).
  set (q := elementPositionAsPlotPosition _ _ _).
  change (plotPointAt (Pan.touch touch) (Pan.bounds touch) (viewport s)) with q.
  unfold translate. cbn [viewport set_viewport topLeft bottomRight domain range].
  destruct (sub_self (domain q)) as [Fd Nd]. destruct (sub_self (range q)) as [Fr Nr].
  split; [|split].
  - intros [[H1 H2] [H3 H4]] [Hd Hr]. unfold sameViewport, samePoint.
    cbn [topLeft bottomRight domain range].
    rewrite !add_zero by auto. reflexivity.
  - intros H. rewrite (Nd H), !add_NaN. split; reflexivity.
  - intros H. rewrite (Nr H), !add_NaN. split; reflexivity.
Qed.

(** *** The start of a pinch *)

(** X6.  [onPinchStart] sends [user:viewport:change:start] and records the
    bounds whatever the touches are.  With two touches or more it returns,
    having recorded the distance, the plot points of the first two touches
    and that of the midpoint.  With fewer it throws at the read of the
    missing touch, and what an earlier gesture recorded as first distance
    and first touch stays. *)
Theorem onPinchStart_needs_two_touches (touch : Pinch.t) (s : State) :
  let s' := storeAfter (onPinchStart touch s) in
  let at_ := fun c => plotPointAt c (Pinch.bounds touch) (viewport s) in
  emitted s' = emitted s ++ [user_viewport_change_start]
  /\ chartElementBounds s' = Some (Pinch.bounds touch)
  /\ viewport s' = viewport s
  /\ lastTouchDistance s' = lastTouchDistance s
  /\ (forall t0 t1 rest, Pinch.touches touch = t0 :: t1 :: rest ->
      onPinchStart touch s = Returned (tt, s')
      /\ firstTouchDistance s' = Some (Pinch.distance touch)
      /\ firstTouches s' = Some (at_ t0, at_ t1)
      /\ firstTouch s' = Some (at_ (Pinch.midpoint touch)))
  /\ ((length (Pinch.touches touch) < 2)%nat ->
      onPinchStart touch s = Threw s'
      /\ firstTouchDistance s' = firstTouchDistance s
      /\ firstTouches s' = firstTouches s
      /\ firstTouch s' = firstTouch s).
Proof.
  cbv zeta. unfold onPinchStart, startZoom, trackTouchPositionAt, trackTouchPosition.
  destruct (Pinch.touches touch) as [|t0 [|t1 rest]]; run.
  - repeat split; discriminate.
  - repeat split; discriminate.
  - repeat split; try (cbn in *; lia);
      match goal with
      | H : _ :: _ = _ |- _ => injection H as <- <- <-
      end; reflexivity.
Qed.

(** X7.  The marquee rectangle is kept track of.  If the marquee rectangle
    is in [$scope.rectangles] once while [marqueeRect] is set and not at
    all while it is not, then this is so again after every sequence of
    calls of the handlers, whatever their arguments and whether they
    return or throw. *)
Theorem marquee_rectangle_tracked (calls : list Call) (s : State) :
  marqueeConsistent s -> marqueeConsistent (performAll calls s).
Proof.
  revert s. induction calls as [|c calls IH]; intros s H; cbn.
  - exact H.
  - apply IH. apply perform_consistent. exact H.
Qed.

(** *** A change of a pinch *)

(** X8.  [onPinchChange] throws in one case only: the change is taken as a
    pan and no first touch is recorded.  It then has recorded the bounds
    and nothing else; in particular [lastTouchDistance] stays.  In every
    other case it returns and has recorded the bounds and the distance.
    Before any distance is recorded the change is never taken as a pan, so
    a pinch change that no pinch start went before returns. *)
Theorem onPinchChange_throws_without_first_touch (touch : Pinch.t) (s : State) :
  let pan :=
    comparePinchDrag (round (Pinch.distance touch))
      (round (toNumber (firstTouchDistance s)))
      (round (toNumber (lastTouchDistance s))) in
  (pan = true -> firstTouch s = None ->
   onPinchChange touch s
   = Threw (set_chartElementBounds (Some (Pinch.bounds touch)) s))
  /\ (pan = false \/ firstTouch s <> None ->
      exists s',
        onPinchChange touch s = Returned (tt, s')
        /\ lastTouchDistance s' = Some (Pinch.distance touch)
        /\ chartElementBounds s' = Some (Pinch.bounds touch))
  /\ (firstTouchDistance s = None -> lastTouchDistance s = None -> pan = false).
Proof.
  cbv zeta. split; [|split].
  - intros Hp Hf. rewrite (onPinchChange_pan s touch Hp).
    unfold updatePan, trackTouchPosition. run. rewrite Hf. reflexivity.
  - intros H.
    destruct (comparePinchDrag _ _ _) eqn:Hp.
    + destruct H as [H|H]; [discriminate H|].
      destruct (firstTouch s) as [origin|] eqn:Hf; [|contradiction].
      rewrite (onPinchChange_pan s touch Hp). unfold bind.
      rewrite (updatePan_returns s _ _ origin Hf). eexists. repeat split.
    + rewrite (onPinchChange_zoom s touch Hp). unfold bind.
      rewrite updateZoom_returns. eexists. repeat split.
  - intros H1 H2. rewrite H1, H2. cbn [toNumber round].
    unfold comparePinchDrag.
    destruct (round (Pinch.distance touch)); reflexivity.
Qed.

(** *** What the handlers leave alone *)

Lemma perform_keeps_lastTouchDistance (d : option num) (c : Call) :
  isPinchChange c = false ->
  preserves (fun s => lastTouchDistance s = d) (perform c).
Proof.
  destruct c; cbn [isPinchChange]; intros H; try discriminate H; cbn [perform];
    unfold trackMousePosition, updateMarquee, updateDrag, untrackMousePosition,
      startMarquee, endMarquee, startDrag, endDrag, onPanStart, startPan,
      onPanChange, updatePan, onPinchStart, startZoom, trackTouchPositionAt,
      trackTouchPosition, onTouchEnd, endTouch, drawMarquee, emit;
    repeat keeps_step.
Qed.

(** X9.  Only [onPinchChange] assigns [lastTouchDistance]: a sequence of
    calls without it leaves the variable as it was.  In particular the end
    of a touch and the start of the next pinch do not reset it, so the
    first change of a pinch is compared with the last distance of the
    pinch before. *)
Theorem lastTouchDistance_outlives_gesture (calls : list Call) (s : State) :
  forallb (fun c => negb (isPinchChange c)) calls = true ->
  lastTouchDistance (performAll calls s) = lastTouchDistance s.
Proof.
  revert s. induction calls as [|c calls IH]; intros s H.
  - reflexivity.
  - cbn [forallb] in H. apply andb_true_iff in H. destruct H as [Hc H].
    change (performAll (c :: calls) s)
      with (performAll calls (storeAfter (perform c s))).
    rewrite (IH _ H).
    apply (perform_keeps_lastTouchDistance (lastTouchDistance s) c);
      [apply negb_true_iff; exact Hc|reflexivity].
Qed.

(** X10.  The three handlers that end a gesture ([endMarquee], [endDrag],
    [onTouchEnd]), when they return, have sent
    [user:viewport:change:end] last, and the viewport that it carries is
    the viewport of the scope at the return. *)
Theorem end_event_carries_viewport (c : Call) (s s' : State) :
  endsGesture c = true -> perform c s = Returned (tt, s') ->
  exists es, emitted s' = emitted s ++ es ++ [user_viewport_change_end (viewport s')].
Proof.
  destruct c; cbn [endsGesture perform]; intros H E; try discriminate H.
  - destruct (cornersViewport (marqueeBox s)) as [v|[]] eqn:Ev.
    + destruct (endMarquee_returns s v Ev) as (s1 & es & E1 & Hv & _ & _ & _ & He & _).
      rewrite E1 in E. injection E as <-. exists es. rewrite Hv. exact He.
    + rewrite (endMarquee_throws s Ev) in E. discriminate E.
  - injection E as <-. exists []. reflexivity.
  - injection E as <-. exists []. reflexivity.
Qed.

(** *** The point that a drag holds *)

Lemma eqb_trans (a b c : num) :
  eqb a b = true -> eqb b c = true -> eqb a c = true.
Proof.
  destruct a as [x| | |], b as [y| | |], c as [z| | |]; cbn;
    try discriminate; try reflexivity.
  intros H1 H2. apply Qeq_bool_iff in H1, H2. apply Qeq_bool_iff.
  rewrite H1. exact H2.
Qed.

Lemma add_back (o q : num) :
  is_finite o -> is_finite q -> eqb (q + (o - q))%js o = true.
Proof.
  destruct o as [x| | |], q as [y| | |]; try contradiction. intros _ _.
  cbn. apply Qeq_bool_iff. ring.
Qed.

End Calls.

Lemma drawMarquee_cuts_from_marquee_witness :
  exists s',
    drawMarquee drawn = Returned (tt, s')
    /\ rectangles drawn = [OtherRect 0; MarqueeRectRef; OtherRect 1]
    /\ rectangles s' = [OtherRect 0]
    /\ marqueeRect s' = None
    /\ emitted s' = [rectangle_change].
Proof.
  eexists. split.
  - eapply (drawMarquee_cuts_from_marquee drawn _
             [OtherRect 0] [OtherRect 1]).
    + right. reflexivity.
    + reflexivity.
    + reflexivity.
    + reflexivity.
  - repeat split.
Defined.

Lemma marquee_rectangle_tracked_witness :
  marqueeConsistent drawn
  /\ marqueeConsistent
       (performAll (utils := SpecUtils.spec_utils)
          [call_trackMousePosition (mouseAt 60 60); call_endMarquee;
           call_onPanChange (panAt 50 50); call_startMarquee]
          drawn).
Proof.
  split; [reflexivity|].
  apply (marquee_rectangle_tracked (utils := SpecUtils.spec_utils)). reflexivity.
Defined.

Lemma marquee_gesture_witness :
  let s' :=
    performAll (utils := SpecUtils.spec_utils)
      [call_startMarquee; call_trackMousePosition (mouseAt 60 60); call_endMarquee]
      (hovering (pt 2 8)) in
  sameViewport (viewport s') (vp 6 8 2 4) = true
  /\ rectangles s' = []
  /\ marqueeRect s' = None
  /\ emitted s'
     = [rectangle_change; rectangle_change; user_viewport_change_end (viewport s')].
Proof.
  cbv zeta.
  destruct (cornersViewport (utils := SpecUtils.spec_utils)
              {| start := Some (pt 2 8);
                 end_ := Some (plotPointAt (utils := SpecUtils.spec_utils)
                                 (client (mouseAt 60 60))
                                 (getBoundingClientRect (mouseAt 60 60))
                                 (viewport (hovering (pt 2 8)))) |})
    as [v|e] eqn:Hv; [|vm_compute in Hv; discriminate Hv].
  destruct (marquee_gesture (utils := SpecUtils.spec_utils) (hovering (pt 2 8)) _
              (mouseAt 60 60) v eq_refl eq_refl eq_refl eq_refl eq_refl Hv)
    as (E1 & E2 & E3 & _ & E5).
  rewrite E1, E2, E3, E5. vm_compute in Hv. injection Hv as <-.
  repeat split.
Defined.

Lemma drag_gesture_witness :
  let s' :=
    performAll (utils := SpecUtils.spec_utils)
      [call_startDrag; call_trackMousePosition (mouseAt 60 60); call_endDrag]
      (hovering (pt 4 6)) in
  sameViewport (viewport s') (vp (-2) 12 8 2) = true
  /\ dragStart s' = None
  /\ emitted s' = [user_viewport_change_start; user_viewport_change_end (viewport s')].
Proof.
  cbv zeta.
  destruct (drag_gesture (utils := SpecUtils.spec_utils) (hovering (pt 4 6)) _
              (mouseAt 60 60) eq_refl eq_refl) as (E1 & E2 & _ & E4).
  rewrite E1, E2, E4. repeat split.
Defined.

Lemma pan_without_movement_witness :
  sameViewport
    (viewport (performAll (utils := SpecUtils.spec_utils)
                 [call_onPanStart (panAt 30 70); call_onPanChange (panAt 30 70)]
                 (idle plotViewport)))
    plotViewport = true.
Proof.
  destruct (pan_without_movement (utils := SpecUtils.spec_utils) (panAt 30 70)
              (idle plotViewport)) as [H _].
  apply H; vm_compute; tauto.
Defined.

Lemma onPinchStart_needs_two_touches_witness :
  (exists s',
     onPinchStart (utils := SpecUtils.spec_utils)
       (fingers [touchAt 40 50; touchAt 60 50]) (idle plotViewport)
     = Returned (tt, s')
     /\ firstTouchDistance s' = Some (Finite 20))
  /\ (exists s',
        onPinchStart (utils := SpecUtils.spec_utils) (fingers [touchAt 40 50])
          (pinching (Finite 35) None)
        = Threw s'
        /\ firstTouchDistance s' = Some (Finite 35)
        /\ emitted s' = [user_viewport_change_start]).
Proof.
  destruct (onPinchStart_needs_two_touches (utils := SpecUtils.spec_utils)
              (fingers [touchAt 40 50; touchAt 60 50]) (idle plotViewport))
    as (_ & _ & _ & _ & A & _).
  destruct (onPinchStart_needs_two_touches (utils := SpecUtils.spec_utils)
              (fingers [touchAt 40 50]) (pinching (Finite 35) None))
    as (E & _ & _ & _ & _ & B).
  destruct (A _ _ _ eq_refl) as (A1 & A2 & _).
  destruct B as (B1 & B2 & _); [cbn; lia|].
  split; eexists; [split; [exact A1|exact A2]|].
  split; [exact B1|]. split; [exact B2|exact E].
Defined.

Lemma onPinchChange_throws_without_first_touch_witness :
  onPinchChange (utils := SpecUtils.spec_utils) (pinch (Finite 20))
    (set_firstTouchDistance (Some (Finite 21)) (idle plotViewport))
  = Threw (set_chartElementBounds (Some canvas)
             (set_firstTouchDistance (Some (Finite 21)) (idle plotViewport)))
  /\ exists s',
       onPinchChange (utils := SpecUtils.spec_utils) (pinch (Finite 20))
         (idle plotViewport)
       = Returned (tt, s')
       /\ lastTouchDistance s' = Some (Finite 20).
Proof.
  destruct (onPinchChange_throws_without_first_touch (utils := SpecUtils.spec_utils)
              (pinch (Finite 20))
              (set_firstTouchDistance (Some (Finite 21)) (idle plotViewport)))
    as (A & _ & _).
  destruct (onPinchChange_throws_without_first_touch (utils := SpecUtils.spec_utils)
              (pinch (Finite 20)) (idle plotViewport)) as (_ & B & _).
  split; [apply A; reflexivity|].
  destruct B as (s' & E & L & _); [left; reflexivity|].
  exists s'. split; [exact E|exact L].
Defined.

Lemma lastTouchDistance_outlives_gesture_witness :
  lastTouchDistance
    (performAll (utils := SpecUtils.spec_utils)
       [call_onTouchEnd; call_onPinchStart (fingers [touchAt 40 50; touchAt 60 50])]
       (pinching (Finite 20) (Some (Finite 35))))
  = Some (Finite 35).
Proof.
  apply (lastTouchDistance_outlives_gesture (utils := SpecUtils.spec_utils)).
  reflexivity.
Defined.

Lemma end_event_carries_viewport_witness :
  exists es,
    emitted (storeAfter (perform (utils := SpecUtils.spec_utils) call_endDrag
                           (dragging (pt 4 6) (pt 5 5))))
    = emitted (dragging (pt 4 6) (pt 5 5)) ++ es
      ++ [user_viewport_change_end plotViewport].
Proof.
  apply (end_event_carries_viewport (utils := SpecUtils.spec_utils) call_endDrag
           (dragging (pt 4 6) (pt 5 5)) _ eq_refl eq_refl).
Defined.


End GestureFacts.

(** ** The plot directive: zoom steps *)

Module ZoomFacts.

Import JSNum Eff Plot Geometry Gestures Samples GestureSamples NumFacts PlotFacts.
(** Here the arithmetic is the one without rounding. *)
#[local] Existing Instance exact.
Local Open Scope Q_scope.

(** *** Two zoom steps in opposite directions *)

Lemma Qabs_cases (x n : Q) :
  n == Qabs x -> (0 <= x /\ n == x) \/ (x < 0 /\ n == - x).
Proof.
  intros H. destruct (Qlt_le_dec x 0) as [L|L]; [right|left]; split;
    try assumption; rewrite H; [apply Qabs_neg; lra|apply Qabs_pos; exact L].
Qed.

(** An offset [x] from the midpoint that one step scales by [1 + s * ZOOM_AMT]
    and the next by [1 - s * ZOOM_AMT], [n], [n1] and [n2] being the
    distances before, between and after. *)
Lemma opposite_steps (x x1 x2 n n1 n2 s : Q) :
  (s == 1 \/ s == -1) ->
  n == Qabs x -> x1 == x + s * 0.02 * n ->
  n1 == Qabs x1 -> x2 == x1 + - (s * 0.02 * n1) ->
  n2 == Qabs x2 ->
  n2 == 0.9996 * n.
Proof.
  intros Hs Hn H1 Hn1 H2 Hn2.
  assert ((s * 0.02 * n == 0.02 * n /\ s * 0.02 * n1 == 0.02 * n1)
          \/ (s * 0.02 * n == - (0.02 * n) /\ s * 0.02 * n1 == - (0.02 * n1)))
    as [[E E1]|[E E1]]
    by (destruct Hs as [Hs|Hs]; [left|right]; split; rewrite Hs; ring).
  - destruct (Qabs_cases x n Hn) as [[? ?]|[? ?]];
      destruct (Qabs_cases x1 n1 Hn1) as [[? ?]|[? ?]];
      destruct (Qabs_cases x2 n2 Hn2) as [[? ?]|[? ?]]; lra.
  - destruct (Qabs_cases x n Hn) as [[? ?]|[? ?]];
      destruct (Qabs_cases x1 n1 Hn1) as [[? ?]|[? ?]];
      destruct (Qabs_cases x2 n2 Hn2) as [[? ?]|[? ?]]; lra.
Qed.

(** X12.  A zoom step out and a zoom step in about the same midpoint do not
    undo each other.  For every finite viewport and every finite midpoint,
    inside the viewport or not, [calculateViewport] with a ratio above one
    and then with a ratio below one, or the other way round, leaves each of
    the four edge distances at [0.9996] times what it was: [1 + ZOOM_AMT]
    times [1 - ZOOM_AMT]. *)
Theorem opposite_zoom_steps (v : Viewport) (m : Point) (r1 r2 : Q) :
  finiteViewport v -> finitePoint m ->
  (1 < r1 /\ r2 < 1) \/ (r1 < 1 /\ 1 < r2) ->
  edgesScaledBy 0.9996
    (setDimensions
       (calculateViewport (calculateViewport v m (Finite r1)) m (Finite r2)) m)
    (setDimensions v m) = true.
Proof.
  intros Hv Hm Hr.
  destruct (finiteViewport_inv v Hv) as (a & b & c & d & ->).
  destruct (finitePoint_inv m Hm) as (md & mr & ->).
  assert (exists t1 t2, type (Finite r1) = Finite t1 /\ type (Finite r2) = Finite t2
                        /\ (t1 == 1 \/ t1 == -1) /\ t2 == - t1)
    as (t1 & t2 & E1 & E2 & Ht & Ho).
  { destruct Hr as [[H1 H2]|[H1 H2]].
    - destruct (type_above_one r1 H1) as (t1 & E1 & Q1).
      destruct (type_below_one r2 H2) as (t2 & E2 & Q2).
      exists t1, t2. repeat split; try assumption; [right; exact Q1|lra].
    - destruct (type_below_one r1 H1) as (t1 & E1 & Q1).
      destruct (type_above_one r2 H2) as (t2 & E2 & Q2).
      exists t1, t2. repeat split; try assumption; [left; exact Q1|lra]. }
  assert (forall k, t2 * 0.02 * k == - (t1 * 0.02 * k)) as T
    by (intros k; rewrite Ho; ring).
  assert (- t1 == 1 \/ - t1 == -1) as Ht'
    by (destruct Ht as [H|H]; [right|left]; lra).
  rewrite (calculateViewport_finite t1 _ a b c d md mr E1).
  rewrite (calculateViewport_finite t2 _ _ _ _ _ md mr E2).
  unfold edgesScaledBy, allEdges.
  cbn [setDimensions vp pt domain range topLeft bottomRight tl br abs sub add neg mul].
  rewrite !andb_true_iff. repeat split; apply eqb_finite.
  - set (a1 := a + t1 * 0.02 * Qabs (md + - a)).
    set (a2 := a1 + t2 * 0.02 * Qabs (md + - a1)).
    apply (opposite_steps (a + - md) (a1 + - md) (a2 + - md) _ (Qabs (md + - a1)) _ t1);
      [exact Ht|apply Qabs_swap|unfold a1; ring|apply Qabs_swap| |apply Qabs_swap].
    pose proof (T (Qabs (md + - a1))). unfold a2. lra.
  - set (b1 := b + - (t1 * 0.02 * Qabs (mr + - b))).
    set (b2 := b1 + - (t2 * 0.02 * Qabs (mr + - b1))).
    apply (opposite_steps (b + - mr) (b1 + - mr) (b2 + - mr) _ (Qabs (mr + - b1)) _
             (- t1));
      [exact Ht'|apply Qabs_swap|unfold b1; ring|apply Qabs_swap| |apply Qabs_swap].
    pose proof (T (Qabs (mr + - b1))). unfold b2. lra.
  - set (c1 := c + - (t1 * 0.02 * Qabs (c + - md))).
    set (c2 := c1 + - (t2 * 0.02 * Qabs (c1 + - md))).
    apply (opposite_steps (c + - md) (c1 + - md) (c2 + - md) _ (Qabs (c1 + - md)) _
             (- t1));
      [exact Ht'|reflexivity|unfold c1; ring|reflexivity| |reflexivity].
    pose proof (T (Qabs (c1 + - md))). unfold c2. lra.
  - set (d1 := d + t1 * 0.02 * Qabs (d + - mr)).
    set (d2 := d1 + t2 * 0.02 * Qabs (d1 + - mr)).
    apply (opposite_steps (d + - mr) (d1 + - mr) (d2 + - mr) _ (Qabs (d1 + - mr)) _ t1);
      [exact Ht|reflexivity|unfold d1; ring|reflexivity| |reflexivity].
    pose proof (T (Qabs (d1 + - mr))). unfold d2. lra.
Qed.

(** *** A pinch without a distance *)

Lemma div_by_zero (a : num) (z : Q) :
  z == 0 -> (a / Finite z)%js = NaN \/ (a / Finite z)%js = PInf \/ (a / Finite z)%js = NInf.
Proof.
  intros H. apply Qeq_alt in H.
  destruct a as [x| | |]; unfold div; rewrite ?H; try tauto.
  destruct (x ?= 0); tauto.
Qed.

Lemma div_by_NaN (a : num) : (a / NaN)%js = NaN.
Proof. destruct a; reflexivity. Qed.

Lemma opposite_zoom_steps_witness :
  edgesScaledBy 0.9996
    (setDimensions
       (calculateViewport (calculateViewport plotViewport (pt 5 5) (Finite 2))
          (pt 5 5) (Finite 0.5))
       (pt 5 5))
    (setDimensions plotViewport (pt 5 5)) = true.
Proof.
  apply (opposite_zoom_steps plotViewport (pt 5 5) 2 0.5).
  - vm_compute. tauto.
  - vm_compute. tauto.
  - left. split; reflexivity.
Defined.

End ZoomFacts.

(** ** The plot directive: ticks of the axes *)

Module AxesFacts.

Import JSNum Eff Plot Geometry PlotAxes Samples GestureSamples NumFacts PlotFacts.
(** Here the arithmetic is the one without rounding. *)
#[local] Existing Instance exact.
Local Open Scope Q_scope.

Lemma inject_succ (n : nat) : natural (S n) == natural n + 1.
Proof.
  unfold natural. rewrite Nat2Z.inj_succ. unfold Z.succ. rewrite inject_Z_plus.
  reflexivity.
Qed.

Lemma inject_nonneg (n : nat) : 0 <= natural n.
Proof.
  unfold natural. change 0 with (inject_Z 0). rewrite <- Zle_Qle.
  apply Nat2Z.is_nonneg.
Qed.

Lemma inject_lt (k n : nat) : (k < n)%nat -> natural k + 1 <= natural n.
Proof.
  intros H. rewrite <- inject_succ. unfold natural. rewrite <- Zle_Qle. lia.
Qed.

(** *** The values of [tickNumber] *)

Lemma tickNumbers_length (n : nat) (t : num) : length (tickNumbers n t) = n.
Proof. revert t. induction n as [|n IH]; intros t; cbn; [|rewrite IH]; reflexivity. Qed.

Lemma tickNumbers_lookup (n k : nat) (q : Q) :
  (k < n)%nat ->
  exists x, tickNumbers n (Finite q) !! k = Some (Finite x) /\ x == q + natural k.
Proof.
  revert k q. induction n as [|n IH]; intros k q H; [lia|].
  destruct k as [|k]; cbn [tickNumbers].
  - exists q. split; [reflexivity|]. change (natural 0) with 0. ring.
  - destruct (IH k (q + 1)) as (x & E & Hx); [lia|].
    exists x. split; [exact E|]. rewrite Hx, inject_succ. ring.
Qed.

(** *** The loop *)

(** With a finite [tickCount] the loop makes [n] passes when [n] is the
    least natural number with [tickNumber + n >= tickCount], and pushes the
    value of each pass. *)
Lemma tickLoop_passes (n : nat) :
  forall (fuel : nat) (c q : Q) (firstTick size denominator : num) (pushed : list num),
  (n < fuel)%nat ->
  c <= q + natural n ->
  (forall k, (k < n)%nat -> q + natural k < c) ->
  tickLoop fuel (Finite c) firstTick size denominator (Finite q) pushed
  = Some (pushed
          ++ map (tickValue firstTick size denominator) (tickNumbers n (Finite q))).
Proof.
  induction n as [|n IH]; intros fuel c q f sz den pushed Hf Hhi Hlo;
    (destruct fuel as [|fuel]; [lia|]); cbn [tickLoop tickNumbers map].
  - assert (ltb (Finite q) (Finite c) = false) as ->.
    { apply ltb_finite_false. change (natural 0) with 0 in Hhi. lra. }
    rewrite app_nil_r. reflexivity.
  - assert (ltb (Finite q) (Finite c) = true) as ->.
    { apply ltb_finite. specialize (Hlo 0%nat ltac:(lia)).
      change (natural 0) with 0 in Hlo. lra. }
    change (Finite q + Finite 1)%js with (Finite (q + 1)).
    rewrite (IH fuel c (q + 1)).
    + rewrite <- app_assoc. reflexivity.
    + lia.
    + rewrite inject_succ in Hhi. lra.
    + intros k Hk. specialize (Hlo (S k) ltac:(lia)). rewrite inject_succ in Hlo. lra.
Qed.

(** The number of passes from [tickNumber = 0]. *)
Lemma passes_from_zero (c : Q) :
  let n := Z.to_nat (Qceiling c) in
  c <= 0 + natural n /\ (forall k, (k < n)%nat -> 0 + natural k < c).
Proof.
  cbv zeta. destruct (Z_lt_le_dec 0 (Qceiling c)) as [L|L].
  - unfold natural at 1. rewrite Z2Nat.id by lia. split.
    + pose proof (Qle_ceiling c). lra.
    + intros k Hk.
      assert (natural k <= inject_Z (Qceiling c - 1)) as H.
      { unfold natural. rewrite <- Zle_Qle. lia. }
      pose proof (Qceiling_lt c). lra.
  - replace (Z.to_nat (Qceiling c)) with 0%nat by lia. split.
    + pose proof (Qle_ceiling c).
      assert (inject_Z (Qceiling c) <= 0)
        by (change 0 with (inject_Z 0); rewrite <- Zle_Qle; exact L).
      change (natural 0) with 0. lra.
    + intros k Hk. lia.
Qed.

Lemma updateAxis_finite (fuel : nat) (c : Q) (firstTick lastTick : num) (axis : Axis) :
  tickCount axis = Finite c -> (Z.to_nat (Qceiling c) < fuel)%nat ->
  updateAxis fuel firstTick lastTick axis
  = Some {| label := label axis; tickCount := tickCount axis;
            ticks := map (tickValue firstTick (axisSize firstTick lastTick)
                            (Finite (c + - 1)))
                       (tickNumbers (Z.to_nat (Qceiling c)) (Finite 0)) |}.
Proof.
  intros Hc Hf. unfold updateAxis. rewrite Hc.
  destruct (passes_from_zero c) as [Hhi Hlo].
  change (Finite c - Finite 1)%js with (Finite (c + - 1)).
  rewrite (tickLoop_passes _ fuel c 0 _ _ _ [] Hf Hhi Hlo). reflexivity.
Qed.

(** X14.  With finite tick counts the watcher of the viewport ends, and each
    axis gets as many ticks as there are natural numbers below its
    [tickCount]: the count rounded up, none for a count of zero or less.
    The ticks of before are dropped; labels, counts and the viewport
    stay. *)
Theorem ticks_count {utils : Utils} (fuel : nat) (s : State) (axes : Axes)
    (cd cr : Q) :
  tickCount (domainAxis axes) = Finite cd -> tickCount (rangeAxis axes) = Finite cr ->
  (Z.to_nat (Qceiling cd) < fuel)%nat -> (Z.to_nat (Qceiling cr) < fuel)%nat ->
  exists s' axes',
    onViewportChange fuel s axes = Some (s', axes')
    /\ viewport s' = viewport s
    /\ length (ticks (domainAxis axes')) = Z.to_nat (Qceiling cd)
    /\ length (ticks (rangeAxis axes')) = Z.to_nat (Qceiling cr)
    /\ label (domainAxis axes') = label (domainAxis axes)
    /\ label (rangeAxis axes') = label (rangeAxis axes)
    /\ tickCount (domainAxis axes') = tickCount (domainAxis axes)
    /\ tickCount (rangeAxis axes') = tickCount (rangeAxis axes).
Proof.
  intros Hd Hr Fd Fr. unfold onViewportChange, updateAxesForCurrentViewport.
  rewrite (updateAxis_finite fuel cd _ _ _ Hd Fd).
  rewrite (updateAxis_finite fuel cr _ _ _ Hr Fr).
  eexists _, _. split; [reflexivity|]. cbn [ticks domainAxis rangeAxis label tickCount].
  rewrite !length_map, !tickNumbers_length. repeat split.
  unfold refreshMouseCoordinates.
  destruct (mouseCoordinates s), (chartElementBounds s); reflexivity.
Qed.

(** The tick of pass [k], for a count above one and finite ends. *)
Lemma tick_at (fuel k : nat) (c f l : Q) (axis : Axis) :
  tickCount axis = Finite c -> 1 < c ->
  (Z.to_nat (Qceiling c) < fuel)%nat -> (k < Z.to_nat (Qceiling c))%nat ->
  exists axis' x,
    updateAxis fuel (Finite f) (Finite l) axis = Some axis'
    /\ x == natural k
    /\ ticks axis' !! k = Some (Finite (f + - ((f + - l) * (x / (c + - 1))))).
Proof.
  intros Hc H1 Hf Hk.
  destruct (tickNumbers_lookup _ k 0 Hk) as (x & E & Hx).
  eexists _, x. split; [apply (updateAxis_finite fuel c _ _ _ Hc Hf)|].
  split; [rewrite Hx; ring|].
  cbn [ticks]. rewrite list_lookup_fmap, E. cbn [fmap option_fmap option_map].
  unfold tickValue, axisSize.
  rewrite (div_finite x (c + - 1)) by lra. reflexivity.
Qed.

(** X15.  The ticks span the viewport.  For a natural tick count of two or
    more and finite ends, the first tick is numerically the coordinate of
    [topLeft] and the last tick that of [bottomRight]. *)
Theorem ticks_span_viewport (fuel n : nat) (f l : Q) (axis : Axis) :
  tickCount axis = Finite (natural n) -> (2 <= n)%nat -> (n < fuel)%nat ->
  exists axis' t0 t1,
    updateAxis fuel (Finite f) (Finite l) axis = Some axis'
    /\ length (ticks axis') = n
    /\ ticks axis' !! 0%nat = Some t0 /\ eqb t0 (Finite f) = true
    /\ ticks axis' !! (n - 1)%nat = Some t1 /\ eqb t1 (Finite l) = true.
Proof.
  intros Hc Hn Hf.
  assert (Z.to_nat (Qceiling (natural n)) = n) as En by (unfold natural; rewrite Qceiling_Z; lia).
  assert (1 < natural n) as H1.
  { pose proof (inject_lt 1 n ltac:(lia)) as H. change (natural 1) with 1 in H. lra. }
  destruct (tick_at fuel 0 (natural n) f l axis Hc H1) as (a0 & x0 & E0 & Hx0 & T0);
    [rewrite En; lia|rewrite En; lia|].
  destruct (tick_at fuel (n - 1) (natural n) f l axis Hc H1) as (a1 & x1 & E1 & Hx1 & T1);
    [rewrite En; lia|rewrite En; lia|].
  rewrite E0 in E1. injection E1 as <-.
  eexists a0, _, _. split; [exact E0|].
  split.
  { rewrite (updateAxis_finite fuel (natural n) _ _ _ Hc) in E0 by (rewrite En; lia).
    injection E0 as <-. cbn. rewrite length_map, tickNumbers_length. exact En. }
  split; [exact T0|]. split.
  { apply eqb_finite. change (natural 0) with 0 in Hx0. rewrite Hx0. field. lra. }
  split; [exact T1|].
  apply eqb_finite.
  assert (x1 == natural n + - 1) as ->.
  { rewrite Hx1. pose proof (inject_succ (n - 1)) as H.
    replace (S (n - 1)) with n in H by lia. rewrite H. ring. }
  field. lra.
Qed.

(** X16.  Without rounding, the ticks follow the order of the corners.  For
    a finite tick count above one and finite ends, in the arithmetic
    without rounding, each tick is below the next when the coordinate of
    [topLeft] is below that of [bottomRight], above the next when it is
    above, and equal to it when the two are equal.  (Between two
    neighbouring doubles the ticks of the doubles repeat, see
    [ticks_of_doubles_repeat].) *)
Theorem ticks_follow_corners (fuel k : nat) (c f l : Q) (axis : Axis) :
  tickCount axis = Finite c -> 1 < c ->
  (Z.to_nat (Qceiling c) < fuel)%nat -> (S k < Z.to_nat (Qceiling c))%nat ->
  exists axis' t t',
    updateAxis fuel (Finite f) (Finite l) axis = Some axis'
    /\ ticks axis' !! k = Some t /\ ticks axis' !! (S k) = Some t'
    /\ (f < l -> ltb t t' = true)
    /\ (l < f -> ltb t' t = true)
    /\ (f == l -> eqb t t' = true).
Proof.
  intros Hc H1 Hf Hk.
  destruct (tick_at fuel k c f l axis Hc H1 Hf) as (a0 & x0 & E0 & Hx0 & T0); [lia|].
  destruct (tick_at fuel (S k) c f l axis Hc H1 Hf Hk) as (a1 & x1 & E1 & Hx1 & T1).
  rewrite E0 in E1. injection E1 as <-.
  eexists a0, _, _. split; [exact E0|]. split; [exact T0|]. split; [exact T1|].
  assert (x1 == x0 + 1) as Hs by (rewrite Hx1, Hx0, inject_succ; ring).
  assert (0 < / (c + - 1)) as Hu by (apply Qinv_lt_0_compat; lra).
  set (u := / (c + - 1)) in *.
  assert (x1 / (c + - 1) == x0 * u + u) as D1
    by (unfold Qdiv; fold u; rewrite Hs; ring).
  assert (x0 / (c + - 1) == x0 * u) as D0 by (unfold Qdiv; fold u; ring).
  split; [|split]; intros H.
  - apply ltb_finite. rewrite D0, D1.
    assert (0 < (l + - f) * u) by (apply Qmult_lt_0_compat; lra). lra.
  - apply ltb_finite. rewrite D0, D1.
    assert (0 < (f + - l) * u) by (apply Qmult_lt_0_compat; lra). lra.
  - apply eqb_finite. rewrite D0, D1, H. ring.
Qed.

Lemma add_NaN_r (a : num) : (a + NaN)%js = NaN.
Proof. destruct a; reflexivity. Qed.

Lemma mul_NaN_r (a : num) : (a * NaN)%js = NaN.
Proof. destruct a; reflexivity. Qed.

(** X17.  A tick count of one gives one tick, and that tick is [NaN]: the
    denominator [tickCount - 1] is zero and the tick number is zero, and
    [0 / 0] is [NaN].  This is so for every viewport. *)
Theorem single_tick_is_NaN (fuel : nat) (c : Q) (firstTick lastTick : num)
    (axis : Axis) :
  tickCount axis = Finite c -> c == 1 -> (1 < fuel)%nat ->
  updateAxis fuel firstTick lastTick axis
  = Some {| label := label axis; tickCount := tickCount axis; ticks := [NaN] |}.
Proof.
  intros Hc H1 Hf.
  assert (Z.to_nat (Qceiling c) = 1%nat) as En.
  { rewrite (Qceiling_comp c 1 H1). reflexivity. }
  rewrite (updateAxis_finite fuel c _ _ _ Hc) by (rewrite En; exact Hf).
  rewrite En. cbn [tickNumbers map]. unfold tickValue.
  assert ((Finite 0 / Finite (c + - 1))%js = NaN) as ->.
  { unfold div. assert (c + - 1 == 0) as Z by lra.
    apply Qeq_alt in Z. rewrite Z. reflexivity. }
  rewrite mul_NaN_r. unfold sub. cbn [neg]. rewrite add_NaN_r. reflexivity.
Qed.

Lemma tickLoop_unbounded (fuel : nat) :
  forall (q : Q) (firstTick size denominator : num) (pushed : list num),
  tickLoop fuel PInf firstTick size denominator (Finite q) pushed = None.
Proof.
  induction fuel as [|fuel IH]; intros q f sz den pushed; cbn [tickLoop].
  - reflexivity.
  - cbn [ltb]. apply IH.
Qed.

(** X18.  The bound of the loop is [tickCount] as the scope has it.  With a
    [tickCount] of [Infinity] the loop does not end, however many times
    its condition is tested; with [NaN] or [-Infinity] it ends at once and
    the axis has no tick. *)
Theorem ticks_of_unbounded_count (fuel : nat) (firstTick lastTick : num)
    (axis : Axis) :
  (tickCount axis = PInf -> updateAxis fuel firstTick lastTick axis = None)
  /\ (tickCount axis = NaN \/ tickCount axis = NInf -> (0 < fuel)%nat ->
      updateAxis fuel firstTick lastTick axis
      = Some {| label := label axis; tickCount := tickCount axis; ticks := [] |}).
Proof.
  split.
  - intros H. unfold updateAxis. rewrite H.
    rewrite tickLoop_unbounded. reflexivity.
  - intros H Hf. unfold updateAxis. destruct fuel as [|fuel]; [lia|].
    destruct H as [H|H]; rewrite H; reflexivity.
Qed.

Lemma ticks_count_witness :
  exists s' axes',
    onViewportChange (utils := SpecUtils.spec_utils) 8 (hovering (pt 4 6)) defaultAxes
    = Some (s', axes')
    /\ length (ticks (domainAxis axes')) = 5%nat
    /\ length (ticks (rangeAxis axes')) = 7%nat.
Proof.
  destruct (ticks_count (utils := SpecUtils.spec_utils) 8 (hovering (pt 4 6))
              defaultAxes 5 7 eq_refl eq_refl)
    as (s' & axes' & E & _ & Ld & Lr & _).
  - vm_compute. lia.
  - vm_compute. lia.
  - exists s', axes'. split; [exact E|]. split; [exact Ld|exact Lr].
Defined.

Lemma ticks_span_viewport_witness :
  exists axis' t0 t1,
    updateAxis 8 (Finite 0) (Finite 10) (axisWith (Finite 5)) = Some axis'
    /\ length (ticks axis') = 5%nat
    /\ ticks axis' !! 0%nat = Some t0 /\ eqb t0 (Finite 0) = true
    /\ ticks axis' !! 4%nat = Some t1 /\ eqb t1 (Finite 10) = true.
Proof.
  apply (ticks_span_viewport 8 5 0 10 (axisWith (Finite 5)) eq_refl); lia.
Defined.

Lemma ticks_follow_corners_witness :
  exists axis' t t',
    updateAxis 8 (Finite 10) (Finite 0) (axisWith (Finite 7)) = Some axis'
    /\ ticks axis' !! 2%nat = Some t /\ ticks axis' !! 3%nat = Some t'
    /\ ltb t' t = true.
Proof.
  destruct (ticks_follow_corners 8 2 7 10 0 (axisWith (Finite 7)) eq_refl)
    as (axis' & t & t' & E & T & T' & _ & H & _).
  - reflexivity.
  - vm_compute. lia.
  - vm_compute. lia.
  - exists axis', t, t'. repeat split; try assumption. apply H. reflexivity.
Defined.

Lemma single_tick_is_NaN_witness :
  updateAxis 8 (Finite 0) (Finite 10) (axisWith (Finite 1))
  = Some {| label := "Time"; tickCount := Finite 1; ticks := [NaN] |}.
Proof.
  apply (single_tick_is_NaN 8 1 (Finite 0) (Finite 10) (axisWith (Finite 1)) eq_refl).
  - reflexivity.
  - lia.
Defined.

Lemma ticks_of_unbounded_count_witness :
  updateAxis 1000 (Finite 0) (Finite 10) (axisWith PInf) = None
  /\ updateAxis 1 (Finite 0) (Finite 10) (axisWith NaN)
     = Some {| label := "Time"; tickCount := NaN; ticks := [] |}.
Proof.
  destruct (ticks_of_unbounded_count 1000 (Finite 0) (Finite 10) (axisWith PInf))
    as [A _].
  destruct (ticks_of_unbounded_count 1 (Finite 0) (Finite 10) (axisWith NaN))
    as [_ B].
  split; [exact (A eq_refl)|apply B; [left; reflexivity|lia]].
Defined.

End AxesFacts.

(** ** The plot directive: marquee mode and drag mode *)

Module WiringFacts.

Import JSNum Eff Plot Geometry Gestures Samples GestureSamples NumFacts PlotFacts
  GestureFacts Wiring.
(** Here the arithmetic is the one without rounding. *)
#[local] Existing Instance exact.

(** *** Classes *)

Lemma hasClass_addClass (name other : string) (c : Canvas) :
  hasClass name (addClass other c)
  = (String.eqb name other || hasClass name c)%bool.
Proof.
  unfold hasClass at 1, addClass. cbn [classes].
  destruct (hasClass other c) eqn:E.
  - fold (hasClass name c). destruct (String.eqb name other) eqn:N; [|reflexivity].
    apply String.eqb_eq in N. subst other. rewrite E. reflexivity.
  - rewrite existsb_app. cbn. fold (hasClass name c).
    rewrite orb_false_r. apply orb_comm.
Qed.

Lemma hasClass_removeClass (name other : string) (c : Canvas) :
  hasClass name (removeClass other c)
  = (negb (String.eqb name other) && hasClass name c)%bool.
Proof.
  unfold hasClass, removeClass. cbn [classes].
  induction (classes c) as [|k l IH]; cbn.
  - rewrite andb_false_r. reflexivity.
  - destruct (String.eqb other k) eqn:E; cbn.
    + apply String.eqb_eq in E. subst k. rewrite IH.
      destruct (String.eqb name other); reflexivity.
    + rewrite IH. destruct (String.eqb name k) eqn:N; cbn.
      * apply String.eqb_eq in N. subst k.
        rewrite String.eqb_sym, E. reflexivity.
      * reflexivity.
Qed.

(** *** Bindings under [.on] and [.off] *)

Lemma binds_eq (type type' : EventType) (handler handler' : Handler) :
  binds type handler (type', handler') = true -> type = type' /\ handler = handler'.
Proof.
  destruct type, type', handler, handler'; cbn; intros H; try discriminate H;
    split; reflexivity.
Qed.

Lemma removeFirst_absent {A : Type} (p : A -> bool) (l : list A) :
  Forall (fun a => p a = false) l -> removeFirst p l = l.
Proof.
  induction 1 as [|a l Ha _ IH]; cbn; [reflexivity|]. rewrite Ha, IH. reflexivity.
Qed.

Lemma removeFirst_after {A : Type} (p : A -> bool) (l1 l2 : list A) :
  Forall (fun a => p a = false) l1 ->
  removeFirst p (l1 ++ l2) = l1 ++ removeFirst p l2.
Proof.
  induction 1 as [|a l Ha _ IH]; cbn; [reflexivity|]. rewrite Ha, IH. reflexivity.
Qed.

Lemma filter_absent {A : Type} (p : A -> bool) (l : list A) :
  Forall (fun a => p a = false) l -> List.filter (fun a => negb (p a)) l = l.
Proof.
  induction 1 as [|a l Ha _ IH]; cbn; [reflexivity|]. rewrite Ha, IH. reflexivity.
Qed.

Lemma bound_on (type type' : EventType) (handler handler' : Handler) (c : Canvas) :
  bound type handler (on type' handler' c)
  = (bound type handler c + if binds type handler (type', handler') then 1 else 0)%nat.
Proof.
  unfold bound, on. cbn [bindings]. rewrite List.filter_app, length_app.
  cbn [List.filter]. destruct (binds type handler (type', handler')); reflexivity.
Qed.

Section Bindings.

Context {library : Library}.

Lemma unbind_absent (type : EventType) (handler : Handler)
    (l : list (EventType * Handler)) :
  Forall (fun b => binds type handler b = false) l -> unbind type handler l = l.
Proof.
  intros H. unfold unbind.
  destruct removal; [apply removeFirst_absent|apply filter_absent]; exact H.
Qed.

Lemma unbind_after (type : EventType) (handler : Handler)
    (l1 l2 : list (EventType * Handler)) :
  Forall (fun b => binds type handler b = false) l1 ->
  unbind type handler (l1 ++ l2) = l1 ++ unbind type handler l2.
Proof.
  intros H. unfold unbind. destruct removal.
  - apply removeFirst_after. exact H.
  - rewrite List.filter_app, (filter_absent _ _ H). reflexivity.
Qed.

Lemma bound_off_other (type type' : EventType) (handler handler' : Handler)
    (c : Canvas) :
  binds type handler (type', handler') = false ->
  bound type handler (off type' handler' c) = bound type handler c.
Proof.
  intros H. unfold bound, off, unbind. cbn [bindings]. destruct removal.
  - induction (bindings c) as [|[t h] l IH]; cbn; [reflexivity|].
    destruct (binds type' handler' (t, h)) eqn:E; cbn.
    + apply binds_eq in E. destruct E as [<- <-]. rewrite H. reflexivity.
    + destruct (binds type handler (t, h)); cbn; rewrite IH; reflexivity.
  - induction (bindings c) as [|[t h] l IH]; cbn; [reflexivity|].
    destruct (binds type' handler' (t, h)) eqn:E; cbn.
    + apply binds_eq in E. destruct E as [<- <-]. rewrite H. exact IH.
    + destruct (binds type handler (t, h)); cbn; rewrite IH; reflexivity.
Qed.

Lemma bound_off_every (type : EventType) (handler : Handler) (c : Canvas) :
  removal = EveryBinding -> bound type handler (off type handler c) = 0%nat.
Proof.
  intros H. unfold bound, off, unbind. rewrite H. cbn [bindings].
  induction (bindings c) as [|b l IH]; cbn; [reflexivity|].
  destruct (binds type handler b) eqn:E; cbn; [exact IH|].
  rewrite E. exact IH.
Qed.

(** *** The two modes *)

Lemma watchForDrag_mode (c : Canvas) :
  removal = EveryBinding -> dragMode (watchForDrag c).
Proof.
  intros H. unfold dragMode, watchForDrag.
  repeat split.
  - rewrite !bound_off_other, !bound_on by reflexivity. cbn. lia.
  - rewrite !bound_off_other, !bound_on by reflexivity. cbn. lia.
  - rewrite bound_off_other by reflexivity. apply bound_off_every. exact H.
  - apply bound_off_every. exact H.
  - change (hasClass "plot-drag"
              (removeClass "plot-marquee" (addClass "plot-drag" c)) = true).
    rewrite hasClass_removeClass, hasClass_addClass. reflexivity.
  - change (hasClass "plot-marquee"
              (removeClass "plot-marquee" (addClass "plot-drag" c)) = false).
    rewrite hasClass_removeClass. reflexivity.
Qed.

Lemma watchForMarquee_mode (c : Canvas) :
  removal = EveryBinding -> marqueeMode (watchForMarquee c).
Proof.
  intros H. unfold marqueeMode, watchForMarquee.
  repeat split.
  - rewrite !bound_off_other, !bound_on by reflexivity. cbn. lia.
  - rewrite !bound_off_other, !bound_on by reflexivity. cbn. lia.
  - rewrite bound_off_other by reflexivity. apply bound_off_every. exact H.
  - apply bound_off_every. exact H.
  - change (hasClass "plot-marquee"
              (addClass "plot-marquee" (removeClass "plot-drag" c)) = true).
    rewrite hasClass_addClass. reflexivity.
  - change (hasClass "plot-drag"
              (addClass "plot-marquee" (removeClass "plot-drag" c)) = false).
    rewrite hasClass_addClass, hasClass_removeClass. reflexivity.
Qed.

(** The bindings of a canvas on which each handler of the mode is bound
    once. *)
Lemma bindings_link (c : Canvas) :
  bindings c = [] ->
  bindings (canvas (link c))
  = [(mousemove, h_trackMousePosition); (mouseleave, h_untrackMousePosition);
     (mousedown, h_startMarquee); (mouseup, h_endMarquee)].
Proof.
  intros H. unfold link, watchForMarquee, off, on, addClass, removeClass, unbind.
  cbn [canvas bindings]. rewrite H. destruct removal; reflexivity.
Qed.

Lemma bindings_to_drag (c : Canvas) :
  bindings c
  = [(mousemove, h_trackMousePosition); (mouseleave, h_untrackMousePosition);
     (mousedown, h_startMarquee); (mouseup, h_endMarquee)] ->
  bindings (watchForDrag c)
  = [(mousemove, h_trackMousePosition); (mouseleave, h_untrackMousePosition);
     (mousedown, h_startDrag); (mouseup, h_endDrag)].
Proof.
  intros H. unfold watchForDrag, off, on, addClass, removeClass, unbind.
  cbn [bindings]. rewrite H. destruct removal; reflexivity.
Qed.

Lemma bindings_to_marquee (c : Canvas) :
  bindings c
  = [(mousemove, h_trackMousePosition); (mouseleave, h_untrackMousePosition);
     (mousedown, h_startDrag); (mouseup, h_endDrag)] ->
  bindings (watchForMarquee c)
  = [(mousemove, h_trackMousePosition); (mouseleave, h_untrackMousePosition);
     (mousedown, h_startMarquee); (mouseup, h_endMarquee)].
Proof.
  intros H. unfold watchForMarquee, off, on, addClass, removeClass, unbind.
  cbn [bindings]. rewrite H. destruct removal; reflexivity.
Qed.

Lemma bindings_drag_mode (c : Canvas) :
  bindings c = [] ->
  bindings (canvas (rewire (keydown SHIFT) (link c)))
  = [(mousemove, h_trackMousePosition); (mouseleave, h_untrackMousePosition);
     (mousedown, h_startDrag); (mouseup, h_endDrag)].
Proof.
  intros Hc.
  change (canvas (rewire (keydown SHIFT) (link c)))
    with (watchForDrag (canvas (link c))).
  apply bindings_to_drag. apply bindings_link. exact Hc.
Qed.

(** *** The mode after key events *)

Lemma mode_kept_every (inputs : list Input) :
  removal = EveryBinding ->
  forall (w : Wires) (down : bool),
  alive inputs = true ->
  keydownListener w = true -> keyupListener w = true ->
  (if down then dragMode (canvas w) else marqueeMode (canvas w)) ->
  let w' := rewireAll inputs w in
  if shiftDown down inputs then dragMode (canvas w') else marqueeMode (canvas w').
Proof.
  intros Hr.
  induction inputs as [|i inputs IH]; intros w down Hn Hd Hu Hm; cbv zeta.
  - exact Hm.
  - unfold alive in Hn. cbn [forallb] in Hn. apply andb_true_iff in Hn.
    destruct Hn as [Hi Hn]. fold (alive inputs) in Hn.
    change (rewireAll (i :: inputs) w) with (rewireAll inputs (rewire i w)).
    change (shiftDown down (i :: inputs))
      with (shiftDown (default down (isShift i)) inputs).
    destruct i as [k|k|t e|]; cbn [rewire isShift]; [| | |discriminate Hi].
    + rewrite Hd. unfold toggleInteractionMode, onCanvas.
      destruct (Nat.eqb k SHIFT); cbn [default]; apply IH; try assumption.
      apply watchForDrag_mode. exact Hr.
    + rewrite Hu. unfold resetInteractionMode, onCanvas.
      destruct (Nat.eqb k SHIFT); cbn [default]; apply IH; try assumption.
      apply watchForMarquee_mode. exact Hr.
    + apply IH; assumption.
Qed.

(** The wires while the events of the shift key come in pairs. *)
Lemma mode_kept_paired (inputs : list Input) :
  forall (w : Wires) (down : bool),
  alive inputs = true -> paired down inputs = true ->
  keydownListener w = true -> keyupListener w = true ->
  bindings (canvas w)
  = [(mousemove, h_trackMousePosition); (mouseleave, h_untrackMousePosition)]
    ++ (if down then [(mousedown, h_startDrag); (mouseup, h_endDrag)]
        else [(mousedown, h_startMarquee); (mouseup, h_endMarquee)]) ->
  hasClass "plot-drag" (canvas w) = down ->
  hasClass "plot-marquee" (canvas w) = negb down ->
  let w' := rewireAll inputs w in
  bindings (canvas w')
  = [(mousemove, h_trackMousePosition); (mouseleave, h_untrackMousePosition)]
    ++ (if shiftDown down inputs
        then [(mousedown, h_startDrag); (mouseup, h_endDrag)]
        else [(mousedown, h_startMarquee); (mouseup, h_endMarquee)])
  /\ hasClass "plot-drag" (canvas w') = shiftDown down inputs
  /\ hasClass "plot-marquee" (canvas w') = negb (shiftDown down inputs).
Proof.
  induction inputs as [|i inputs IH]; intros w down Hn Hp Hd Hu Hb Hcd Hcm; cbv zeta.
  - repeat split; assumption.
  - unfold alive in Hn. cbn [forallb] in Hn. apply andb_true_iff in Hn.
    destruct Hn as [Hi Hn]. fold (alive inputs) in Hn.
    change (rewireAll (i :: inputs) w) with (rewireAll inputs (rewire i w)).
    change (shiftDown down (i :: inputs))
      with (shiftDown (default down (isShift i)) inputs).
    cbn [paired] in Hp.
    destruct i as [k|k|t e|]; cbn [rewire isShift] in *; [| | |discriminate Hi].
    + rewrite Hd. unfold toggleInteractionMode, onCanvas.
      destruct (Nat.eqb k SHIFT); cbn [default]; [|apply IH; assumption].
      apply andb_true_iff in Hp. destruct Hp as [Hp1 Hp].
      destruct down; [discriminate Hp1|].
      apply IH; try assumption; cbn [canvas].
      * apply bindings_to_drag. exact Hb.
      * change (hasClass "plot-drag"
                  (removeClass "plot-marquee" (addClass "plot-drag" (canvas w)))
                = true).
        rewrite hasClass_removeClass, hasClass_addClass. reflexivity.
      * change (hasClass "plot-marquee"
                  (removeClass "plot-marquee" (addClass "plot-drag" (canvas w)))
                = false).
        rewrite hasClass_removeClass. reflexivity.
    + rewrite Hu. unfold resetInteractionMode, onCanvas.
      destruct (Nat.eqb k SHIFT); cbn [default]; [|apply IH; assumption].
      apply andb_true_iff in Hp. destruct Hp as [Hp1 Hp].
      destruct down; [|discriminate Hp1].
      apply IH; try assumption; cbn [canvas].
      * apply bindings_to_marquee. exact Hb.
      * change (hasClass "plot-drag"
                  (addClass "plot-marquee" (removeClass "plot-drag" (canvas w)))
                = false).
        rewrite hasClass_addClass, hasClass_removeClass. reflexivity.
      * change (hasClass "plot-marquee"
                  (addClass "plot-marquee" (removeClass "plot-drag" (canvas w)))
                = true).
        rewrite hasClass_addClass. reflexivity.
    + apply IH; assumption.
Qed.

Lemma link_classes (c : Canvas) :
  hasClass "plot-drag" (canvas (link c)) = false
  /\ hasClass "plot-marquee" (canvas (link c)) = true.
Proof.
  split.
  - change (hasClass "plot-drag"
              (addClass "plot-marquee"
                 (removeClass "plot-drag"
                    (on mouseleave h_untrackMousePosition
                       (on mousemove h_trackMousePosition c)))) = false).
    rewrite hasClass_addClass, hasClass_removeClass. reflexivity.
  - change (hasClass "plot-marquee"
              (addClass "plot-marquee"
                 (removeClass "plot-drag"
                    (on mouseleave h_untrackMousePosition
                       (on mousemove h_trackMousePosition c)))) = true).
    rewrite hasClass_addClass. reflexivity.
Qed.

(** X19.  The mode of the canvas is that of the last shift key event.  After
    [link] on a canvas without bindings and any sequence of key and mouse
    events up to the end of the scope, the canvas is set up for drags alone
    when the last event of the shift key was its press, and for marquees
    alone when it was its release or there was none: the handlers of the
    one mode are bound and its class is set, those of the other mode are
    not.  This holds with an [.off] that removes every binding, and with
    any [.off] as long as the presses and releases of the shift key come
    in pairs. *)
Theorem mode_follows_shift_key (inputs : list Input) (c : Canvas) :
  bindings c = [] ->
  removal = EveryBinding \/ paired false inputs = true ->
  alive inputs = true ->
  let w := rewireAll inputs (link c) in
  if shiftDown false inputs then dragMode (canvas w) else marqueeMode (canvas w).
Proof.
  intros Hc [Hr|Hp] Hn.
  - apply (mode_kept_every inputs Hr (link c) false Hn eq_refl eq_refl).
    apply watchForMarquee_mode. exact Hr.
  - destruct (link_classes c) as [C1 C2].
    destruct (mode_kept_paired inputs (link c) false Hn Hp eq_refl eq_refl
                (bindings_link c Hc) C1 C2) as (Hb & Hd & Hm).
    cbv zeta. unfold dragMode, marqueeMode, bound. rewrite Hb, Hd, Hm.
    destruct (shiftDown false inputs); cbn; repeat split; lia.
Qed.

(** *** The end of the scope *)

(** The bindings of the two modes. *)
Lemma mode_bindings_go (l : list (EventType * Handler)) :
  Forall (fun b => b = (mousedown, h_startDrag) \/ b = (mouseup, h_endDrag)
                   \/ b = (mousedown, h_startMarquee) \/ b = (mouseup, h_endMarquee)) l ->
  List.filter (fun b => negb (binds mouseup h_endMarquee b))
    (List.filter (fun b => negb (binds mousedown h_startMarquee b))
       (List.filter (fun b => negb (binds mouseup h_endDrag b))
          (List.filter (fun b => negb (binds mousedown h_startDrag b)) l)))
  = [].
Proof.
  induction 1 as [|b l Hb _ IH]; [reflexivity|].
  destruct Hb as [-> | [-> | [-> | ->]]]; cbn; exact IH.
Qed.

Lemma tracking_kept (inputs : list Input) :
  removal = EveryBinding ->
  forall (w : Wires) (l : list (EventType * Handler)),
  bindings (canvas w)
  = [(mousemove, h_trackMousePosition); (mouseleave, h_untrackMousePosition)] ++ l ->
  Forall (fun b => b = (mousedown, h_startDrag) \/ b = (mouseup, h_endDrag)
                   \/ b = (mousedown, h_startMarquee) \/ b = (mouseup, h_endMarquee)) l ->
  exists l',
    bindings (canvas (rewireAll inputs w))
    = [(mousemove, h_trackMousePosition); (mouseleave, h_untrackMousePosition)] ++ l'
    /\ Forall (fun b => b = (mousedown, h_startDrag) \/ b = (mouseup, h_endDrag)
                        \/ b = (mousedown, h_startMarquee) \/ b = (mouseup, h_endMarquee)) l'.
Proof.
  intros Hr.
  induction inputs as [|i inputs IH]; intros w l Hb Hl.
  - exists l. split; assumption.
  - change (rewireAll (i :: inputs) w) with (rewireAll inputs (rewire i w)).
    destruct i as [k|k|t e|]; cbn [rewire].
    + destruct (keydownListener w); [|apply (IH w l Hb Hl)].
      unfold toggleInteractionMode. destruct (Nat.eqb k SHIFT).
      * apply (IH (onCanvas watchForDrag w)
                 (List.filter (fun b => negb (binds mouseup h_endMarquee b))
                    (List.filter (fun b => negb (binds mousedown h_startMarquee b)) l)
                  ++ [(mousedown, h_startDrag); (mouseup, h_endDrag)])).
        -- unfold onCanvas, watchForDrag, off, on, addClass, removeClass, unbind.
           rewrite Hr. cbn [canvas bindings].
           rewrite Hb, !List.filter_app.
           cbn [List.filter binds fst snd EventType_eqb Handler_eqb andb negb app].
           rewrite <- app_assoc. reflexivity.
        -- apply Forall_app. split.
           ++ apply Forall_forall. intros b Hin. apply list_elem_of_In in Hin.
              apply List.filter_In in Hin. destruct Hin as [Hin _].
              apply List.filter_In in Hin. destruct Hin as [Hin _].
              rewrite Forall_forall in Hl. apply Hl. apply list_elem_of_In. exact Hin.
           ++ repeat constructor; tauto.
      * apply (IH _ l); [destruct w; exact Hb|exact Hl].
    + destruct (keyupListener w); [|apply (IH w l Hb Hl)].
      unfold resetInteractionMode. destruct (Nat.eqb k SHIFT).
      * apply (IH (onCanvas watchForMarquee w)
                 (List.filter (fun b => negb (binds mouseup h_endDrag b))
                    (List.filter (fun b => negb (binds mousedown h_startDrag b)) l)
                  ++ [(mousedown, h_startMarquee); (mouseup, h_endMarquee)])).
        -- unfold onCanvas, watchForMarquee, off, on, addClass, removeClass, unbind.
           rewrite Hr. cbn [canvas bindings].
           rewrite Hb, !List.filter_app.
           cbn [List.filter binds fst snd EventType_eqb Handler_eqb andb negb app].
           rewrite <- app_assoc. reflexivity.
        -- apply Forall_app. split.
           ++ apply Forall_forall. intros b Hin. apply list_elem_of_In in Hin.
              apply List.filter_In in Hin. destruct Hin as [Hin _].
              apply List.filter_In in Hin. destruct Hin as [Hin _].
              rewrite Forall_forall in Hl. apply Hl. apply list_elem_of_In. exact Hin.
           ++ repeat constructor; tauto.
      * apply (IH _ l); [destruct w; exact Hb|exact Hl].
    + apply (IH w l Hb Hl).
    + apply (IH (stopWatching w) []).
      * unfold stopWatching, off, unbind. rewrite Hr. cbn [canvas bindings].
        rewrite Hb, !List.filter_app, (mode_bindings_go l Hl).
        cbn [List.filter binds fst snd EventType_eqb Handler_eqb andb negb app].
        reflexivity.
      * constructor.
Qed.

(** X20.  [stopWatching] leaves the tracking of the mouse in place.  After
    [link] on a canvas without bindings, any inputs and then [$destroy],
    the bindings of the canvas are [trackMousePosition] for [mousemove] and
    [untrackMousePosition] for [mouseleave], which nothing removes; the
    handlers of both modes are gone and the window has no listener, so
    that key events change nothing any more.  This holds with an [.off]
    that removes every binding, and with any [.off] as long as the presses
    and releases of the shift key have come in pairs. *)
Theorem destroy_leaves_mouse_tracking (inputs : list Input) (c : Canvas) :
  bindings c = [] ->
  removal = EveryBinding \/ (alive inputs = true /\ paired false inputs = true) ->
  let w := rewireAll (inputs ++ [destroy]) (link c) in
  bindings (canvas w)
  = [(mousemove, h_trackMousePosition); (mouseleave, h_untrackMousePosition)]
  /\ keydownListener w = false /\ keyupListener w = false
  /\ (forall keyCode, rewire (keydown keyCode) w = w /\ rewire (keyup keyCode) w = w).
Proof.
  intros Hc H. cbv zeta. unfold rewireAll. rewrite foldl_app. cbn [foldl rewire].
  fold (rewireAll inputs (link c)).
  split; [|repeat split].
  destruct H as [Hr|[Hn Hp]].
  - destruct (tracking_kept inputs Hr (link c)
                [(mousedown, h_startMarquee); (mouseup, h_endMarquee)])
      as (l & Hb & Hl).
    { apply (bindings_link c Hc). }
    { repeat constructor; tauto. }
    unfold stopWatching, off, unbind. rewrite Hr. cbn [canvas bindings].
    rewrite Hb, !List.filter_app, (mode_bindings_go l Hl). reflexivity.
  - destruct (link_classes c) as [C1 C2].
    destruct (mode_kept_paired inputs (link c) false Hn Hp eq_refl eq_refl
                (bindings_link c Hc) C1 C2) as (Hb & _ & _).
    unfold stopWatching, off, unbind. cbn [canvas bindings]. rewrite Hb.
    destruct (shiftDown false inputs); destruct removal; reflexivity.
Qed.

(** *** Repeated presses of the shift key *)

Lemma stack_without (type : EventType) (handler : Handler) (k : nat) :
  binds type handler (mousedown, h_startDrag) = false ->
  binds type handler (mouseup, h_endDrag) = false ->
  Forall (fun b => binds type handler b = false)
    (concat (replicate k [(mousedown, h_startDrag); (mouseup, h_endDrag)])).
Proof.
  intros H1 H2. induction k as [|k IH]; cbn; repeat constructor; assumption.
Qed.

Lemma concat_replicate_end {A : Type} (k : nat) (l : list A) :
  concat (replicate k l) ++ l = concat (replicate (S k) l).
Proof.
  induction k as [|k IH]; cbn.
  - rewrite app_nil_r. reflexivity.
  - rewrite <- app_assoc. cbn in IH. rewrite IH. reflexivity.
Qed.

Lemma shift_presses (n : nat) :
  forall (w : Wires) (k : nat),
  keydownListener w = true ->
  bindings (canvas w)
  = [(mousemove, h_trackMousePosition); (mouseleave, h_untrackMousePosition)]
    ++ concat (replicate k [(mousedown, h_startDrag); (mouseup, h_endDrag)]) ->
  keydownListener (rewireAll (replicate n (keydown SHIFT)) w) = true
  /\ keyupListener (rewireAll (replicate n (keydown SHIFT)) w) = keyupListener w
  /\ bindings (canvas (rewireAll (replicate n (keydown SHIFT)) w))
     = [(mousemove, h_trackMousePosition); (mouseleave, h_untrackMousePosition)]
       ++ concat (replicate (k + n) [(mousedown, h_startDrag); (mouseup, h_endDrag)]).
Proof.
  induction n as [|n IH]; intros w k Hd Hb.
  - rewrite Nat.add_0_r. repeat split; assumption.
  - change (rewireAll (replicate (S n) (keydown SHIFT)) w)
      with (rewireAll (replicate n (keydown SHIFT)) (rewire (keydown SHIFT) w)).
    replace (k + S n)%nat with (S k + n)%nat by lia.
    assert (keyupListener (rewire (keydown SHIFT) w) = keyupListener w) as <-
      by (cbn [rewire]; rewrite Hd; reflexivity).
    apply IH.
    + cbn [rewire]. rewrite Hd. exact Hd.
    + cbn [rewire]. rewrite Hd.
      change (canvas (onCanvas (toggleInteractionMode SHIFT) w))
        with (watchForDrag (canvas w)).
      unfold watchForDrag, off, on, addClass, removeClass. cbn [bindings].
      rewrite Hb.
      assert (forall type handler,
                binds type handler (mousedown, h_startDrag) = false ->
                binds type handler (mouseup, h_endDrag) = false ->
                binds type handler (mousemove, h_trackMousePosition) = false ->
                binds type handler (mouseleave, h_untrackMousePosition) = false ->
                Forall (fun b => binds type handler b = false)
                  ((([(mousemove, h_trackMousePosition);
                      (mouseleave, h_untrackMousePosition)]
                     ++ concat (replicate k [(mousedown, h_startDrag);
                                             (mouseup, h_endDrag)]))
                    ++ [(mousedown, h_startDrag)]) ++ [(mouseup, h_endDrag)])) as F.
      { intros type handler F1 F2 F3 F4. repeat apply Forall_app_2.
        - repeat constructor; assumption.
        - apply stack_without; assumption.
        - repeat constructor; assumption.
        - repeat constructor; assumption. }
      rewrite (unbind_absent mousedown h_startMarquee) by (apply F; reflexivity).
      rewrite (unbind_absent mouseup h_endMarquee) by (apply F; reflexivity).
      rewrite <- !app_assoc. cbn [app]. rewrite <- concat_replicate_end.
      reflexivity.
Qed.

Lemma handlers_of_stack (n : nat) (rest : list (EventType * Handler)) :
  snd <$> List.filter (fun b => EventType_eqb mousedown (fst b))
            (concat (replicate n [(mousedown, h_startDrag); (mouseup, h_endDrag)])
             ++ rest)
  = replicate n h_startDrag
    ++ (snd <$> List.filter (fun b => EventType_eqb mousedown (fst b)) rest)
  /\ snd <$> List.filter (fun b => EventType_eqb mouseup (fst b))
              (concat (replicate n [(mousedown, h_startDrag); (mouseup, h_endDrag)])
               ++ rest)
     = replicate n h_endDrag
       ++ (snd <$> List.filter (fun b => EventType_eqb mouseup (fst b)) rest).
Proof.
  induction n as [|n [IH1 IH2]]; cbn; [split; reflexivity|].
  cbn in IH1, IH2. rewrite IH1, IH2. split; reflexivity.
Qed.

Lemma bound_as_handlers (type : EventType) (handler : Handler) (c : Canvas) :
  bound type handler c
  = length (List.filter (Handler_eqb handler) (handlersFor type c)).
Proof.
  unfold bound, handlersFor.
  induction (bindings c) as [|[t h] l IH]; [reflexivity|].
  cbn [List.filter fst snd].
  assert (binds type handler (t, h) = EventType_eqb type t && Handler_eqb handler h)
    as -> by reflexivity.
  destruct (EventType_eqb type t); cbn [andb]; [|exact IH].
  cbn [fmap list_fmap snd List.filter].
  destruct (Handler_eqb handler h); cbn [length]; [f_equal|]; exact IH.
Qed.

Lemma count_replicate (handler : Handler) (k : nat) (rest : list Handler) :
  length (List.filter (Handler_eqb handler) (replicate k handler ++ rest))
  = (k + length (List.filter (Handler_eqb handler) rest))%nat.
Proof.
  induction k as [|k IH]; [reflexivity|]. cbn [replicate app List.filter].
  assert (Handler_eqb handler handler = true) as -> by (destruct handler; reflexivity).
  cbn [length]. rewrite IH. reflexivity.
Qed.

Lemma no_marquee_in_stack (k : nat) :
  List.filter (Handler_eqb h_startMarquee) (replicate k h_startDrag) = [].
Proof. induction k as [|k IH]; [reflexivity|exact IH]. Qed.

Context {utils : Utils}.

Lemma startDrag_times (n : nat) (event : MouseEvent) :
  forall s, exists s',
    runHandlers (replicate n h_startDrag) event s = Returned (tt, s')
    /\ emitted s' = emitted s ++ replicate n user_viewport_change_start.
Proof.
  induction n as [|n IH]; intros s; cbn [replicate runHandlers toCall perform].
  - exists s. rewrite app_nil_r. split; reflexivity.
  - destruct (mouseCoordinates s) as [coordinates|] eqn:E.
    + destruct (IH (set_dragStart (Some (positionAsPlotPoint coordinates))
                      (set_emitted (emitted s ++ [user_viewport_change_start]) s)))
        as (s' & R & He).
      exists s'. unfold startDrag. run. rewrite E. cbn. split; [exact R|].
      rewrite He. cbn. rewrite <- app_assoc. reflexivity.
    + destruct (IH (set_emitted (emitted s ++ [user_viewport_change_start]) s))
        as (s' & R & He).
      exists s'. unfold startDrag. run. rewrite E. cbn. split; [exact R|].
      rewrite He. cbn. rewrite <- app_assoc. reflexivity.
Qed.

Lemma endDrag_times (n : nat) (event : MouseEvent) :
  forall s, exists s',
    runHandlers (replicate n h_endDrag) event s = Returned (tt, s')
    /\ viewport s' = viewport s
    /\ emitted s'
       = emitted s ++ replicate n (user_viewport_change_end (viewport s)).
Proof.
  induction n as [|n IH]; intros s; cbn [replicate runHandlers toCall perform].
  - exists s. rewrite app_nil_r. repeat split.
  - destruct (IH (set_emitted (emitted s ++ [user_viewport_change_end (viewport s)])
                    (set_dragStart None s))) as (s' & R & Hv & He).
    exists s'. unfold endDrag. run. split; [exact R|]. split; [exact Hv|].
    rewrite He. cbn. rewrite <- app_assoc. reflexivity.
Qed.

Lemma bindings_stacked (n : nat) (c : Canvas) :
  bindings c = [] ->
  let w := rewireAll (replicate (S n) (keydown SHIFT)) (link c) in
  keydownListener w = true /\ keyupListener w = true
  /\ bindings (canvas w)
     = [(mousemove, h_trackMousePosition); (mouseleave, h_untrackMousePosition)]
       ++ concat (replicate (S n) [(mousedown, h_startDrag); (mouseup, h_endDrag)]).
Proof.
  intros Hc. cbv zeta.
  change (rewireAll (replicate (S n) (keydown SHIFT)) (link c))
    with (rewireAll (replicate n (keydown SHIFT)) (rewire (keydown SHIFT) (link c))).
  destruct (shift_presses n (rewire (keydown SHIFT) (link c)) 1 eq_refl)
    as (H1 & H2 & H3).
  { rewrite (bindings_drag_mode c Hc). reflexivity. }
  repeat split; assumption.
Qed.

(** X21.  Every press of the shift key binds the drag handlers once more.
    [watchForDrag] removes the marquee handlers and binds [startDrag] and
    [endDrag] without removing them first, so after [n + 1] key-down events
    of the shift key with no key-up between them each is bound [n + 1]
    times: one press of the mouse button then sends
    [user:viewport:change:start] [n + 1] times, and one release sends
    [user:viewport:change:end] [n + 1] times.  This is so with either
    [.off]. *)
Theorem shift_repeat_stacks_drag_handlers (n : nat) (c : Canvas) (s : State)
    (event : MouseEvent) :
  bindings c = [] ->
  let w := rewireAll (replicate (S n) (keydown SHIFT)) (link c) in
  bound mousedown h_startDrag (canvas w) = S n
  /\ bound mouseup h_endDrag (canvas w) = S n
  /\ (exists s',
        dispatch mousedown event (canvas w) s = Returned (tt, s')
        /\ emitted s' = emitted s ++ replicate (S n) user_viewport_change_start)
  /\ (exists s',
        dispatch mouseup event (canvas w) s = Returned (tt, s')
        /\ emitted s'
           = emitted s ++ replicate (S n) (user_viewport_change_end (viewport s))).
Proof.
  intros Hc. cbv zeta.
  destruct (bindings_stacked n c Hc) as (_ & _ & Hb).
  destruct (handlers_of_stack (S n) []) as [H1 H2].
  rewrite app_nil_r in H1, H2. cbn [List.filter fmap list_fmap] in H1, H2.
  rewrite app_nil_r in H1, H2.
  assert (handlersFor mousedown
            (canvas (rewireAll (replicate (S n) (keydown SHIFT)) (link c)))
          = replicate (S n) h_startDrag) as Hdown.
  { unfold handlersFor. rewrite Hb, List.filter_app.
    cbn [List.filter fst EventType_eqb app]. exact H1. }
  assert (handlersFor mouseup
            (canvas (rewireAll (replicate (S n) (keydown SHIFT)) (link c)))
          = replicate (S n) h_endDrag) as Hup.
  { unfold handlersFor. rewrite Hb, List.filter_app.
    cbn [List.filter fst EventType_eqb app]. exact H2. }
  split; [|split; [|split]].
  - rewrite bound_as_handlers, Hdown.
    rewrite <- (app_nil_r (replicate (S n) h_startDrag)), count_replicate. cbn. lia.
  - rewrite bound_as_handlers, Hup.
    rewrite <- (app_nil_r (replicate (S n) h_endDrag)), count_replicate. cbn. lia.
  - unfold dispatch. rewrite Hdown. apply startDrag_times.
  - unfold dispatch. rewrite Hup.
    destruct (endDrag_times (S n) event s) as (s' & R & _ & He).
    exists s'. split; assumption.
Qed.

(** X22.  With an [.off] that removes the first binding only, as that of
    jqLite, the handlers that repeated presses of the shift key have bound
    stay behind.  After [n + 2] key-down events of the shift key and its
    release, [startDrag] is still bound [n + 1] times for [mousedown],
    before [startMarquee]: the canvas is in neither mode, and one press of
    the mouse button over a tracked position sends
    [user:viewport:change:start] [n + 1] times and starts a drag and a
    marquee. *)
Theorem first_binding_off_leaves_drag_handlers (n : nat) (c : Canvas) (s : State)
    (coordinates : Position) (event : MouseEvent) :
  removal = FirstBinding -> bindings c = [] ->
  mouseCoordinates s = Some coordinates ->
  let w :=
    rewireAll (replicate (S (S n)) (keydown SHIFT) ++ [keyup SHIFT]) (link c) in
  handlersFor mousedown (canvas w) = replicate (S n) h_startDrag ++ [h_startMarquee]
  /\ bound mousedown h_startDrag (canvas w) = S n
  /\ bound mousedown h_startMarquee (canvas w) = 1%nat
  /\ ~ marqueeMode (canvas w) /\ ~ dragMode (canvas w)
  /\ exists s',
       dispatch mousedown event (canvas w) s = Returned (tt, s')
       /\ emitted s' = emitted s ++ replicate (S n) user_viewport_change_start
       /\ dragStart s' = Some (positionAsPlotPoint coordinates)
       /\ start (marqueeBox s') = Some (positionAsPlotPoint coordinates).
Proof.
  intros Hr Hc Hm. cbv zeta.
  destruct (bindings_stacked (S n) c Hc) as (Hd & Hu & Hb).
  assert (bindings
            (canvas (rewireAll (replicate (S (S n)) (keydown SHIFT) ++ [keyup SHIFT])
                       (link c)))
          = [(mousemove, h_trackMousePosition); (mouseleave, h_untrackMousePosition)]
            ++ concat (replicate (S n) [(mousedown, h_startDrag); (mouseup, h_endDrag)])
            ++ [(mousedown, h_startMarquee); (mouseup, h_endMarquee)]) as B.
  { unfold rewireAll. rewrite foldl_app. cbn [foldl rewire].
    fold (rewireAll (replicate (S (S n)) (keydown SHIFT)) (link c)).
    rewrite Hu.
    change (resetInteractionMode SHIFT) with watchForMarquee.
    unfold onCanvas, watchForMarquee, off, on, addClass, removeClass, unbind.
    rewrite Hr. cbn [canvas bindings]. rewrite Hb.
    cbn [replicate concat app removeFirst binds fst snd EventType_eqb Handler_eqb andb].
    rewrite <- app_assoc. reflexivity. }
  assert (handlersFor mousedown
            (canvas (rewireAll (replicate (S (S n)) (keydown SHIFT) ++ [keyup SHIFT])
                       (link c)))
          = replicate (S n) h_startDrag ++ [h_startMarquee]) as H.
  { unfold handlersFor. rewrite B.
    destruct (handlers_of_stack (S n)
                [(mousedown, h_startMarquee); (mouseup, h_endMarquee)]) as [H1 _].
    cbn [app List.filter fst EventType_eqb]. exact H1. }
  split; [exact H|].
  assert (bound mousedown h_startDrag
            (canvas (rewireAll (replicate (S (S n)) (keydown SHIFT) ++ [keyup SHIFT])
                       (link c))) = S n) as Bd.
  { rewrite bound_as_handlers, H, count_replicate. cbn. lia. }
  split; [exact Bd|]. split.
  { rewrite bound_as_handlers, H, List.filter_app, length_app.
    rewrite no_marquee_in_stack. reflexivity. }
  split; [intros (_ & _ & Z & _); rewrite Bd in Z; discriminate Z|].
  split.
  { intros (_ & _ & Z & _). revert Z. rewrite bound_as_handlers, H.
    rewrite List.filter_app, length_app. cbn. lia. }
  unfold dispatch. rewrite H.
  assert (forall k s0, mouseCoordinates s0 = Some coordinates ->
            exists s1,
              runHandlers (replicate k h_startDrag ++ [h_startMarquee]) event s0
              = Returned (tt, s1)
              /\ emitted s1 = emitted s0 ++ replicate k user_viewport_change_start
              /\ (0 < k -> dragStart s1 = Some (positionAsPlotPoint coordinates))%nat
              /\ (k = 0%nat -> dragStart s1 = dragStart s0)
              /\ start (marqueeBox s1) = Some (positionAsPlotPoint coordinates)) as R.
  { induction k as [|k IH]; intros s0 H0.
    - eexists. cbn [replicate app runHandlers toCall perform].
      unfold startMarquee. run. rewrite H0. cbn.
      rewrite app_nil_r. repeat split. intros Z. lia.
    - destruct (IH (set_dragStart (Some (positionAsPlotPoint coordinates))
                      (set_emitted (emitted s0 ++ [user_viewport_change_start]) s0))
                  H0) as (s1 & E1 & E2 & E3 & E4 & E5).
      exists s1. cbn [replicate app runHandlers toCall perform].
      unfold startDrag. run. rewrite H0. cbn. split; [exact E1|].
      split; [rewrite E2; cbn; rewrite <- app_assoc; reflexivity|].
      split.
      + intros _. destruct k as [|k]; [rewrite E4; reflexivity|apply E3; lia].
      + split; [intros Z; discriminate Z|exact E5]. }
  destruct (R (S n) s Hm) as (s1 & E1 & E2 & E3 & _ & E5).
  exists s1. repeat split; try assumption. apply E3. lia.
Qed.

(** *** A press, a change of mode, a release *)

(** X23.  A marquee outlives a change of mode.  Let the mouse button go down
    in marquee mode over a tracked position, the shift key go down, and
    the button go up.  The release is then handled by [endDrag], not by
    [endMarquee]: [user:viewport:change:end] is sent with the viewport as
    it was, and the start of the marquee stays in [marqueeBox].  The next
    move of the mouse, with no button down, draws the marquee rectangle
    from there to the pointer. *)
Theorem marquee_outlives_mode_switch (c : Canvas) (s : State)
    (coordinates : Position) (press release move : MouseEvent) :
  bindings c = [] -> mouseCoordinates s = Some coordinates -> dragStart s = None ->
  let p := positionAsPlotPoint coordinates in
  let q := plotPointAt (client move) (getBoundingClientRect move) (viewport s) in
  let ws :=
    reactAll [mouse mousedown press; keydown SHIFT; mouse mouseup release]
      (link c, s) in
  let s' := storeAfter (dispatch mousemove move (canvas ws.1) ws.2) in
  start (marqueeBox ws.2) = Some p
  /\ viewport ws.2 = viewport s
  /\ emitted ws.2 = emitted s ++ [user_viewport_change_end (viewport s)]
  /\ marqueeBox s' = {| start := Some p; end_ := Some q |}
  /\ exists r, marqueeRect s' = Some r /\ rect_start r = p /\ rect_end r = q.
Proof.
  intros Hc Hm Hd p q ws s'.
  assert (handlersFor mousedown (canvas (link c)) = [h_startMarquee]) as H1
    by (unfold handlersFor; rewrite (bindings_link c Hc); reflexivity).
  pose proof (bindings_drag_mode c Hc) as Hb.
  set (s1 := set_marqueeBox {| start := Some p; end_ := end_ (marqueeBox s) |} s).
  set (s2 := set_emitted (emitted s ++ [user_viewport_change_end (viewport s)])
               (set_dragStart None s1)).
  assert (ws = (rewire (keydown SHIFT) (link c), s2)) as Ews.
  { unfold ws, reactAll. cbn [foldl react fst snd]. unfold dispatch.
    rewrite H1. cbn [runHandlers toCall perform].
    unfold bind at 1. rewrite (startMarquee_returns s coordinates Hm).
    cbn [ret storeAfter]. fold p. fold s1.
    unfold handlersFor. rewrite Hb. reflexivity. }
  assert (s' = storeAfter (trackMousePosition move s2)) as Es'.
  { unfold s'. rewrite Ews. cbn [fst snd]. unfold dispatch, handlersFor.
    rewrite Hb.
    cbn [List.filter fst snd EventType_eqb fmap list_fmap runHandlers toCall perform].
    unfold bind. destruct (trackMousePosition move s2) as [[[] s3]|s3]; reflexivity. }
  rewrite Es', Ews.
  rewrite (trackMousePosition_marquee move s2 p eq_refl eq_refl).
  cbn [fst snd storeAfter].
  change (marqueeRect s2) with (marqueeRect s).
  destruct (marqueeRect s); repeat split; eexists; repeat split.
Qed.

(** X24.  A press of the mouse button before the pointer is tracked.  In
    marquee mode the press is handled by [startMarquee], which reads the
    plot point of a position that is not there: it throws and leaves the
    store as it was.  In drag mode the press is handled by [startDrag],
    which returns, having sent [user:viewport:change:start] and nothing
    else. *)
Theorem press_before_pointer_is_tracked (c : Canvas) (s : State)
    (event : MouseEvent) :
  bindings c = [] -> mouseCoordinates s = None ->
  dispatch mousedown event (canvas (link c)) s = Threw s
  /\ dispatch mousedown event (canvas (rewire (keydown SHIFT) (link c))) s
     = Returned (tt, set_emitted (emitted s ++ [user_viewport_change_start]) s).
Proof.
  intros Hc Hm. unfold dispatch, handlersFor.
  rewrite (bindings_link c Hc), (bindings_drag_mode c Hc).
  cbn [List.filter fst snd EventType_eqb fmap list_fmap runHandlers toCall perform].
  unfold startMarquee, startDrag. run. rewrite Hm. split; reflexivity.
Qed.

(** X25.  A drag is not ended by the pointer leaving the canvas.  In drag
    mode, after a press over a tracked position, [mouseleave] clears the
    position of the pointer but not the start of the drag, and the release
    of the button outside the canvas is not seen: the next move of the
    mouse over the canvas shifts the viewport by the point that was grabbed
    minus the point under the pointer. *)
Theorem drag_survives_mouseleave (c : Canvas) (s : State) (coordinates : Position)
    (press leave move : MouseEvent) :
  bindings c = [] -> mouseCoordinates s = Some coordinates ->
  start (marqueeBox s) = None ->
  let origin := positionAsPlotPoint coordinates in
  let q := plotPointAt (client move) (getBoundingClientRect move) (viewport s) in
  let ws :=
    reactAll [mouse mousedown press; mouse mouseleave leave; mouse mousemove move]
      (rewire (keydown SHIFT) (link c), s) in
  dragStart ws.2 = Some origin
  /\ viewport ws.2
     = translate (viewport s) (domain origin - domain q)%js (range origin - range q)%js
  /\ emitted ws.2 = emitted s ++ [user_viewport_change_start].
Proof.
  intros Hc Hm Hb origin q ws.
  pose proof (bindings_drag_mode c Hc) as B.
  set (s1 := set_dragStart (Some origin)
               (set_emitted (emitted s ++ [user_viewport_change_start]) s)).
  set (s2 := set_mouseCoordinates None s1).
  assert (ws.2 = storeAfter (trackMousePosition move s2)) as E.
  { unfold ws, reactAll. cbn [foldl react fst snd]. unfold dispatch, handlersFor.
    rewrite B.
    cbn [List.filter fst snd EventType_eqb fmap list_fmap runHandlers toCall perform].
    assert (startDrag s = Returned (Some false, s1)) as Hs
      by (unfold startDrag; run; rewrite Hm; reflexivity).
    unfold bind. rewrite Hs. cbn [ret storeAfter].
    unfold untrackMousePosition, modify, ret. cbn [storeAfter]. fold s2.
    destruct (trackMousePosition move s2) as [[[] s3]|s3]; reflexivity. }
  rewrite E, (trackMousePosition_drag move s2 origin Hb eq_refl).
  cbn [storeAfter]. repeat split.
Qed.

End Bindings.

Lemma mode_follows_shift_key_witness :
  dragMode
    (canvas (rewireAll (library := jQuery)
               [keydown 16; keydown 16; keyup 16; mouse mousedown (mouseAt 60 60);
                keydown 16; keyup 65]
               (link (library := jQuery) blank)))
  /\ marqueeMode
       (canvas (rewireAll (library := jqLite) [keydown 16; keydown 65; keyup 16]
                  (link (library := jqLite) blank))).
Proof.
  split.
  - apply (mode_follows_shift_key (library := jQuery)
             [keydown 16; keydown 16; keyup 16; mouse mousedown (mouseAt 60 60);
              keydown 16; keyup 65] blank).
    + reflexivity.
    + left. reflexivity.
    + reflexivity.
  - apply (mode_follows_shift_key (library := jqLite)
             [keydown 16; keydown 65; keyup 16] blank).
    + reflexivity.
    + right. reflexivity.
    + reflexivity.
Defined.

Lemma destroy_leaves_mouse_tracking_witness :
  bindings
    (canvas (rewireAll (library := jQuery) [keydown 16; keydown 16; keyup 16; destroy]
               (link (library := jQuery) blank)))
  = [(mousemove, h_trackMousePosition); (mouseleave, h_untrackMousePosition)]
  /\ bindings
       (canvas (rewireAll (library := jqLite) [keydown 16; keyup 16; keydown 16; destroy]
                  (link (library := jqLite) blank)))
     = [(mousemove, h_trackMousePosition); (mouseleave, h_untrackMousePosition)].
Proof.
  destruct (destroy_leaves_mouse_tracking (library := jQuery)
              [keydown 16; keydown 16; keyup 16] blank eq_refl) as [A _].
  { left. reflexivity. }
  destruct (destroy_leaves_mouse_tracking (library := jqLite)
              [keydown 16; keyup 16; keydown 16] blank eq_refl) as [B _].
  { right. split; reflexivity. }
  split; [exact A|exact B].
Defined.

Lemma shift_repeat_stacks_drag_handlers_witness :
  bound mousedown h_startDrag
    (canvas (rewireAll (library := jqLite) [keydown 16; keydown 16; keydown 16]
               (link (library := jqLite) blank))) = 3%nat
  /\ exists s',
       dispatch (utils := SpecUtils.spec_utils) mousedown (mouseAt 60 60)
         (canvas (rewireAll (library := jqLite) [keydown 16; keydown 16; keydown 16]
                    (link (library := jqLite) blank)))
         (hovering (pt 4 6))
       = Returned (tt, s')
       /\ emitted s'
          = [user_viewport_change_start; user_viewport_change_start;
             user_viewport_change_start].
Proof.
  destruct (shift_repeat_stacks_drag_handlers (library := jqLite)
              (utils := SpecUtils.spec_utils) 2 blank (hovering (pt 4 6))
              (mouseAt 60 60) eq_refl) as (B & _ & D & _).
  split; [exact B|exact D].
Defined.

Lemma first_binding_off_leaves_drag_handlers_witness :
  handlersFor mousedown
    (canvas (rewireAll (library := jqLite) [keydown 16; keydown 16; keyup 16]
               (link (library := jqLite) blank)))
  = [h_startDrag; h_startMarquee]
  /\ exists s',
       dispatch (utils := SpecUtils.spec_utils) mousedown (mouseAt 60 60)
         (canvas (rewireAll (library := jqLite) [keydown 16; keydown 16; keyup 16]
                    (link (library := jqLite) blank)))
         (hovering (pt 4 6))
       = Returned (tt, s')
       /\ emitted s' = [user_viewport_change_start]
       /\ dragStart s' = Some (pt 4 6)
       /\ start (marqueeBox s') = Some (pt 4 6).
Proof.
  destruct (first_binding_off_leaves_drag_handlers (library := jqLite)
              (utils := SpecUtils.spec_utils) 0 blank (hovering (pt 4 6)) _
              (mouseAt 60 60) eq_refl eq_refl eq_refl) as (H & _ & _ & _ & _ & D).
  split; [exact H|exact D].
Defined.

Lemma marquee_outlives_mode_switch_witness :
  let ws :=
    reactAll (library := jqLite) (utils := SpecUtils.spec_utils)
      [mouse mousedown (mouseAt 20 20); keydown 16; mouse mouseup (mouseAt 20 20)]
      (link (library := jqLite) blank, hovering (pt 2 8)) in
  start (marqueeBox ws.2) = Some (pt 2 8)
  /\ emitted ws.2 = [user_viewport_change_end plotViewport]
  /\ exists r,
       marqueeRect
         (storeAfter (dispatch (utils := SpecUtils.spec_utils) mousemove
                        (mouseAt 60 60) (canvas ws.1) ws.2))
       = Some r
       /\ rect_start r = pt 2 8.
Proof.
  destruct (marquee_outlives_mode_switch (library := jqLite)
              (utils := SpecUtils.spec_utils) blank
              (hovering (pt 2 8)) _ (mouseAt 20 20) (mouseAt 20 20) (mouseAt 60 60)
              eq_refl eq_refl eq_refl) as (A & _ & C & _ & r & R1 & R2 & _).
  split; [exact A|]. split; [exact C|].
  exists r. split; [exact R1|exact R2].
Defined.

Lemma press_before_pointer_is_tracked_witness :
  dispatch (utils := SpecUtils.spec_utils) mousedown (mouseAt 60 60)
    (canvas (link (library := jqLite) blank)) (idle plotViewport)
  = Threw (idle plotViewport).
Proof.
  destruct (press_before_pointer_is_tracked (library := jqLite)
              (utils := SpecUtils.spec_utils) blank
              (idle plotViewport) (mouseAt 60 60) eq_refl eq_refl) as [H _].
  exact H.
Defined.

Lemma drag_survives_mouseleave_witness :
  let ws :=
    reactAll (library := jqLite) (utils := SpecUtils.spec_utils)
      [mouse mousedown (mouseAt 40 40); mouse mouseleave (mouseAt 0 40);
       mouse mousemove (mouseAt 60 60)]
      (rewire (library := jqLite) (keydown SHIFT) (link (library := jqLite) blank),
       hovering (pt 4 6)) in
  dragStart ws.2 = Some (pt 4 6)
  /\ sameViewport (viewport ws.2) (vp (-2) 12 8 2) = true.
Proof.
  cbv zeta.
  destruct (drag_survives_mouseleave (library := jqLite)
              (utils := SpecUtils.spec_utils) blank
              (hovering (pt 4 6)) _ (mouseAt 40 40) (mouseAt 0 40) (mouseAt 60 60)
              eq_refl eq_refl eq_refl) as (A & B & _).
  split; [exact A|]. rewrite B. reflexivity.
Defined.

End WiringFacts.

(** ** The summary-widget rule: registration of callbacks *)

Module CallbackFacts.

Import Eff Rule Samples RuleFacts.

Lemma registered_app {Env : Type} (l1 l2 : list (option (Callback Env))) (i : nat) :
  registered i (l1 ++ l2) = registered i l1 ++ registered (i + length l1) l2.
Proof.
  revert i. induction l1 as [|[f|] l1 IH]; intros i; cbn.
  - rewrite Nat.add_0_r. reflexivity.
  - rewrite IH. replace (i + S (length l1))%nat with (S i + length l1)%nat by lia.
    reflexivity.
  - rewrite IH. replace (i + S (length l1))%nat with (S i + length l1)%nat by lia.
    reflexivity.
Qed.

Section Widget.

Context {Env : Type} {openmct : MCT Env}.

(** [remove] up to the call of the callbacks: what it does to the store
    depends on the id of the rule alone. *)
Lemma remove_then_callbacks (this : Rule Env) (s : Store Env) :
  stores openmct ->
  exists s1,
    invoked s1 = invoked s
    /\ forall this' : Rule Env,
         id (config this') = id (config this) ->
         remove this' s = forEach 0 (remove_callbacks (callbacks this')) s1.
Proof.
  intros Hm.
  set (i := id (config this)).
  set (c1 := {| ruleOrder := lodash_remove i (ruleOrder (domainObject (world s)));
                ruleConfigById :=
                  <[i := None]> (ruleConfigById (domainObject (world s))) |}).
  set (w1 := {| domainObject := c1; env := env (world s) |}).
  destruct (Hm "configuration.ruleConfigById"
              (RuleConfigByIdValue (ruleConfigById c1)) w1) as (w2 & E2 & D2).
  destruct (Hm "configuration.ruleOrder" (RuleOrderValue (ruleOrder c1)) w2)
    as (w3 & E3 & D3).
  exists {| world := w3; invoked := invoked s |}. split; [reflexivity|].
  intros this' Hid.
  unfold remove, update, bind, modify, gets, outside. cbn. rewrite Hid.
  unfold w1, c1, i, lodash_remove in *. cbn in E2, E3.
  rewrite E2. cbn. rewrite E3. cbn. reflexivity.
Qed.

Lemma called_app (l1 l2 : list (option (Callback Env))) (w : World Env) :
  called (l1 ++ l2) w
  = match called l1 w with
    | Some w' => called l2 w'
    | None => None
    end.
Proof.
  revert w. induction l1 as [|[f|] l1 IH]; intros w; cbn.
  - reflexivity.
  - destruct (f w) as [[[] w']|]; [apply IH|reflexivity].
  - apply IH.
Qed.

(** X26.  [on] with the event [remove] returns the rule with the callback
    appended to [callbacks.remove].  [remove] on that rule does what
    [remove] on the rule before did and then calls the callback: the world
    after it is the world after the earlier callbacks, the new one called
    on it.  [on] with one of the other three events returns a rule on which
    [remove] does what it did before; with a key that [callbacks] inherits
    it throws; with any other key it returns the rule as it was. *)
Theorem on_remove_is_called_last (this : Rule Env) (callback : Callback Env)
    (s : Store Env) :
  stores openmct ->
  (forall registered_before,
     Some registered_before ∈ remove_callbacks (callbacks this) ->
     quiet registered_before) ->
  quiet callback ->
  (exists this' s0 s',
     on "remove" (Some callback) this = Returned this'
     /\ config this' = config this
     /\ remove_callbacks (callbacks this')
        = remove_callbacks (callbacks this) ++ [Some callback]
     /\ remove this s = Returned (tt, s0)
     /\ remove this' s = Returned (tt, s')
     /\ callback (world s0) = Returned (tt, world s')
     /\ invoked s'
        = invoked s ++ registered 0 (remove_callbacks (callbacks this))
          ++ [length (remove_callbacks (callbacks this))])
  /\ (forall event,
        event = "duplicate" \/ event = "change" \/ event = "conditionChange" ->
        exists this',
          on event (Some callback) this = Returned this'
          /\ remove this' s = remove this s)
  /\ (forall event, inherited event = true -> on event (Some callback) this = Threw tt)
  /\ (forall event,
        event <> "remove" -> event <> "duplicate" -> event <> "change" ->
        event <> "conditionChange" -> inherited event = false ->
        on event (Some callback) this = Returned this).
Proof.
  intros Hm Hq Hc.
  destruct (remove_then_callbacks this s Hm) as (s1 & I1 & R).
  split; [|split; [|split]].
  - assert (exists this',
              on "remove" (Some callback) this = Returned this'
              /\ config this' = config this
              /\ remove_callbacks (callbacks this')
                 = remove_callbacks (callbacks this) ++ [Some callback])
      as (this' & O & Oc & Or) by (eexists; repeat split).
    destruct (forEach_invokes (remove_callbacks (callbacks this)) Hq 0 s1)
      as (s0 & E0 & _ & J0 & C0).
    destruct (forEach_invokes (remove_callbacks (callbacks this) ++ [Some callback]))
      with (i := 0%nat) (s := s1) as (s' & E & _ & I & C).
    { intros f Hf. apply elem_of_app in Hf. destruct Hf as [Hf|Hf].
      - apply Hq. exact Hf.
      - apply list_elem_of_singleton in Hf. injection Hf as ->. exact Hc. }
    exists this', s0, s'.
    split; [exact O|]. split; [exact Oc|]. split; [exact Or|].
    split; [rewrite (R this eq_refl); exact E0|].
    split; [rewrite (R this' (f_equal id Oc)), Or; exact E|].
    split.
    + rewrite called_app, C0 in C. cbn in C.
      destruct (Hc (world s0)) as (w' & Ec & _). rewrite Ec in C |- *.
      congruence.
    + rewrite I, I1, registered_app. reflexivity.
  - intros event [-> | [-> | ->]]; eexists; (split; [reflexivity|]);
      match goal with
      | |- remove ?this' s = _ => rewrite (R this' eq_refl), (R this eq_refl)
      end; reflexivity.
  - intros event H. unfold on.
    destruct (String.eqb event "remove") eqn:E1;
      [apply String.eqb_eq in E1; subst event; discriminate H|].
    destruct (String.eqb event "duplicate") eqn:E2;
      [apply String.eqb_eq in E2; subst event; discriminate H|].
    destruct (String.eqb event "change") eqn:E3;
      [apply String.eqb_eq in E3; subst event; discriminate H|].
    destruct (String.eqb event "conditionChange") eqn:E4;
      [apply String.eqb_eq in E4; subst event; discriminate H|].
    rewrite H. reflexivity.
  - intros event N1 N2 N3 N4 H. unfold on.
    apply String.eqb_neq in N1, N2, N3, N4. rewrite N1, N2, N3, N4, H.
    reflexivity.
Qed.

End Widget.

Lemma on_remove_is_called_last_witness :
  exists this' s',
    on "remove" (Some counting) rule1 = Returned this'
    /\ remove (openmct := storing_mct) this' widget = Returned (tt, s')
    /\ invoked s' = [0; 2; 3]%nat
    /\ env (world s') = 3%nat.
Proof.
  destruct (on_remove_is_called_last (openmct := storing_mct) rule1 counting widget)
    as [(this' & s0 & s' & O & _ & _ & E0 & E & C & I) _].
  - exact storing_mct_stores.
  - intros callback H. cbn in H.
    apply elem_of_cons in H. destruct H as [H|H];
      [injection H as ->; exact counting_quiet|].
    apply elem_of_cons in H. destruct H as [H|H]; [discriminate H|].
    apply elem_of_cons in H. destruct H as [H|H];
      [injection H as ->; exact counting_quiet|].
    apply elem_of_nil in H. contradiction.
  - exact counting_quiet.
  - exists this', s'. split; [exact O|]. split; [exact E|].
    split; [rewrite I; reflexivity|].
    injection E0 as <-. injection C as <-. reflexivity.
Defined.

End CallbackFacts.

(** ** The summary-widget rule: its description *)

Module RuleTextFacts.

Import RuleText RuleTextSamples.

(** *** Strings *)

Lemma append_cons (c : Ascii.ascii) (a b : string) :
  String c a +:+ b = String c (a +:+ b).
Proof. reflexivity. Qed.

Lemma length_append (a b : string) :
  String.length (a +:+ b) = (String.length a + String.length b)%nat.
Proof.
  induction a as [|c a IH]; [reflexivity|].
  rewrite append_cons. cbn. rewrite IH. reflexivity.
Qed.

Lemma append_nil_r (a : string) : a +:+ "" = a.
Proof.
  induction a as [|c a IH]; [reflexivity|]. rewrite append_cons, IH. reflexivity.
Qed.

Lemma append_assoc (a b c : string) : (a +:+ b) +:+ c = a +:+ (b +:+ c).
Proof.
  induction a as [|x a IH]; [reflexivity|]. rewrite !append_cons, IH. reflexivity.
Qed.

Lemma substring_zero_zero (s : string) : String.substring 0 0 s = "".
Proof. destruct s; reflexivity. Qed.

Lemma substring_prefix (a b : string) :
  String.substring 0 (String.length a) (a +:+ b) = a.
Proof.
  induction a as [|c a IH]; [apply substring_zero_zero|].
  rewrite append_cons. cbn. rewrite IH. reflexivity.
Qed.

Lemma substring_skip (a s : string) (n m : nat) :
  String.substring (String.length a + n) m (a +:+ s) = String.substring n m s.
Proof.
  induction a as [|c a IH]; [reflexivity|]. rewrite append_cons. cbn. exact IH.
Qed.

Lemma substring_all (s : string) : String.substring 0 (String.length s) s = s.
Proof. induction s as [|c s IH]; [reflexivity|]. cbn. rewrite IH. reflexivity. Qed.

Lemma get_append_r (a b : string) (n : nat) :
  String.get (String.length a + n) (a +:+ b) = String.get n b.
Proof.
  induction a as [|c a IH]; [reflexivity|]. rewrite append_cons. cbn. exact IH.
Qed.

Lemma endsWith_append (a b : string) : endsWith (a +:+ b) b = true.
Proof.
  unfold endsWith. rewrite length_append.
  replace (String.length a + String.length b - String.length b)%nat
    with (String.length a + 0)%nat by lia.
  rewrite substring_skip, substring_all, String.eqb_refl, andb_true_r.
  apply Nat.leb_le. lia.
Qed.

Lemma dropEnd_append (a b : string) : dropEnd (String.length b) (a +:+ b) = a.
Proof.
  unfold dropEnd. rewrite length_append.
  replace (String.length a + String.length b - String.length b)%nat
    with (String.length a) by lia.
  apply substring_prefix.
Qed.

(** The characters of a string that ends with [suffix]. *)
Lemma endsWith_get (s suffix : string) (n : nat) :
  endsWith s suffix = true -> (n < String.length suffix)%nat ->
  (String.length suffix <= String.length s)%nat
  /\ String.get (n + (String.length s - String.length suffix)) s = String.get n suffix.
Proof.
  unfold endsWith. intros H Hn. apply andb_true_iff in H. destruct H as [L E].
  apply Nat.leb_le in L. apply String.eqb_eq in E. split; [exact L|].
  rewrite <- (String.substring_correct1 s _ (String.length suffix) n Hn), E. reflexivity.
Qed.

Lemma two_blanks_not_AND (x : string) : endsWith (x +:+ "  ") "AND " = false.
Proof.
  destruct (endsWith (x +:+ "  ") "AND ") eqn:E; [|reflexivity].
  destruct (endsWith_get _ _ 2 E) as [L G]; [cbn; lia|].
  rewrite length_append in L, G. cbn in L, G.
  replace (S (S (String.length x + 2 - 4))) with (String.length x + 0)%nat in G by lia.
  rewrite get_append_r in G. discriminate G.
Qed.

Lemma AND_not_OR (x : string) : endsWith (x +:+ " AND ") "OR " = false.
Proof.
  destruct (endsWith (x +:+ " AND ") "OR ") eqn:E; [|reflexivity].
  destruct (endsWith_get _ _ 0 E) as [L G]; [cbn; lia|].
  rewrite length_append in L, G. cbn in L, G.
  replace (String.length x + 5 - 3)%nat with (String.length x + 2)%nat in G by lia.
  rewrite get_append_r in G. discriminate G.
Qed.

Lemma nonEmpty_append (a b : string) : nonEmpty b = true -> String.eqb (a +:+ b) "" = false.
Proof.
  intros H. apply String.eqb_neq. intros E.
  apply (f_equal String.length) in E. rewrite length_append in E.
  destruct b; [discriminate H|]. cbn in E. lia.
Qed.

Section Description.

Context {manager : ConditionManager}.

(** *** The clauses *)

Lemma clause_shape (trigger : string) (condition : ConditionConfig) :
  described condition = true ->
  exists body,
    clause trigger condition
    = (body +:+ " ") +:+ (if String.eqb trigger "any" then " OR " else " AND ").
Proof.
  intros H. unfold clause. rewrite H. unfold described in H.
  destruct (nonEmpty (getOperationDescription _ _)).
  - eexists. rewrite <- (append_assoc _ (getOperationDescription _ _) " ").
    reflexivity.
  - rewrite append_nil_r.
    destruct (nonEmpty (getTelemetryPropertyName _ _)).
    + eexists. rewrite <- (append_assoc _ (getTelemetryPropertyName _ _) " ").
      reflexivity.
    + rewrite append_nil_r.
      destruct (nonEmpty (getObjectName _)); [|discriminate H].
      exists ("when " +:+ getObjectName (object condition) +:+ "'s").
      rewrite !append_assoc. reflexivity.
Qed.

Lemma clause_undescribed (trigger : string) (condition : ConditionConfig) :
  described condition = false -> clause trigger condition = "".
Proof. intros H. unfold clause. rewrite H. reflexivity. Qed.

Lemma clauses_snoc (trigger : string) (cs : list ConditionConfig)
    (condition : ConditionConfig) :
  clauses trigger (cs ++ [condition])
  = clauses trigger cs +:+ clause trigger condition.
Proof. unfold clauses. rewrite foldl_app. reflexivity. Qed.

Lemma clauses_undescribed (trigger : string) (cs : list ConditionConfig) :
  existsb described cs = false -> clauses trigger cs = "".
Proof.
  induction cs as [|c cs IH] using rev_ind; intros H; [reflexivity|].
  rewrite existsb_app in H. apply orb_false_iff in H. destruct H as [H1 H2].
  cbn in H2. rewrite orb_false_r in H2.
  rewrite clauses_snoc, (IH H1), (clause_undescribed _ _ H2). reflexivity.
Qed.

Lemma clauses_shape (trigger : string) (cs : list ConditionConfig) :
  existsb described cs = true ->
  exists body,
    clauses trigger cs
    = (body +:+ " ") +:+ (if String.eqb trigger "any" then " OR " else " AND ").
Proof.
  induction cs as [|c cs IH] using rev_ind; intros H; [discriminate H|].
  rewrite clauses_snoc. destruct (described c) eqn:D.
  - destruct (clause_shape trigger c D) as (body & ->).
    exists (clauses trigger cs +:+ body). rewrite !append_assoc. reflexivity.
  - rewrite (clause_undescribed _ _ D), append_nil_r. apply IH.
    rewrite existsb_app in H. cbn in H. rewrite D in H. cbn in H.
    rewrite orb_false_r in H. exact H.
Qed.

(** X27.  A description that is built from conditions ends with two blanks.
    For a rule other than the default rule whose trigger is not ['js'] and
    one of whose conditions has a name, a property or an operation to
    show, the clauses end with a blank and [' OR '] or [' AND ']; the
    function removes ['OR '] or ['AND '], so the description that it shows
    and stores is the clauses up to there, with both blanks. *)
Theorem description_ends_with_two_blanks (config : Config)
    (cs : list ConditionConfig) :
  conditions config = Some cs -> id config <> "default" -> trigger config <> "js" ->
  existsb described cs = true ->
  exists body,
    clauses (trigger config) cs
    = body +:+ (if String.eqb (trigger config) "any" then "  OR " else "  AND ")
    /\ describe config = body +:+ "  ".
Proof.
  intros Hc Hi Ht Hd.
  destruct (clauses_shape (trigger config) cs Hd) as (body & E).
  exists body.
  apply String.eqb_neq in Hi, Ht.
  unfold describe, generated. rewrite Hc, Hi, Ht. cbn [negb]. rewrite E.
  destruct (String.eqb (trigger config) "any").
  - split; [rewrite append_assoc; reflexivity|].
    change " OR " with (" " +:+ "OR "). rewrite <- (append_assoc _ " " "OR ").
    rewrite endsWith_append.
    change 3%nat with (String.length "OR "). rewrite dropEnd_append.
    rewrite (append_assoc body " " " ").
    change (" " +:+ " ") with "  ".
    rewrite two_blanks_not_AND, nonEmpty_append by reflexivity. reflexivity.
  - split; [rewrite append_assoc; reflexivity|].
    rewrite AND_not_OR.
    change " AND " with (" " +:+ "AND "). rewrite <- (append_assoc _ " " "AND ").
    rewrite endsWith_append.
    change 4%nat with (String.length "AND "). rewrite dropEnd_append.
    rewrite (append_assoc body " " " ").
    change (" " +:+ " ") with "  ".
    rewrite nonEmpty_append by reflexivity. reflexivity.
Qed.

(** X28.  Without a clause the description stays.  For the default rule, for
    a configuration without conditions, and for a rule whose trigger is
    not ['js'] and none of whose conditions has anything to show,
    [generateDescription] leaves the configuration as it is. *)
Theorem description_kept_without_clauses (config : Config) :
  conditions config = None \/ id config = "default"
  \/ (trigger config <> "js"
      /\ forall cs, conditions config = Some cs -> existsb described cs = false) ->
  describe config = description config /\ generateDescription config = config.
Proof.
  intros H.
  assert (describe config = description config) as E.
  { unfold describe.
    assert (generated config = "") as ->; [|reflexivity].
    unfold generated. destruct H as [H | [H | [Ht H]]].
    - rewrite H. reflexivity.
    - rewrite H. destruct (conditions config); reflexivity.
    - destruct (conditions config) as [cs|]; [|reflexivity].
      apply String.eqb_neq in Ht. rewrite Ht.
      destruct (negb (String.eqb (id config) "default")); [|reflexivity].
      rewrite (clauses_undescribed _ cs (H cs eq_refl)). reflexivity. }
  split; [exact E|].
  unfold generateDescription. rewrite E. destruct config; reflexivity.
Qed.

(** X29.  With the trigger ['js'] the description is the fixed sentence about
    the custom condition, whatever the conditions of the rule are. *)
Theorem description_of_js_trigger (config : Config) (cs : list ConditionConfig) :
  conditions config = Some cs -> id config <> "default" -> trigger config = "js" ->
  describe config = "when a custom JavaScript condition evaluates to true".
Proof.
  intros Hc Hi Ht. apply String.eqb_neq in Hi.
  unfold describe, generated. rewrite Hc, Hi, Ht. reflexivity.
Qed.

(** X30.  [generateDescription] a second time changes nothing: the
    description that the first call has stored is generated again, or, when
    nothing is generated, is kept. *)
Theorem generateDescription_again (config : Config) :
  generateDescription (generateDescription config) = generateDescription config.
Proof.
  unfold generateDescription at 1 3. cbn [id trigger conditions description].
  f_equal. unfold describe.
  change (generated (generateDescription config)) with (generated config).
  cbn [description generateDescription].
  unfold describe. destruct (String.eqb (generated config) ""); reflexivity.
Qed.

End Description.

Lemma description_ends_with_two_blanks_witness :
  exists body,
    clauses (manager := manager) "any"
      [above "Temperature"; blankCondition; above "Pressure"]
    = body +:+ "  OR "
    /\ describe (manager := manager)
         (ruleWith "rule1" "any"
            (Some [above "Temperature"; blankCondition; above "Pressure"]))
       = body +:+ "  ".
Proof.
  apply (description_ends_with_two_blanks (manager := manager)
           (ruleWith "rule1" "any"
              (Some [above "Temperature"; blankCondition; above "Pressure"]))
           _ eq_refl).
  - discriminate.
  - discriminate.
  - reflexivity.
Defined.

Lemma description_kept_without_clauses_witness :
  describe (manager := manager)
    (ruleWith "default" "any" (Some [above "Temperature"])) = "as it was"
  /\ describe (manager := manager) (ruleWith "rule1" "any" (Some [blankCondition]))
     = "as it was".
Proof.
  destruct (description_kept_without_clauses (manager := manager)
              (ruleWith "default" "any" (Some [above "Temperature"]))) as [A _].
  { right. left. reflexivity. }
  destruct (description_kept_without_clauses (manager := manager)
              (ruleWith "rule1" "any" (Some [blankCondition]))) as [B _].
  { right. right. split; [discriminate|]. intros cs [= <-]. reflexivity. }
  split; [exact A|exact B].
Defined.

Lemma description_of_js_trigger_witness :
  describe (manager := manager) (ruleWith "rule1" "js" (Some [above "Temperature"]))
  = "when a custom JavaScript condition evaluates to true".
Proof.
  apply (description_of_js_trigger (manager := manager) _ [above "Temperature"]).
  - reflexivity.
  - discriminate.
  - reflexivity.
Defined.

End RuleTextFacts.

(** ** The doubles round to nearest *)

Module RoundingFacts.

Import JSNum Binary64.
Local Open Scope Q_scope.

(** *** Powers of two *)

Lemma two_nonzero : ~ 2 == 0.
Proof. intros H. discriminate H. Qed.

Lemma pow2_pos (e : Z) : 0 < 2 ^ e.
Proof. apply Qpower_0_lt. reflexivity. Qed.

Lemma pow2_nonzero (e : Z) : ~ 2 ^ e == 0.
Proof. pose proof (pow2_pos e). lra. Qed.

Lemma pow2_add (a b : Z) : 2 ^ (a + b) == 2 ^ a * 2 ^ b.
Proof. apply Qpower_plus. exact two_nonzero. Qed.

Lemma pow2_le (a b : Z) : (a <= b)%Z -> 2 ^ a <= 2 ^ b.
Proof. intros H. apply Qpower_le_compat_l; [exact H|]. discriminate. Qed.

Lemma pow2_lt (a b : Z) : (a < b)%Z -> 2 ^ a < 2 ^ b.
Proof. intros H. apply Qpower_lt_compat_l; [exact H|]. reflexivity. Qed.

Lemma pow2_lt_inv (a b : Z) : 2 ^ a < 2 ^ b -> (a < b)%Z.
Proof. intros H. apply (Qpower_lt_compat_l_inv 2); [exact H|]. reflexivity. Qed.

Lemma pow2_Z (e : Z) : (0 <= e)%Z -> 2 ^ e == inject_Z (2 ^ e).
Proof. intros H. symmetry. exact (Zpower_Qpower 2 e H). Qed.

Lemma pow2_succ (e : Z) : 2 ^ (e + 1) == 2 * 2 ^ e.
Proof. rewrite pow2_add. change (2 ^ 1) with 2. ring. Qed.

(** [2 ^ a] as a multiple of [2 ^ b], for [b <= a]. *)
Lemma pow2_multiple (a b : Z) :
  (b <= a)%Z -> 2 ^ a == inject_Z (2 ^ (a - b)) * 2 ^ b.
Proof.
  intros H. rewrite <- pow2_Z by lia. rewrite <- pow2_add.
  replace (a - b + b)%Z with a by lia. reflexivity.
Qed.

(** *** The exponent of a positive rational *)

Lemma ilog2_spec (q : Q) :
  0 < q -> 2 ^ ilog2 q <= q /\ q < 2 ^ (ilog2 q + 1).
Proof.
  intros Hq. unfold ilog2.
  destruct q as [n d].
  assert (0 < n)%Z as Hn.
  { unfold Qlt in Hq. cbn in Hq. lia. }
  cbn [Qnum Qden].
  set (a := Z.log2 n). set (b := Z.log2 (Z.pos d)).
  destruct (Z.log2_spec n Hn) as [La Ua]. fold a in La, Ua.
  destruct (Z.log2_spec (Z.pos d) ltac:(lia)) as [Lb Ub]. fold b in Lb, Ub.
  assert (0 <= a)%Z as Pa by apply Z.log2_nonneg.
  assert (0 <= b)%Z as Pb by apply Z.log2_nonneg.
  assert (2 ^ a <= inject_Z n) as La'.
  { rewrite pow2_Z by exact Pa. rewrite <- Zle_Qle. exact La. }
  assert (inject_Z n < 2 ^ (a + 1)) as Ua'.
  { rewrite pow2_Z by lia. rewrite <- Zlt_Qlt. exact Ua. }
  assert (2 ^ b <= inject_Z (Z.pos d)) as Lb'.
  { rewrite pow2_Z by exact Pb. rewrite <- Zle_Qle. exact Lb. }
  assert (inject_Z (Z.pos d) < 2 ^ (b + 1)) as Ub'.
  { rewrite pow2_Z by lia. rewrite <- Zlt_Qlt. exact Ub. }
  assert (0 < inject_Z (Z.pos d)) as Pd.
  { change 0 with (inject_Z 0). rewrite <- Zlt_Qlt. lia. }
  assert (n # d == inject_Z n / inject_Z (Z.pos d)) as E by apply Qmake_Qdiv.
  set (e := (a - b)%Z).
  assert (2 ^ (e - 1) < n # d) as Lo.
  { rewrite E. apply Qlt_shift_div_l; [exact Pd|].
    apply Qlt_le_trans with (2 ^ (e - 1) * 2 ^ (b + 1)).
    - apply Qmult_lt_l; [apply pow2_pos|exact Ub'].
    - rewrite <- pow2_add. replace (e - 1 + (b + 1))%Z with a by (unfold e; lia).
      exact La'. }
  assert (n # d < 2 ^ (e + 1)) as Hi.
  { rewrite E. apply Qlt_shift_div_r; [exact Pd|].
    apply Qlt_le_trans with (2 ^ (a + 1)); [exact Ua'|].
    replace (a + 1)%Z with (e + 1 + b)%Z by (unfold e; lia).
    rewrite pow2_add. apply Qmult_le_l; [apply pow2_pos|exact Lb']. }
  destruct (Qle_bool (2 ^ e) (n # d)) eqn:C.
  - apply Qle_bool_iff in C. split; assumption.
  - split; [apply Qlt_le_weak; exact Lo|].
    replace (e - 1 + 1)%Z with e by lia.
    apply Qnot_le_lt. intros H. apply Qle_bool_iff in H. congruence.
Qed.

Lemma ilog2_unique (q : Q) (e : Z) :
  2 ^ e <= q -> q < 2 ^ (e + 1) -> ilog2 q = e.
Proof.
  intros L U.
  assert (0 < q) as Hq by (pose proof (pow2_pos e); lra).
  destruct (ilog2_spec q Hq) as [L' U'].
  assert (e < ilog2 q + 1)%Z by (apply pow2_lt_inv; lra).
  assert (ilog2 q < e + 1)%Z by (apply pow2_lt_inv; lra).
  lia.
Qed.

Lemma ilog2_comp (a b : Q) : 0 < a -> a == b -> ilog2 a = ilog2 b.
Proof.
  intros Ha E. symmetry. destruct (ilog2_spec a Ha) as [L U].
  apply ilog2_unique; rewrite <- E; assumption.
Qed.

Lemma ilog2_le (a b : Q) : 0 < a -> a <= b -> (ilog2 a <= ilog2 b)%Z.
Proof.
  intros Ha H.
  destruct (ilog2_spec a Ha) as [La Ua].
  destruct (ilog2_spec b ltac:(lra)) as [Lb Ub].
  assert (ilog2 a < ilog2 b + 1)%Z by (apply pow2_lt_inv; lra).
  lia.
Qed.

Lemma ilog2_pow2 (e : Z) : ilog2 (2 ^ e) = e.
Proof.
  apply ilog2_unique; [apply Qle_refl|]. apply pow2_lt. lia.
Qed.

(** *** The nearest integer *)

Lemma rne_cases (x : Q) : rne x = Qfloor x \/ rne x = (Qfloor x + 1)%Z.
Proof.
  unfold rne. destruct (_ ?= _); [destruct (Z.even _)| |]; auto.
Qed.

Lemma rne_comp (x y : Q) : x == y -> rne x = rne y.
Proof.
  intros E. unfold rne. rewrite (Qfloor_comp _ _ E).
  assert (x - inject_Z (Qfloor y) == y - inject_Z (Qfloor y)) as E' by (rewrite E; reflexivity).
  rewrite (Qcompare_comp _ _ E' _ _ (Qeq_refl _)). reflexivity.
Qed.

Lemma rne_Z (n : Z) : rne (inject_Z n) = n.
Proof.
  unfold rne. rewrite Qfloor_Z.
  destruct (_ ?= _) eqn:C; [apply Qeq_alt in C; lra|reflexivity|].
  apply Qgt_alt in C. lra.
Qed.

Lemma rne_half (x : Q) : Qabs (inject_Z (rne x) - x) <= 1 # 2.
Proof.
  pose proof (Qfloor_le x) as L. pose proof (Qlt_floor x) as U.
  rewrite inject_Z_plus in U. change (inject_Z 1) with 1 in U.
  apply Qabs_Qle_condition. unfold rne.
  destruct (_ ?= _) eqn:C.
  - apply Qeq_alt in C.
    destruct (Z.even _); [|rewrite inject_Z_plus; change (inject_Z 1) with 1]; lra.
  - apply Qlt_alt in C. lra.
  - apply Qgt_alt in C. rewrite inject_Z_plus. change (inject_Z 1) with 1. lra.
Qed.

Lemma rne_le (x y : Q) : x <= y -> (rne x <= rne y)%Z.
Proof.
  intros H. pose proof (Qfloor_resp_le x y H) as F.
  destruct (Z.eq_dec (Qfloor x) (Qfloor y)) as [E|N].
  - unfold rne. rewrite E.
    destruct (x - inject_Z (Qfloor y) ?= 1 # 2) eqn:Cx;
      destruct (y - inject_Z (Qfloor y) ?= 1 # 2) eqn:Cy;
      try (destruct (Z.even (Qfloor y))); try lia;
      first [apply Qeq_alt in Cx | apply Qlt_alt in Cx | apply Qgt_alt in Cx];
      first [apply Qeq_alt in Cy | apply Qlt_alt in Cy | apply Qgt_alt in Cy];
      lra.
  - destruct (rne_cases x) as [-> | ->], (rne_cases y) as [-> | ->]; lia.
Qed.

Lemma inject_Z_apart (m n : Z) :
  m <> n -> inject_Z m + 1 <= inject_Z n \/ inject_Z n + 1 <= inject_Z m.
Proof.
  intros H. change 1 with (inject_Z 1). rewrite <- !inject_Z_plus, <- !Zle_Qle. lia.
Qed.

(** No integer is nearer to [x] than [rne x]. *)
Lemma rne_nearest (x : Q) (n : Z) :
  Qabs (inject_Z (rne x) - x) <= Qabs (inject_Z n - x).
Proof.
  destruct (Z.eq_dec (rne x) n) as [->|N]; [apply Qle_refl|].
  pose proof (rne_half x) as H. apply Qabs_Qle_condition in H.
  apply Qle_trans with (1 # 2); [apply Qabs_Qle_condition; exact H|].
  pose proof (Qle_Qabs (inject_Z n - x)) as A.
  pose proof (Qle_Qabs (- (inject_Z n - x))) as B. rewrite Qabs_opp in B.
  destruct (inject_Z_apart _ _ N); lra.
Qed.

Lemma rne_nonneg (x : Q) : 0 <= x -> (0 <= rne x)%Z.
Proof. intros H. rewrite <- (rne_Z 0). apply rne_le. exact H. Qed.

(** *** The unit in the last place *)

Lemma quantum_comp (a b : Q) : 0 < a -> a == b -> quantum a = quantum b.
Proof. intros Ha E. unfold quantum. rewrite (ilog2_comp a b Ha E). reflexivity. Qed.

Lemma quantum_le (a b : Q) : 0 < a -> a <= b -> (quantum a <= quantum b)%Z.
Proof. intros Ha H. unfold quantum. pose proof (ilog2_le a b Ha H). lia. Qed.

Lemma nearest_comp (a b : Q) : 0 < a -> a == b -> nearest a == nearest b.
Proof.
  intros Ha E. unfold nearest. rewrite (quantum_comp a b Ha E).
  assert (a / 2 ^ quantum b == b / 2 ^ quantum b) as D by (rewrite E; reflexivity).
  rewrite (rne_comp _ _ D). reflexivity.
Qed.

Lemma scaled (m q : Q) (k : Z) : m * 2 ^ k - q == (m - q / 2 ^ k) * 2 ^ k.
Proof. field. apply pow2_nonzero. Qed.

(** No multiple of the unit in the last place is nearer to [q] than
    [nearest q]. *)
Lemma nearest_grid (q : Q) (n : Z) :
  Qabs (nearest q - q) <= Qabs (inject_Z n * 2 ^ quantum q - q).
Proof.
  unfold nearest. rewrite !scaled, !Qabs_Qmult.
  apply Qmult_le_compat_r; [apply rne_nearest|apply Qabs_nonneg].
Qed.

Lemma nearest_below (q : Q) (n : Z) :
  q <= inject_Z n * 2 ^ quantum q -> nearest q <= inject_Z n * 2 ^ quantum q.
Proof.
  intros H. unfold nearest.
  apply Qmult_le_compat_r; [|apply Qlt_le_weak, pow2_pos].
  rewrite <- Zle_Qle.
  assert (q / 2 ^ quantum q <= inject_Z n) as D
    by (apply Qle_shift_div_r; [apply pow2_pos|exact H]).
  apply rne_le in D. rewrite rne_Z in D. exact D.
Qed.

Lemma nearest_above (q : Q) (n : Z) :
  inject_Z n * 2 ^ quantum q <= q -> inject_Z n * 2 ^ quantum q <= nearest q.
Proof.
  intros H. unfold nearest.
  apply Qmult_le_compat_r; [|apply Qlt_le_weak, pow2_pos].
  rewrite <- Zle_Qle.
  assert (inject_Z n <= q / 2 ^ quantum q) as D
    by (apply Qle_shift_div_l; [apply pow2_pos|exact H]).
  apply rne_le in D. rewrite rne_Z in D. exact D.
Qed.

Lemma nearest_nonneg (q : Q) : 0 < q -> 0 <= nearest q.
Proof.
  intros H. assert (inject_Z 0 * 2 ^ quantum q <= nearest q) as N.
  { apply nearest_above. change (inject_Z 0) with 0. lra. }
  change (inject_Z 0) with 0 in N. lra.
Qed.

(** A power of two from the unit in the last place on is a multiple of the
    unit, so rounding does not cross it. *)
Lemma nearest_below_pow2 (q : Q) (e : Z) :
  (quantum q <= e)%Z -> q <= 2 ^ e -> nearest q <= 2 ^ e.
Proof.
  intros K H. rewrite (pow2_multiple e (quantum q) K) in *.
  apply nearest_below. exact H.
Qed.

Lemma nearest_above_pow2 (q : Q) (e : Z) :
  (quantum q <= e)%Z -> 2 ^ e <= q -> 2 ^ e <= nearest q.
Proof.
  intros K H. rewrite (pow2_multiple e (quantum q) K) in *.
  apply nearest_above. exact H.
Qed.

Lemma nearest_mantissa (q : Q) : 0 < q -> (rne (q / 2 ^ quantum q) <= 2 ^ 53)%Z.
Proof.
  intros Hq. destruct (ilog2_spec q Hq) as [_ U].
  assert (q / 2 ^ quantum q <= inject_Z (2 ^ 53)) as D.
  { apply Qle_shift_div_r; [apply pow2_pos|].
    rewrite <- pow2_Z by lia. rewrite <- pow2_add.
    apply Qlt_le_weak. apply Qlt_le_trans with (2 ^ (ilog2 q + 1)); [exact U|].
    apply pow2_le. unfold quantum. lia. }
  apply rne_le in D. rewrite rne_Z in D. exact D.
Qed.

Lemma nearest_le (a b : Q) : 0 < a -> a <= b -> nearest a <= nearest b.
Proof.
  intros Ha H.
  pose proof (quantum_le a b Ha H) as K.
  destruct (Z.eq_dec (quantum a) (quantum b)) as [E|N].
  - unfold nearest. rewrite E.
    apply Qmult_le_compat_r; [|apply Qlt_le_weak, pow2_pos].
    rewrite <- Zle_Qle. apply rne_le.
    apply Qmult_le_compat_r; [exact H|].
    apply Qlt_le_weak, Qinv_lt_0_compat, pow2_pos.
  - destruct (ilog2_spec a Ha) as [_ Ua].
    destruct (ilog2_spec b ltac:(lra)) as [Lb _].
    assert (ilog2 a < ilog2 b)%Z as L by (unfold quantum in *; lia).
    assert (2 ^ (ilog2 a + 1) <= 2 ^ ilog2 b) as P by (apply pow2_le; lia).
    apply Qle_trans with (2 ^ ilog2 b).
    + apply nearest_below_pow2; [unfold quantum in *; lia|lra].
    + apply nearest_above_pow2; [unfold quantum in *; lia|exact Lb].
Qed.

(** *** The doubles: what rounding leaves as it is *)

Lemma div_of_multiple (r n p : Q) : ~ p == 0 -> r == n * p -> r / p == n.
Proof. intros Hp E. rewrite E. field. exact Hp. Qed.

Lemma nearest_of_multiple (r : Q) (n : Z) :
  r == inject_Z n * 2 ^ quantum r -> nearest r == r.
Proof.
  intros E. unfold nearest.
  assert (r / 2 ^ quantum r == inject_Z n) as D.
  { apply div_of_multiple; [apply pow2_nonzero|exact E]. }
  rewrite (rne_comp _ _ D), rne_Z. symmetry. exact E.
Qed.

(** A positive multiple [m * 2 ^ k] of a power of two from [2 ^ -1074] on,
    with [m] of 53 bits, is a double. *)
Lemma nearest_fixed (r : Q) (m k : Z) :
  0 < r -> r == inject_Z m * 2 ^ k -> (m <= 2 ^ 53)%Z -> (-1074 <= k)%Z ->
  nearest r == r.
Proof.
  intros Hr E Hm Hk.
  destruct (ilog2_spec r Hr) as [L U].
  destruct (Z.eq_dec m (2 ^ 53)%Z) as [-> | N].
  - assert (r == 2 ^ (53 + k)) as P.
    { rewrite E, pow2_add, <- pow2_Z by lia. reflexivity. }
    assert (ilog2 r = (53 + k)%Z) as I.
    { rewrite (ilog2_comp r _ Hr P). apply ilog2_pow2. }
    apply (nearest_of_multiple r (2 ^ 52)).
    unfold quantum. rewrite I.
    replace (Z.max (53 + k - 52) (-1074)) with (k + 1)%Z by lia.
    rewrite P, <- pow2_Z, <- pow2_add by lia.
    replace (52 + (k + 1))%Z with (53 + k)%Z by lia. reflexivity.
  - assert (r < 2 ^ (53 + k)) as P.
    { rewrite E, pow2_add, (pow2_Z 53) by lia.
      apply Qmult_lt_compat_r; [apply pow2_pos|]. rewrite <- Zlt_Qlt. lia. }
    assert (ilog2 r < 53 + k)%Z as I by (apply pow2_lt_inv; lra).
    assert (quantum r <= k)%Z as K by (unfold quantum; lia).
    apply (nearest_of_multiple r (m * 2 ^ (k - quantum r))).
    rewrite E at 1. rewrite inject_Z_mult, <- pow2_Z by lia.
    rewrite <- Qmult_assoc, <- pow2_add.
    replace (k - quantum r + quantum r)%Z with k by lia. reflexivity.
Qed.

(** Rounding gives a double. *)
Lemma nearest_idem (q : Q) : 0 < q -> 0 < nearest q -> nearest (nearest q) == nearest q.
Proof.
  intros Hq Hn.
  apply (nearest_fixed _ (rne (q / 2 ^ quantum q)) (quantum q)).
  - exact Hn.
  - reflexivity.
  - apply nearest_mantissa. exact Hq.
  - unfold quantum. lia.
Qed.

(** *** Overflow *)

Lemma overflow_mantissa : overflow == (inject_Z (2 ^ 53) - (1 # 2)) * 2 ^ 971.
Proof. vm_compute. reflexivity. Qed.

Lemma overflow_above : 2 ^ 1023 < overflow /\ overflow < 2 ^ 1024.
Proof. split; vm_compute; reflexivity. Qed.

Lemma largest_below_overflow : inject_Z (2 ^ 53 - 1) * 2 ^ 971 < overflow.
Proof. vm_compute. reflexivity. Qed.

Lemma nearest_lt_overflow (q : Q) : 0 < q -> q < overflow -> nearest q < overflow.
Proof.
  intros Hq Ho. destruct (ilog2_spec q Hq) as [L U].
  destruct overflow_above as [O1 O2].
  assert (ilog2 q < 1024)%Z as I by (apply pow2_lt_inv; lra).
  destruct (Z_lt_le_dec (ilog2 q) 1023) as [Lt|Ge].
  - apply Qle_lt_trans with (2 ^ 1023); [|exact O1].
    apply nearest_below_pow2; [unfold quantum; lia|].
    apply Qlt_le_weak. apply Qlt_le_trans with (2 ^ (ilog2 q + 1)); [exact U|].
    apply pow2_le. lia.
  - assert (quantum q = 971%Z) as K by (unfold quantum; lia).
    apply Qle_lt_trans with (inject_Z (2 ^ 53 - 1) * 2 ^ 971);
      [|exact largest_below_overflow].
    unfold nearest. rewrite K.
    apply Qmult_le_compat_r; [|apply Qlt_le_weak, pow2_pos].
    rewrite <- Zle_Qle.
    assert (q / 2 ^ 971 < inject_Z (2 ^ 53) - (1 # 2)) as X.
    { apply Qlt_shift_div_r; [apply pow2_pos|]. rewrite <- overflow_mantissa. exact Ho. }
    pose proof (rne_half (q / 2 ^ 971)) as H. apply Qabs_Qle_condition in H.
    assert (inject_Z (rne (q / 2 ^ 971)) < inject_Z (2 ^ 53)) as Y by lra.
    rewrite <- Zlt_Qlt in Y. lia.
Qed.

(** *** [round64], case by case *)

Lemma round64_zero (q : Q) : q == 0 -> round64 q = Finite 0.
Proof.
  intros H. unfold round64.
  destruct (q ?= 0) eqn:C; [reflexivity|apply Qlt_alt in C; lra|apply Qgt_alt in C; lra].
Qed.

Lemma round64_pos (q : Q) :
  0 < q ->
  round64 q = if Qle_bool overflow q then PInf else Finite (Qred (nearest q)).
Proof.
  intros H. unfold round64.
  destruct (q ?= 0) eqn:C; [apply Qeq_alt in C; lra|apply Qlt_alt in C; lra|reflexivity].
Qed.

Lemma round64_neg (q : Q) :
  q < 0 ->
  round64 q
  = if Qle_bool overflow (- q) then NInf else Finite (Qred (- nearest (- q))).
Proof.
  intros H. unfold round64.
  destruct (q ?= 0) eqn:C; [apply Qeq_alt in C; lra|reflexivity|apply Qgt_alt in C; lra].
Qed.

Lemma Qle_bool_comp (a b c d : Q) : a == b -> c == d -> Qle_bool a c = Qle_bool b d.
Proof.
  intros E F. destruct (Qle_bool a c) eqn:X, (Qle_bool b d) eqn:Y; try reflexivity.
  - apply Qle_bool_iff in X. rewrite E, F in X. apply Qle_bool_iff in X. congruence.
  - apply Qle_bool_iff in Y. rewrite <- E, <- F in Y. apply Qle_bool_iff in Y. congruence.
Qed.

Lemma round64_comp (a b : Q) : a == b -> round64 a = round64 b.
Proof.
  intros E. destruct (Q_dec a 0) as [[L|G]|Z].
  - rewrite (round64_neg a L), (round64_neg b) by lra.
    rewrite (Qle_bool_comp overflow overflow (- a) (- b)) by (rewrite ?E; reflexivity).
    assert (- nearest (- a) == - nearest (- b)) as N.
    { rewrite (nearest_comp (- a) (- b)) by (rewrite ?E; lra). reflexivity. }
    rewrite (Qred_complete _ _ N). reflexivity.
  - rewrite (round64_pos a G), (round64_pos b) by lra.
    rewrite (Qle_bool_comp overflow overflow a b) by (rewrite ?E; reflexivity).
    rewrite (Qred_complete _ _ (nearest_comp a b G E)). reflexivity.
  - rewrite (round64_zero a Z), (round64_zero b) by lra. reflexivity.
Qed.

Lemma Qopp_opp_eq (q : Q) : - - q = q.
Proof. destruct q as [n d]. unfold Qopp. cbn. rewrite Z.opp_involutive. reflexivity. Qed.

Lemma round64_opp (q : Q) : round64 (- q) = neg (round64 q).
Proof.
  destruct (Q_dec q 0) as [[L|G]|Z].
  - rewrite (round64_neg q L), (round64_pos (- q)) by lra.
    destruct (Qle_bool overflow (- q)); [reflexivity|].
    cbn [neg]. rewrite Qred_opp, Qopp_opp_eq. reflexivity.
  - rewrite (round64_pos q G), (round64_neg (- q)) by lra.
    rewrite Qopp_opp_eq.
    destruct (Qle_bool overflow q); [reflexivity|].
    cbn [neg]. rewrite Qred_opp. reflexivity.
  - rewrite (round64_zero q Z), (round64_zero (- q)) by lra. reflexivity.
Qed.

(** What [round64] returns. *)
Lemma round64_finite (q r : Q) :
  round64 q = Finite r ->
  (q == 0 /\ r == 0)
  \/ (0 < q /\ q < overflow /\ r == nearest q)
  \/ (q < 0 /\ - q < overflow /\ r == - nearest (- q)).
Proof.
  intros H. destruct (Q_dec q 0) as [[L|G]|Z].
  - right. right. rewrite (round64_neg q L) in H.
    destruct (Qle_bool overflow (- q)) eqn:O; [discriminate|].
    assert (r = Qred (- nearest (- q))) as -> by congruence.
    split; [exact L|]. split; [|apply Qred_correct].
    apply Qnot_le_lt. intros X. apply Qle_bool_iff in X. congruence.
  - right. left. rewrite (round64_pos q G) in H.
    destruct (Qle_bool overflow q) eqn:O; [discriminate|].
    assert (r = Qred (nearest q)) as -> by congruence.
    split; [exact G|]. split; [|apply Qred_correct].
    apply Qnot_le_lt. intros X. apply Qle_bool_iff in X. congruence.
  - left. rewrite (round64_zero q Z) in H.
    assert (r = 0) as -> by congruence.
    split; [exact Z|reflexivity].
Qed.

Lemma round64_of_double (r : Q) :
  0 < r -> r < overflow -> nearest r == r -> round64 r = Finite (Qred r).
Proof.
  intros Hr Ho N. rewrite (round64_pos r Hr).
  destruct (Qle_bool overflow r) eqn:O.
  - apply Qle_bool_iff in O. lra.
  - rewrite (Qred_complete _ _ N). reflexivity.
Qed.

(** *** Comparisons and the sign *)

Lemma leb_neg (x y : num) : leb (neg x) (neg y) = leb y x.
Proof.
  destruct x as [a| | |], y as [b| | |]; try reflexivity. cbn.
  destruct (Qle_bool (- a) (- b)) eqn:X, (Qle_bool b a) eqn:Y; try reflexivity.
  - apply Qle_bool_iff in X. assert (b <= a) as H by lra.
    apply Qle_bool_iff in H. congruence.
  - apply Qle_bool_iff in Y. assert (- a <= - b) as H by lra.
    apply Qle_bool_iff in H. congruence.
Qed.

Lemma eqb_neg (x y : num) : eqb (neg x) (neg y) = eqb x y.
Proof.
  destruct x as [a| | |], y as [b| | |]; try reflexivity. cbn.
  destruct (Qeq_bool (- a) (- b)) eqn:X, (Qeq_bool a b) eqn:Y; try reflexivity.
  - apply Qeq_bool_iff in X. assert (a == b) as H by lra.
    apply Qeq_bool_iff in H. congruence.
  - apply Qeq_bool_iff in Y. assert (- a == - b) as H by lra.
    apply Qeq_bool_iff in H. congruence.
Qed.

Lemma leb_trans (x y z : num) : leb x y = true -> leb y z = true -> leb x z = true.
Proof.
  destruct x as [a| | |], y as [b| | |], z as [c| | |]; cbn; try congruence.
  intros H1 H2. apply Qle_bool_iff in H1, H2. apply Qle_bool_iff. lra.
Qed.

(** *** The doubles *)

Lemma representable_double (r : Q) :
  representable (arithmetic := binary64) r <-> double r.
Proof.
  unfold representable, double. cbn [rounded binary64]. split.
  - destruct (round64 r) as [q| | |] eqn:E; cbn [eqb]; try discriminate.
    intros H. apply Qeq_bool_iff in H.
    destruct (round64_finite r q E) as [[Z _]|[(P & O & N)|(P & O & N)]].
    + left. exact Z.
    + right. left. repeat split; try assumption. rewrite <- N. exact H.
    + right. right. repeat split; try assumption. rewrite <- H at 2. rewrite N. ring.
  - intros [Z|[(P & O & N)|(P & O & N)]].
    + rewrite (round64_zero r Z). cbn [eqb]. apply Qeq_bool_iff. symmetry. exact Z.
    + rewrite (round64_of_double r P O N). cbn [eqb]. apply Qeq_bool_iff.
      apply Qred_correct.
    + rewrite <- (Qopp_opp_eq r) at 1. rewrite round64_opp.
      assert (0 < - r) as P' by lra.
      rewrite (round64_of_double (- r) P' O N). cbn [eqb neg]. apply Qeq_bool_iff.
      rewrite Qred_correct. ring.
Qed.

Lemma double_opp (r : Q) : double r -> double (- r).
Proof.
  intros [Z|[(P & O & N)|(P & O & N)]].
  - left. lra.
  - right. right. rewrite Qopp_opp_eq. repeat split; try assumption. lra.
  - right. left. repeat split; try assumption. lra.
Qed.

Lemma round64_double (q r : Q) : round64 q = Finite r -> double r.
Proof.
  intros E.
  destruct (round64_finite q r E) as [[_ Z]|[(P & O & N)|(P & O & N)]].
  - left. exact Z.
  - pose proof (nearest_nonneg q P) as N0.
    destruct (Qle_lt_or_eq _ _ N0) as [Lt|Eq].
    + right. left. split; [lra|]. split.
      * rewrite N. apply nearest_lt_overflow; assumption.
      * rewrite (nearest_comp r (nearest q)) by lra.
        rewrite N. apply nearest_idem; assumption.
    + left. lra.
  - assert (0 < - q) as P' by lra.
    pose proof (nearest_nonneg (- q) P') as N0.
    destruct (Qle_lt_or_eq _ _ N0) as [Lt|Eq].
    + right. right. split; [lra|]. split.
      * rewrite N, Qopp_opp_eq. apply nearest_lt_overflow; assumption.
      * assert (- r == nearest (- q)) as N' by (rewrite N; ring).
        rewrite (nearest_comp (- r) (nearest (- q))) by lra.
        rewrite N'. apply nearest_idem; assumption.
    + left. lra.
Qed.

(** A double is a multiple of the smallest one. *)
Lemma double_multiple (r : Q) : double r -> exists n, r == inject_Z n * 2 ^ (-1074).
Proof.
  assert (forall x, 0 < x -> nearest x == x -> exists n, x == inject_Z n * 2 ^ (-1074))
    as Pos.
  { intros x Hx N. exists (rne (x / 2 ^ quantum x) * 2 ^ (quantum x + 1074))%Z.
    rewrite <- N at 1. unfold nearest.
    rewrite inject_Z_mult, <- pow2_Z by (unfold quantum; lia).
    rewrite <- Qmult_assoc, <- pow2_add.
    replace (quantum x + 1074 + -1074)%Z with (quantum x) by lia. reflexivity. }
  intros [Z|[(P & O & N)|(P & O & N)]].
  - exists 0%Z. rewrite Z. ring.
  - apply Pos; assumption.
  - destruct (Pos (- r) ltac:(lra) N) as (n & E). exists (- n)%Z.
    rewrite inject_Z_opp.
    assert (r == - (- r)) as R by ring. rewrite R, E. ring.
Qed.

(** *** Rounding keeps the order *)

Lemma round64_above_zero (q : Q) : 0 < q -> leb (Finite 0) (round64 q) = true.
Proof.
  intros H. rewrite (round64_pos q H).
  destruct (Qle_bool overflow q); [reflexivity|].
  cbn [leb]. apply Qle_bool_iff. rewrite Qred_correct. apply nearest_nonneg. exact H.
Qed.

Lemma round64_of_opp (q : Q) : round64 q = neg (round64 (- q)).
Proof. rewrite <- round64_opp, Qopp_opp_eq. reflexivity. Qed.

Lemma round64_below_zero (q : Q) : q < 0 -> leb (round64 q) (Finite 0) = true.
Proof.
  intros H. rewrite (round64_of_opp q).
  change (Finite 0) with (neg (Finite 0)). rewrite leb_neg.
  apply round64_above_zero. lra.
Qed.

Lemma round64_le_pos (a b : Q) :
  0 < a -> a <= b -> leb (round64 a) (round64 b) = true.
Proof.
  intros Ha H. rewrite (round64_pos a Ha), (round64_pos b) by lra.
  destruct (Qle_bool overflow b) eqn:Ob.
  - destruct (Qle_bool overflow a); reflexivity.
  - destruct (Qle_bool overflow a) eqn:Oa.
    + apply Qle_bool_iff in Oa.
      assert (overflow <= b) as X by lra. apply Qle_bool_iff in X. congruence.
    + cbn [leb]. apply Qle_bool_iff. rewrite !Qred_correct.
      apply nearest_le; assumption.
Qed.

Lemma round64_le (a b : Q) : a <= b -> leb (round64 a) (round64 b) = true.
Proof.
  intros H. destruct (Q_dec a 0) as [[La|Ga]|Za].
  - destruct (Q_dec b 0) as [[Lb|Gb]|Zb].
    + rewrite (round64_of_opp a), (round64_of_opp b), leb_neg.
      apply round64_le_pos; lra.
    + apply leb_trans with (Finite 0);
        [apply round64_below_zero|apply round64_above_zero]; assumption.
    + rewrite (round64_zero b Zb). apply round64_below_zero. exact La.
  - apply round64_le_pos; assumption.
  - rewrite (round64_zero a Za).
    destruct (Qle_lt_or_eq _ _ H) as [Lt|Eq].
    + apply round64_above_zero. lra.
    + rewrite (round64_zero b) by lra. reflexivity.
Qed.

(** *** No double is nearer *)

Lemma nearest_is_nearest (q r' : Q) :
  0 < q -> double r' -> Qabs (nearest q - q) <= Qabs (r' - q).
Proof.
  intros Hq D.
  assert (Qabs (nearest q - q) <= q) as Zero.
  { pose proof (nearest_grid q 0) as G. change (inject_Z 0) with 0 in G.
    assert (0 * 2 ^ quantum q - q == - q) as E by ring.
    rewrite E, Qabs_opp, (Qabs_pos q) in G by lra. exact G. }
  destruct D as [Z|[(P & O & N)|(P & O & N)]].
  - rewrite Z. assert (0 - q == - q) as E by ring.
    rewrite E, Qabs_opp, (Qabs_pos q) by lra. exact Zero.
  - destruct (Z_le_gt_dec (quantum q) (quantum r')) as [K|K].
    + assert (r' == inject_Z (rne (r' / 2 ^ quantum r') * 2 ^ (quantum r' - quantum q))
                    * 2 ^ quantum q) as M.
      { rewrite <- N at 1. unfold nearest.
        rewrite inject_Z_mult, <- pow2_Z by lia.
        rewrite <- Qmult_assoc, <- pow2_add.
        replace (quantum r' - quantum q + quantum q)%Z with (quantum r') by lia.
        reflexivity. }
      rewrite M. apply nearest_grid.
    + destruct (ilog2_spec q Hq) as [L _].
      destruct (ilog2_spec r' P) as [_ U'].
      assert (ilog2 r' < ilog2 q)%Z as I by (unfold quantum in K; lia).
      assert (quantum q = ilog2 q - 52)%Z as Kq by (unfold quantum in *; lia).
      assert (2 ^ (ilog2 r' + 1) <= 2 ^ ilog2 q) as Pw by (apply pow2_le; lia).
      pose proof (nearest_grid q (2 ^ (ilog2 q - quantum q))) as G.
      rewrite <- (pow2_multiple (ilog2 q) (quantum q)) in G by lia.
      rewrite (Qabs_neg (2 ^ ilog2 q - q)) in G by lra.
      rewrite (Qabs_neg (r' - q)) by lra. lra.
  - rewrite (Qabs_neg (r' - q)) by lra. lra.
Qed.

Lemma round64_nearest (q r r' : Q) :
  round64 q = Finite r -> double r' -> Qabs (r - q) <= Qabs (r' - q).
Proof.
  intros E D.
  destruct (round64_finite q r E) as [[Z Zr]|[(P & O & N)|(P & O & N)]].
  - rewrite Z, Zr. assert (0 - 0 == 0) as E0 by ring. rewrite E0.
    apply Qabs_nonneg.
  - rewrite N. apply nearest_is_nearest; assumption.
  - assert (r - q == - (nearest (- q) - - q)) as E1 by (rewrite N; ring).
    assert (r' - q == - (- r' - - q)) as E2 by ring.
    rewrite E1, E2, !Qabs_opp.
    apply nearest_is_nearest; [lra|apply double_opp; exact D].
Qed.

(** *** Integers and differences *)

Lemma integer_double (z : Z) : (Z.abs z <= 2 ^ 53)%Z -> double (inject_Z z).
Proof.
  assert (forall n, (0 < n <= 2 ^ 53)%Z ->
            0 < inject_Z n /\ inject_Z n < overflow /\ nearest (inject_Z n) == inject_Z n)
    as Pos.
  { intros n [Hn Hb].
    assert (0 < inject_Z n) as P
      by (change 0 with (inject_Z 0); rewrite <- Zlt_Qlt; exact Hn).
    split; [exact P|]. split.
    - apply Qle_lt_trans with (inject_Z (2 ^ 53)); [rewrite <- Zle_Qle; exact Hb|].
      vm_compute. reflexivity.
    - apply (nearest_fixed _ n 0 P); [|exact Hb|lia].
      change (2 ^ 0) with 1. ring. }
  intros H. destruct (Z.lt_trichotomy z 0) as [L|[->|G]].
  - right. right. rewrite <- inject_Z_opp.
    destruct (Pos (- z)%Z ltac:(lia)) as (P & O & N).
    split; [|split; assumption]. rewrite inject_Z_opp in P. lra.
  - left. reflexivity.
  - right. left. apply Pos. lia.
Qed.

Lemma smallest_double_rounds (x : Q) :
  2 ^ (-1074) <= x -> eqb (round64 x) (Finite 0) = false.
Proof.
  intros H. pose proof (pow2_pos (-1074)) as P.
  assert (0 < x) as Hx by lra.
  rewrite (round64_pos x Hx). destruct (Qle_bool overflow x); [reflexivity|].
  cbn [eqb].
  destruct (Qeq_bool (Qred (nearest x)) 0) eqn:E; [|reflexivity].
  apply Qeq_bool_iff in E. rewrite Qred_correct in E.
  assert (-1074 <= ilog2 x)%Z as I.
  { rewrite <- (ilog2_pow2 (-1074)). apply ilog2_le; assumption. }
  destruct (ilog2_spec x Hx) as [L _].
  pose proof (nearest_above_pow2 x (ilog2 x) ltac:(unfold quantum; lia) L) as A.
  pose proof (pow2_pos (ilog2 x)). lra.
Qed.

Lemma round64_difference (a b : Q) :
  double a -> double b -> ~ a == b -> eqb (round64 (a - b)) (Finite 0) = false.
Proof.
  intros Da Db Ne.
  destruct (double_multiple a Da) as (m & Ea).
  destruct (double_multiple b Db) as (n & Eb).
  assert (m <> n) as N.
  { intros ->. apply Ne. rewrite Ea, Eb. reflexivity. }
  pose proof (pow2_pos (-1074)) as P.
  destruct (inject_Z_apart m n N) as [H|H].
  - assert (2 ^ (-1074) <= b - a) as X.
    { rewrite Ea, Eb.
      assert (inject_Z n * 2 ^ (-1074) - inject_Z m * 2 ^ (-1074)
              == (inject_Z n - inject_Z m) * 2 ^ (-1074)) as R by ring.
      rewrite R.
      assert (1 * 2 ^ (-1074) <= (inject_Z n - inject_Z m) * 2 ^ (-1074)) as Y
        by (apply Qmult_le_compat_r; lra).
      lra. }
    assert (a - b = - (b - a)) as R.
    { rewrite <- (Qopp_opp_eq (a - b)). f_equal.
      destruct a, b. unfold Qminus, Qplus, Qopp. cbn. f_equal; [|apply Pos.mul_comm].
      ring. }
    rewrite R, round64_opp. change (Finite 0) with (neg (Finite 0)).
    rewrite eqb_neg. apply smallest_double_rounds. exact X.
  - apply smallest_double_rounds. rewrite Ea, Eb.
    assert (inject_Z m * 2 ^ (-1074) - inject_Z n * 2 ^ (-1074)
            == (inject_Z m - inject_Z n) * 2 ^ (-1074)) as R by ring.
    rewrite R.
    assert (1 * 2 ^ (-1074) <= (inject_Z m - inject_Z n) * 2 ^ (-1074)) as Y
      by (apply Qmult_le_compat_r; lra).
    lra.
Qed.

(** *** The two arithmetics round to nearest *)

Lemma binary64_rounds_to_nearest : RoundsToNearest binary64.
Proof.
  split.
  - exact round64_le.
  - intros q r E. apply representable_double. exact (round64_double q r E).
  - intros q r r' E D. apply representable_double in D.
    exact (round64_nearest q r r' E D).
  - exact round64_opp.
  - intros z H. apply representable_double. exact (integer_double z H).
  - intros a b Da Db. apply representable_double in Da, Db.
    exact (round64_difference a b Da Db).
Qed.

Lemma exact_rounds_to_nearest : RoundsToNearest exact.
Proof.
  split; unfold representable; cbn [rounded exact].
  - intros a b H. apply Qle_bool_iff. exact H.
  - intros q r _. apply Qeq_bool_iff. reflexivity.
  - intros q r r' E _. assert (r = q) as -> by congruence.
    assert (q - q == 0) as Z by ring. rewrite Z. apply Qabs_nonneg.
  - reflexivity.
  - intros z _. apply Qeq_bool_iff. reflexivity.
  - intros a b _ _ Ne. cbn [eqb].
    destruct (Qeq_bool (a - b) 0) eqn:E; [|reflexivity].
    apply Qeq_bool_iff in E. exfalso. apply Ne. lra.
Qed.

End RoundingFacts.

(** ** Arithmetic that rounds to nearest *)

Module ArithmeticFacts.

Import JSNum.
Local Open Scope Q_scope.

Lemma leb_antisym (x y : num) : leb x y = true -> leb y x = true -> eqb x y = true.
Proof.
  destruct x as [a| | |], y as [b| | |]; cbn; try congruence.
  intros H1 H2. apply Qle_bool_iff in H1, H2. apply Qeq_bool_iff. lra.
Qed.

Lemma leb_refl_number (x : num) : leb x x = true -> x <> NaN.
Proof. destruct x; cbn; congruence. Qed.

Lemma eqb_finite_eq (x : num) (q : Q) :
  eqb x (Finite q) = true -> exists r, x = Finite r /\ r == q.
Proof.
  destruct x as [r| | |]; cbn; try discriminate.
  intros H. apply Qeq_bool_iff in H. exists r. split; [reflexivity|exact H].
Qed.

Section Nearest.

Context {arithmetic : Arithmetic} {nearest : RoundsToNearest arithmetic}.

Lemma rounded_not_NaN (q : Q) : rounded q <> NaN.
Proof. apply leb_refl_number. apply rounded_monotone. apply Qle_refl. Qed.

Lemma rounded_comp (a b : Q) : a == b -> eqb (rounded a) (rounded b) = true.
Proof. intros E. apply leb_antisym; apply rounded_monotone; lra. Qed.

Lemma rounded_comp_finite (a b r : Q) :
  a == b -> rounded a = Finite r -> exists r', rounded b = Finite r' /\ r' == r.
Proof.
  intros E H. pose proof (rounded_comp b a ltac:(lra)) as C. rewrite H in C.
  exact (eqb_finite_eq _ _ C).
Qed.

Lemma representable_value (r : Q) :
  representable r -> exists r', rounded r = Finite r' /\ r' == r.
Proof. apply eqb_finite_eq. Qed.

Lemma value_representable (r r' : Q) :
  rounded r = Finite r' -> r' == r -> representable r.
Proof. intros H E. unfold representable. rewrite H. apply Qeq_bool_iff. exact E. Qed.

Lemma representable_comp (a b : Q) : a == b -> representable a -> representable b.
Proof.
  intros E H. destruct (representable_value a H) as (r & R & Er).
  destruct (rounded_comp_finite a b r E R) as (r' & R' & Er').
  apply (value_representable b r' R'). lra.
Qed.

(** What a rounding returns is a number of the arithmetic, as is what is
    Qeq to it. *)
Lemma rounded_is_representable (q r r' : Q) :
  rounded q = Finite r -> r' == r -> representable r'.
Proof.
  intros H E. apply (representable_comp r r'); [lra|].
  exact (rounded_representable q r H).
Qed.

Lemma representable_opp (r : Q) : representable r -> representable (- r).
Proof.
  intros H. destruct (representable_value r H) as (r' & R & E).
  apply (value_representable (- r) (- r')); [|lra].
  rewrite rounded_opp, R. reflexivity.
Qed.

Lemma representable_abs (r : Q) : representable r -> representable (Qabs r).
Proof.
  intros H. destruct (Qlt_le_dec r 0) as [L|L].
  - apply (representable_comp (- r)); [symmetry; apply Qabs_neg; lra|].
    apply representable_opp. exact H.
  - apply (representable_comp r); [symmetry; apply Qabs_pos; lra|exact H].
Qed.

Lemma representable_integer (z : Z) (q : Q) :
  (Z.abs z <= 2 ^ 53)%Z -> q == inject_Z z -> representable q.
Proof.
  intros H E. apply (representable_comp (inject_Z z)); [lra|].
  apply rounded_integer. exact H.
Qed.

Lemma representable_0 : representable 0.
Proof. apply (representable_integer 0); [vm_compute; discriminate|reflexivity]. Qed.

Lemma representable_1 : representable 1.
Proof. apply (representable_integer 1); [vm_compute; discriminate|reflexivity]. Qed.

Lemma representable_m1 : representable (-1).
Proof. apply (representable_integer (-1)); [vm_compute; discriminate|reflexivity]. Qed.

Lemma number_representable (q : Q) : number (Finite q) = true <-> representable q.
Proof. reflexivity. Qed.

Lemma number_inv (x : num) : number x = true -> exists q, x = Finite q /\ representable q.
Proof. destruct x as [q| | |]; try discriminate. intros H. exists q. split; [reflexivity|exact H]. Qed.

(** Rounding does not cross a number of the arithmetic. *)
Lemma rounded_above (lo q : Q) :
  representable lo -> lo <= q -> leb (Finite lo) (rounded q) = true.
Proof.
  intros H L. destruct (representable_value lo H) as (r & R & E).
  pose proof (rounded_monotone lo q L) as M. rewrite R in M.
  destruct (rounded q) as [x| | |]; cbn in *; try congruence.
  apply Qle_bool_iff in M. apply Qle_bool_iff. lra.
Qed.

Lemma rounded_below (hi q : Q) :
  representable hi -> q <= hi -> leb (rounded q) (Finite hi) = true.
Proof.
  intros H L. destruct (representable_value hi H) as (r & R & E).
  pose proof (rounded_monotone q hi L) as M. rewrite R in M.
  destruct (rounded q) as [x| | |]; cbn in *; try congruence.
  apply Qle_bool_iff in M. apply Qle_bool_iff. lra.
Qed.

Lemma rounded_between (lo hi q : Q) :
  representable lo -> representable hi -> lo <= q -> q <= hi ->
  exists r, rounded q = Finite r /\ lo <= r /\ r <= hi.
Proof.
  intros Hl Hh L U.
  pose proof (rounded_above lo q Hl L) as A.
  pose proof (rounded_below hi q Hh U) as B.
  destruct (rounded q) as [x| | |]; cbn in *; try congruence.
  apply Qle_bool_iff in A, B. exists x. repeat split; assumption.
Qed.

(** A rounded value is at most as far from the exact one as zero is. *)
Lemma rounded_twice (q r : Q) : rounded q = Finite r -> Qabs (r - q) <= Qabs q.
Proof.
  intros H. pose proof (rounded_nearest q r 0 H representable_0) as N.
  assert (0 - q == - q) as E by ring. rewrite E, Qabs_opp in N. exact N.
Qed.

Lemma rounded_sign (q r : Q) :
  rounded q = Finite r -> (0 <= q -> 0 <= r /\ r <= 2 * q) /\ (q <= 0 -> 2 * q <= r /\ r <= 0).
Proof.
  intros H. pose proof (rounded_twice q r H) as T.
  pose proof (rounded_above 0 q representable_0) as A.
  pose proof (rounded_below 0 q representable_0) as B.
  rewrite H in A, B. cbn in A, B.
  split; intros S.
  - specialize (A S). apply Qle_bool_iff in A.
    rewrite (Qabs_pos q) in T by exact S. apply Qabs_Qle_condition in T. lra.
  - specialize (B S). apply Qle_bool_iff in B.
    rewrite (Qabs_neg q) in T by exact S. apply Qabs_Qle_condition in T. lra.
Qed.

(** A sum with a number of the arithmetic is rounded by no more than what
    was added. *)
Lemma rounded_sum_near (c s r : Q) :
  representable c -> rounded (c + s) = Finite r -> Qabs (r - (c + s)) <= Qabs s.
Proof.
  intros H R. pose proof (rounded_nearest (c + s) r c R H) as N.
  assert (c - (c + s) == - s) as E by ring. rewrite E, Qabs_opp in N. exact N.
Qed.

(** With no rounding the operations are those of [exact]. *)
Lemma unrounded_add (a b : num) : unrounded -> add a b = add (arithmetic := exact) a b.
Proof. intros H. destruct a, b; cbn; try reflexivity. apply H. Qed.

Lemma unrounded_sub (a b : num) : unrounded -> sub a b = sub (arithmetic := exact) a b.
Proof. intros H. apply unrounded_add. exact H. Qed.

Lemma unrounded_mul (a b : num) : unrounded -> mul a b = mul (arithmetic := exact) a b.
Proof. intros H. destruct a, b; cbn; try reflexivity. apply H. Qed.

Lemma unrounded_div (a b : num) : unrounded -> div a b = div (arithmetic := exact) a b.
Proof.
  intros H. destruct a as [x| | |], b as [y| | |]; cbn; try reflexivity.
  destruct (y ?= 0); try reflexivity; apply H.
Qed.

End Nearest.

End ArithmeticFacts.

(** ** The plot directive: the step of a zoom, rounded *)

Module ZoomStepFacts.

Import JSNum Eff Plot Geometry NumFacts ArithmeticFacts.
Local Open Scope Q_scope.

Section Nearest.

Context {arithmetic : Arithmetic} {nearest : RoundsToNearest arithmetic}.

(** *** The constant and the direction *)

Lemma ZOOM_AMT_value :
  exists z, ZOOM_AMT = Finite z /\ representable z /\ 0 <= z /\ z <= 0.04.
Proof.
  unfold ZOOM_AMT.
  destruct (rounded_between 0 1 0.02 representable_0 representable_1)
    as (z & R & L & U); [lra|lra|].
  exists z. split; [exact R|]. split; [exact (rounded_representable _ _ R)|].
  destruct (rounded_sign 0.02 z R) as [P _]. lra.
Qed.

Lemma div_rounded (x y : Q) : ~ y == 0 -> div (Finite x) (Finite y) = rounded (x / y).
Proof.
  intros H. unfold div. destruct (y ?= 0) eqn:C; try reflexivity.
  apply Qeq_alt in C. contradiction.
Qed.

(** A number that is not zero, divided by its absolute value. *)
Lemma sign_rounded (c : Q) :
  ~ c == 0 ->
  exists u, div (Finite c) (abs (Finite c)) = Finite u
            /\ (0 < c -> u == 1) /\ (c < 0 -> u == -1).
Proof.
  intros H. cbn [abs]. rewrite div_rounded by (pose proof (Qabs_positive c H); lra).
  destruct (Qlt_le_dec c 0) as [L|L].
  - destruct (representable_value (- 1) (representable_opp 1 representable_1))
      as (r & R & E).
    destruct (rounded_comp_finite (- 1) (c / Qabs c) r) as (u & U & Eu);
      [symmetry; apply sign_of_negative; exact L|exact R|].
    exists u. split; [exact U|]. split; intros; lra.
  - destruct (representable_value 1 representable_1) as (r & R & E).
    destruct (rounded_comp_finite 1 (c / Qabs c) r) as (u & U & Eu);
      [symmetry; apply sign_of_positive; lra|exact R|].
    exists u. split; [exact U|]. split; intros; lra.
Qed.

Lemma negated_sign (u : Q) :
  u == 1 \/ u == -1 -> exists t, mul (Finite (-1)) (Finite u) = Finite t /\ t == - u.
Proof.
  intros H. cbn [mul].
  assert (representable (- u)) as Ru.
  { destruct H as [E|E].
    - apply (representable_comp (-1)); [lra|]. apply representable_m1.
    - apply (representable_comp 1); [lra|]. apply representable_1. }
  destruct (representable_value (- u) Ru) as (r & R & E).
  destruct (rounded_comp_finite (- u) (-1 * u) r) as (t & T & Et); [ring|exact R|].
  exists t. split; [exact T|lra].
Qed.

Lemma type_of_falsy : type NaN = Finite 1.
Proof. reflexivity. Qed.

(** [type] from the value of [ratio - 1]. *)
Lemma type_from_difference (ratio : num) :
  match (ratio - Finite 1)%js with
  | Finite c =>
      (c == 0 -> type ratio = Finite 1)
      /\ (0 < c -> exists t, type ratio = Finite t /\ t == -1)
      /\ (c < 0 -> exists t, type ratio = Finite t /\ t == 1)
  | _ => type ratio = Finite 1
  end.
Proof.
  unfold type, checkRatio.
  destruct (ratio - Finite 1)%js as [c| | |] eqn:D; try reflexivity.
  assert (forall u, (u == 1 \/ u == -1) ->
            div (Finite c) (abs (Finite c)) = Finite u ->
            exists t, ((Finite (-1) * (Finite c / abs (Finite c))) || Finite 1)%js = Finite t
                      /\ t == - u) as Step.
  { intros u Hu Eu. rewrite Eu.
    destruct (negated_sign u Hu) as (t & T & Et). rewrite T.
    exists t. split; [|exact Et]. unfold or_else.
    assert (truthy (Finite t) = true) as Tr
      by (apply truthy_finite; destruct Hu; lra).
    rewrite Tr. reflexivity. }
  assert (~ c == 0 -> (Finite c || Finite 0)%js = Finite c) as Truthy.
  { intros H. unfold or_else.
    assert (truthy (Finite c) = true) as T by (apply truthy_finite; exact H).
    rewrite T. reflexivity. }
  split; [|split].
  - intros Z.
    assert ((Finite c || Finite 0)%js = Finite 0) as F.
    { unfold or_else.
      assert (truthy (Finite c) = false) as F by (apply falsy_finite; exact Z).
      rewrite F. reflexivity. }
    rewrite !F. reflexivity.
  - intros P. rewrite !Truthy by lra.
    destruct (sign_rounded c ltac:(lra)) as (u & U & Up & _).
    destruct (Step u (or_introl (Up P)) U) as (t & T' & Et).
    exists t. split; [exact T'|]. rewrite Et, (Up P). reflexivity.
  - intros N. rewrite !Truthy by lra.
    destruct (sign_rounded c ltac:(lra)) as (u & U & _ & Un).
    destruct (Step u (or_intror (Un N)) U) as (t & T' & Et).
    exists t. split; [exact T'|]. rewrite Et, (Un N). reflexivity.
Qed.

(** Whatever the ratio, [type] is plus or minus one. *)
Lemma type_rounded_values (ratio : num) :
  exists t, type ratio = Finite t /\ (t == 1 \/ t == -1).
Proof.
  pose proof (type_from_difference ratio) as H.
  destruct (ratio - Finite 1)%js as [c| | |];
    try (exists 1; split; [exact H|left; reflexivity]).
  destruct H as (Z & P & N).
  destruct (Q_dec c 0) as [[L|G]|E].
  - destruct (N L) as (t & T & Et). exists t. split; [exact T|left; exact Et].
  - destruct (P G) as (t & T & Et). exists t. split; [exact T|right; exact Et].
  - exists 1. split; [exact (Z E)|left; reflexivity].
Qed.

Lemma type_rounded_at_one : type (Finite 1) = Finite 1.
Proof.
  pose proof (type_from_difference (Finite 1)) as H.
  destruct (representable_value 0 representable_0) as (r & R & E).
  destruct (rounded_comp_finite 0 (1 + - 1) r ltac:(ring) R) as (c & C & Ec).
  change (Finite 1 - Finite 1)%js with (rounded (1 + - 1)) in H. rewrite C in H.
  apply H. lra.
Qed.

Lemma type_rounded_above_one (r : Q) :
  representable r -> 1 < r -> exists t, type (Finite r) = Finite t /\ t == -1.
Proof.
  intros Hr H. pose proof (type_from_difference (Finite r)) as T.
  change (Finite r - Finite 1)%js with (rounded (r - 1)) in T.
  destruct (rounded_between 0 r (r - 1) representable_0 Hr) as (c & C & L & U);
    [lra|lra|].
  pose proof (rounded_difference r 1 Hr representable_1 ltac:(lra)) as D.
  rewrite C in *. apply eqb_finite_false in D. apply T. lra.
Qed.

Lemma type_rounded_below_one (r : Q) :
  representable r -> r < 1 -> exists t, type (Finite r) = Finite t /\ t == 1.
Proof.
  intros Hr H. pose proof (type_from_difference (Finite r)) as T.
  change (Finite r - Finite 1)%js with (rounded (r - 1)) in T.
  pose proof (rounded_below 0 (r - 1) representable_0 ltac:(lra)) as B.
  pose proof (rounded_not_NaN (r - 1)) as N.
  pose proof (rounded_difference r 1 Hr representable_1 ltac:(lra)) as D.
  destruct (rounded (r - 1)) as [c| | |]; cbn in B; try congruence.
  - apply Qle_bool_iff in B. apply eqb_finite_false in D. apply T. lra.
  - exists 1. split; [exact T|reflexivity].
Qed.

(** *** A distance and a step *)

Lemma distance_value (a b : Q) :
  representable a -> representable b -> is_finite (Finite a - Finite b)%js ->
  exists d, abs (Finite a - Finite b)%js = Finite d
            /\ representable d /\ 0 <= d /\ d <= 2 * Qabs (a - b).
Proof.
  intros Ha Hb F. change (Finite a - Finite b)%js with (rounded (a - b)) in *.
  destruct (rounded (a - b)) as [x| | |] eqn:R; try contradiction.
  exists (Qabs x). split; [reflexivity|]. split.
  - apply representable_abs. exact (rounded_representable _ _ R).
  - split; [apply Qabs_nonneg|].
    pose proof (rounded_twice _ _ R) as T.
    pose proof (Qabs_triangle (x - (a - b)) (a - b)) as Tr.
    assert (x - (a - b) + (a - b) == x) as E by ring. rewrite E in Tr. lra.
Qed.

Lemma step_value (t z d : Q) :
  representable z -> 0 <= z -> z <= 0.04 -> representable d -> 0 <= d ->
  t == 1 \/ t == -1 ->
  exists s, (Finite t * Finite z * Finite d)%js = Finite s
    /\ (t == 1 -> 0 <= s /\ s <= 0.08 * d)
    /\ (t == -1 -> - (0.08 * d) <= s /\ s <= 0).
Proof.
  intros Rz Z0 Z1 Rd D0 Ht.
  assert (representable (t * z)) as Ru.
  { destruct Ht as [E|E].
    - apply (representable_comp z); [rewrite E; ring|exact Rz].
    - apply (representable_comp (- z)); [rewrite E; ring|].
      apply representable_opp. exact Rz. }
  destruct (representable_value (t * z) Ru) as (u & U & Eu).
  cbn [mul]. rewrite U. cbn [mul].
  assert (0 <= z * d) as P by (apply Qmult_le_0_compat; assumption).
  assert (z * d <= 0.04 * d) as Q1 by (apply Qmult_le_compat_r; assumption).
  assert (u * d == t * (z * d)) as E by (rewrite Eu; ring).
  destruct (rounded_between (- d) d (u * d)) as (s & S & L & H).
  - apply representable_opp. exact Rd.
  - exact Rd.
  - destruct Ht as [T|T]; rewrite E, T; lra.
  - destruct Ht as [T|T]; rewrite E, T; lra.
  - exists s. split; [exact S|].
    destruct (rounded_sign (u * d) s S) as [Pos Neg].
    split; intros T; rewrite E, T in Pos, Neg.
    + destruct Pos as [A B]; lra.
    + destruct Neg as [A B]; lra.
Qed.

(** *** A corner coordinate that moves *)

Lemma displaced (c m sigma : Q) :
  representable c -> representable m ->
  Qabs sigma <= 0.16 * Qabs (m - c) ->
  (0 <= sigma -> c < m -> towards (Finite m) (Finite c) (rounded (c + sigma)) = true)
  /\ (sigma <= 0 -> m < c ->
      towards (Finite m) (Finite c) (rounded (c + sigma)) = true)
  /\ (0 <= sigma -> m < c ->
      awayFrom (Finite m) (Finite c) (rounded (c + sigma)) = true)
  /\ (sigma <= 0 -> c < m ->
      awayFrom (Finite m) (Finite c) (rounded (c + sigma)) = true).
Proof.
  intros Rc Rm B. unfold towards, awayFrom. repeat apply conj; intros S O.
  - rewrite (Qabs_pos sigma), (Qabs_pos (m - c)) in B by lra.
    destruct (rounded_between c m (c + sigma) Rc Rm) as (r & R & L & U); [lra|lra|].
    pose proof (rounded_sum_near c sigma r Rc R) as N.
    rewrite (Qabs_pos sigma) in N by lra. apply Qabs_Qle_condition in N.
    rewrite R. apply orb_true_iff. left. apply andb_true_iff.
    split; [apply leb_finite; exact L|apply ltb_finite; lra].
  - rewrite (Qabs_neg sigma), (Qabs_neg (m - c)) in B by lra.
    destruct (rounded_between m c (c + sigma) Rm Rc) as (r & R & L & U); [lra|lra|].
    pose proof (rounded_sum_near c sigma r Rc R) as N.
    rewrite (Qabs_neg sigma) in N by lra. apply Qabs_Qle_condition in N.
    rewrite R. apply orb_true_iff. right. apply andb_true_iff.
    split; [apply ltb_finite; lra|apply leb_finite; exact U].
  - apply orb_true_iff. right. apply andb_true_iff.
    split; [apply ltb_finite; exact O|]. apply rounded_above; [exact Rc|lra].
  - apply orb_true_iff. left. apply andb_true_iff.
    split; [|apply ltb_finite; exact O]. apply rounded_below; [exact Rc|lra].
Qed.

Lemma step_displacement (t m c : Q) (D : num) :
  t == 1 \/ t == -1 -> measures D m c ->
  exists s, zoomStep (Finite t) D = Finite s
    /\ Qabs s <= 0.16 * Qabs (m - c)
    /\ (t == 1 -> 0 <= s) /\ (t == -1 -> s <= 0).
Proof.
  intros Ht (d & -> & Rd & D0 & D1).
  destruct ZOOM_AMT_value as (z & Z & Rz & Z0 & Z1).
  unfold zoomStep. rewrite Z.
  destruct (step_value t z d Rz Z0 Z1 Rd D0 Ht) as (s & S & P & N).
  exists s. split; [exact S|].
  split; [|split; intros T; [apply P|apply N]; exact T].
  apply Qabs_Qle_condition.
  destruct Ht as [T|T]; [destruct (P T)|destruct (N T)]; split; lra.
Qed.

Lemma corner_plus (c m t : Q) (D : num) :
  representable c -> representable m -> t == 1 \/ t == -1 -> measures D m c ->
  let c' := (Finite c + zoomStep (Finite t) D)%js in
  (t == 1 -> c < m -> towards (Finite m) (Finite c) c' = true)
  /\ (t == -1 -> m < c -> towards (Finite m) (Finite c) c' = true)
  /\ (t == 1 -> m < c -> awayFrom (Finite m) (Finite c) c' = true)
  /\ (t == -1 -> c < m -> awayFrom (Finite m) (Finite c) c' = true)
  /\ exists q, c' = rounded q.
Proof.
  intros Rc Rm Ht M.
  destruct (step_displacement t m c D Ht M) as (s & S & B & P & N).
  cbv zeta. rewrite S. cbn [add].
  destruct (displaced c m s Rc Rm B) as (A1 & A2 & A3 & A4).
  repeat apply conj; try (intros T O).
  - apply A1; [apply P; exact T|exact O].
  - apply A2; [apply N; exact T|exact O].
  - apply A3; [apply P; exact T|exact O].
  - apply A4; [apply N; exact T|exact O].
  - eexists. reflexivity.
Qed.

Lemma corner_minus (c m t : Q) (D : num) :
  representable c -> representable m -> t == 1 \/ t == -1 -> measures D m c ->
  let c' := (Finite c - zoomStep (Finite t) D)%js in
  (t == 1 -> m < c -> towards (Finite m) (Finite c) c' = true)
  /\ (t == -1 -> c < m -> towards (Finite m) (Finite c) c' = true)
  /\ (t == 1 -> c < m -> awayFrom (Finite m) (Finite c) c' = true)
  /\ (t == -1 -> m < c -> awayFrom (Finite m) (Finite c) c' = true)
  /\ exists q, c' = rounded q.
Proof.
  intros Rc Rm Ht M.
  destruct (step_displacement t m c D Ht M) as (s & S & B & P & N).
  cbv zeta. rewrite S. cbn [sub add neg].
  assert (Qabs (- s) <= 0.16 * Qabs (m - c)) as B' by (rewrite Qabs_opp; exact B).
  destruct (displaced c m (- s) Rc Rm B') as (A1 & A2 & A3 & A4).
  repeat apply conj; try (intros T O).
  - apply A2; [pose proof (P T); lra|exact O].
  - apply A1; [pose proof (N T); lra|exact O].
  - apply A4; [pose proof (P T); lra|exact O].
  - apply A3; [pose proof (N T); lra|exact O].
  - eexists. reflexivity.
Qed.

End Nearest.

End ZoomStepFacts.

(** ** The plot directive: the corners after a zoom step, rounded *)

Module ZoomRoundedFacts.

Import JSNum Eff Plot Geometry NumFacts ArithmeticFacts ZoomStepFacts PlotFacts.
Local Open Scope Q_scope.

(** *** Comparisons *)

Lemma ltb_asym (x y : num) : ltb x y = true -> ltb y x = false.
Proof.
  destruct x as [a| | |], y as [b| | |]; cbn; try congruence.
  rewrite negb_true_iff, negb_false_iff. intros H.
  apply Qle_bool_iff. destruct (Qlt_le_dec b a) as [L|L]; [|exact L].
  assert (b <= a) as X by lra. apply Qle_bool_iff in X. congruence.
Qed.

Lemma ltb_through (x y : num) (m : Q) :
  ltb x (Finite m) = true -> ltb (Finite m) y = true -> ltb x y = true.
Proof.
  destruct x as [a| | |], y as [b| | |]; cbn; try congruence.
  rewrite !negb_true_iff. intros H1 H2.
  destruct (Qle_bool b a) eqn:E; [|reflexivity].
  apply Qle_bool_iff in E.
  assert (m <= a) as X by (destruct (Qlt_le_dec a m) as [L|L];
    [assert (b <= m) as Y by lra; apply Qle_bool_iff in Y; congruence|exact L]).
  apply Qle_bool_iff in X. congruence.
Qed.

Lemma leb_eqb_compat (a a' b b' : num) :
  eqb a a' = true -> eqb b b' = true -> leb a' b' = true -> leb a b = true.
Proof.
  destruct a as [x| | |], a' as [x'| | |], b as [y| | |], b' as [y'| | |];
    cbn; try congruence.
  intros H1 H2 H3. apply Qeq_bool_iff in H1, H2. apply Qle_bool_iff in H3.
  apply Qle_bool_iff. lra.
Qed.

(** *** What [towards] and [awayFrom] say *)

Lemma towards_inv (m c : Q) (c' : num) :
  towards (Finite m) (Finite c) c' = true ->
  exists x, c' = Finite x /\ ((c <= x /\ x < m) \/ (m < x /\ x <= c)).
Proof.
  unfold towards. destruct c' as [x| | |]; cbn; try discriminate.
  rewrite orb_true_iff, !andb_true_iff, !negb_true_iff. intros H.
  exists x. split; [reflexivity|].
  destruct H as [[H1 H2]|[H1 H2]]; [left|right]; split.
  - apply Qle_bool_iff. exact H1.
  - apply (ltb_finite x m). cbn. rewrite H2. reflexivity.
  - apply (ltb_finite m x). cbn. rewrite H1. reflexivity.
  - apply Qle_bool_iff. exact H2.
Qed.

Lemma awayFrom_inv (m c : Q) (c' : num) :
  awayFrom (Finite m) (Finite c) c' = true ->
  (c < m /\ (c' = NInf \/ exists x, c' = Finite x /\ x <= c))
  \/ (m < c /\ (c' = PInf \/ exists x, c' = Finite x /\ c <= x)).
Proof.
  unfold awayFrom. rewrite orb_true_iff, !andb_true_iff. intros [[H1 H2]|[H1 H2]].
  - left. split; [apply ltb_finite; exact H2|].
    destruct c' as [x| | |]; cbn in H1; try discriminate.
    + right. exists x. split; [reflexivity|]. apply Qle_bool_iff. exact H1.
    + left. reflexivity.
  - right. split; [apply ltb_finite; exact H1|].
    destruct c' as [x| | |]; cbn in H2; try discriminate.
    + right. exists x. split; [reflexivity|]. apply Qle_bool_iff. exact H2.
    + left. reflexivity.
Qed.

(** Either way the coordinate is on the side of the midpoint on which it
    was. *)
Lemma moved_side (m c : Q) (c' : num) :
  towards (Finite m) (Finite c) c' = true \/ awayFrom (Finite m) (Finite c) c' = true ->
  (c < m -> ltb c' (Finite m) = true) /\ (m < c -> ltb (Finite m) c' = true).
Proof.
  intros [H|H].
  - destruct (towards_inv m c c' H) as (x & -> & [[A B]|[A B]]);
      split; intros O; apply ltb_finite; lra.
  - destruct (awayFrom_inv m c c' H) as [(O & [->|(x & -> & A)])|(O & [->|(x & -> & A)])];
      split; intros O'; try reflexivity; try lra; apply ltb_finite; lra.
Qed.

Lemma side_sameSide (m c : Q) (c' : num) :
  ~ c == m ->
  (c < m -> ltb c' (Finite m) = true) -> (m < c -> ltb (Finite m) c' = true) ->
  sameSide (Finite m) (Finite c) c' = true.
Proof.
  intros Ne B A. unfold sameSide. apply andb_true_iff.
  destruct (Qlt_le_dec c m) as [L|L].
  - specialize (B L). rewrite B, (ltb_asym _ _ B).
    assert (ltb (Finite c) (Finite m) = true) as E by (apply ltb_finite; exact L).
    rewrite E, (ltb_asym _ _ E). split; reflexivity.
  - assert (m < c) as G by lra. specialize (A G). rewrite A, (ltb_asym _ _ A).
    assert (ltb (Finite m) (Finite c) = true) as E by (apply ltb_finite; exact G).
    rewrite E, (ltb_asym _ _ E). split; reflexivity.
Qed.

Section Nearest.

Context {arithmetic : Arithmetic} {nearest : RoundsToNearest arithmetic}.

(** *** Points and viewports of numbers *)

Lemma numberPoint_inv (p : Point) :
  numberPoint p = true -> exists d r, p = pt d r /\ representable d /\ representable r.
Proof.
  destruct p as [x y]. unfold numberPoint. cbn. rewrite andb_true_iff. intros [Hx Hy].
  destruct (number_inv x Hx) as (d & -> & Rd).
  destruct (number_inv y Hy) as (r & -> & Rr).
  exists d, r. repeat split; assumption.
Qed.

Lemma numberViewport_inv (v : Viewport) :
  numberViewport v = true ->
  exists a b c d,
    v = vp a b c d
    /\ representable a /\ representable b /\ representable c /\ representable d.
Proof.
  destruct v as [p q]. unfold numberViewport. cbn. rewrite andb_true_iff.
  intros [Hp Hq].
  destruct (numberPoint_inv p Hp) as (a & b & -> & Ra & Rb).
  destruct (numberPoint_inv q Hq) as (c & d & -> & Rc & Rd).
  exists a, b, c, d. repeat split; assumption.
Qed.

(** *** The distances of [setDimensions] *)

Lemma measures_from (m c : Q) :
  representable m -> representable c -> is_finite (abs (Finite m - Finite c)%js) ->
  measures (abs (Finite m - Finite c)%js) m c.
Proof.
  intros Rm Rc F.
  assert (is_finite (Finite m - Finite c)%js) as F'
    by (destruct (Finite m - Finite c)%js; try contradiction; exact I).
  exact (distance_value m c Rm Rc F').
Qed.

Lemma measures_to (m c : Q) :
  representable m -> representable c -> is_finite (abs (Finite c - Finite m)%js) ->
  measures (abs (Finite c - Finite m)%js) m c.
Proof.
  intros Rm Rc F.
  assert (is_finite (Finite c - Finite m)%js) as F'
    by (destruct (Finite c - Finite m)%js; try contradiction; exact I).
  destruct (distance_value c m Rc Rm F') as (d & E & Rd & D0 & D1).
  exists d. repeat split; try assumption.
  rewrite (Qabs_swap m c). exact D1.
Qed.

(** *** The two corners of an axis

    [lo] is the corner coordinate that the step is added to, [hi] the one
    that it is subtracted from. *)

Lemma axis_zoomed (t lo hi m : Q) (Dlo Dhi : num) :
  representable lo -> representable hi -> representable m ->
  t == 1 \/ t == -1 -> measures Dlo m lo -> measures Dhi m hi ->
  let lo' := (Finite lo + zoomStep (Finite t) Dlo)%js in
  let hi' := (Finite hi - zoomStep (Finite t) Dhi)%js in
  ((t == 1 /\ lo < m /\ m < hi) \/ (t == -1 /\ hi < m /\ m < lo) ->
   towards (Finite m) (Finite lo) lo' = true
   /\ towards (Finite m) (Finite hi) hi' = true)
  /\ ((t == -1 /\ lo < m /\ m < hi) \/ (t == 1 /\ hi < m /\ m < lo) ->
      awayFrom (Finite m) (Finite lo) lo' = true
      /\ awayFrom (Finite m) (Finite hi) hi' = true)
  /\ (exists q, lo' = rounded q) /\ (exists q, hi' = rounded q).
Proof.
  intros Rlo Rhi Rm Ht Mlo Mhi.
  destruct (corner_plus lo m t Dlo Rlo Rm Ht Mlo) as (P1 & P2 & P3 & P4 & P5).
  destruct (corner_minus hi m t Dhi Rhi Rm Ht Mhi) as (M1 & M2 & M3 & M4 & M5).
  cbv zeta. repeat apply conj; try assumption.
  - intros [(T & A & B)|(T & A & B)]; split; auto.
  - intros [(T & A & B)|(T & A & B)]; split; auto.
Qed.

(** *** What follows for an axis whose corners stay on their sides *)

Lemma axis_sides (m lo hi : Q) (lo' hi' : num) :
  (lo < m /\ m < hi) \/ (hi < m /\ m < lo) ->
  (lo < m -> ltb lo' (Finite m) = true) -> (m < lo -> ltb (Finite m) lo' = true) ->
  (hi < m -> ltb hi' (Finite m) = true) -> (m < hi -> ltb (Finite m) hi' = true) ->
  sameSide (Finite m) (Finite lo) lo' = true
  /\ sameSide (Finite m) (Finite hi) hi' = true
  /\ strictlyBetween lo' (Finite m) hi' = true
  /\ ltb lo' hi' = ltb (Finite lo) (Finite hi)
  /\ ltb hi' lo' = ltb (Finite hi) (Finite lo).
Proof.
  intros O L1 L2 H1 H2.
  split; [apply side_sameSide; [destruct O; lra|assumption|assumption]|].
  split; [apply side_sameSide; [destruct O; lra|assumption|assumption]|].
  unfold strictlyBetween.
  destruct O as [[A B]|[A B]].
  - specialize (L1 A). specialize (H2 B).
    pose proof (ltb_through _ _ _ L1 H2) as T.
    rewrite L1, H2, T, (ltb_asym _ _ T).
    assert (ltb (Finite lo) (Finite hi) = true) as E by (apply ltb_finite; lra).
    rewrite E, (ltb_asym _ _ E). repeat split.
  - specialize (L2 B). specialize (H1 A).
    pose proof (ltb_through _ _ _ H1 L2) as T.
    rewrite L2, H1, T, (ltb_asym _ _ T).
    assert (ltb (Finite hi) (Finite lo) = true) as E by (apply ltb_finite; lra).
    rewrite E, (ltb_asym _ _ E). repeat split. apply orb_true_r.
Qed.

(** The difference of a coordinate below a number and one above it is not
    zero. *)
Lemma apart_difference (m : Q) (x y : num) :
  (exists q, x = rounded q) -> (exists q, y = rounded q) ->
  ltb x (Finite m) = true -> ltb (Finite m) y = true ->
  eqb (x - y)%js (Finite 0) = false /\ eqb (y - x)%js (Finite 0) = false.
Proof.
  intros (qx & Ex) (qy & Ey) Lx Ly.
  destruct x as [a| | |]; cbn in Lx; try discriminate;
    destruct y as [b| | |]; cbn in Ly; try discriminate;
    try (split; reflexivity).
  assert (a < m) as A by (apply (ltb_finite a m); exact Lx).
  assert (m < b) as B by (apply (ltb_finite m b); exact Ly).
  assert (representable a) as Ra by (exact (rounded_representable qx a (eq_sym Ex))).
  assert (representable b) as Rb by (exact (rounded_representable qy b (eq_sym Ey))).
  split.
  - exact (rounded_difference a b Ra Rb ltac:(lra)).
  - exact (rounded_difference b a Rb Ra ltac:(lra)).
Qed.

(** *** The edge distances *)

Lemma abs_rounded (x : Q) : eqb (abs (rounded x)) (rounded (Qabs x)) = true.
Proof.
  destruct (Qlt_le_dec x 0) as [L|L].
  - pose proof (rounded_comp (- x) (Qabs x) ltac:(symmetry; apply Qabs_neg; lra)) as C.
    rewrite rounded_opp in C.
    pose proof (rounded_below 0 x representable_0 ltac:(lra)) as B.
    pose proof (rounded_not_NaN x) as N.
    destruct (rounded x) as [r| | |], (rounded (Qabs x)) as [r'| | |];
      cbn in *; try congruence.
    apply Qle_bool_iff in B. apply Qeq_bool_iff in C. apply Qeq_bool_iff.
    rewrite Qabs_neg by exact B. exact C.
  - pose proof (rounded_comp x (Qabs x) ltac:(symmetry; apply Qabs_pos; lra)) as C.
    pose proof (rounded_above 0 x representable_0 L) as B.
    destruct (rounded x) as [r| | |], (rounded (Qabs x)) as [r'| | |];
      cbn in *; try congruence.
    apply Qle_bool_iff in B. apply Qeq_bool_iff in C. apply Qeq_bool_iff.
    rewrite Qabs_pos by exact B. exact C.
Qed.

Lemma abs_rounded_le (x y : Q) :
  Qabs x <= Qabs y -> leb (abs (rounded x)) (abs (rounded y)) = true.
Proof.
  intros H. apply (leb_eqb_compat _ _ _ _ (abs_rounded x) (abs_rounded y)).
  apply rounded_monotone. exact H.
Qed.

Lemma abs_rounded_top (x : Q) : leb (abs (rounded x)) PInf = true.
Proof.
  pose proof (rounded_not_NaN x). destruct (rounded x); cbn; congruence.
Qed.

(** The distance of a coordinate to the midpoint, taken in either order as
    [setDimensions] does, after the coordinate has moved. *)
Lemma edge_away (m c : Q) (c' : num) :
  awayFrom (Finite m) (Finite c) c' = true ->
  leb (abs (Finite m - Finite c)%js) (abs (Finite m - c')%js) = true
  /\ leb (abs (Finite c - Finite m)%js) (abs (c' - Finite m)%js) = true.
Proof.
  intros H.
  destruct (awayFrom_inv m c c' H)
    as [(O & [->|(x & -> & A)])|(O & [->|(x & -> & A)])].
  - split; apply abs_rounded_top.
  - split; apply abs_rounded_le.
    + rewrite !Qabs_pos by lra. lra.
    + rewrite !Qabs_neg by lra. lra.
  - split; apply abs_rounded_top.
  - split; apply abs_rounded_le.
    + rewrite !Qabs_neg by lra. lra.
    + rewrite !Qabs_pos by lra. lra.
Qed.

Lemma edge_towards (m c : Q) (c' : num) :
  towards (Finite m) (Finite c) c' = true ->
  leb (abs (Finite m - c')%js) (abs (Finite m - Finite c)%js) = true
  /\ leb (abs (c' - Finite m)%js) (abs (Finite c - Finite m)%js) = true.
Proof.
  intros H. destruct (towards_inv m c c' H) as (x & -> & [[A B]|[A B]]).
  - split; apply abs_rounded_le.
    + rewrite !Qabs_pos by lra. lra.
    + rewrite !Qabs_neg by lra. lra.
  - split; apply abs_rounded_le.
    + rewrite !Qabs_neg by lra. lra.
    + rewrite !Qabs_pos by lra. lra.
Qed.

(** *** A zoom step on one axis *)

Lemma strictlyBetween_sym (a m b : num) : strictlyBetween a m b = strictlyBetween b m a.
Proof. unfold strictlyBetween. apply orb_comm. Qed.

Lemma axis_step (t lo hi m : Q) (Dlo Dhi : num) :
  representable lo -> representable hi -> representable m ->
  t == 1 \/ t == -1 -> measures Dlo m lo -> measures Dhi m hi ->
  (lo < m /\ m < hi) \/ (hi < m /\ m < lo) ->
  let lo' := (Finite lo + zoomStep (Finite t) Dlo)%js in
  let hi' := (Finite hi - zoomStep (Finite t) Dhi)%js in
  ((t == 1 /\ lo < hi) \/ (t == -1 /\ hi < lo) ->
   towards (Finite m) (Finite lo) lo' = true
   /\ towards (Finite m) (Finite hi) hi' = true)
  /\ ((t == -1 /\ lo < hi) \/ (t == 1 /\ hi < lo) ->
      awayFrom (Finite m) (Finite lo) lo' = true
      /\ awayFrom (Finite m) (Finite hi) hi' = true)
  /\ sameSide (Finite m) (Finite lo) lo' = true
  /\ sameSide (Finite m) (Finite hi) hi' = true
  /\ strictlyBetween lo' (Finite m) hi' = true
  /\ ltb lo' hi' = ltb (Finite lo) (Finite hi)
  /\ ltb hi' lo' = ltb (Finite hi) (Finite lo)
  /\ eqb (lo' - hi')%js (Finite 0) = false
  /\ eqb (hi' - lo')%js (Finite 0) = false.
Proof.
  intros Rlo Rhi Rm Ht Mlo Mhi O.
  destruct (axis_zoomed t lo hi m Dlo Dhi Rlo Rhi Rm Ht Mlo Mhi)
    as (In & Out & Qlo & Qhi).
  cbv zeta in *.
  set (lo' := (Finite lo + zoomStep (Finite t) Dlo)%js) in *.
  set (hi' := (Finite hi - zoomStep (Finite t) Dhi)%js) in *.
  assert ((towards (Finite m) (Finite lo) lo' = true
           \/ awayFrom (Finite m) (Finite lo) lo' = true)
          /\ (towards (Finite m) (Finite hi) hi' = true
              \/ awayFrom (Finite m) (Finite hi) hi' = true)) as [Mlo' Mhi'].
  { destruct Ht as [T|T], O as [[A B]|[A B]].
    - destruct In as [I1 I2]; [left; repeat split; assumption|]. split; left; assumption.
    - destruct Out as [I1 I2]; [right; repeat split; assumption|].
      split; right; assumption.
    - destruct Out as [I1 I2]; [left; repeat split; assumption|].
      split; right; assumption.
    - destruct In as [I1 I2]; [right; repeat split; assumption|].
      split; left; assumption. }
  destruct (moved_side m lo lo' Mlo') as [L1 L2].
  destruct (moved_side m hi hi' Mhi') as [H1 H2].
  destruct (axis_sides m lo hi lo' hi' O L1 L2 H1 H2) as (S1 & S2 & B & O1 & O2).
  split.
  { intros [[T A]|[T A]]; apply In; [left|right]; split; try assumption;
      destruct O; lra. }
  split.
  { intros [[T A]|[T A]]; apply Out; [left|right]; split; try assumption;
      destruct O; lra. }
  repeat (split; [assumption|]).
  destruct O as [[A B']|[A B']].
  - exact (apart_difference m lo' hi' Qlo Qhi (L1 A) (H2 B')).
  - destruct (apart_difference m hi' lo' Qhi Qlo (H1 A) (L2 B')) as [X Y].
    split; assumption.
Qed.

(** *** A zoom step on a viewport of numbers *)

Lemma zoomed_viewport (t a b c d md mr : Q) :
  representable a -> representable b -> representable c -> representable d ->
  representable md -> representable mr ->
  strictlyInside (pt md mr) (vp a b c d) = true ->
  finiteDimensions (setDimensions (vp a b c d) (pt md mr)) ->
  t == 1 \/ t == -1 ->
  let v := vp a b c d in
  let m := pt md mr in
  let v' := zoomed (Finite t) v m in
  let e := setDimensions v m in
  let e' := setDimensions v' m in
  ((t == 1 /\ domainOriented v = true) \/ (t == -1 /\ domainOriented v = false) ->
   domainCorners towards m v v' = true /\ domainEdges leb e' e = true)
  /\ ((t == -1 /\ domainOriented v = true) \/ (t == 1 /\ domainOriented v = false) ->
      domainCorners awayFrom m v v' = true /\ domainEdges geb e' e = true)
  /\ ((t == 1 /\ rangeOriented v = true) \/ (t == -1 /\ rangeOriented v = false) ->
      rangeCorners towards m v v' = true /\ rangeEdges leb e' e = true)
  /\ ((t == -1 /\ rangeOriented v = true) \/ (t == 1 /\ rangeOriented v = false) ->
      rangeCorners awayFrom m v v' = true /\ rangeEdges geb e' e = true)
  /\ allCorners sameSide m v v' = true
  /\ strictlyInside m v' = true
  /\ domainOriented v' = domainOriented v
  /\ rangeOriented v' = rangeOriented v
  /\ eqb (domainExtent v') (Finite 0) = false
  /\ eqb (rangeExtent v') (Finite 0) = false.
Proof.
  intros Ra Rb Rc Rd Rmd Rmr Hin [[F1 F2] [F3 F4]] Ht.
  destruct (strictlyInside_finite _ _ _ _ _ _ Hin) as [Od Or].
  cbn [setDimensions vp pt domain range topLeft bottomRight tl br] in F1, F2, F3, F4.
  pose proof (measures_from md a Rmd Ra F1) as M1.
  pose proof (measures_from mr b Rmr Rb F2) as M2.
  pose proof (measures_to md c Rmd Rc F3) as M3.
  pose proof (measures_to mr d Rmr Rd F4) as M4.
  assert ((d < mr /\ mr < b) \/ (b < mr /\ mr < d)) as Or'
    by (destruct Or as [H|H]; [right|left]; exact H).
  destruct (axis_step t a c md _ _ Ra Rc Rmd Ht M1 M3 Od)
    as (Din & Dout & DS1 & DS2 & DB & DO1 & DO2 & DX1 & DX2).
  destruct (axis_step t d b mr _ _ Rd Rb Rmr Ht M4 M2 Or')
    as (Rin & Rout & RS1 & RS2 & RB & RO1 & RO2 & RX1 & RX2).
  cbv zeta in *.
  unfold allCorners, domainCorners, rangeCorners, domainEdges, rangeEdges,
    strictlyInside, domainOriented, rangeOriented, domainExtent, rangeExtent,
    axisSize, geb.
  cbn [zoomed setDimensions vp pt domain range topLeft bottomRight tl br].
  repeat apply conj.
  - intros [[T O]|[T O]].
    + apply ltb_finite in O. destruct Din as [I1 I2]; [left; split; assumption|].
      rewrite I1, I2. destruct (edge_towards _ _ _ I1) as [E1 _].
      destruct (edge_towards _ _ _ I2) as [_ E2]. rewrite E1, E2. split; reflexivity.
    + apply ltb_finite_false in O.
      destruct Din as [I1 I2]; [right; split; [exact T|destruct Od; lra]|].
      rewrite I1, I2. destruct (edge_towards _ _ _ I1) as [E1 _].
      destruct (edge_towards _ _ _ I2) as [_ E2]. rewrite E1, E2. split; reflexivity.
  - intros [[T O]|[T O]].
    + apply ltb_finite in O. destruct Dout as [I1 I2]; [left; split; assumption|].
      rewrite I1, I2. destruct (edge_away _ _ _ I1) as [E1 _].
      destruct (edge_away _ _ _ I2) as [_ E2]. rewrite E1, E2. split; reflexivity.
    + apply ltb_finite_false in O.
      destruct Dout as [I1 I2]; [right; split; [exact T|destruct Od; lra]|].
      rewrite I1, I2. destruct (edge_away _ _ _ I1) as [E1 _].
      destruct (edge_away _ _ _ I2) as [_ E2]. rewrite E1, E2. split; reflexivity.
  - intros [[T O]|[T O]].
    + apply ltb_finite in O. destruct Rin as [I1 I2]; [left; split; assumption|].
      rewrite I1, I2. destruct (edge_towards _ _ _ I2) as [E1 _].
      destruct (edge_towards _ _ _ I1) as [_ E2]. rewrite E1, E2. split; reflexivity.
    + apply ltb_finite_false in O.
      destruct Rin as [I1 I2]; [right; split; [exact T|destruct Or; lra]|].
      rewrite I1, I2. destruct (edge_towards _ _ _ I2) as [E1 _].
      destruct (edge_towards _ _ _ I1) as [_ E2]. rewrite E1, E2. split; reflexivity.
  - intros [[T O]|[T O]].
    + apply ltb_finite in O. destruct Rout as [I1 I2]; [left; split; assumption|].
      rewrite I1, I2. destruct (edge_away _ _ _ I2) as [E1 _].
      destruct (edge_away _ _ _ I1) as [_ E2]. rewrite E1, E2. split; reflexivity.
    + apply ltb_finite_false in O.
      destruct Rout as [I1 I2]; [right; split; [exact T|destruct Or; lra]|].
      rewrite I1, I2. destruct (edge_away _ _ _ I2) as [E1 _].
      destruct (edge_away _ _ _ I1) as [_ E2]. rewrite E1, E2. split; reflexivity.
  - rewrite DS1, DS2, RS1, RS2. reflexivity.
  - rewrite DB, (strictlyBetween_sym _ _ _), RB. reflexivity.
  - exact DO1.
  - exact RO1.
  - exact DX1.
  - exact RX2.
Qed.

End Nearest.

End ZoomRoundedFacts.

(** ** The plot directive: the direction of a zoom step *)

Module ZoomDirectionFacts.

Import JSNum Binary64 Eff Plot Geometry Samples NumFacts RoundingFacts ArithmeticFacts
  ZoomStepFacts PlotFacts ZoomRoundedFacts.
Local Open Scope Q_scope.

Section Nearest.

Context {arithmetic : Arithmetic} {nearest : RoundsToNearest arithmetic}.

(** *** Without rounding *)

Lemma calculateViewport_unrounded (v : Viewport) (m : Point) (ratio : num) :
  unrounded ->
  calculateViewport v m ratio = calculateViewport (arithmetic := exact) v m ratio.
Proof.
  intros H.
  unfold calculateViewport, setDimensions, type, checkRatio, ZOOM_AMT.
  rewrite ?H.
  rewrite ?(fun a b => unrounded_sub a b H), ?(fun a b => unrounded_add a b H),
    ?(fun a b => unrounded_mul a b H), ?(fun a b => unrounded_div a b H).
  reflexivity.
Qed.

Lemma setDimensions_unrounded (v : Viewport) (m : Point) :
  unrounded -> setDimensions v m = setDimensions (arithmetic := exact) v m.
Proof.
  intros H. unfold setDimensions.
  rewrite ?(fun a b => unrounded_sub a b H). reflexivity.
Qed.

Lemma scaledByZoomStep_unrounded (d' d : num) :
  unrounded -> scaledByZoomStep d' d = scaledByZoomStep (arithmetic := exact) d' d.
Proof.
  intros H. unfold scaledByZoomStep, ZOOM_AMT. rewrite ?H.
  rewrite ?(fun a b => unrounded_sub a b H), ?(fun a b => unrounded_add a b H),
    ?(fun a b => unrounded_mul a b H).
  reflexivity.
Qed.

Lemma type_unrounded (ratio : num) :
  unrounded -> type ratio = type (arithmetic := exact) ratio.
Proof.
  intros H. unfold type, checkRatio.
  rewrite ?(fun a b => unrounded_sub a b H), ?(fun a b => unrounded_mul a b H),
    ?(fun a b => unrounded_div a b H).
  reflexivity.
Qed.

Lemma numberPoint_finite (p : Point) : numberPoint p = true -> finitePoint p.
Proof.
  intros H. destruct (numberPoint_inv p H) as (d & r & -> & _). split; exact I.
Qed.

Lemma numberViewport_finite (v : Viewport) : numberViewport v = true -> finiteViewport v.
Proof.
  intros H. destruct (numberViewport_inv v H) as (a & b & c & d & -> & _).
  repeat split.
Qed.

(** *** A zoom step, by its direction *)

Lemma calculateViewport_zoomed (v : Viewport) (m : Point) (ratio : num) :
  calculateViewport v m ratio = zoomed (type ratio) v m.
Proof. reflexivity. Qed.

Lemma zoom_step_directions (v : Viewport) (m : Point) (ratio : num) (t : Q) :
  numberViewport v = true -> numberPoint m = true -> strictlyInside m v = true ->
  finiteDimensions (setDimensions v m) -> type ratio = Finite t ->
  let v' := calculateViewport v m ratio in
  let e := setDimensions v m in
  let e' := setDimensions v' m in
  (t == 1 ->
   (domainOriented v = true ->
    domainCorners towards m v v' = true /\ domainEdges leb e' e = true)
   /\ (rangeOriented v = true ->
       rangeCorners towards m v v' = true /\ rangeEdges leb e' e = true)
   /\ (domainOriented v = false ->
       domainCorners awayFrom m v v' = true /\ domainEdges geb e' e = true)
   /\ (rangeOriented v = false ->
       rangeCorners awayFrom m v v' = true /\ rangeEdges geb e' e = true))
  /\ (t == -1 ->
      (domainOriented v = true ->
       domainCorners awayFrom m v v' = true /\ domainEdges geb e' e = true)
      /\ (rangeOriented v = true ->
          rangeCorners awayFrom m v v' = true /\ rangeEdges geb e' e = true)
      /\ (domainOriented v = false ->
          domainCorners towards m v v' = true /\ domainEdges leb e' e = true)
      /\ (rangeOriented v = false ->
          rangeCorners towards m v v' = true /\ rangeEdges leb e' e = true)).
Proof.
  intros Hv Hm Hin Hf T.
  destruct (numberViewport_inv v Hv) as (a & b & c & d & -> & Ra & Rb & Rc & Rd).
  destruct (numberPoint_inv m Hm) as (md & mr & -> & Rmd & Rmr).
  cbv zeta. rewrite calculateViewport_zoomed, T.
  split; intros Ht.
  - destruct (zoomed_viewport t a b c d md mr Ra Rb Rc Rd Rmd Rmr Hin Hf
                (or_introl Ht)) as (Din & Dout & Rin & Rout & _).
    repeat apply conj; intros O.
    + apply Din. left. split; assumption.
    + apply Rin. left. split; assumption.
    + apply Dout. right. split; assumption.
    + apply Rout. right. split; assumption.
  - destruct (zoomed_viewport t a b c d md mr Ra Rb Rc Rd Rmd Rmr Hin Hf
                (or_intror Ht)) as (Din & Dout & Rin & Rout & _).
    repeat apply conj; intros O.
    + apply Dout. left. split; assumption.
    + apply Rout. left. split; assumption.
    + apply Din. right. split; assumption.
    + apply Rin. right. split; assumption.
Qed.

(** C9, as the code has it.  Let the coordinates of the viewport and of
    the midpoint be numbers of an arithmetic that rounds to nearest, as the
    doubles are, let the midpoint lie strictly between the two corners on
    each axis, and let none of the four edge distances overflow.  For
    every ratio, [type] is plus or minus one, and [calculateViewport] moves
    each corner coordinate by [type * ZOOM_AMT] times its distance to the
    midpoint, each operation rounded.  Every corner coordinate stays
    strictly on its side of the midpoint: the midpoint stays strictly
    inside, the order of the corners on each axis is kept and no extent
    becomes zero.  Without rounding the viewport stays finite and each of
    the four edge distances is scaled by [1 - ZOOM_AMT] or by
    [1 + ZOOM_AMT]. *)
Theorem zoom_keeps_corners_on_their_side (v : Viewport) (m : Point) (ratio : num) :
  numberViewport v = true -> numberPoint m = true -> strictlyInside m v = true ->
  finiteDimensions (setDimensions v m) ->
  let v' := calculateViewport v m ratio in
  eqb (type ratio) (Finite 1) || eqb (type ratio) (Finite (-1)) = true
  /\ v' = zoomed (type ratio) v m
  /\ allCorners sameSide m v v' = true
  /\ strictlyInside m v' = true
  /\ domainOriented v' = domainOriented v
  /\ rangeOriented v' = rangeOriented v
  /\ eqb (domainExtent v') (Finite 0) = false
  /\ eqb (rangeExtent v') (Finite 0) = false
  /\ (unrounded ->
      finiteViewport v'
      /\ allEdges scaledByZoomStep (setDimensions v' m) (setDimensions v m) = true).
Proof.
  intros Hv Hm Hin Hf. cbv zeta.
  split.
  { destruct (type_rounded_values ratio) as (t & T & [E|E]); rewrite T; cbn [eqb];
      apply orb_true_iff; [left|right]; apply Qeq_bool_iff; exact E. }
  split; [reflexivity|].
  assert (allCorners sameSide m v (calculateViewport v m ratio) = true
          /\ strictlyInside m (calculateViewport v m ratio) = true
          /\ domainOriented (calculateViewport v m ratio) = domainOriented v
          /\ rangeOriented (calculateViewport v m ratio) = rangeOriented v
          /\ eqb (domainExtent (calculateViewport v m ratio)) (Finite 0) = false
          /\ eqb (rangeExtent (calculateViewport v m ratio)) (Finite 0) = false)
    as (S & I & Od & Or & Xd & Xr).
  { destruct (numberViewport_inv v Hv) as (a & b & c & d & -> & Ra & Rb & Rc & Rd).
    destruct (numberPoint_inv m Hm) as (md & mr & -> & Rmd & Rmr).
    destruct (type_rounded_values ratio) as (t & T & Ht).
    rewrite calculateViewport_zoomed, T.
    destruct (zoomed_viewport t a b c d md mr Ra Rb Rc Rd Rmd Rmr Hin Hf Ht)
      as (_ & _ & _ & _ & R).
    exact R. }
  repeat (split; [assumption|]).
  intros U.
  destruct (zoom_scales_edges_exactly v m ratio (numberViewport_finite v Hv)
              (numberPoint_finite m Hm) Hin) as (F & E & _).
  rewrite (calculateViewport_unrounded v m ratio U).
  split; [exact F|].
  rewrite !(setDimensions_unrounded _ m U).
  unfold allEdges in *. rewrite !(fun d' d => scaledByZoomStep_unrounded d' d U).
  exact E.
Qed.

(** C1, as the code has it.  Let the coordinates of the viewport, those of
    the midpoint and the ratio be numbers of an arithmetic that rounds to
    nearest, as the doubles are, let the midpoint lie strictly inside the
    viewport and let none of the four edge distances overflow.  With a
    ratio above one [calculateViewport] takes [type = -1]: on an axis
    whose corners are in the order of the plot ([topLeft.domain <
    bottomRight.domain], [topLeft.range > bottomRight.range]) neither
    corner moves towards the midpoint and neither edge distance
    decreases, a zoom out.  With a ratio below one it takes [type = 1]:
    on such an axis neither corner moves away from the midpoint or reaches
    it, and neither edge distance increases.  On an axis whose corners are
    in the other order the two cases change places.  Without rounding the
    edge distances strictly increase and strictly decrease. *)
Theorem zoom_ratio_direction (v : Viewport) (m : Point) (ratio : Q) :
  numberViewport v = true -> numberPoint m = true -> number (Finite ratio) = true ->
  strictlyInside m v = true -> finiteDimensions (setDimensions v m) ->
  let v' := calculateViewport v m (Finite ratio) in
  let e := setDimensions v m in
  let e' := setDimensions v' m in
  v' = zoomed (type (Finite ratio)) v m
  /\ (1 < ratio ->
      eqb (type (Finite ratio)) (Finite (-1)) = true
      /\ (domainOriented v = true ->
          domainCorners awayFrom m v v' = true /\ domainEdges geb e' e = true)
      /\ (rangeOriented v = true ->
          rangeCorners awayFrom m v v' = true /\ rangeEdges geb e' e = true)
      /\ (domainOriented v = false ->
          domainCorners towards m v v' = true /\ domainEdges leb e' e = true)
      /\ (rangeOriented v = false ->
          rangeCorners towards m v v' = true /\ rangeEdges leb e' e = true)
      /\ (unrounded ->
          (plotOriented v = true -> allEdges gtb e' e = true)
          /\ (domainOriented v = false -> domainEdges ltb e' e = true)
          /\ (rangeOriented v = false -> rangeEdges ltb e' e = true)))
  /\ (ratio < 1 ->
      eqb (type (Finite ratio)) (Finite 1) = true
      /\ (domainOriented v = true ->
          domainCorners towards m v v' = true /\ domainEdges leb e' e = true)
      /\ (rangeOriented v = true ->
          rangeCorners towards m v v' = true /\ rangeEdges leb e' e = true)
      /\ (domainOriented v = false ->
          domainCorners awayFrom m v v' = true /\ domainEdges geb e' e = true)
      /\ (rangeOriented v = false ->
          rangeCorners awayFrom m v v' = true /\ rangeEdges geb e' e = true)
      /\ (unrounded ->
          (plotOriented v = true -> allEdges ltb e' e = true)
          /\ (domainOriented v = false -> domainEdges gtb e' e = true)
          /\ (rangeOriented v = false -> rangeEdges gtb e' e = true))).
Proof.
  intros Hv Hm Hr Hin Hf. cbv zeta.
  split; [reflexivity|].
  assert (unrounded ->
          setDimensions (calculateViewport v m (Finite ratio)) m
          = setDimensions (arithmetic := exact)
              (calculateViewport (arithmetic := exact) v m (Finite ratio)) m
          /\ setDimensions v m = setDimensions (arithmetic := exact) v m) as Ex.
  { intros U. rewrite (calculateViewport_unrounded v m _ U).
    rewrite !(setDimensions_unrounded _ m U). split; reflexivity. }
  pose proof (zoom_direction_exactly v m ratio (numberViewport_finite v Hv)
                (numberPoint_finite m Hm) Hin) as [Above Below].
  split; intros R.
  - destruct (type_rounded_above_one ratio Hr R) as (t & T & Et).
    destruct (zoom_step_directions v m (Finite ratio) t Hv Hm Hin Hf T) as [_ D].
    destruct (D Et) as (D1 & D2 & D3 & D4).
    split; [rewrite T; apply eqb_finite; exact Et|].
    repeat (split; [assumption|]).
    intros U. destruct (Ex U) as [E1 E2]. rewrite E1, E2.
    destruct (Above R) as (_ & A). exact A.
  - destruct (type_rounded_below_one ratio Hr R) as (t & T & Et).
    destruct (zoom_step_directions v m (Finite ratio) t Hv Hm Hin Hf T) as [D _].
    destruct (D Et) as (D1 & D2 & D3 & D4).
    split; [rewrite T; apply eqb_finite; exact Et|].
    repeat (split; [assumption|]).
    intros U. destruct (Ex U) as [E1 E2]. rewrite E1, E2.
    destruct (Below R) as (_ & A). exact A.
Qed.

(** C7, as the code has it.  With the ratio exactly one, [type] is [1]:
    the result of [calculateViewport] is the viewport of a step with the
    factor [+ 1], of [ZOOM_AMT] times each edge distance, each operation
    rounded.  Let the coordinates of the viewport and of the midpoint be
    numbers of an arithmetic that rounds to nearest, as the doubles are,
    let the midpoint lie strictly inside the viewport and let none of the
    four edge distances overflow.  On an axis whose corners are in the
    order of the plot neither corner moves away from the midpoint or
    reaches it, and neither edge distance increases; on an axis whose
    corners are in the other order neither corner moves towards the
    midpoint.  Without rounding every corner coordinate changes, and with
    the corners in the order of the plot all four edge distances strictly
    decrease. *)
Theorem zoom_at_ratio_one (v : Viewport) (m : Point) :
  let v' := calculateViewport v m (Finite 1) in
  let e := setDimensions v m in
  let e' := setDimensions v' m in
  type (Finite 1) = Finite 1
  /\ v' = zoomed (Finite 1) v m
  /\ (numberViewport v = true -> numberPoint m = true -> strictlyInside m v = true ->
      finiteDimensions e ->
      (domainOriented v = true ->
       domainCorners towards m v v' = true /\ domainEdges leb e' e = true)
      /\ (rangeOriented v = true ->
          rangeCorners towards m v v' = true /\ rangeEdges leb e' e = true)
      /\ (domainOriented v = false ->
          domainCorners awayFrom m v v' = true /\ domainEdges geb e' e = true)
      /\ (rangeOriented v = false ->
          rangeCorners awayFrom m v v' = true /\ rangeEdges geb e' e = true)
      /\ (unrounded ->
          eqb (domain (topLeft v')) (domain (topLeft v)) = false
          /\ eqb (range (topLeft v')) (range (topLeft v)) = false
          /\ eqb (domain (bottomRight v')) (domain (bottomRight v)) = false
          /\ eqb (range (bottomRight v')) (range (bottomRight v)) = false
          /\ (plotOriented v = true -> allEdges ltb e' e = true))).
Proof.
  cbv zeta. split; [exact type_rounded_at_one|].
  split; [rewrite calculateViewport_zoomed, type_rounded_at_one; reflexivity|].
  intros Hv Hm Hin Hf.
  destruct (zoom_step_directions v m (Finite 1) 1 Hv Hm Hin Hf type_rounded_at_one)
    as [D _].
  destruct (D ltac:(reflexivity)) as (D1 & D2 & D3 & D4).
  repeat (split; [assumption|]).
  intros U.
  destruct ratio_one_step_exactly as (_ & _ & A).
  specialize (A v m (numberViewport_finite v Hv) (numberPoint_finite m Hm) Hin).
  cbv zeta in A.
  rewrite (calculateViewport_unrounded v m _ U).
  rewrite !(setDimensions_unrounded _ m U). exact A.
Qed.

End Nearest.

(** *** A pinch without a distance *)

Section Pinched.

Context {arithmetic : Arithmetic} {utils : Utils}.

Lemma divided_by_zero (a : num) (z : Q) :
  z == 0 ->
  (a / Finite z)%js = NaN \/ (a / Finite z)%js = PInf \/ (a / Finite z)%js = NInf.
Proof.
  intros H. apply Qeq_alt in H.
  destruct a as [x| | |]; unfold div; rewrite ?H; try tauto.
  destruct (x ?= 0); tauto.
Qed.

Lemma divided_by_NaN (a : num) : (a / NaN)%js = NaN.
Proof. destruct a; reflexivity. Qed.

Lemma type_without_distance (lastDistance firstDistance : option num)
    (distance : num) :
  eqb distance (Finite 0) = true \/ distance = NaN ->
  type (distanceRatio lastDistance firstDistance distance) = Finite 1.
Proof.
  intros H.
  assert (forall a, (a / distance)%js = NaN \/ (a / distance)%js = PInf
                    \/ (a / distance)%js = NInf) as D.
  { intros a. destruct H as [H | ->]; [|left; apply divided_by_NaN].
    destruct distance as [z| | |]; try discriminate H.
    apply divided_by_zero. apply Qeq_bool_iff. exact H. }
  unfold distanceRatio, or_else.
  destruct (D (toNumber lastDistance)) as [-> | [-> | ->]];
    destruct (D (toNumber firstDistance)) as [-> | [-> | ->]]; reflexivity.
Qed.

Lemma comparePinchDrag_NaN (firstDistance lastDistance : num) :
  comparePinchDrag NaN firstDistance lastDistance = false.
Proof.
  unfold comparePinchDrag, geb, leb, sub.
  destruct (firstDistance + PINCH_DRAG_AMT)%js, (lastDistance + PINCH_DRAG_AMT)%js,
    (firstDistance + neg PINCH_DRAG_AMT)%js, (lastDistance + neg PINCH_DRAG_AMT)%js;
    reflexivity.
Qed.

(** X13.  A pinch change whose distance is zero or is not a number, if it
    is taken as a zoom, zooms in.  Whatever the first and the last distance
    are, the ratio that [updateZoom] computes is then [NaN] or an infinity,
    for each of these [calculateViewport] takes [type = 1], the step of a
    ratio below one, and [onPinchChange] installs the viewport of that step
    around the plot point of the midpoint and records the distance.  A
    distance that is not a number is always taken as a zoom; a distance of
    zero is taken as a pan when the rounded first or previous distance is
    within the tolerance of it. *)
Theorem pinch_without_distance_zooms_in (s : State) (touch : Pinch.t) :
  eqb (Pinch.distance touch) (Finite 0) = true \/ Pinch.distance touch = NaN ->
  type (distanceRatio (lastTouchDistance s) (firstTouchDistance s)
          (Pinch.distance touch)) = Finite 1
  /\ (comparePinchDrag (round (Pinch.distance touch))
        (round (toNumber (firstTouchDistance s)))
        (round (toNumber (lastTouchDistance s))) = false ->
      exists s',
        onPinchChange touch s = Returned (tt, s')
        /\ viewport s'
           = zoomed (Finite 1) (viewport s)
               (elementPositionAsPlotPosition
                  {| x := (clientX (Pinch.midpoint touch)
                           - left (Pinch.bounds touch))%js;
                     y := (clientY (Pinch.midpoint touch)
                           - top (Pinch.bounds touch))%js |}
                  (Pinch.bounds touch) (viewport s))
        /\ lastTouchDistance s' = Some (Pinch.distance touch))
  /\ (Pinch.distance touch = NaN ->
      comparePinchDrag (round (Pinch.distance touch))
        (round (toNumber (firstTouchDistance s)))
        (round (toNumber (lastTouchDistance s))) = false)
  /\ (eqb (Pinch.distance touch) (Finite 0) = true ->
      comparePinchDrag (round (Pinch.distance touch))
        (round (toNumber (firstTouchDistance s)))
        (round (toNumber (lastTouchDistance s)))
      = comparePinchDrag (Finite 0)
          (round (toNumber (firstTouchDistance s)))
          (round (toNumber (lastTouchDistance s)))).
Proof.
  intros H.
  pose proof (type_without_distance (lastTouchDistance s) (firstTouchDistance s)
                (Pinch.distance touch) H) as T.
  split; [exact T|]. split; [|split].
  - intros C. eexists. split.
    + unfold onPinchChange. unfold bind at 1 2, gets. cbn. rewrite C.
      reflexivity.
    + split; [|reflexivity].
      cbn. rewrite calculateViewport_zoomed, T. reflexivity.
  - intros ->. apply comparePinchDrag_NaN.
  - intros Z. destruct (Pinch.distance touch) as [z| | |]; try discriminate Z.
    cbn in Z. apply Qeq_bool_iff in Z.
    assert (round (Finite z) = Finite (inject_Z 0)) as ->.
    { unfold round. rewrite (Qfloor_comp (z + (1 # 2)) (1 # 2)) by (rewrite Z; ring).
      reflexivity. }
    reflexivity.
Qed.

End Pinched.

(** *** In the arithmetic of the doubles *)

#[local] Existing Instance binary64.

Lemma zoom_keeps_corners_on_their_side_witness :
  numberViewport pixelViewport = true
  /\ numberPoint pixelMidpoint = true
  /\ strictlyInside pixelMidpoint pixelViewport = true
  /\ finiteDimensions (setDimensions pixelViewport pixelMidpoint)
  /\ calculateViewport pixelViewport pixelMidpoint (Finite 0.5)
     = zoomed (Finite 1) pixelViewport pixelMidpoint
  /\ allCorners sameSide pixelMidpoint pixelViewport
       (calculateViewport pixelViewport pixelMidpoint (Finite 0.5)) = true
  /\ strictlyInside pixelMidpoint
       (calculateViewport pixelViewport pixelMidpoint (Finite 0.5)) = true
  /\ domainOriented (calculateViewport pixelViewport pixelMidpoint (Finite 0.5))
     = domainOriented pixelViewport
  /\ rangeOriented (calculateViewport pixelViewport pixelMidpoint (Finite 0.5))
     = rangeOriented pixelViewport.
Proof.
  assert (Hv : numberViewport pixelViewport = true) by (vm_compute; reflexivity).
  assert (Hm : numberPoint pixelMidpoint = true) by (vm_compute; reflexivity).
  assert (Hin : strictlyInside pixelMidpoint pixelViewport = true)
    by (vm_compute; reflexivity).
  assert (Hf : finiteDimensions (setDimensions pixelViewport pixelMidpoint))
    by (vm_compute; tauto).
  destruct (zoom_keeps_corners_on_their_side (nearest := binary64_rounds_to_nearest)
              pixelViewport pixelMidpoint (Finite 0.5) Hv Hm Hin Hf)
    as (_ & Z & S & I & D & R & _).
  split; [exact Hv|]. split; [exact Hm|]. split; [exact Hin|]. split; [exact Hf|].
  split; [exact Z|]. split; [exact S|]. split; [exact I|]. split; [exact D|exact R].
Defined.

(** C9, as the specification has it, fails in the arithmetic of the
    doubles.  In the viewport from (137, 1690) to (721, 867) with the
    midpoint (202, 1129) and the ratio 0.5 the new [topLeft.domain] is the
    double next above 138.3: its offset from the midpoint is neither 0.98
    nor 1.02 times the offset before, and the edge distances after the
    step are not the products that the doubles give for 0.98 or 1.02 times
    the edge distances before.  In the viewport whose domain axis runs from
    [- 2 ^ 1023] to [2 ^ 1023 + 2 ^ 1022], with the midpoint at [2 ^ 1023],
    the edge distance of [topLeft.domain] overflows to infinity, and so
    does the new [topLeft.domain]: it is no longer on the side of the
    midpoint on which it was. *)
Lemma zoom_keeps_corners_on_their_side_counterexample :
  (numberViewport pixelViewport = true
   /\ numberPoint pixelMidpoint = true
   /\ strictlyInside pixelMidpoint pixelViewport = true
   /\ (forall c' : Q,
       domain (topLeft (calculateViewport pixelViewport pixelMidpoint (Finite 0.5)))
       = Finite c' ->
       ~ offset_kept 137 202 c')
   /\ allEdges scaledByZoomStep
        (setDimensions (calculateViewport pixelViewport pixelMidpoint (Finite 0.5))
           pixelMidpoint)
        (setDimensions pixelViewport pixelMidpoint) = false)
  /\ (numberViewport wideViewport = true
      /\ numberPoint wideMidpoint = true
      /\ strictlyInside wideMidpoint wideViewport = true
      /\ domain (tl (setDimensions wideViewport wideMidpoint)) = PInf
      /\ domain (topLeft (calculateViewport wideViewport wideMidpoint (Finite 0.5)))
         = PInf
      /\ allCorners sameSide wideMidpoint wideViewport
           (calculateViewport wideViewport wideMidpoint (Finite 0.5)) = false
      /\ strictlyInside wideMidpoint
           (calculateViewport wideViewport wideMidpoint (Finite 0.5)) = false).
Proof.
  split.
  - split; [vm_compute; reflexivity|].
    split; [vm_compute; reflexivity|].
    split; [vm_compute; reflexivity|].
    split; [|vm_compute; reflexivity].
    intros c' E (f & [F | F] & O);
      vm_compute in E; injection E as <-; rewrite F in O;
      unfold Qeq in O; vm_compute in O; discriminate O.
  - vm_compute. auto 10.
Qed.

Lemma zoom_ratio_direction_witness :
  numberViewport plotViewport = true
  /\ numberPoint (pt 5 5) = true
  /\ strictlyInside (pt 5 5) plotViewport = true
  /\ (1 < 2
      /\ eqb (type (Finite 2)) (Finite (-1)) = true
      /\ allCorners awayFrom (pt 5 5) plotViewport
           (calculateViewport plotViewport (pt 5 5) (Finite 2)) = true
      /\ allEdges geb
           (setDimensions (calculateViewport plotViewport (pt 5 5) (Finite 2)) (pt 5 5))
           (setDimensions plotViewport (pt 5 5)) = true)
  /\ (0.5 < 1
      /\ eqb (type (Finite 0.5)) (Finite 1) = true
      /\ allCorners towards (pt 5 5) plotViewport
           (calculateViewport plotViewport (pt 5 5) (Finite 0.5)) = true
      /\ allEdges leb
           (setDimensions (calculateViewport plotViewport (pt 5 5) (Finite 0.5))
              (pt 5 5))
           (setDimensions plotViewport (pt 5 5)) = true).
Proof.
  assert (Hv : numberViewport plotViewport = true) by (vm_compute; reflexivity).
  assert (Hm : numberPoint (pt 5 5) = true) by (vm_compute; reflexivity).
  assert (Hin : strictlyInside (pt 5 5) plotViewport = true)
    by (vm_compute; reflexivity).
  assert (Hf : finiteDimensions (setDimensions plotViewport (pt 5 5)))
    by (vm_compute; tauto).
  assert (Od : domainOriented plotViewport = true) by (vm_compute; reflexivity).
  assert (Or : rangeOriented plotViewport = true) by (vm_compute; reflexivity).
  assert (A : 1 < 2) by reflexivity.
  assert (B : 0.5 < 1) by reflexivity.
  split; [exact Hv|]. split; [exact Hm|]. split; [exact Hin|].
  split.
  - destruct (zoom_ratio_direction (nearest := binary64_rounds_to_nearest)
                plotViewport (pt 5 5) 2 Hv Hm ltac:(vm_compute; reflexivity) Hin Hf)
      as (_ & G & _).
    destruct (G A) as (T & D & R & _).
    destruct (D Od) as [D1 D2]. destruct (R Or) as [R1 R2].
    split; [first [exact A | exact B]|]. split; [exact T|].
    unfold allCorners, allEdges, domainEdges, rangeEdges in *.
    rewrite D1, R1.
    apply andb_prop in D2 as [-> ->]. apply andb_prop in R2 as [-> ->].
    split; reflexivity.
  - destruct (zoom_ratio_direction (nearest := binary64_rounds_to_nearest)
                plotViewport (pt 5 5) 0.5 Hv Hm ltac:(vm_compute; reflexivity) Hin Hf)
      as (_ & _ & L).
    destruct (L B) as (T & D & R & _).
    destruct (D Od) as [D1 D2]. destruct (R Or) as [R1 R2].
    split; [first [exact A | exact B]|]. split; [exact T|].
    unfold allCorners, allEdges, domainEdges, rangeEdges in *.
    rewrite D1, R1.
    apply andb_prop in D2 as [-> ->]. apply andb_prop in R2 as [-> ->].
    split; reflexivity.
Defined.

(** C1, as the specification has it, fails, in the arithmetic of the
    doubles as without rounding.  In the viewport from (0, 10) to (10, 0)
    with the midpoint (5, 5), the ratio 2 does not decrease the edge
    distances, it increases all four, and the ratio 0.5 does not increase
    them, it decreases all four; the same in the viewport from (10, 9) to
    (2, 5), the corner order of the marquee example of the specification,
    with the midpoint (6, 7), where neither ratio changes the four
    distances in the direction of the specification.  Between doubles two
    apart neither ratio changes the viewport at all. *)
Lemma zoom_in_when_ratio_above_one_counterexample :
  (numberViewport plotViewport = true
   /\ strictlyInside (pt 5 5) plotViewport = true
   /\ gtb (Finite 2) (Finite 1) = true
   /\ allEdges ltb
        (setDimensions (calculateViewport plotViewport (pt 5 5) (Finite 2)) (pt 5 5))
        (setDimensions plotViewport (pt 5 5)) = false
   /\ allEdges gtb
        (setDimensions (calculateViewport plotViewport (pt 5 5) (Finite 2)) (pt 5 5))
        (setDimensions plotViewport (pt 5 5)) = true
   /\ gtb (Finite 0.5) (Finite 0) = true /\ ltb (Finite 0.5) (Finite 1) = true
   /\ allEdges gtb
        (setDimensions (calculateViewport plotViewport (pt 5 5) (Finite 0.5)) (pt 5 5))
        (setDimensions plotViewport (pt 5 5)) = false
   /\ allEdges ltb
        (setDimensions (calculateViewport plotViewport (pt 5 5) (Finite 0.5)) (pt 5 5))
        (setDimensions plotViewport (pt 5 5)) = true)
  /\ (strictlyInside (pt 6 7) (vp 10 9 2 5) = true
      /\ allEdges ltb
           (setDimensions (calculateViewport (vp 10 9 2 5) (pt 6 7) (Finite 2)) (pt 6 7))
           (setDimensions (vp 10 9 2 5) (pt 6 7)) = false
      /\ allEdges gtb
           (setDimensions (calculateViewport (vp 10 9 2 5) (pt 6 7) (Finite 0.5))
              (pt 6 7))
           (setDimensions (vp 10 9 2 5) (pt 6 7)) = false)
  /\ (numberViewport farViewport = true
      /\ strictlyInside farMidpoint farViewport = true
      /\ calculateViewport farViewport farMidpoint (Finite 2) = farViewport
      /\ calculateViewport farViewport farMidpoint (Finite 0.5) = farViewport)
  /\ (allEdges ltb
        (setDimensions (arithmetic := exact)
           (calculateViewport (arithmetic := exact) plotViewport (pt 5 5) (Finite 2))
           (pt 5 5))
        (setDimensions (arithmetic := exact) plotViewport (pt 5 5)) = false
      /\ allEdges gtb
           (setDimensions (arithmetic := exact)
              (calculateViewport (arithmetic := exact) plotViewport (pt 5 5)
                 (Finite 0.5))
              (pt 5 5))
           (setDimensions (arithmetic := exact) plotViewport (pt 5 5)) = false).
Proof. vm_compute. auto 20. Qed.

Lemma zoom_at_ratio_one_witness :
  numberViewport plotViewport = true
  /\ numberPoint (pt 5 5) = true
  /\ strictlyInside (pt 5 5) plotViewport = true
  /\ type (Finite 1) = Finite 1
  /\ calculateViewport plotViewport (pt 5 5) (Finite 1)
     = zoomed (Finite 1) plotViewport (pt 5 5)
  /\ allCorners towards (pt 5 5) plotViewport
       (calculateViewport plotViewport (pt 5 5) (Finite 1)) = true
  /\ allEdges leb
       (setDimensions (calculateViewport plotViewport (pt 5 5) (Finite 1)) (pt 5 5))
       (setDimensions plotViewport (pt 5 5)) = true.
Proof.
  assert (Hv : numberViewport plotViewport = true) by (vm_compute; reflexivity).
  assert (Hm : numberPoint (pt 5 5) = true) by (vm_compute; reflexivity).
  assert (Hin : strictlyInside (pt 5 5) plotViewport = true)
    by (vm_compute; reflexivity).
  assert (Hf : finiteDimensions (setDimensions plotViewport (pt 5 5)))
    by (vm_compute; tauto).
  assert (Od : domainOriented plotViewport = true) by (vm_compute; reflexivity).
  assert (Or : rangeOriented plotViewport = true) by (vm_compute; reflexivity).
  destruct (zoom_at_ratio_one (nearest := binary64_rounds_to_nearest)
              plotViewport (pt 5 5)) as (T & Z & G).
  destruct (G Hv Hm Hin Hf) as (D & R & _).
  destruct (D Od) as [D1 D2]. destruct (R Or) as [R1 R2].
  split; [exact Hv|]. split; [exact Hm|]. split; [exact Hin|].
  split; [exact T|]. split; [exact Z|].
  unfold allCorners, allEdges, domainEdges, rangeEdges in *.
  rewrite D1, R1.
  apply andb_prop in D2 as [-> ->]. apply andb_prop in R2 as [-> ->].
  split; reflexivity.
Defined.

(** C7, as the specification has it, fails in the arithmetic of the
    doubles: the result can be the unchanged viewport.  In the viewport
    from [(10 ^ 16, 10 ^ 16 + 4)] to [(10 ^ 16 + 4, 10 ^ 16)], whose
    corners are doubles, with its centre as the midpoint and the ratio
    one, every edge distance is 2 and every step is the double of 0.04,
    which the addition to a corner coordinate rounds away. *)
Lemma zoom_at_ratio_one_counterexample :
  numberViewport farViewport = true
  /\ numberPoint farMidpoint = true
  /\ strictlyInside farMidpoint farViewport = true
  /\ allEdges eqb (setDimensions farViewport farMidpoint)
       {| tl := pt 2 2; br := pt 2 2 |} = true
  /\ eqb (zoomStep (Finite 1) (Finite 2)) (Finite 0) = false
  /\ calculateViewport farViewport farMidpoint (Finite 1) = farViewport.
Proof. vm_compute. auto 10. Qed.

Lemma pinch_without_distance_zooms_in_witness :
  (exists s',
     onPinchChange (utils := SpecUtils.spec_utils) (pinch (Finite 0))
       (pinching (Finite 35) (Some (Finite 20))) = Returned (tt, s')
     /\ viewport s' = zoomed (Finite 1) plotViewport (pt 5 5))
  /\ (exists s',
        onPinchChange (utils := SpecUtils.spec_utils) (pinch NaN)
          (pinching (Finite 1) None) = Returned (tt, s')
        /\ viewport s' = zoomed (Finite 1) plotViewport (pt 5 5))
  /\ onPinchChange (utils := SpecUtils.spec_utils) (pinch (Finite 0))
       (pinching (Finite 1) None)
     = (updatePan (utils := SpecUtils.spec_utils) centre canvas ;;;
        modify (set_lastTouchDistance (Some (Finite 0)))) (pinching (Finite 1) None).
Proof.
  split; [|split].
  - destruct (pinch_without_distance_zooms_in (utils := SpecUtils.spec_utils)
                (pinching (Finite 35) (Some (Finite 20))) (pinch (Finite 0)))
      as (_ & Z & _); [left; reflexivity|].
    destruct (Z ltac:(vm_compute; reflexivity)) as (s' & E & V & _).
    exists s'. split; [exact E|]. rewrite V. vm_compute. reflexivity.
  - destruct (pinch_without_distance_zooms_in (utils := SpecUtils.spec_utils)
                (pinching (Finite 1) None) (pinch NaN))
      as (_ & Z & N & _); [right; reflexivity|].
    destruct (Z (N eq_refl)) as (s' & E & V & _).
    exists s'. split; [exact E|]. rewrite V. vm_compute. reflexivity.
  - vm_compute. reflexivity.
Defined.

(** Between two neighbouring doubles the ticks are not in strict order:
    of the five ticks from 1 to the double next above 1, the first three
    are 1 and the last two are the other end. *)
Lemma ticks_of_doubles_repeat :
  number (Finite (1 + 2 ^ (-52))) = true
  /\ option_map PlotAxes.ticks
       (PlotAxes.updateAxis 10 (Finite 1) (Finite (1 + 2 ^ (-52)))
          (GestureSamples.axisWith (Finite 5)))
     = Some [Finite 1; Finite 1; Finite 1; Finite (Qred (1 + 2 ^ (-52)));
             Finite (Qred (1 + 2 ^ (-52)))].
Proof. vm_compute. auto. Qed.

End ZoomDirectionFacts.

(** ** The plot directive: the extent under a pan *)

Module PanFacts.

Import JSNum Binary64 Eff Plot Geometry Samples NumFacts RoundingFacts ArithmeticFacts
  PlotFacts.
Local Open Scope Q_scope.

Section Nearest.

Context {arithmetic : Arithmetic} {nearest : RoundsToNearest arithmetic}.

Lemma translate_unrounded (v : Viewport) (dDomain dRange : num) :
  unrounded ->
  translate v dDomain dRange = translate (arithmetic := exact) v dDomain dRange.
Proof.
  intros U. unfold translate.
  rewrite !(fun a b => unrounded_add a b U). reflexivity.
Qed.

Lemma axisSize_unrounded (a b : num) :
  unrounded -> axisSize a b = axisSize (arithmetic := exact) a b.
Proof. intros U. unfold axisSize. apply unrounded_sub. exact U. Qed.

(** Two corner coordinates moved by the same delta, the two additions
    exact: their difference rounds as it did before. *)
Lemma shifted_extent (a c delta : num) :
  exactSum a delta -> exactSum c delta ->
  eqb (axisSize (a + delta)%js (c + delta)%js) (axisSize a c) = true.
Proof.
  destruct a as [a| | |], c as [c| | |], delta as [d| | |]; cbn [exactSum];
    try contradiction.
  intros Ha Hc.
  destruct (representable_value _ Ha) as (a' & Ra & Ea).
  destruct (representable_value _ Hc) as (c' & Rc & Ec).
  unfold axisSize, sub. cbn [add neg]. rewrite Ra, Rc. cbn [add neg].
  apply rounded_comp. rewrite Ea, Ec. ring.
Qed.

(** Two finite corner coordinates moved by the same finite delta keep
    their order, or meet. *)
Lemma shifted_order (a c d : Q) :
  leb (Finite a) (Finite c) = true ->
  leb (Finite a + Finite d)%js (Finite c + Finite d)%js = true.
Proof.
  intros H. cbn [add]. apply rounded_monotone.
  cbn in H. apply Qle_bool_iff in H. lra.
Qed.

(** The extent after a delta that is not finite is [NaN]. *)
Lemma shifted_by_infinity (a c delta : num) :
  ~ is_finite delta -> axisSize (a + delta)%js (c + delta)%js = NaN.
Proof.
  intros H. destruct delta as [d| | |]; [cbn in H; tauto| | |];
    destruct a as [a| | |], c as [c| | |]; reflexivity.
Qed.

Section Handlers.

Context {utils : Utils}.

Lemma updateDrag_translates (s : State) (coordinates : Position) (origin : Point) :
  mouseCoordinates s = Some coordinates -> dragStart s = Some origin ->
  updateDrag s
  = Returned (tt, set_viewport
                    (translate (viewport s)
                       (domain origin - domain (positionAsPlotPoint coordinates))%js
                       (range origin - range (positionAsPlotPoint coordinates))%js)
                    s).
Proof.
  intros H1 H2. unfold updateDrag. run. rewrite H1. cbn. rewrite H2. reflexivity.
Qed.

Lemma updatePan_translates (s : State) (touch : ClientPoint) (bounds : Bounds)
    (origin : Point) :
  firstTouch s = Some origin ->
  let newPanPosition :=
    elementPositionAsPlotPosition
      {| x := (clientX touch - left bounds)%js; y := (clientY touch - top bounds)%js |}
      bounds (viewport s) in
  updatePan touch bounds s
  = Returned (tt, set_viewport
                    (translate (viewport s)
                       (domain origin - domain newPanPosition)%js
                       (range origin - range newPanPosition)%js)
                    (set_chartElementBounds (Some bounds) s)).
Proof.
  intros H. unfold updatePan, trackTouchPosition. run. rewrite H. reflexivity.
Qed.

(** C2, as the code has it.  The drag of the mouse ([updateDrag]) and the
    pan of a touch ([updatePan]) add the same delta on each axis, the start
    point minus the current point, to both corners of the viewport, each
    addition rounded as the arithmetic rounds.  For every viewport and
    every delta: on an axis on which neither of the two additions rounds,
    the extent of the new viewport equals that of the old one; two finite
    corner coordinates moved by a finite delta keep their order or meet;
    after a delta that is not finite the extent is [NaN].  Without
    rounding, the extents of a finite viewport moved by finite deltas equal
    those of the old one. *)
Theorem pan_preserves_extent (s : State) :
  (forall (coordinates : Position) (origin : Point),
     mouseCoordinates s = Some coordinates -> dragStart s = Some origin ->
     exists s',
       updateDrag s = Returned (tt, s')
       /\ viewport s'
          = translate (viewport s)
              (domain origin - domain (positionAsPlotPoint coordinates))%js
              (range origin - range (positionAsPlotPoint coordinates))%js)
  /\ (forall (touch : ClientPoint) (bounds : Bounds) (origin : Point),
        firstTouch s = Some origin ->
        exists s',
          updatePan touch bounds s = Returned (tt, s')
          /\ viewport s'
             = translate (viewport s)
                 (domain origin
                  - domain (elementPositionAsPlotPosition
                              {| x := (clientX touch - left bounds)%js;
                                 y := (clientY touch - top bounds)%js |}
                              bounds (viewport s)))%js
                 (range origin
                  - range (elementPositionAsPlotPosition
                             {| x := (clientX touch - left bounds)%js;
                                y := (clientY touch - top bounds)%js |}
                             bounds (viewport s)))%js)
  /\ (forall (v : Viewport) (dDomain dRange : num),
        let v' := translate v dDomain dRange in
        (exactSum (domain (topLeft v)) dDomain ->
         exactSum (domain (bottomRight v)) dDomain ->
         eqb (domainExtent v') (domainExtent v) = true)
        /\ (exactSum (range (topLeft v)) dRange ->
            exactSum (range (bottomRight v)) dRange ->
            eqb (rangeExtent v') (rangeExtent v) = true)
        /\ (finiteViewport v -> is_finite dDomain -> is_finite dRange ->
            (leb (domain (topLeft v)) (domain (bottomRight v)) = true ->
             leb (domain (topLeft v')) (domain (bottomRight v')) = true)
            /\ (geb (domain (topLeft v)) (domain (bottomRight v)) = true ->
                geb (domain (topLeft v')) (domain (bottomRight v')) = true)
            /\ (leb (range (topLeft v)) (range (bottomRight v)) = true ->
                leb (range (topLeft v')) (range (bottomRight v')) = true)
            /\ (geb (range (topLeft v)) (range (bottomRight v)) = true ->
                geb (range (topLeft v')) (range (bottomRight v')) = true))
        /\ (~ is_finite dDomain -> domainExtent v' = NaN)
        /\ (~ is_finite dRange -> rangeExtent v' = NaN)
        /\ (unrounded -> finiteViewport v -> is_finite dDomain -> is_finite dRange ->
            eqb (domainExtent v') (domainExtent v) = true
            /\ eqb (rangeExtent v') (rangeExtent v) = true)).
Proof.
  split; [|split].
  - intros coordinates origin H1 H2.
    eexists. split; [apply updateDrag_translates; eassumption|]. reflexivity.
  - intros touch bounds origin H.
    eexists. split; [apply updatePan_translates; eassumption|]. reflexivity.
  - intros v dDomain dRange. cbv zeta.
    split; [apply shifted_extent|].
    split; [apply shifted_extent|].
    split.
    { intros Hv Hd Hr.
      destruct (finiteViewport_inv v Hv) as (a & b & c & d & ->).
      destruct dDomain as [x| | |]; try contradiction.
      destruct dRange as [y| | |]; try contradiction.
      unfold geb. cbn [translate topLeft bottomRight domain range vp pt].
      repeat split; apply shifted_order. }
    split; [apply shifted_by_infinity|].
    split; [apply shifted_by_infinity|].
    intros U Hv Hd Hr.
    rewrite (translate_unrounded v _ _ U).
    unfold domainExtent, rangeExtent. rewrite !(fun a b => axisSize_unrounded a b U).
    exact (translate_extent v dDomain dRange Hv Hd Hr).
Qed.

End Handlers.

End Nearest.

#[local] Existing Instance binary64.

Lemma pan_preserves_extent_witness :
  (exists s',
     updateDrag (dragging (pt 3 3) (pt 4 6)) = Returned (tt, s')
     /\ viewport s'
        = translate plotViewport (Finite 3 - Finite 4)%js (Finite 3 - Finite 6)%js
     /\ eqb (domainExtent (viewport s')) (domainExtent plotViewport) = true
     /\ eqb (rangeExtent (viewport s')) (rangeExtent plotViewport) = true)
  /\ (exists s',
        updatePan (utils := SpecUtils.spec_utils) centre canvas
          (pinching (Finite 100) None) = Returned (tt, s')
        /\ eqb (domainExtent (viewport s')) (domainExtent plotViewport) = true
        /\ eqb (rangeExtent (viewport s')) (rangeExtent plotViewport) = true).
Proof.
  split.
  - destruct (pan_preserves_extent (nearest := binary64_rounds_to_nearest)
                (utils := SpecUtils.spec_utils) (dragging (pt 3 3) (pt 4 6)))
      as (D & _ & T).
    destruct (D {| positionOverElement := {| x := Finite 50; y := Finite 50 |};
                   positionAsPlotPoint := pt 4 6 |} (pt 3 3) eq_refl eq_refl)
      as (s' & E & V).
    exists s'. split; [exact E|]. split; [exact V|].
    rewrite V.
    destruct (T plotViewport (Finite 3 - Finite 4)%js (Finite 3 - Finite 6)%js)
      as (Xd & Xr & _).
    split; [apply Xd|apply Xr]; vm_compute; reflexivity.
  - destruct (pan_preserves_extent (nearest := binary64_rounds_to_nearest)
                (utils := SpecUtils.spec_utils) (pinching (Finite 100) None))
      as (_ & P & T).
    destruct (P centre canvas (pt 5 5) eq_refl) as (s' & E & V).
    exists s'. split; [exact E|].
    rewrite V.
    match goal with
    | |- eqb (domainExtent (translate ?v ?d ?r)) _ = true /\ _ =>
        destruct (T v d r) as (Xd & Xr & _)
    end.
    split; [apply Xd|apply Xr]; vm_compute; reflexivity.
Defined.

(** C2, as the specification has it, fails in the arithmetic of the
    doubles.  In the viewport whose domain axis runs from 0.1 to 0.2, a
    drag of the mouse from 0.1 to 0.7 moves the corners to [- 0.5] and to
    the double next above [- 0.4]: the domain extent, the double of
    [- 0.1] before, is the double next below it after. *)
Lemma pan_preserves_extent_counterexample :
  numberViewport tenthsViewport = true
  /\ exists s',
       updateDrag draggingTenths = Returned (tt, s')
       /\ eqb (domainExtent (viewport s')) (domainExtent (viewport draggingTenths))
          = false
       /\ ltb (domainExtent (viewport s')) (domainExtent (viewport draggingTenths))
          = true
       /\ eqb (domainExtent (viewport draggingTenths)) (rounded (- 0.1)) = true.
Proof.
  split; [vm_compute; reflexivity|].
  eexists. split; [vm_compute; reflexivity|].
  vm_compute. auto.
Qed.

End PanFacts.

(** ** The plot directive: the corners of a marquee *)

Module MarqueeFacts.

Import JSNum Eff Plot Geometry Samples NumFacts PlotFacts.
Local Open Scope Q_scope.

Lemma Qle_bool_total (a b : Q) : Qle_bool a b = false -> Qle_bool b a = true.
Proof.
  intros H. apply Qle_bool_iff. destruct (Qlt_le_dec b a) as [L|L]; [lra|].
  apply Qle_bool_iff in L. congruence.
Qed.

Ltac order_cases :=
  unfold SpecUtils.larger, SpecUtils.smaller, geb; cbn [leb];
  repeat match goal with
         | |- context [Qle_bool ?x ?y] =>
             let E := fresh "E" in destruct (Qle_bool x y) eqn:E; cbn [leb]
         end;
  try reflexivity;
  match goal with
  | E : Qle_bool _ _ = false |- _ =>
      let T := fresh "T" in pose proof (Qle_bool_total _ _ E) as T; congruence
  end.

(** The largest and the smallest coordinate among those of the four
    corners of the rectangle, in the two orders in which the corners
    come. *)
Lemma larger_of_corners (a b : Q) :
  SpecUtils.larger
    (SpecUtils.larger (SpecUtils.larger (Finite a) (Finite a)) (Finite b)) (Finite b)
  = (if (Finite a >= Finite b)%js then Finite a else Finite b)
  /\ SpecUtils.larger
       (SpecUtils.larger (SpecUtils.larger (Finite a) (Finite b)) (Finite b))
       (Finite a)
     = (if (Finite a >= Finite b)%js then Finite a else Finite b).
Proof. split; order_cases. Qed.

Lemma smaller_of_corners (a b : Q) :
  SpecUtils.smaller
    (SpecUtils.smaller (SpecUtils.smaller (Finite a) (Finite a)) (Finite b))
    (Finite b)
  = (if (Finite a <= Finite b)%js then Finite a else Finite b)
  /\ SpecUtils.smaller
       (SpecUtils.smaller (SpecUtils.smaller (Finite a) (Finite b)) (Finite b))
       (Finite a)
     = (if (Finite a <= Finite b)%js then Finite a else Finite b).
Proof. split; order_cases. Qed.

Lemma Qle_bool_false (a b : Q) : Qle_bool a b = false -> b < a.
Proof.
  intros H. destruct (Qlt_le_dec b a) as [L|L]; [exact L|].
  apply Qle_bool_iff in L. congruence.
Qed.

(** [topLeft] of the viewport is not below [bottomRight] on either axis. *)
Lemma normalized_order (pd pr qd qr : Q) :
  geb (domain (topLeft (normalized (pt pd pr) (pt qd qr))))
    (domain (bottomRight (normalized (pt pd pr) (pt qd qr)))) = true
  /\ geb (range (topLeft (normalized (pt pd pr) (pt qd qr))))
       (range (bottomRight (normalized (pt pd pr) (pt qd qr)))) = true.
Proof.
  unfold normalized, geb. cbn [pt domain range topLeft bottomRight leb].
  split.
  - destruct (Qle_bool qd pd) eqn:E1, (Qle_bool pd qd) eqn:E2; cbn [leb];
      apply Qle_bool_iff;
      try apply Qle_bool_iff in E1; try apply Qle_bool_iff in E2;
      try apply Qle_bool_false in E1; try apply Qle_bool_false in E2; lra.
  - destruct (Qle_bool qr pr) eqn:E1, (Qle_bool pr qr) eqn:E2; cbn [leb];
      apply Qle_bool_iff;
      try apply Qle_bool_iff in E1; try apply Qle_bool_iff in E2;
      try apply Qle_bool_false in E1; try apply Qle_bool_false in E2; lra.
Qed.

Section Corners.

Context {arithmetic : Arithmetic}.

(** The viewport that the helpers of the specification make of two
    corners with finite coordinates. *)
Lemma cornersViewport_finite (pd pr qd qr : Q) :
  cornersViewport (utils := SpecUtils.spec_utils)
    {| start := Some (pt pd pr); end_ := Some (pt qd qr) |}
  = Returned (normalized (pt pd pr) (pt qd qr)).
Proof.
  unfold cornersViewport, normalized.
  cbn -[SpecUtils.larger SpecUtils.smaller geb leb].
  destruct (larger_of_corners pd qd) as [-> _].
  destruct (larger_of_corners pr qr) as [_ ->].
  destruct (smaller_of_corners pd qd) as [-> _].
  destruct (smaller_of_corners pr qr) as [_ ->].
  reflexivity.
Qed.

(** The same viewport, numerically, for the corners in the other order and
    for the other two corners of the rectangle. *)
Lemma normalized_corners (pd pr qd qr : Q) :
  sameViewport (normalized (pt qd qr) (pt pd pr)) (normalized (pt pd pr) (pt qd qr))
  = true
  /\ sameViewport (normalized (pt pd qr) (pt qd pr))
       (normalized (pt pd pr) (pt qd qr)) = true
  /\ sameViewport (normalized (pt qd pr) (pt pd qr))
       (normalized (pt pd pr) (pt qd qr)) = true.
Proof.
  unfold sameViewport, normalized, geb. cbn [pt domain range topLeft bottomRight leb].
  pose proof (Qle_bool_total pd qd). pose proof (Qle_bool_total qd pd).
  pose proof (Qle_bool_total pr qr). pose proof (Qle_bool_total qr pr).
  assert (forall a b, Qle_bool a b = true -> Qle_bool b a = true ->
                      Qeq_bool a b = true) as Anti.
  { intros a b L1 L2. apply Qeq_bool_iff. apply Qle_bool_iff in L1, L2. lra. }
  assert (forall a, Qeq_bool a a = true) as Refl
    by (intros a; apply Qeq_bool_iff; reflexivity).
  destruct (Qle_bool pd qd) eqn:E1, (Qle_bool qd pd) eqn:E2,
    (Qle_bool pr qr) eqn:E3, (Qle_bool qr pr) eqn:E4;
    cbn [eqb]; rewrite ?Refl, ?(Anti pd qd), ?(Anti qd pd), ?(Anti pr qr),
      ?(Anti qr pr) by assumption; cbn; try tauto; intuition congruence.
Qed.

(** C8.  With the helpers as the specification describes them, a marquee
    between any two corners with finite coordinates makes [endMarquee]
    install the viewport whose [topLeft] has the larger and whose
    [bottomRight] has the smaller coordinate of the two corners on each
    axis, empty the box and send [user:viewport:change:end] with that
    viewport; the helpers give numerically the same viewport for the
    corners in the other order and for the other two corners of the
    rectangle.  From (10, 5) to (2, 9) the viewport installed has [topLeft]
    (10, 9) and [bottomRight] (2, 5). *)
Theorem marquee_normalization (s : State) (pd pr qd qr : Q) :
  marqueeBox s = {| start := Some (pt pd pr); end_ := Some (pt qd qr) |} ->
  exists s' es,
    endMarquee (utils := SpecUtils.spec_utils) s = Returned (tt, s')
    /\ viewport s' = normalized (pt pd pr) (pt qd qr)
    /\ geb (domain (topLeft (viewport s'))) (domain (bottomRight (viewport s')))
       = true
    /\ geb (range (topLeft (viewport s'))) (range (bottomRight (viewport s')))
       = true
    /\ marqueeBox s' = emptyBox
    /\ emitted s' = emitted s ++ es ++ [user_viewport_change_end (viewport s')]
    /\ (es = [] \/ es = [rectangle_change])
    /\ (forall box,
          box = {| start := Some (pt qd qr); end_ := Some (pt pd pr) |}
          \/ box = {| start := Some (pt pd qr); end_ := Some (pt qd pr) |}
          \/ box = {| start := Some (pt qd pr); end_ := Some (pt pd qr) |} ->
          exists v,
            cornersViewport (utils := SpecUtils.spec_utils) box = Returned v
            /\ sameViewport v (viewport s') = true)
    /\ (pt pd pr = pt 10 5 -> pt qd qr = pt 2 9 -> viewport s' = vp 10 9 2 5).
Proof.
  intros H.
  assert (cornersViewport (utils := SpecUtils.spec_utils) (marqueeBox s)
          = Returned (normalized (pt pd pr) (pt qd qr))) as C
    by (rewrite H; apply cornersViewport_finite).
  destruct (endMarquee_returns s _ C) as (s' & es & E & V & B & _ & _ & Em & Hes).
  exists s', es. rewrite V.
  split; [exact E|]. split; [reflexivity|].
  split.
  { apply normalized_order. }
  split.
  { apply normalized_order. }
  split; [exact B|]. split; [exact Em|]. split; [exact Hes|].
  destruct (normalized_corners pd pr qd qr) as (N1 & N2 & N3).
  split.
  - intros box [-> | [-> | ->]]; eexists;
      (split; [apply cornersViewport_finite|assumption]).
  - intros P Q. injection P as -> ->. injection Q as -> ->. reflexivity.
Qed.

End Corners.

Lemma marquee_normalization_witness :
  exists s' es,
    endMarquee (utils := SpecUtils.spec_utils (arithmetic := Binary64.binary64))
      (marquee (Some (pt 10 5)) (Some (pt 2 9))) = Returned (tt, s')
    /\ viewport s' = vp 10 9 2 5
    /\ marqueeBox s' = emptyBox
    /\ emitted s' = [] ++ es ++ [user_viewport_change_end (vp 10 9 2 5)]
    /\ (es = [] \/ es = [rectangle_change]).
Proof.
  destruct (marquee_normalization (arithmetic := Binary64.binary64)
              (marquee (Some (pt 10 5)) (Some (pt 2 9))) 10 5 2 9 eq_refl)
    as (s' & es & E & _ & _ & _ & B & Em & Hes & _ & V).
  exists s', es. rewrite (V eq_refl eq_refl) in Em.
  split; [exact E|]. split; [exact (V eq_refl eq_refl)|].
  split; [exact B|]. split; [exact Em|exact Hes].
Defined.

End MarqueeFacts.
